(** * indexed_set: a single-arena AVL tree with slot recycling

  Shallow embedding of [core/inode.h] and [core/iavl.h] (the latter is the
  second half of [indexed_set.cpp]) and the proofs of the properties that
  the specification states about them. *)

From Stdlib Require Import ZArith List Bool Lia Permutation Sorted.
Import ListNotations.
Open Scope Z_scope.

(** ** Machine integers

  [uint32_t], [uint64_t] and [off = int32_t] values are integers of [Z];
  every operation of the source that can wrap is written with the wrap. *)

Definition u32 (x : Z) : Z := x mod 2 ^ 32.
Definition u64 (x : Z) : Z := x mod 2 ^ 64.
Definition i32 (x : Z) : Z := (x + 2 ^ 31) mod 2 ^ 32 - 2 ^ 31.

(** ** [enum struct Dir : uint8_t] and [Dir2] *)

Module Dir.

(** [Zero] is the byte [0] that [memset] leaves in a wiped node; it is not
    an enumerator of the source but it is what [IsEmpty] tests for. *)
Inductive t : Set := Zero | Left | None | Right.

Definition code (d : t) : Z :=
  match d with Zero => 0 | Left => 1 | None => 2 | Right => 3 end.

Definition eqb (a b : t) : bool := code a =? code b.

(** [operator~] *)
Definition inv (d : t) : t := if eqb d Left then Right else Left.

(** [operator!] *)
Definition balanced (d : t) : bool := eqb d None.

(** [operator|], a [Dir2] as its [uint8_t] value *)
Definition pair (a b : t) : Z := (Z.shiftl (code a) 2 + code b) mod 2 ^ 8.

Definition LeftLeft : Z := 5.     (* 0b0101 *)
Definition LeftRight : Z := 7.    (* 0b0111 *)
Definition RightLeft : Z := 13.   (* 0b1101 *)
Definition RightRight : Z := 15.  (* 0b1111 *)

End Dir.

(** The template defaults of [_Growable<>]. *)
Definition MIN_GROW_BY : Z := 1024.
Definition Ta : Z := 16.

(** [_Growable::Aligned]: the sum is a [uint64_t], the mask [~(Ta - 1)] is a
  [uint32_t] and so clears the upper half as well. *)
Definition Aligned (n : Z) : Z :=
Z.land (u64 (n + (Ta - 1))) (u32 (Z.lnot (Ta - 1))).

Section Model.

(** The element type, the value that all-zero bytes stand for, the
    comparator [Tc()(a, b)] and [sizeof(_Node)]. *)
Variable T : Type.
Variable T0 : T.
Variable less : T -> T -> bool.
Variable Nsize : Z.

(** ** [struct inode] *)

Record inode : Type := mkNode {
  payload : T;
  parent : Z;
  left : Z;
  right : Z;
  tilt : Dir.t
}.

(** What [memset(n, 0, sizeof( *n))] and the zero fill of the arena leave. *)
Definition zero_node : inode := mkNode T0 0 0 0 Dir.Zero.

(** The arena as an array of node cells addressed by byte offset from
    [ptr_]; a node pointer is such an offset, a nullable one an option. *)
Definition mem : Type := Z -> inode.
Definition nptr : Type := option Z.

Definition wr (m : mem) (a : Z) (c : inode) : mem :=
  fun b => if b =? a then c else m b.

Definition set_payload (m : mem) (a : Z) (v : T) : mem :=
  wr m a (mkNode v (parent (m a)) (left (m a)) (right (m a)) (tilt (m a))).
Definition set_parent (m : mem) (a : Z) (o : Z) : mem :=
  wr m a (mkNode (payload (m a)) o (left (m a)) (right (m a)) (tilt (m a))).
Definition set_left (m : mem) (a : Z) (o : Z) : mem :=
  wr m a (mkNode (payload (m a)) (parent (m a)) o (right (m a)) (tilt (m a))).
Definition set_right (m : mem) (a : Z) (o : Z) : mem :=
  wr m a (mkNode (payload (m a)) (parent (m a)) (left (m a)) o (tilt (m a))).
Definition set_tilt (m : mem) (a : Z) (d : Dir.t) : mem :=
  wr m a (mkNode (payload (m a)) (parent (m a)) (left (m a)) (right (m a)) d).

(** *** Pointer helpers *)

Definition IsEmpty (m : mem) (n : Z) : bool := 0 =? Dir.code (tilt (m n)).

Definition _Ptr (n o : Z) : Z := n + o.
Definition Nleft (m : mem) (n : Z) : Z := _Ptr n (left (m n)).
Definition Nright (m : mem) (n : Z) : Z := _Ptr n (right (m n)).
Definition Nparent (m : mem) (n : Z) : Z := _Ptr n (parent (m n)).

Definition _Off (a b : Z) : Z := i32 (b - a).

Definition NSafeParent (m : mem) (n : Z) : nptr :=
  if parent (m n) =? 0 then None else Some (_Ptr n (parent (m n))).
Definition NSafeLeft (m : mem) (n : Z) : nptr :=
  if left (m n) =? 0 then None else Some (_Ptr n (left (m n))).
Definition NSafeRight (m : mem) (n : Z) : nptr :=
  if right (m n) =? 0 then None else Some (_Ptr n (right (m n))).

Definition Branch (m : mem) (n : Z) : Dir.t :=
  if parent (m n) =? 0 then Dir.None
  else if left (m (Nparent m n)) =? i32 (- parent (m n)) then Dir.Left
       else Dir.Right.

Definition Nheavy (m : mem) (n : Z) : Z :=
  if Dir.eqb (tilt (m n)) Dir.Left then _Ptr n (left (m n))
  else _Ptr n (right (m n)).

(** The link of [P] that leads to [Z], as the rotations and the swap pick
    it: [(P->left == -(Z->parent)) ? P->left : P->right]. *)
Definition link_is_left (m : mem) (P z : Z) : bool :=
  left (m P) =? i32 (- parent (m z)).

(** [Root]: climbs while there is a parent. *)
Fixpoint Root (fuel : nat) (m : mem) (n : Z) : option Z :=
  match fuel with
  | O => None
  | S f => if parent (m n) =? 0 then Some n else Root f m (Nparent m n)
  end.

(** ** Rotations *)

(** The assignment through [(P->left == -(c->parent)) ? P->left : P->right]. *)
Definition set_link (m : mem) (P c : Z) (o : Z) : mem :=
  if link_is_left m P c then set_left m P o else set_right m P o.

(** The block [//Parent(Z) is wired with Y] of [_Rotate_LL], [_Rotate_RR]
    and the RR case of [_Rotate_Erase]:
    [if (auto P = Z->NSafeParent()) { Y->parent += Z->parent;
       ((P->left == -(Z->parent)) ? P->left : P->right) += Z->heavy; }
     else Y->parent = 0;]
    where [heavy] is [left] in the first and [right] in the other two. *)
Definition wire_parent (heavy : inode -> Z) (m : mem) (z y : Z) : mem :=
  match NSafeParent m z with
  | Some P =>
      let m := set_parent m y (i32 (parent (m y) + parent (m z))) in
      if link_is_left m P z
      then set_left m P (i32 (left (m P) + heavy (m z)))
      else set_right m P (i32 (right (m P) + heavy (m z)))
  | None => set_parent m y 0
  end.

(** The block [//Parent(Z) becomes parent(X)] of [_Rotate_LR] and
    [_Rotate_RL], which also opens the three cases of [_SwapWith]:
    [if (auto P = Z->NSafeParent()) {
       ((P->left == -(Z->parent)) ? P->left : P->right) = _Off(P, X);
       X->parent = _Off(X, P); }
     else X->parent = 0;] *)
Definition hand_parent (m : mem) (z x : Z) : mem :=
  match NSafeParent m z with
  | Some P =>
      let m := set_link m P z (_Off P x) in
      set_parent m x (_Off x P)
  | None => set_parent m x 0
  end.

Definition _Rotate_LL (m : mem) (z y : Z) : mem :=
  let m := wire_parent left m z y in
  let m := set_parent m z (left (m z)) in
  let m :=
    if right (m y) =? 0 then set_left m z 0
    else
      let m := set_left m z (i32 (left (m z) + right (m y))) in
      set_parent m (Nleft m z) (i32 (- left (m z))) in
  set_right m y (i32 (- parent (m z))).

Definition _Rotate_RR (m : mem) (z y : Z) : mem :=
  let m := wire_parent right m z y in
  let m := set_parent m z (right (m z)) in
  let m :=
    if left (m y) =? 0 then set_right m z 0
    else
      let m := set_right m z (i32 (right (m z) + left (m y))) in
      set_parent m (Nright m z) (i32 (- right (m z))) in
  set_left m y (i32 (- parent (m z))).

Definition _Rotate_LR (m : mem) (z y x : Z) : mem :=
  let m := hand_parent m z x in
  let m := set_parent m z (_Off z x) in
  let m :=
    if right (m x) =? 0 then set_left m z 0
    else
      let m := set_left m z (i32 (parent (m z) + right (m x))) in
      set_parent m (Nleft m z) (i32 (- left (m z))) in
  let m := set_parent m y (right (m y)) in
  let m :=
    if left (m x) =? 0 then set_right m y 0
    else
      let m := set_right m y (i32 (right (m y) + left (m x))) in
      set_parent m (Nright m y) (i32 (- right (m y))) in
  let m := set_right m x (_Off x z) in
  set_left m x (_Off x y).

Definition _Rotate_RL (m : mem) (z y x : Z) : mem :=
  let m := hand_parent m z x in
  let m := set_parent m z (_Off z x) in
  let m :=
    if left (m x) =? 0 then set_right m z 0
    else
      let m := set_right m z (i32 (parent (m z) + left (m x))) in
      set_parent m (Nright m z) (i32 (- right (m z))) in
  let m := set_parent m y (left (m y)) in
  let m :=
    if right (m x) =? 0 then set_left m y 0
    else
      let m := set_left m y (i32 (left (m y) + right (m x))) in
      set_parent m (Nleft m y) (i32 (- left (m y))) in
  let m := set_right m x (_Off x y) in
  set_left m x (_Off x z).

(** ** Retrace after an insertion *)

Definition _Rotate_Insert (m : mem) (z : Z) : mem :=
  let y := Nheavy m z in
  let x := Nheavy m y in
  let k := Dir.pair (tilt (m z)) (tilt (m y)) in
  if k =? Dir.LeftLeft then
    let m := _Rotate_LL m z y in
    let m := set_tilt m y Dir.None in
    set_tilt m z (tilt (m y))
  else if k =? Dir.RightRight then
    let m := _Rotate_RR m z y in
    let m := set_tilt m y Dir.None in
    set_tilt m z (tilt (m y))
  else if k =? Dir.LeftRight then
    let m := _Rotate_LR m z y x in
    let m := set_tilt m y (if Dir.eqb (tilt (m x)) Dir.Right then Dir.Left else Dir.None) in
    let m := set_tilt m z (if Dir.eqb (tilt (m x)) Dir.Left then Dir.Right else Dir.None) in
    set_tilt m x Dir.None
  else if k =? Dir.RightLeft then
    let m := _Rotate_RL m z y x in
    let m := set_tilt m y (if Dir.eqb (tilt (m x)) Dir.Left then Dir.Right else Dir.None) in
    let m := set_tilt m z (if Dir.eqb (tilt (m x)) Dir.Right then Dir.Left else Dir.None) in
    set_tilt m x Dir.None
  else m.

(** The [while (n)] loop; [None] only when the fuel runs out. *)
Fixpoint Retrace_Insert (fuel : nat) (m : mem) (n : nptr) (added : Dir.t)
  : option mem :=
  match n with
  | None => Some m
  | Some n =>
      match fuel with
      | O => None
      | S f =>
          if Dir.eqb Dir.None (tilt (m n)) then
            let m := set_tilt m n added in
            let added := Branch m n in
            Retrace_Insert f m (NSafeParent m n) added
          else if negb (Dir.eqb (tilt (m n)) added) then
            Some (set_tilt m n Dir.None)
          else Some (_Rotate_Insert m n)
      end
  end.

Definition AddChild (fuel : nat) (m : mem) (this child : Z) (where_ : Dir.t)
  : option mem :=
  let m := if Dir.eqb where_ Dir.Left
           then set_left m this (_Off this child)
           else set_right m this (_Off this child) in
  let m := set_parent m child (_Off child this) in
  Retrace_Insert fuel m (Some this) where_.

(** ** Retrace after an erasure *)

(** Returns the node from which the retrace goes on, or null when the
    repair is done.  [x] is null when [y] has no child on the side that
    the source dereferences; the model then leaves the memory as it is. *)
Definition _Rotate_Erase (m : mem) (z : Z) : nptr * mem :=
  let y := Nheavy m z in
  let x : nptr :=
    if Dir.balanced (tilt (m y))
    then (if Dir.eqb (tilt (m z)) Dir.Left then NSafeLeft m y else NSafeRight m y)
    else Some (Nheavy m y) in
  match x with
  | None => (None, m)
  | Some x =>
      let k := Dir.pair (tilt (m z)) (Branch m x) in
      if k =? Dir.LeftLeft then
        let m := _Rotate_LL m z y in
        if Dir.balanced (tilt (m y)) then (None, set_tilt m y Dir.Right)
        else
          let m := set_tilt m z Dir.None in
          (Some y, set_tilt m y (tilt (m z)))
      else if k =? Dir.RightRight then
        let m := wire_parent right m z y in
        let m := set_parent m z (right (m z)) in
        let m :=
          if left (m y) =? 0 then set_right m z 0
          else
            let m := set_right m z (i32 (right (m z) + left (m y))) in
            set_parent m (Nright m z) (i32 (- right (m z))) in
        let m := set_left m y (i32 (- parent (m z))) in
        if Dir.balanced (tilt (m y)) then (None, set_tilt m y Dir.Left)
        else
          let m := set_tilt m z Dir.None in
          (Some y, set_tilt m y (tilt (m z)))
      else if k =? Dir.LeftRight then
        let m := _Rotate_LR m z y x in
        let m := set_tilt m y (if Dir.eqb (tilt (m x)) Dir.Right then Dir.Left else Dir.None) in
        let m := set_tilt m z (if Dir.eqb (tilt (m x)) Dir.Left then Dir.Right else Dir.None) in
        (Some x, set_tilt m x Dir.None)
      else if k =? Dir.RightLeft then
        let m := _Rotate_RL m z y x in
        let m := set_tilt m y (if Dir.eqb (tilt (m x)) Dir.Left then Dir.Right else Dir.None) in
        let m := set_tilt m z (if Dir.eqb (tilt (m x)) Dir.Right then Dir.Left else Dir.None) in
        (Some x, set_tilt m x Dir.None)
      else (None, m)
  end.

Fixpoint Retrace_Erase (fuel : nat) (m : mem) (n : nptr) (del : Dir.t)
  : option mem :=
  match n with
  | None => Some m
  | Some n =>
      match fuel with
      | O => None
      | S f =>
          if Dir.balanced (tilt (m n)) then Some (set_tilt m n (Dir.inv del))
          else if Dir.eqb (tilt (m n)) del then
            let m := set_tilt m n Dir.None in
            Retrace_Erase f m (NSafeParent m n) (Branch m n)
          else
            match _Rotate_Erase m n with
            | (None, m) => Some m
            | (Some n, m) => Retrace_Erase f m (NSafeParent m n) (Branch m n)
            end
      end
  end.

(** ** Decommissioning, swapping and erasing *)

Definition _DecommissionNode (m : mem) (n Del : Z) : mem :=
  let m := wr m n zero_node in
  let m := if right (m Del) =? 0 then m
           else set_right m n (i32 (_Off n Del + right (m Del))) in
  set_right m Del (_Off Del n).

Definition _SwapWith (m : mem) (this o : Z) : mem :=
  let PB := Nparent m o in
  let AL := Nleft m this in
  let AR := Nright m this in
  let m :=
    if o =? AL then
      let m := hand_parent m this o in
      let m := set_parent m this (left (m this)) in
      let m :=
        if left (m o) =? 0 then set_left m this 0
        else
          let m := set_parent m (Nleft m o) (_Off (Nleft m o) this) in
          set_left m this (_Off this (Nleft m o)) in
      let m := set_parent m AR (_Off AR o) in
      let m := set_left m o (_Off o this) in
      let m := set_right m o (_Off o AR) in
      set_right m this 0
    else if o =? AR then
      let m := hand_parent m this o in
      let m := set_parent m this (right (m this)) in
      let m :=
        if right (m o) =? 0 then set_right m this 0
        else
          let m := set_parent m (Nright m o) (_Off (Nright m o) this) in
          set_right m this (_Off this (Nright m o)) in
      let m := set_parent m AL (_Off AL o) in
      let m := set_right m o (_Off o this) in
      let m := set_left m o (_Off o AL) in
      set_left m this 0
    else
      let m := set_link m PB o (_Off PB this) in
      let m := hand_parent m this o in
      let m := set_parent m this (_Off this PB) in
      let m := set_parent m AL (_Off AL o) in
      let m :=
        match NSafeLeft m o with
        | Some BL =>
            let m := set_parent m BL (_Off BL this) in
            set_left m this (_Off this BL)
        | None => set_left m this 0
        end in
      let m := set_left m o (_Off o AL) in
      let m := set_parent m AR (_Off AR o) in
      let m :=
        match NSafeRight m o with
        | Some BR =>
            let m := set_parent m BR (_Off BR this) in
            set_right m this (_Off this BR)
        | None => set_right m this 0
        end in
      set_right m o (_Off o AR) in
  let t := tilt (m this) in
  let m := set_tilt m this (tilt (m o)) in
  set_tilt m o t.

(** [while (swap->left) swap = swap->Nleft();] and its mirror. *)
Fixpoint descend_left (fuel : nat) (m : mem) (n : Z) : option Z :=
  match fuel with
  | O => None
  | S f => if left (m n) =? 0 then Some n else descend_left f m (Nleft m n)
  end.

Fixpoint descend_right (fuel : nat) (m : mem) (n : Z) : option Z :=
  match fuel with
  | O => None
  | S f => if right (m n) =? 0 then Some n else descend_right f m (Nright m n)
  end.

(** The splice of a node with at most one child below its parent [P]:
    [c] is the offset of the child from [P] that replaces [n], or [0]. *)
Definition splice_under (fuel : nat) (m : mem) (P n : Z) (c : Z)
  : option mem :=
  if link_is_left m P n
  then Retrace_Erase fuel (set_left m P c) (Some P) Dir.Left
  else Retrace_Erase fuel (set_right m P c) (Some P) Dir.Right.

(** The block [if (n->left && n->right)] of [_EraseNode]: the node changes
    places with its in-order neighbour on the side that [tilt] picks. *)
Definition erase_swap (fuel : nat) (m : mem) (n : Z) : option mem :=
  if negb (left (m n) =? 0) && negb (right (m n) =? 0) then
    match (if Dir.eqb (tilt (m n)) Dir.Right
           then descend_left fuel m (Nright m n)
           else descend_right fuel m (Nleft m n)) with
    | Some swap => Some (_SwapWith m n swap)
    | None => None
    end
  else Some m.

(** The block [if (P) ... else ...] of [_EraseNode]: the node, which has
    one child at most, leaves the tree.  Returns the new value of
    [outRoot] and the memory.  The two branches that the source marks
    [Should not happen] leave everything as it is. *)
Definition erase_unlink (fuel : nat) (m : mem) (outRoot : nptr) (n : Z)
  : option (nptr * mem) :=
  let P := NSafeParent m n in
  let T1 := NSafeLeft m n in
  let T2 := NSafeRight m n in
  match P with
  | Some P =>
      let m' : option mem :=
        match T1, T2 with
        | Some _, Some _ => Some m
        | Some T1, None =>
            let m := set_parent m T1 (_Off T1 P) in
            splice_under fuel m P n (_Off P T1)
        | None, Some T2 =>
            let m := set_parent m T2 (_Off T2 P) in
            splice_under fuel m P n (_Off P T2)
        | None, None => splice_under fuel m P n 0
        end in
      match m' with
      | Some m =>
          match Root fuel m P with
          | Some r => Some (Some r, m)
          | None => None
          end
      | None => None
      end
  | None =>
      match T1, T2 with
      | Some _, Some _ => Some (outRoot, m)
      | Some T1, None => Some (Some T1, set_parent m T1 0)
      | None, Some T2 => Some (Some T2, set_parent m T2 0)
      | None, None => Some (None, m)
      end
  end.

(** [n->parent = n->left = n->right = 0;] *)
Definition erase_reset (m : mem) (n : Z) : mem :=
  let m := set_right m n 0 in
  let m := set_left m n (right (m n)) in
  set_parent m n (left (m n)).

(** Returns the [bool], the new value of [outRoot] and the memory. *)
Definition _EraseNode (fuel : nat) (m : mem) (outRoot : nptr) (n : nptr)
  : option (bool * nptr * mem) :=
  match n with
  | None => Some (false, outRoot, m)
  | Some n =>
      if IsEmpty m n then Some (false, outRoot, m)
      else
        match erase_swap fuel m n with
        | None => None
        | Some m =>
            match erase_unlink fuel m outRoot n with
            | None => None
            | Some (outRoot, m) => Some (true, outRoot, erase_reset m n)
            end
        end
  end.

(** ** Searching and walking in order *)

Definition LeftmostOf (fuel : nat) (m : mem) (n : nptr) : option nptr :=
  match n with
  | None => Some None
  | Some n => option_map Some (descend_left fuel m n)
  end.

(** The [while (nullptr != (n = n->NSafeParent()))] loop of
    [InorderNextOf]. *)
Fixpoint climb_next (fuel : nat) (m : mem) (n : Z) (b : Dir.t)
  : option nptr :=
  match fuel with
  | O => None
  | S f =>
      match NSafeParent m n with
      | None => Some None
      | Some p =>
          if Dir.eqb b Dir.Left then Some (Some p)
          else climb_next f m p (Branch m p)
      end
  end.

Definition InorderNextOf (fuel : nat) (m : mem) (n : nptr) : option nptr :=
  match n with
  | None => Some None
  | Some n =>
      if negb (right (m n) =? 0)
      then LeftmostOf fuel m (Some (Nright m n))
      else climb_next fuel m n (Branch m n)
  end.

Fixpoint _InsertionPointFor (fuel : nat) (m : mem) (n : Z) (v : T)
  : option (Z * Dir.t) :=
  match fuel with
  | O => None
  | S f =>
      if less (payload (m n)) v then
        if negb (right (m n) =? 0) then _InsertionPointFor f m (Nright m n) v
        else Some (n, Dir.Right)
      else if less v (payload (m n)) then
        if negb (left (m n) =? 0) then _InsertionPointFor f m (Nleft m n) v
        else Some (n, Dir.Left)
      else Some (n, Dir.None)
  end.

(** ** [struct _Growable]

    [ptr_] is [None] for the null pointer.  Allocation is taken to
    succeed; a read outside the cells written so far yields a zero cell. *)

Record _Growable : Type := mkGrowable {
  ptr_ : option mem;
  len_ : Z;
  capacity_ : Z
}.

Definition Growable0 : _Growable := mkGrowable None 0 0.

Definition buf (g : _Growable) : mem :=
  match ptr_ g with Some m => m | None => fun _ => zero_node end.

(** The copy constructor: [malloc] and [memcpy] of [capacity_] bytes. *)
Definition _Growable_copy (o : _Growable) : _Growable :=
  match ptr_ o with
  | Some m =>
      mkGrowable (Some (fun a => if a <? capacity_ o then m a else zero_node))
                 (len_ o) (capacity_ o)
  | None => Growable0
  end.

Definition _Reset (g : _Growable) : _Growable :=
  match ptr_ g with
  | Some _ => mkGrowable None 0 0
  | None => g
  end.

(** The capacity that [_GrowBy] asks [malloc] for. *)
Definition _NewCap (g : _Growable) (bytesToAdd : Z) : Z :=
  Aligned (u64 (Z.max (Z.max (u32 (bytesToAdd - u32 (capacity_ g - len_ g)))
                             MIN_GROW_BY)
                      (capacity_ g / 2)
                + capacity_ g)).

(** The returned pointer is [ptr_ + len_] of the result. *)
Definition _GrowBy (g : _Growable) (bytesToAdd : Z) : _Growable :=
  if u32 (capacity_ g - len_ g) <? bytesToAdd then
    let _Moved : mem :=
      fun a => if a <? len_ g then buf g a else zero_node in
    mkGrowable (Some _Moved) (len_ g) (_NewCap g bytesToAdd)
  else g.

Definition _Reserve (g : _Growable) (totalBytes : Z) : _Growable :=
  if totalBytes >? capacity_ g then _GrowBy g (u32 (totalBytes - len_ g))
  else g.

(** Returns the offset of the appended bytes and the arena. *)
Definition _PtrAppendZeroBytes (g : _Growable) (cnt : Z) : Z * _Growable :=
  let g := _GrowBy g cnt in
  (len_ g, mkGrowable (ptr_ g) (u32 (len_ g + cnt)) (capacity_ g)).

Definition with_buf (g : _Growable) (m : mem) : _Growable :=
  mkGrowable (Some m) (len_ g) (capacity_ g).

(** ** [struct _AvlTree] *)

Record _AvlTree : Type := mkTree {
  base : _Growable;
  _Cnt : Z;
  _Root : Z
}.

Definition AvlTree0 : _AvlTree := mkTree Growable0 0 0.

Definition NSafePtr (o : Z) : nptr := if o =? 0 then None else Some o.
Definition Optr (p : Z) : Z := i32 p.
Definition OptrSafe (p : nptr) : Z :=
  match p with Some p => Optr p | None => 0 end.

(** Every loop of one operation gets this many iterations: one more than
    the arena has bytes. *)
Definition fuel_of (g : _Growable) : nat := S (Z.to_nat (len_ g)).

Definition Reserve (t : _AvlTree) (ElementCount : Z) : _AvlTree :=
  mkTree (_Reserve (base t) (u32 (u64 ((ElementCount + 1) * Nsize))))
         (_Cnt t) (_Root t).

(** Returns the node and the arena. *)
Definition _CreateNode (g : _Growable) (v : T) : Z * _Growable :=
  match NSafeRight (buf g) 0 with
  | Some n =>
      let m := buf g in
      let m := set_right m 0
                 (if right (m n) =? 0 then 0
                  else i32 (right (m 0) + right (m n))) in
      let m := set_right m n 0 in
      let m := set_tilt m n Dir.None in
      let m := set_payload m n v in
      (n, with_buf g m)
  | None =>
      let '(n, g) := _PtrAppendZeroBytes g (u32 Nsize) in
      let m := set_tilt (buf g) n Dir.None in
      let m := set_payload m n v in
      (n, with_buf g m)
  end.

(** Returns the offset, the flag and the tree. *)
Definition Insert (t : _AvlTree) (v : T) : option (Z * bool * _AvlTree) :=
  let g := base t in
  let g := if len_ g =? 0 then snd (_PtrAppendZeroBytes g (u32 Nsize)) else g in
  if negb (_Root t =? 0) then
    match _InsertionPointFor (fuel_of g) (buf g) (_Root t) v with
    | None => None
    | Some (pnode, dir) =>
        if Dir.eqb dir Dir.None then
          Some (Optr pnode, false, mkTree g (_Cnt t) (_Root t))
        else
          let parent_ := Optr pnode in
          let '(n, g) := _CreateNode g v in
          match AddChild (fuel_of g) (buf g) parent_ n dir with
          | None => None
          | Some m =>
              let root := i32 (_Root t + parent (m (_Root t))) in
              Some (Optr n, true, mkTree (with_buf g m) (u32 (_Cnt t + 1)) root)
          end
    end
  else
    let '(n, g) := _CreateNode g v in
    Some (Optr n, true, mkTree g (u32 (_Cnt t + 1)) (Optr n)).

Definition Size (t : _AvlTree) : Z := _Cnt t.

(** [DestroyRecursive]: the payload is trivially destructible, so only
    the recursion is left. *)
Fixpoint DestroyRecursive (fuel : nat) (m : mem) (n : Z) : option unit :=
  match fuel with
  | O => None
  | S f =>
      match (if negb (left (m n) =? 0)
             then DestroyRecursive f m (Nleft m n) else Some tt) with
      | None => None
      | Some _ =>
          if negb (right (m n) =? 0)
          then DestroyRecursive f m (Nright m n) else Some tt
      end
  end.

Definition Clear (t : _AvlTree) : option _AvlTree :=
  match NSafePtr (_Root t) with
  | Some R =>
      match DestroyRecursive (fuel_of (base t)) (buf (base t)) R with
      | None => None
      | Some _ => Some (mkTree (_Reset (base t)) 0 0)
      end
  | None => Some (mkTree (_Reset (base t)) (_Cnt t) (_Root t))
  end.

(** The body shared by [Erase] and [EraseAtOffset] once [pnode] is known. *)
Definition erase_node (t : _AvlTree) (Proot : Z) (pnode : nptr)
  : option _AvlTree :=
  match _EraseNode (fuel_of (base t)) (buf (base t)) (Some Proot) pnode with
  | None => None
  | Some (true, Proot, m) =>
      match pnode with
      | Some pnode =>
          Some (mkTree (with_buf (base t) (_DecommissionNode m pnode 0))
                       (u32 (_Cnt t - 1)) (OptrSafe Proot))
      | None => Some t
      end
  | Some (false, _, _) => Some t
  end.

Definition Erase (t : _AvlTree) (v : T) : option _AvlTree :=
  match NSafePtr (_Root t) with
  | Some Proot =>
      match _InsertionPointFor (fuel_of (base t)) (buf (base t)) Proot v with
      | None => None
      | Some (pnode, dir) =>
          if Dir.eqb dir Dir.None then erase_node t Proot (Some pnode)
          else Some t
      end
  | None => Some t
  end.

Definition EraseAtOffset (t : _AvlTree) (o : Z) : option _AvlTree :=
  match NSafePtr (_Root t) with
  | Some Proot =>
      match NSafePtr o with
      | Some pnode => erase_node t Proot (Some pnode)
      | None => Some t
      end
  | None => Some t
  end.

Definition FindNode (t : _AvlTree) (v : T) : option nptr :=
  match NSafePtr (_Root t) with
  | Some Proot =>
      match _InsertionPointFor (fuel_of (base t)) (buf (base t)) Proot v with
      | None => None
      | Some (n, d) => Some (if Dir.eqb d Dir.None then Some n else None)
      end
  | None => Some None
  end.

(** [Begin] builds [_Iter(NSafePtr(_Root))], whose constructor takes the
    leftmost node; [End] is the null iterator. *)
Definition Begin (t : _AvlTree) : option nptr :=
  LeftmostOf (fuel_of (base t)) (buf (base t)) (NSafePtr (_Root t)).
Definition End : nptr := None.

(** [_AvlTree(const _AvlTree&) = default] *)
Definition _AvlTree_copy (o : _AvlTree) : _AvlTree :=
  mkTree (_Growable_copy (base o)) (_Cnt o) (_Root o).

(** ** [struct set] *)

Definition ToSlot (o : Z) : Z := if o =? 0 then 0 else u32 (u64 o / Nsize).
Definition slot_off (pos : Z) : Z := i32 (u64 (pos * Nsize)).

Definition size (t : _AvlTree) : Z := Size t.
Definition empty (t : _AvlTree) : bool := 0 =? size t.
Definition reserve (t : _AvlTree) (count : Z) : _AvlTree :=
  mkTree (_Reserve (base t) (u32 (u64 ((count + 1) * Nsize))))
         (_Cnt t) (_Root t).

Definition insert (t : _AvlTree) (v : T) : option (Z * bool * _AvlTree) :=
  match Insert t v with
  | Some (o, added, t) => Some (ToSlot o, added, t)
  | None => None
  end.

Definition erase (t : _AvlTree) (v : T) : option _AvlTree := Erase t v.
Definition erase_at (t : _AvlTree) (pos : Z) : option _AvlTree :=
  EraseAtOffset t (slot_off pos).

Definition find (t : _AvlTree) (v : T) : option nptr := FindNode t v.
Definition find_slot (t : _AvlTree) (v : T) : option Z :=
  match FindNode t v with
  | Some (Some n) => Some (ToSlot (Optr n))
  | Some None => Some 0
  | None => None
  end.

Definition at_ (t : _AvlTree) (pos : Z) : T :=
  payload (buf (base t) (slot_off pos)).

Definition begin_ (t : _AvlTree) : option nptr := Begin t.
Definition end_ : nptr := End.
Definition clear (t : _AvlTree) : option _AvlTree := Clear t.
Definition set_copy (o : _AvlTree) : _AvlTree := _AvlTree_copy o.

(** [for (it = begin(); it != end(); ++it) out.push_back( *it)] from the
    iterator [it] on. *)
Fixpoint walk (fuel : nat) (t : _AvlTree) (it : nptr) : option (list T) :=
  match it with
  | None => Some []
  | Some n =>
      match fuel with
      | O => None
      | S f =>
          match InorderNextOf (fuel_of (base t)) (buf (base t)) (Some n) with
          | None => None
          | Some it' =>
              option_map (cons (payload (buf (base t) n))) (walk f t it')
          end
      end
  end.

Definition to_list (t : _AvlTree) : option (list T) :=
  match begin_ t with
  | Some it => walk (fuel_of (base t)) t it
  | None => None
  end.

(** ** The tree that an arena represents

    A node carries its address, its payload and its tilt. *)

Inductive tree : Type :=
| Leaf
| Node (l : tree) (a : Z) (v : T) (d : Dir.t) (r : tree).

Definition root (t : tree) : nptr :=
  match t with Leaf => None | Node _ a _ _ _ => Some a end.

(** The link stored in the node at [a] for the neighbour [p]. *)
Definition lnk (a : Z) (p : nptr) : Z :=
  match p with Some b => b - a | None => 0 end.

(** [rep m par t]: the cells of [m] at the addresses of [t] hold [t], whose
    root hangs below [par]. *)
Fixpoint rep (m : mem) (par : nptr) (t : tree) : Prop :=
  match t with
  | Leaf => True
  | Node l a v d r =>
      m a = mkNode v (lnk a par) (lnk a (root l)) (lnk a (root r)) d
      /\ rep m (Some a) l /\ rep m (Some a) r
  end.

Fixpoint nodes (t : tree) : list (Z * T) :=
  match t with
  | Leaf => []
  | Node l a v _ r => nodes l ++ (a, v) :: nodes r
  end.

Definition addrs (t : tree) : list Z := map fst (nodes t).
Definition inorder (t : tree) : list T := map snd (nodes t).

Fixpoint height (t : tree) : Z :=
  match t with
  | Leaf => 0
  | Node l _ _ _ r => 1 + Z.max (height l) (height r)
  end.

(** The tilt says which subtree is deeper. *)
Definition tilt_ok (d : Dir.t) (hl hr : Z) : Prop :=
  match d with
  | Dir.Left => hl = hr + 1
  | Dir.None => hl = hr
  | Dir.Right => hr = hl + 1
  | Dir.Zero => False
  end.

Fixpoint avl (t : tree) : Prop :=
  match t with
  | Leaf => True
  | Node l _ _ d r => avl l /\ avl r /\ tilt_ok d (height l) (height r)
  end.

(** *** Tree contexts: the path from a node up to the root *)

Inductive frame : Type :=
| FrL (a : Z) (v : T) (d : Dir.t) (r : tree)   (* the hole is the left child *)
| FrR (l : tree) (a : Z) (v : T) (d : Dir.t).  (* the hole is the right child *)

Definition faddr (f : frame) : Z :=
  match f with FrL a _ _ _ => a | FrR _ a _ _ => a end.

Definition fside (f : frame) : Dir.t :=
  match f with FrL _ _ _ _ => Dir.Left | FrR _ _ _ _ => Dir.Right end.

Definition fill (f : frame) (t : tree) : tree :=
  match f with
  | FrL a v d r => Node t a v d r
  | FrR l a v d => Node l a v d t
  end.

(** Innermost frame first. *)
Fixpoint plug (c : list frame) (t : tree) : tree :=
  match c with
  | [] => t
  | f :: c' => plug c' (fill f t)
  end.

(** The parent of the hole. *)
Definition cpar (par : nptr) (c : list frame) : nptr :=
  match c with [] => par | f :: _ => Some (faddr f) end.

(** [repc m par c h]: the cells of the frames of [c] and of their other
    subtrees, when the hole holds a tree rooted at [h]. *)
Fixpoint repc (m : mem) (par : nptr) (c : list frame) (h : nptr) : Prop :=
  match c with
  | [] => True
  | FrL a v d r :: c' =>
      m a = mkNode v (lnk a (cpar par c')) (lnk a h) (lnk a (root r)) d
      /\ rep m (Some a) r /\ repc m par c' (Some a)
  | FrR l a v d :: c' =>
      m a = mkNode v (lnk a (cpar par c')) (lnk a (root l)) (lnk a h) d
      /\ rep m (Some a) l /\ repc m par c' (Some a)
  end.

Definition fnodes_l (f : frame) : list (Z * T) :=
  match f with FrL _ _ _ _ => [] | FrR l a v _ => nodes l ++ [(a, v)] end.
Definition fnodes_r (f : frame) : list (Z * T) :=
  match f with FrL a v _ r => (a, v) :: nodes r | FrR _ _ _ _ => [] end.

(** The nodes before and after the hole, in order. *)
Fixpoint cnodes_l (c : list frame) : list (Z * T) :=
  match c with [] => [] | f :: c' => cnodes_l c' ++ fnodes_l f end.
Fixpoint cnodes_r (c : list frame) : list (Z * T) :=
  match c with [] => [] | f :: c' => fnodes_r f ++ cnodes_r c' end.

Definition caddrs (c : list frame) : list Z :=
  map fst (cnodes_l c) ++ map fst (cnodes_r c).

(** [cavl c h]: the frames are balanced when the hole holds a tree of
    height [h]. *)
Fixpoint cavl (c : list frame) (h : Z) : Prop :=
  match c with
  | [] => True
  | FrL _ _ d r :: c' =>
      avl r /\ tilt_ok d h (height r) /\ cavl c' (1 + Z.max h (height r))
  | FrR l _ _ d :: c' =>
      avl l /\ tilt_ok d (height l) h /\ cavl c' (1 + Z.max (height l) h)
  end.

(** [m'] differs from [m] at most at the addresses of [L]. *)
Definition same_but (L : list Z) (m m' : mem) : Prop :=
  forall b, ~ In b L -> m' b = m b.

(** Addresses that the 32-bit offsets can tell apart. *)
Definition in_range (a : Z) : Prop := 0 <= a < 2 ^ 31.

Definition wf (t : tree) : Prop :=
  NoDup (addrs t) /\ Forall in_range (addrs t).



(** No address lies in both lists. *)
Definition sep (l1 l2 : list Z) : Prop := forall a, In a l1 -> In a l2 -> False.

Definition caddrs_l (c : list frame) : list Z := map fst (cnodes_l c).
Definition caddrs_r (c : list frame) : list Z := map fst (cnodes_r c).

(** The address of the innermost frame, if there is one. *)
Definition ctop (c : list frame) : list Z :=
  match c with [] => [] | f :: _ => [faddr f] end.

(** The address of the outermost frame of [f :: c]. *)
Definition cbot (f : frame) (c : list frame) : Z := faddr (last c f).
(** ** Notions used by the lemmas on the retraces and on the erasure *)

Definition old_heights (side : Dir.t) (l r : tree) : Z * Z :=
  if Dir.eqb side Dir.Left then (height l - 1, height r)
  else (height l, height r - 1).

(** The child that just grew has a tilt, unless it is the new node. *)
Definition grown_ok (side : Dir.t) (l r : tree) : Prop :=
  match (if Dir.eqb side Dir.Left then l else r) with
  | Leaf => False
  | Node gl _ _ gd gr => gd <> Dir.None \/ (gl = Leaf /\ gr = Leaf)
  end.

Definition root_shift (m' : mem) (t t' : tree) : Prop :=
  forall ro, root t = Some ro -> root t' = Some (ro + parent (m' ro)).

(** The node is two deeper on the side of its tilt. *)
Definition imb (d : Dir.t) (l r : tree) : Prop :=
  match d with
  | Dir.Left => height l = height r + 2
  | Dir.Right => height r = height l + 2
  | _ => False
  end.

Definition old_heights_e (side : Dir.t) (l r : tree) : Z * Z :=
  if Dir.eqb side Dir.Left then (height l + 1, height r)
  else (height l, height r + 1).

(** What the retrace yields from a node on. *)
Definition retrace_erase_post (fuel : nat) (m : mem) (n : Z) (del : Dir.t)
    (t : tree) : Prop :=
  exists m' t',
    Retrace_Erase fuel m (Some n) del = Some m'
    /\ rep m' None t'
    /\ same_but (addrs t) m m'
    /\ nodes t' = nodes t
    /\ avl t'.

(** The retrace goes on above a subtree that lost one level. *)
Definition climbs (c : list frame) : Prop :=
  forall fuel m s a,
    wf (plug c s) -> rep m None (plug c s) -> root s = Some a ->
    avl s -> cavl c (height s + 1) -> (length c <= fuel)%nat ->
    exists m' t',
      Retrace_Erase fuel m (cpar None c)
        (match c with [] => Dir.None | f :: _ => fside f end) = Some m'
      /\ rep m' None t'
      /\ same_but (addrs (plug c s)) m m'
      /\ nodes t' = nodes (plug c s)
      /\ avl t'.

Definition all_left (c : list frame) : Prop :=
  Forall (fun f => fside f = Dir.Left) c.
Definition all_right (c : list frame) : Prop :=
  Forall (fun f => fside f = Dir.Right) c.


(** ** The order of the payloads *)

(** Neither is less than the other. *)
Definition equiv (x y : T) : Prop := less x y = false /\ less y x = false.

Definition strict_weak_order : Prop :=
  (forall x, less x x = false)
  /\ (forall x y z, less x y = true -> less y z = true -> less x z = true)
  /\ (forall x y z, equiv x y -> equiv y z -> equiv x z).

Definition lt (x y : T) : Prop := less x y = true.

(** Strictly increasing. *)
Definition sorted (l : list T) : Prop := StronglySorted lt l.

(** The search of [_InsertionPointFor] on the tree: the context of the
    place where it stops, and the subtree there. *)
Fixpoint find_path (t : tree) (v : T) (c : list frame) : list frame * tree :=
  match t with
  | Leaf => (c, Leaf)
  | Node l a w d r =>
      if less w v then find_path r v (FrR l a w d :: c)
      else if less v w then find_path l v (FrL a w d r :: c)
      else (c, t)
  end.

(** What the search returns for the place that [find_path] gives. *)
Definition path_result (p : list frame * tree) : Z * Dir.t :=
  match snd p with
  | Node _ b _ _ _ => (b, Dir.None)
  | Leaf =>
      match fst p with
      | f :: _ => (faddr f, fside f)
      | [] => (0, Dir.None)
      end
  end.

(** The payloads before the hole are less than [v], those after it are
    greater. *)
Definition between (v : T) (c : list frame) : Prop :=
  Forall (fun x => lt (snd x) v) (cnodes_l c)
  /\ Forall (fun x => lt v (snd x)) (cnodes_r c).

(** The address of the first node of a list of nodes. *)
Definition hd_addr (l : list (Z * T)) : nptr :=
  match l with [] => None | (a, _) :: _ => Some a end.

(** ** The state of the container *)

(** A wiped cell whose [right] is [o]: the sentinel at offset [0] and the
    decommissioned nodes. *)
Definition zn (o : Z) : inode := mkNode T0 0 0 o Dir.Zero.

(** The chain of the decommissioned nodes [F] from the cell at [a] on. *)
Fixpoint chain (m : mem) (a : Z) (F : list Z) : Prop :=
  match F with
  | [] => m a = zn 0
  | f :: F' => m a = zn (f - a) /\ chain m f F'
  end.

(** The cell at [a] is one of the cells after the sentinel. *)
Definition cell_ok (len : Z) (a : Z) : Prop :=
  Nsize <= a /\ a + Nsize <= len /\ (Nsize | a).

(** The arena with the cells [L] in use and the cells [F] in the chain. *)
Record Arena (g : _Growable) (L F : list Z) : Prop := mkArena {
  ar_len : 0 <= len_ g <= capacity_ g;
  ar_cap : capacity_ g < 2 ^ 32;
  ar_lim : len_ g <= 2 ^ 31;
  ar_div : (Nsize | len_ g);
  ar_null : ptr_ g = None -> capacity_ g = 0;
  ar_cells : Forall (cell_ok (len_ g)) (L ++ F);
  ar_nodup : NoDup (L ++ F);
  ar_chain : chain (buf g) 0 F;
  ar_zero : forall a, a <> 0 -> ~ In a L -> ~ In a F -> buf g a = zero_node
}.

(** The tree [tr] and the chain [F] that the container [t] holds. *)
Record Inv (t : _AvlTree) (tr : tree) (F : list Z) : Prop := mkInv {
  inv_arena : Arena (base t) (addrs tr) F;
  inv_rep : rep (buf (base t)) None tr;
  inv_avl : avl tr;
  inv_sorted : sorted (inorder tr);
  inv_root : _Root t = lnk 0 (root tr);
  inv_cnt : _Cnt t = Z.of_nat (length (nodes tr))
}.

(** *** The public operations *)

Inductive op : Type :=
| OInsert (v : T)
| OErase (v : T)
| OEraseAt (pos : Z)
| OReserve (count : Z)
| OClear.

Definition exec (t : _AvlTree) (o : op) : option _AvlTree :=
  match o with
  | OInsert v => option_map snd (insert t v)
  | OErase v => erase t v
  | OEraseAt pos => erase_at t pos
  | OReserve count => Some (reserve t count)
  | OClear => clear t
  end.

(** The call stays within what the 32-bit offsets and the buffer allow:
    an insertion may append the sentinel and one node below 2 GiB, a
    reservation asks for 2 GiB at most, and [erase_at] names a cell of the
    buffer. *)
Definition op_fits (t : _AvlTree) (o : op) : bool :=
  match o with
  | OInsert _ => len_ (base t) + 2 * Nsize <=? 2 ^ 31
  | OReserve count => (0 <=? count) && ((count + 1) * Nsize <=? 2 ^ 31)
  | OEraseAt pos =>
      (0 <=? pos) && (pos * Nsize + Nsize <=? capacity_ (base t))
      && (pos * Nsize <? 2 ^ 31)
  | _ => true
  end.

Fixpoint run (t : _AvlTree) (ops : list op) : option _AvlTree :=
  match ops with
  | [] => Some t
  | o :: ops' =>
      match exec t o with
      | Some t' => run t' ops'
      | None => None
      end
  end.

(** Every call of the sequence fits, in the state in which it is made. *)
Fixpoint fits (t : _AvlTree) (ops : list op) : bool :=
  match ops with
  | [] => true
  | o :: ops' =>
      op_fits t o &&
      match exec t o with
      | Some t' => fits t' ops'
      | None => true
      end
  end.

(** What the calls of [insert] in [ops] return, slot and flag, in the
    order of the calls. *)
Fixpoint slots (t : _AvlTree) (ops : list op) : list (Z * bool) :=
  match ops with
  | [] => []
  | OInsert v :: ops' =>
      match insert t v with
      | Some (s, b, t') => (s, b) :: slots t' ops'
      | None => []
      end
  | o :: ops' =>
      match exec t o with
      | Some t' => slots t' ops'
      | None => []
      end
  end.

(** *** The reference: a strictly increasing list *)

Fixpoint ref_insert (v : T) (l : list T) : list T :=
  match l with
  | [] => [v]
  | x :: l' =>
      if less v x then v :: l
      else if less x v then x :: ref_insert v l'
      else l
  end.

(** Drops the elements equivalent to [v]. *)
Definition ref_erase (v : T) (l : list T) : list T :=
  filter (fun x => less x v || less v x) l.

(** The depth of the subtree at [n], read from the links. *)
Fixpoint depth_of (fuel : nat) (m : mem) (n : nptr) : Z :=
  match n, fuel with
  | Some n, S f =>
      1 + Z.max (depth_of f m (NSafeLeft m n)) (depth_of f m (NSafeRight m n))
  | _, _ => 0
  end.

(** The list that the reference holds after the operations [ops]. *)
Fixpoint ref_run (l : list T) (ops : list op) : list T :=
  match ops with
  | [] => l
  | OInsert v :: ops' => ref_run (ref_insert v l) ops'
  | OErase v :: ops' => ref_run (ref_erase v l) ops'
  | _ :: ops' => ref_run l ops'
  end.

Definition is_ins_ers (o : op) : bool :=
  match o with OInsert _ | OErase _ => true | _ => false end.

(** The node at [n] is balanced and its tilt tells the deeper side. *)
Definition balanced_at (t : _AvlTree) (n : Z) : Prop :=
  let m := buf (base t) in
  let hl := depth_of (fuel_of (base t)) m (NSafeLeft m n) in
  let hr := depth_of (fuel_of (base t)) m (NSafeRight m n) in
  Z.abs (hl - hr) <= 1
  /\ tilt (m n) = (if hr <? hl then Dir.Left
                   else if hl <? hr then Dir.Right else Dir.None).

(** Modelled on the words of the specification: [align(n, A)], the least
    multiple of [A] that is not below [n]. *)
Definition align_up (n A : Z) : Z := (n + A - 1) / A * A.

(** Modelled on the words of the specification:
    [align(cap + max(need - free, MIN_GROW, cap/2), A)]. *)
Definition grow_policy (cap len need : Z) : Z :=
  align_up (cap + Z.max (need - (cap - len)) (Z.max MIN_GROW_BY (cap / 2))) Ta.
(** ** More of the node, of the arena and of the containers *)

(** [Inorder]: the payloads in the order in which [cb] gets them. *)
Fixpoint Inorder (fuel : nat) (m : mem) (n : Z) : option (list T) :=
  match fuel with
  | O => None
  | S f =>
      match (if negb (left (m n) =? 0)
             then Inorder f m (Nleft m n) else Some []) with
      | None => None
      | Some l =>
          match (if negb (right (m n) =? 0)
                 then Inorder f m (Nright m n) else Some []) with
          | None => None
          | Some r => Some (l ++ payload (m n) :: r)
          end
      end
  end.

(** [Enumerate]: the nodes in the order in which [cb] gets them, a node
    after its subtrees. *)
Fixpoint Enumerate (fuel : nat) (m : mem) (n : Z) : option (list Z) :=
  match fuel with
  | O => None
  | S f =>
      match (if negb (left (m n) =? 0)
             then Enumerate f m (Nleft m n) else Some []) with
      | None => None
      | Some l =>
          match (if negb (right (m n) =? 0)
                 then Enumerate f m (Nright m n) else Some []) with
          | None => None
          | Some r => Some (l ++ r ++ [n])
          end
      end
  end.

(** The loop of [Depth]: [while (n && n->parent) { ++d; n = n->NSafeParent(); }]. *)
Fixpoint Depth_loop (fuel : nat) (m : mem) (n : nptr) (d : Z) : option Z :=
  match fuel with
  | O => None
  | S f =>
      match n with
      | Some a =>
          if negb (parent (m a) =? 0)
          then Depth_loop f m (NSafeParent m a) (u32 (d + 1))
          else Some d
      | None => Some d
      end
  end.

Definition Depth (fuel : nat) (m : mem) (n : Z) : option Z :=
  Depth_loop fuel m (Some n) 0.

Definition Foreach (t : _AvlTree) : option (list T) :=
  match NSafePtr (_Root t) with
  | Some R => Inorder (fuel_of (base t)) (buf (base t)) R
  | None => Some []
  end.

(** The numbers that [__LifeCheck] prints after the sizes of the arena:
    the nodes, the leaves, the least and the greatest depth of a leaf. *)
Fixpoint leaf_stats (fuel : nat) (m : mem) (ns : list Z) (st : Z * Z * Z * Z)
  : option (Z * Z * Z * Z) :=
  match ns with
  | [] => Some st
  | n :: ns' =>
      let '(total, lcnt, mi, ma) := st in
      let total := u32 (total + 1) in
      if (0 =? left (m n)) && (0 =? right (m n)) then
        match Depth fuel m n with
        | None => None
        | Some De =>
            let lcnt := u32 (lcnt + 1) in
            if lcnt =? 1 then leaf_stats fuel m ns' (total, lcnt, De, De)
            else leaf_stats fuel m ns' (total, lcnt, Z.min mi De, Z.max ma De)
        end
      else leaf_stats fuel m ns' (total, lcnt, mi, ma)
  end.

Definition LifeCheck (t : _AvlTree) : option (Z * Z * Z * Z) :=
  if negb (_Root t =? 0) then
    match Enumerate (fuel_of (base t)) (buf (base t)) (_Root t) with
    | None => None
    | Some ns => leaf_stats (fuel_of (base t)) (buf (base t)) ns (0, 0, 0, 0)
    end
  else Some (0, 0, 0, 0).

(** *** [struct set] *)

(** [set(size_t initialCount = 0)] *)
Definition set_new (initialCount : Z) : _AvlTree :=
  if negb (initialCount =? 0) then Reserve AvlTree0 initialCount else AvlTree0.

(** [inserted]: the value that the set owns, its slot and the tree. *)
Definition inserted (t : _AvlTree) (v : T) : option (T * Z * _AvlTree) :=
  match Insert t v with
  | Some (o, added, t') => Some (payload (buf (base t') o), ToSlot o, t')
  | None => None
  end.

(** [operator[]] *)
Definition subscript (t : _AvlTree) (v : T) : option (Z * _AvlTree) :=
  match Insert t v with
  | Some (o, added, t') => Some (ToSlot o, t')
  | None => None
  end.

Definition foreach (t : _AvlTree) : option (list T) := Foreach t.

(** [++it] and [*it] of the iterator, and the iterator as a [bool]. *)
Definition it_next (t : _AvlTree) (it : nptr) : option nptr :=
  InorderNextOf (fuel_of (base t)) (buf (base t)) it.
Definition it_deref (t : _AvlTree) (n : Z) : T := payload (buf (base t) n).
Definition it_bool (it : nptr) : bool :=
  match it with Some _ => true | None => false end.

(** *** Measures for the statements *)

(** The least number of nodes of a balanced tree of height [h]. *)
Fixpoint min_nodes (h : nat) : Z :=
  match h with
  | O => 0
  | S h' =>
      match h' with
      | O => 1
      | S h'' => 1 + min_nodes h' + min_nodes h''
      end
  end.

(** A cell that holds an element: a slot in the buffer whose node is not
    empty. *)
Definition live (t : _AvlTree) (s : Z) : Prop :=
  0 < s /\ s * Nsize < 2 ^ 31 /\ IsEmpty (buf (base t)) (slot_off s) = false.

(** The states that the calls reach from the empty container, each call
    within [op_fits]. *)
Definition reachable (t : _AvlTree) : Prop :=
  exists ops, fits AvlTree0 ops = true /\ run AvlTree0 ops = Some t.

(** The call [o] does not take the element of the slot [p] away. *)
Definition keeps (t : _AvlTree) (o : op) (p : Z) : Prop :=
  match o with
  | OInsert _ | OReserve _ => True
  | OErase v => ~ equiv (at_ t p) v
  | OEraseAt q => q <> p
  | OClear => False
  end.
(** * Proofs *)

(** ** Machine arithmetic *)

Lemma i32_small x : - 2 ^ 31 <= x < 2 ^ 31 -> i32 x = x.
Proof.
  intros H. unfold i32. rewrite Z.mod_small; lia.
Qed.

Lemma u32_small x : 0 <= x < 2 ^ 32 -> u32 x = x.
Proof. intros H. unfold u32. apply Z.mod_small; lia. Qed.

Lemma u64_small x : 0 <= x < 2 ^ 64 -> u64 x = x.
Proof. intros H. unfold u64. apply Z.mod_small; lia. Qed.

Lemma Dir_eqb_spec a b : reflect (a = b) (Dir.eqb a b).
Proof. destruct a, b; constructor; congruence. Qed.

Lemma Dir_eqb_refl a : Dir.eqb a a = true.
Proof. now destruct a. Qed.

(** ** Reads after writes *)

Lemma wr_same m a c : wr m a c a = c.
Proof. unfold wr. now rewrite Z.eqb_refl. Qed.

Lemma wr_other m a c b : b <> a -> wr m a c b = m b.
Proof. intros H. unfold wr. destruct (Z.eqb_spec b a); congruence. Qed.

Lemma set_parent_same m a o v p l r d :
  m a = mkNode v p l r d -> set_parent m a o a = mkNode v o l r d.
Proof. intros H. unfold set_parent. now rewrite wr_same, H. Qed.

Lemma set_left_same m a o v p l r d :
  m a = mkNode v p l r d -> set_left m a o a = mkNode v p o r d.
Proof. intros H. unfold set_left. now rewrite wr_same, H. Qed.

Lemma set_right_same m a o v p l r d :
  m a = mkNode v p l r d -> set_right m a o a = mkNode v p l o d.
Proof. intros H. unfold set_right. now rewrite wr_same, H. Qed.

Lemma set_tilt_same m a o v p l r d :
  m a = mkNode v p l r d -> set_tilt m a o a = mkNode v p l r o.
Proof. intros H. unfold set_tilt. now rewrite wr_same, H. Qed.

Lemma set_payload_same m a o v p l r d :
  m a = mkNode v p l r d -> set_payload m a o a = mkNode o p l r d.
Proof. intros H. unfold set_payload. now rewrite wr_same, H. Qed.

Lemma set_parent_other m a o b : b <> a -> set_parent m a o b = m b.
Proof. apply wr_other. Qed.
Lemma set_left_other m a o b : b <> a -> set_left m a o b = m b.
Proof. apply wr_other. Qed.
Lemma set_right_other m a o b : b <> a -> set_right m a o b = m b.
Proof. apply wr_other. Qed.
Lemma set_tilt_other m a o b : b <> a -> set_tilt m a o b = m b.
Proof. apply wr_other. Qed.
Lemma set_payload_other m a o b : b <> a -> set_payload m a o b = m b.
Proof. apply wr_other. Qed.

Lemma same_but_refl L m : same_but L m m.
Proof. now intros b _. Qed.

Lemma same_but_step L m0 m m1 a :
  In a L -> same_but L m0 m -> (forall b, b <> a -> m1 b = m b) ->
  same_but L m0 m1.
Proof.
  intros Ha H0 H1 b Hb. rewrite H1, H0; auto. intros ->. auto.
Qed.

Lemma same_but_trans L m0 m1 m2 :
  same_but L m0 m1 -> same_but L m1 m2 -> same_but L m0 m2.
Proof. intros H1 H2 b Hb. rewrite H2, H1; auto. Qed.

Lemma same_but_incl L L' m m' :
  incl L L' -> same_but L m m' -> same_but L' m m'.
Proof. intros Hi H b Hb. apply H. auto. Qed.


(** ** Trees and contexts *)

Lemma root_fill f t : root (fill f t) = Some (faddr f).
Proof. now destruct f. Qed.

Lemma nodes_fill f t : nodes (fill f t) = fnodes_l f ++ nodes t ++ fnodes_r f.
Proof. destruct f; simpl; rewrite ?app_nil_r, <- ?app_assoc; reflexivity. Qed.

Lemma nodes_plug c t : nodes (plug c t) = cnodes_l c ++ nodes t ++ cnodes_r c.
Proof.
  revert t. induction c as [|f c IH]; intros t; simpl.
  - now rewrite app_nil_r.
  - rewrite IH, nodes_fill. now rewrite <- !app_assoc.
Qed.

Lemma rep_plug m par c t :
  rep m par (plug c t) <-> repc m par c (root t) /\ rep m (cpar par c) t.
Proof.
  revert t. induction c as [|f c IH]; intros t; simpl.
  - tauto.
  - rewrite IH, root_fill. destruct f; simpl; tauto.
Qed.

Lemma rep_frame L m m' par t :
  same_but L m m' -> (forall a, In a (addrs t) -> ~ In a L) ->
  rep m par t -> rep m' par t.
Proof.
  intros Hs. revert par. induction t as [|l IHl a v d r IHr]; intros par Hd H; simpl in *; auto.
  destruct H as (Ha & Hl & Hr). unfold addrs in Hd. simpl in Hd.
  rewrite map_app in Hd. simpl in Hd.
  split; [|split].
  - rewrite Hs; auto. apply Hd. apply in_or_app. right. now left.
  - apply IHl; auto. intros b Hb. apply Hd. apply in_or_app. now left.
  - apply IHr; auto. intros b Hb. apply Hd. apply in_or_app. right. now right.
Qed.

Lemma caddrs_cons f c a :
  In a (caddrs (f :: c)) <->
  a = faddr f \/ In a (match f with FrL _ _ _ r => addrs r | FrR l _ _ _ => addrs l end)
  \/ In a (caddrs c).
Proof.
  unfold caddrs, addrs. destruct f; simpl; rewrite ?map_app, ?in_app_iff; simpl;
    rewrite ?in_app_iff; simpl; intuition.
Qed.

Lemma repc_frame L m m' par c h :
  same_but L m m' -> (forall a, In a (caddrs c) -> ~ In a L) ->
  repc m par c h -> repc m' par c h.
Proof.
  intros Hs. revert h. induction c as [|f c IH]; intros h Hd H; simpl in *; auto.
  assert (Hf : ~ In (faddr f) L) by (apply Hd, caddrs_cons; auto).
  assert (Hc : forall a, In a (caddrs c) -> ~ In a L)
    by (intros a Ha; apply Hd, caddrs_cons; auto).
  destruct f; simpl in *; destruct H as (Ha & Hl & Hr);
    (split; [rewrite Hs; auto | split; [|apply IH; auto]]);
    (eapply rep_frame; [eassumption| |eassumption]);
    intros b Hb; apply Hd, caddrs_cons; auto.
Qed.

Lemma addrs_plug c t a :
  In a (addrs (plug c t)) <-> In a (caddrs c) \/ In a (addrs t).
Proof.
  unfold addrs, caddrs. rewrite nodes_plug, !map_app, !in_app_iff. tauto.
Qed.

Lemma addrs_node l a v d r b :
  In b (addrs (Node l a v d r)) <-> In b (addrs l) \/ b = a \/ In b (addrs r).
Proof.
  unfold addrs. simpl. rewrite map_app, in_app_iff. simpl. intuition.
Qed.

Lemma height_nonneg t : 0 <= height t.
Proof. induction t; cbn [height]; lia. Qed.

Lemma avl_plug c t : avl (plug c t) <-> avl t /\ cavl c (height t).
Proof.
  revert t. induction c as [|f c IH]; intros t; simpl.
  - tauto.
  - rewrite IH. destruct f; simpl; tauto.
Qed.



(** ** Distinct addresses

    [NoDup] of the addresses of a tree is cut into one fact for every pair
    of its pieces. *)

Lemma nd_app (l1 l2 : list Z) :
  NoDup (l1 ++ l2) -> sep l1 l2 /\ NoDup l1 /\ NoDup l2.
Proof.
  induction l1 as [|x l1 IH]; simpl; intros H.
  - repeat split; auto. + intros a []. + constructor.
  - inversion H as [|? ? Hx Hn]; subst. destruct (IH Hn) as (H3 & H1 & H2).
    repeat split; auto.
    + intros a [<-|Ha] Hb.
      * apply Hx. apply in_or_app. auto.
      * eapply H3; eauto.
    + constructor; auto. intros Hi. apply Hx. apply in_or_app. auto.
Qed.

Lemma nd_cons (a : Z) (l : list Z) : NoDup (a :: l) -> ~ In a l /\ NoDup l.
Proof. intros H. inversion H; auto. Qed.

Lemma ni_cons (a b : Z) l : ~ In a (b :: l) -> a <> b /\ ~ In a l.
Proof. simpl. intuition. Qed.

Lemma ni_app (a : Z) l1 l2 : ~ In a (l1 ++ l2) -> ~ In a l1 /\ ~ In a l2.
Proof. rewrite in_app_iff. tauto. Qed.

Lemma sep_cons S b l : sep S (b :: l) -> ~ In b S /\ sep S l.
Proof.
  intros H. split.
  - intros Hb. apply (H b Hb). now left.
  - intros a Ha Hl. apply (H a Ha). now right.
Qed.

Lemma sep_app S l1 l2 : sep S (l1 ++ l2) -> sep S l1 /\ sep S l2.
Proof.
  intros H. split; intros a Ha Hl; apply (H a Ha); apply in_or_app; auto.
Qed.

Lemma sep_sym l1 l2 : sep l1 l2 -> sep l2 l1.
Proof. intros H a H2 H1. exact (H a H1 H2). Qed.

Lemma fa_cons (P : Z -> Prop) a l : Forall P (a :: l) -> P a /\ Forall P l.
Proof. intros H. inversion H; auto. Qed.

Lemma fa_app (P : Z -> Prop) l1 l2 : Forall P (l1 ++ l2) -> Forall P l1 /\ Forall P l2.
Proof. apply Forall_app. Qed.

Lemma addrs_Node l a v d r : addrs (Node l a v d r) = addrs l ++ a :: addrs r.
Proof. unfold addrs. simpl. now rewrite map_app. Qed.

Lemma addrs_Leaf : addrs Leaf = [].
Proof. reflexivity. Qed.

Lemma addrs_plug_eq c t : addrs (plug c t) = caddrs_l c ++ addrs t ++ caddrs_r c.
Proof. unfold addrs, caddrs_l, caddrs_r. now rewrite nodes_plug, !map_app. Qed.

Lemma caddrs_l_cons f c :
  caddrs_l (f :: c) =
  caddrs_l c ++ match f with FrL _ _ _ _ => [] | FrR l a _ _ => addrs l ++ [a] end.
Proof. unfold caddrs_l, addrs. destruct f; simpl; now rewrite !map_app. Qed.

Lemma caddrs_r_cons f c :
  caddrs_r (f :: c) =
  match f with FrL a _ _ r => a :: addrs r | FrR _ _ _ _ => [] end ++ caddrs_r c.
Proof. unfold caddrs_r, addrs. destruct f; simpl; now rewrite ?map_app. Qed.

Lemma caddrs_split c a : In a (caddrs c) <-> In a (caddrs_l c) \/ In a (caddrs_r c).
Proof. unfold caddrs. apply in_app_iff. Qed.

Ltac in_tac :=
  match goal with
  | |- In _ _ =>
      first [ eassumption | apply in_eq | (apply in_cons; in_tac)
            | (apply in_or_app; left; in_tac)
            | (apply in_or_app; right; in_tac) ]
  end.

(** Writes the addresses of a tree as one right-nested list of pieces. *)
Ltac flat_in H :=
  repeat first [ rewrite addrs_plug_eq in H
               | rewrite addrs_Node in H
               | rewrite addrs_Leaf in H
               | rewrite caddrs_l_cons in H
               | rewrite caddrs_r_cons in H
               | rewrite <- app_assoc in H
               | rewrite app_nil_r in H
               | progress cbn beta iota delta [app] in H ].

Ltac flat_goal :=
  repeat first [ rewrite addrs_plug_eq
               | rewrite addrs_Node
               | rewrite addrs_Leaf
               | rewrite caddrs_l_cons
               | rewrite caddrs_r_cons
               | rewrite <- app_assoc
               | rewrite app_nil_r
               | progress cbn beta iota delta [app] ].

Ltac ni_split H :=
  lazymatch type of H with
  | ~ In _ (_ :: _) =>
      let H1 := fresh "Hne" in let H2 := fresh "Hni" in
      apply ni_cons in H; destruct H as [H1 H2]; ni_split H2
  | ~ In _ (_ ++ _) =>
      let H1 := fresh "Hni" in let H2 := fresh "Hni" in
      apply ni_app in H; destruct H as [H1 H2]; ni_split H2
  | ~ In _ [] => clear H
  | _ => idtac
  end.

Ltac sep_split H :=
  lazymatch type of H with
  | sep _ (_ :: _) =>
      let H1 := fresh "Hni" in let H2 := fresh "Hsep" in
      apply sep_cons in H; destruct H as [H1 H2]; sep_split H2
  | sep _ (_ ++ _) =>
      let H1 := fresh "Hsep" in let H2 := fresh "Hsep" in
      apply sep_app in H; destruct H as [H1 H2]; sep_split H2
  | sep _ [] => clear H
  | _ => idtac
  end.

Ltac nd_split H :=
  lazymatch type of H with
  | NoDup (_ :: _) =>
      let H1 := fresh "Hni" in let H2 := fresh "Hnd" in
      apply nd_cons in H; destruct H as [H1 H2]; ni_split H1; nd_split H2
  | NoDup (_ ++ _) =>
      let H1 := fresh "Hsep" in let H2 := fresh "Hnd" in let H3 := fresh "Hnd" in
      apply nd_app in H; destruct H as (H1 & H2 & H3); sep_split H1; nd_split H3
  | NoDup [] => clear H
  | _ => idtac
  end.

Ltac fa_split H :=
  lazymatch type of H with
  | Forall _ (_ :: _) =>
      let H1 := fresh "Hrg" in let H2 := fresh "Hfa" in
      apply fa_cons in H; destruct H as [H1 H2]; fa_split H2
  | Forall _ (_ ++ _) =>
      let H1 := fresh "Hfa" in let H2 := fresh "Hfa" in
      apply fa_app in H; destruct H as [H1 H2]; fa_split H2
  | Forall _ [] => clear H
  | _ => idtac
  end.

(** Splits the two parts of [wf T]. *)
Ltac wf_split Hnd Hrg :=
  flat_in Hnd; flat_in Hrg; nd_split Hnd; fa_split Hrg.

Ltac neq_tac := solve [ assumption | apply not_eq_sym; assumption ].
Ltac sep_tac := solve [ assumption | apply sep_sym; assumption ].

(** ** Stepping through the writes of a function

    The proofs keep, for the current memory [m], one equation
    [m a = mkNode ...] for every cell they read or write, the [rep] and
    [repc] of the subtrees and contexts they leave alone, and
    [same_but L m0 m] with the start [m0]. *)

Lemma ptr_link a b : a + (b - a) = b.
Proof. lia. Qed.

Lemma link_add a b c : (b - a) + (c - b) = c - a.
Proof. lia. Qed.

Lemma link_neg a b : - (b - a) = a - b.
Proof. lia. Qed.

Lemma link_nz a b : a <> b -> (b - a =? 0) = false.
Proof. intros H. apply Z.eqb_neq. lia. Qed.

Lemma link_eqb_ne a b c : b <> c -> (b - a =? c - a) = false.
Proof. intros H. apply Z.eqb_neq. lia. Qed.

Lemma link0_eqb_ne a c : a <> c -> (0 =? c - a) = false.
Proof. intros H. apply Z.eqb_neq. lia. Qed.

Lemma i32_link a b : in_range a -> in_range b -> i32 (b - a) = b - a.
Proof. unfold in_range. intros. apply i32_small. lia. Qed.

Lemma lnk_root_ne p t z :
  z <> p -> ~ In z (addrs t) -> (lnk p (root t) =? z - p) = false.
Proof.
  intros Hp Hz. apply Z.eqb_neq. destruct t as [|l a v d r]; simpl; [lia|].
  intros E. apply Hz. rewrite addrs_Node. apply in_or_app. right. left. lia.
Qed.

Lemma rep_wr1 m m1 a par s :
  (forall b, b <> a -> m1 b = m b) -> ~ In a (addrs s) ->
  rep m par s -> rep m1 par s.
Proof.
  intros Hoth Ha. apply (rep_frame [a]).
  - intros b Hb. apply Hoth. intros ->. apply Hb. now left.
  - intros b Hb [<-|[]]. auto.
Qed.

Lemma repc_wr1 m m1 a par c h :
  (forall b, b <> a -> m1 b = m b) ->
  ~ In a (caddrs_l c) -> ~ In a (caddrs_r c) ->
  repc m par c h -> repc m1 par c h.
Proof.
  intros Hoth Hl Hr. apply (repc_frame [a]).
  - intros b Hb. apply Hoth. intros ->. apply Hb. now left.
  - intros b Hb [<-|[]]. apply caddrs_split in Hb. tauto.
Qed.

Ltac unfold_ptrs :=
  cbv beta delta [Nleft Nright Nparent NSafeParent NSafeLeft NSafeRight _Ptr
    link_is_left set_link _Off Nheavy Branch IsEmpty].

(** Rewrites the reads of known cells and the arithmetic on their links. *)
Ltac rd1 :=
  match goal with
  | H : ?m ?a = mkNode _ _ _ _ _ |- context [?m ?a] => rewrite H
  | |- context [?a + (?b - ?a)] => rewrite (ptr_link a b)
  | |- context [(?b - ?a) + (?c - ?b)] => rewrite (link_add a b c)
  | |- context [- (?b - ?a)] => rewrite (link_neg a b)
  | |- context [i32 (?b - ?a)] => rewrite (i32_link a b) by assumption
  | |- context [i32 0] => change (i32 0) with 0
  | |- context [i32 (- 0)] => change (i32 (- 0)) with 0
  | |- context [?a =? ?a] => rewrite (Z.eqb_refl a)
  | |- context [?b - ?a =? 0] => rewrite (link_nz a b) by neq_tac
  | |- context [?b - ?a =? ?c - ?a] => rewrite (link_eqb_ne a b c) by neq_tac
  | |- context [0 =? ?c - ?a] => rewrite (link0_eqb_ne a c) by neq_tac
  | |- context [Dir.eqb ?a ?a] => rewrite (Dir_eqb_refl a)
  | |- context [lnk ?p (root ?t) =? ?z - ?p] =>
      rewrite (lnk_root_ne p t z) by (neq_tac || assumption)
  | |- context [Dir.pair ?a ?b =? ?k] =>
      let v := eval vm_compute in (Dir.pair a b =? k) in
      lazymatch v with
      | true => change (Dir.pair a b =? k) with true
      | false => change (Dir.pair a b =? k) with false
      end
  | |- context [Dir.eqb ?a ?b] =>
      let v := eval vm_compute in (Dir.eqb a b) in
      lazymatch v with
      | true => change (Dir.eqb a b) with true
      | false => change (Dir.eqb a b) with false
      end
  | |- context [?a =? ?b] =>
      is_var a; is_var b; rewrite (proj2 (Z.eqb_neq a b)) by neq_tac
  | |- context [Dir.balanced ?a] =>
      let v := eval vm_compute in (Dir.balanced a) in
      lazymatch v with
      | true => change (Dir.balanced a) with true
      | false => change (Dir.balanced a) with false
      end
  end.

Ltac rd :=
  repeat first
    [ rd1
    | progress cbn beta iota delta
        [payload parent left right tilt lnk root negb andb orb fst snd] ].

(** Moves the facts from [m] to [m1], the result of a write at [a] that
    leaves the other cells as [Hoth] says. *)
Ltac carry m m1 a Hoth :=
  repeat match goal with
  | H : m ?b = mkNode _ _ _ _ _ |- _ =>
      rewrite <- (Hoth b) in H by neq_tac
  | H : rep m ?par ?s |- _ =>
      apply (rep_wr1 m m1 a par s Hoth) in H; [ | assumption ]
  | H : repc m ?par ?c ?h |- _ =>
      apply (repc_wr1 m m1 a par c h Hoth) in H; [ | assumption | assumption ]
  end.

Ltac write_with Lsame Lother m a o :=
  let Ha := match goal with H : m a = mkNode _ _ _ _ _ |- _ => H end in
  let Hnew := fresh "Hc" in
  let Hoth := fresh "Hoth" in
  let m1 := fresh "m" in
  pose proof (Lsame m a o _ _ _ _ _ Ha) as Hnew;
  pose proof (Lother m a o) as Hoth;
  clear Ha;
  match type of Hnew with ?w _ = _ =>
    set (m1 := w) in *
  end;
  carry m m1 a Hoth;
  match goal with
  | Hs : same_but ?L ?m0 m |- _ =>
      let Hs' := fresh "Hsame" in
      assert (Hs' : same_but L m0 m1)
        by (apply (same_but_step L m0 m m1 a); [in_tac | exact Hs | exact Hoth]);
      clear Hs
  end;
  clear Hoth; clearbody m1; try clear m.

Ltac write1 :=
  match goal with
  | |- context [set_parent ?m ?a ?o] =>
      is_var m; write_with set_parent_same set_parent_other m a o
  | |- context [set_left ?m ?a ?o] =>
      is_var m; write_with set_left_same set_left_other m a o
  | |- context [set_right ?m ?a ?o] =>
      is_var m; write_with set_right_same set_right_other m a o
  | |- context [set_tilt ?m ?a ?o] =>
      is_var m; write_with set_tilt_same set_tilt_other m a o
  | |- context [set_payload ?m ?a ?o] =>
      is_var m; write_with set_payload_same set_payload_other m a o
  end.

(** Reduces a [let] whose value is a variable, or is not a memory. *)
Ltac zeta1 :=
  match goal with
  | |- context G [let x := ?v in @?B x] =>
      let ty := type of v in
      lazymatch ty with
      | mem => is_var v
      | _ => idtac
      end;
      let B' := eval cbv beta in (B v) in
      let G' := context G [B'] in
      change G'
  end.

(** Reduces a [let] whose value is not a memory. *)
Ltac zeta0 :=
  match goal with
  | |- context G [let x := ?v in @?B x] =>
      let ty := type of v in
      lazymatch ty with
      | mem => fail
      | _ => idtac
      end;
      let B' := eval cbv beta in (B v) in
      let G' := context G [B'] in
      change G'
  end.

(** No write is stepped over while a test on the current memory is open. *)
Ltac no_open_test :=
  lazymatch goal with
  | |- context [if ?c then _ else _] => fail
  | |- context [match ?c with Some _ => _ | None => _ end] => fail
  | |- _ => idtac
  end.

Ltac run :=
  repeat (rd; first [zeta0 | no_open_test; first [write1 | zeta1]]); rd.

Ltac split_all := repeat match goal with |- _ /\ _ => split end.

(** ** The two blocks that rewire the parent *)

Ltac ctx_split :=
  repeat match goal with
  | H : context [caddrs_l (_ :: _)] |- _ => rewrite caddrs_l_cons in H
  | H : context [caddrs_r (_ :: _)] |- _ => rewrite caddrs_r_cons in H
  end;
  repeat match goal with
  | H : ~ In _ (_ ++ _) |- _ => flat_in H; ni_split H
  | H : ~ In _ (_ :: _) |- _ => flat_in H; ni_split H
  | H : sep _ (_ ++ _) |- _ => flat_in H; sep_split H
  | H : sep _ (_ :: _) |- _ => flat_in H; sep_split H
  | H : sep (_ ++ _) _ |- _ => apply sep_sym in H; flat_in H; sep_split H
  | H : sep (_ :: _) _ |- _ => apply sep_sym in H; flat_in H; sep_split H
  | H : NoDup (_ ++ _) |- _ => flat_in H; nd_split H
  | H : NoDup (_ :: _) |- _ => flat_in H; nd_split H
  | H : Forall _ (_ ++ _) |- _ => flat_in H; fa_split H
  | H : Forall _ (_ :: _) |- _ => flat_in H; fa_split H
  end.

Lemma hand_parent_spec m c z x vz lz rz dz vx px lx rx dx :
  repc m None c (Some z) ->
  m z = mkNode vz (lnk z (cpar None c)) lz rz dz ->
  m x = mkNode vx px lx rx dx ->
  z <> x -> in_range z -> in_range x ->
  ~ In z (caddrs_l c) -> ~ In z (caddrs_r c) ->
  ~ In x (caddrs_l c) -> ~ In x (caddrs_r c) ->
  NoDup (caddrs_l c) -> NoDup (caddrs_r c) -> sep (caddrs_l c) (caddrs_r c) ->
  Forall in_range (caddrs_l c) -> Forall in_range (caddrs_r c) ->
  repc (hand_parent m z x) None c (Some x)
  /\ hand_parent m z x x = mkNode vx (lnk x (cpar None c)) lx rx dx
  /\ same_but (x :: ctop c) m (hand_parent m z x).
Proof.
  intros Hc Hz Hx Hzx Rz Rx Zl Zr Xl Xr Nl Nr Slr Fl Fr.
  set (m' := hand_parent m z x).
  destruct c as [|[p vp dp sib|sib p vp dp] c'];
    cbn [repc cpar faddr root lnk ctop] in *.
  - pose proof (same_but_refl [x] m) as Hsame.
    revert m'.
    cbv beta delta [hand_parent]. unfold_ptrs. run. auto.
  - destruct Hc as (Hp & Hsib & Hc). ctx_split.
    pose proof (same_but_refl [x; p] m) as Hsame.
    revert m'.
    cbv beta delta [hand_parent]. unfold_ptrs. run. auto.
  - destruct Hc as (Hp & Hsib & Hc). ctx_split.
    pose proof (same_but_refl [x; p] m) as Hsame.
    revert m'.
    cbv beta delta [hand_parent]. unfold_ptrs. run. auto.
Qed.

Lemma wire_parent_spec heavy m c z y vz lz rz dz vy ly ry dy :
  repc m None c (Some z) ->
  m z = mkNode vz (lnk z (cpar None c)) lz rz dz ->
  m y = mkNode vy (z - y) ly ry dy ->
  heavy (mkNode vz (lnk z (cpar None c)) lz rz dz) = y - z ->
  z <> y -> in_range z -> in_range y ->
  ~ In z (caddrs_l c) -> ~ In z (caddrs_r c) ->
  ~ In y (caddrs_l c) -> ~ In y (caddrs_r c) ->
  NoDup (caddrs_l c) -> NoDup (caddrs_r c) -> sep (caddrs_l c) (caddrs_r c) ->
  Forall in_range (caddrs_l c) -> Forall in_range (caddrs_r c) ->
  repc (wire_parent heavy m z y) None c (Some y)
  /\ wire_parent heavy m z y y = mkNode vy (lnk y (cpar None c)) ly ry dy
  /\ same_but (y :: ctop c) m (wire_parent heavy m z y).
Proof.
  intros Hc Hz Hy Hh Hzy Rz Ry Zl Zr Yl Yr Nl Nr Slr Fl Fr.
  set (m' := wire_parent heavy m z y).
  destruct c as [|[p vp dp sib|sib p vp dp] c'];
    cbn [repc cpar faddr root lnk ctop] in *.
  - pose proof (same_but_refl [y] m) as Hsame.
    revert m'.
    cbv beta delta [wire_parent]. unfold_ptrs. run. auto.
  - destruct Hc as (Hp & Hsib & Hc). ctx_split.
    pose proof (same_but_refl [y; p] m) as Hsame.
    revert m'.
    cbv beta delta [wire_parent]. unfold_ptrs. run. rewrite Hh. run. auto.
  - destruct Hc as (Hp & Hsib & Hc). ctx_split.
    pose proof (same_but_refl [y; p] m) as Hsame.
    revert m'.
    cbv beta delta [wire_parent]. unfold_ptrs. run. rewrite Hh. run. auto.
Qed.

Lemma ctop_in c b : In b (ctop c) -> In b (caddrs_l c) \/ In b (caddrs_r c).
Proof.
  destruct c as [|f c]; simpl; [tauto|]. intros [<-|[]].
  rewrite caddrs_l_cons, caddrs_r_cons.
  destruct f; simpl; rewrite ?in_app_iff; simpl; auto.
Qed.

Lemma blk_other m m1 x c b :
  same_but (x :: ctop c) m m1 ->
  b <> x -> ~ In b (caddrs_l c) -> ~ In b (caddrs_r c) -> m1 b = m b.
Proof.
  intros Hs Hb Hl Hr. apply Hs. intros [E|Hi]; [congruence|].
  apply ctop_in in Hi. tauto.
Qed.

Lemma rep_blk m m1 x c par s :
  same_but (x :: ctop c) m m1 ->
  ~ In x (addrs s) -> sep (caddrs_l c) (addrs s) -> sep (addrs s) (caddrs_r c) ->
  rep m par s -> rep m1 par s.
Proof.
  intros Hs Hx Hl Hr. apply (rep_frame _ _ _ _ _ Hs).
  intros a Ha [<-|Hi]; [tauto|]. apply ctop_in in Hi. destruct Hi.
  - eapply Hl; eauto.
  - eapply Hr; eauto.
Qed.

Lemma repc_blk m m1 x c par cm h :
  same_but (x :: ctop c) m m1 ->
  ~ In x (caddrs_l cm) -> ~ In x (caddrs_r cm) ->
  sep (caddrs_l c) (caddrs_l cm) -> sep (caddrs_l c) (caddrs_r cm) ->
  sep (caddrs_l cm) (caddrs_r c) -> sep (caddrs_r cm) (caddrs_r c) ->
  repc m par cm h -> repc m1 par cm h.
Proof.
  intros Hs Hl Hr H1 H2 H3 H4. apply (repc_frame _ _ _ _ _ _ Hs).
  intros a Ha [<-|Hi].
  - apply caddrs_split in Ha. tauto.
  - apply caddrs_split in Ha. apply ctop_in in Hi.
    destruct Ha, Hi; eauto.
Qed.

Lemma same_but_blk L m0 m m1 x c :
  same_but L m0 m -> same_but (x :: ctop c) m m1 ->
  In x L -> (forall b, In b (caddrs_l c) -> In b L) ->
  (forall b, In b (caddrs_r c) -> In b L) ->
  same_but L m0 m1.
Proof.
  intros H0 H1 Hx Hl Hr. eapply same_but_trans; [exact H0|].
  eapply same_but_incl; [|exact H1].
  intros b [<-|Hb]; auto. apply ctop_in in Hb. destruct Hb; auto.
Qed.

(** Moves the facts across a block that rewired the parent of [x]. *)
Ltac carry_blk m m1 x c Hsb :=
  repeat match goal with
  | H : m ?b = mkNode _ _ _ _ _ |- _ =>
      rewrite <- (blk_other m m1 x c b Hsb) in H
        by first [neq_tac | assumption]
  | H : rep m ?par ?s |- _ =>
      apply (rep_blk m m1 x c par s Hsb) in H; [ | assumption | sep_tac | sep_tac ]
  | H : repc m ?par ?cm ?h |- _ =>
      apply (repc_blk m m1 x c par cm h Hsb) in H;
        [ | assumption | assumption | sep_tac | sep_tac | sep_tac | sep_tac ]
  end.

Ltac after_block f m x c Hsb :=
  let m1 := fresh "m" in
  set (m1 := f) in *;
  carry_blk m m1 x c Hsb;
  match goal with
  | Hs : same_but ?L ?m0 m |- _ =>
      let Hs' := fresh "Hsame" in
      assert (Hs' : same_but L m0 m1)
        by (apply (same_but_blk L m0 m m1 x c Hs Hsb);
            [ in_tac | intros ? ?; in_tac | intros ? ?; in_tac ]);
      clear Hs
  end;
  clear Hsb; clearbody m1; try clear m.

Ltac block1 :=
  match goal with
  | |- context [hand_parent ?m ?z ?x] =>
      is_var m;
      match goal with
      | Hc : repc m None ?c (Some z),
        Hz : m z = mkNode _ _ _ _ _,
        Hx : m x = mkNode _ _ _ _ _ |- _ =>
          let Hc' := fresh "Hc" in
          let Hx' := fresh "Hc" in
          let Hsb := fresh "Hsb" in
          destruct (hand_parent_spec m c z x _ _ _ _ _ _ _ _ _ Hc Hz Hx)
            as (Hc' & Hx' & Hsb);
          [ first [ neq_tac | assumption ] .. | ];
          clear Hc Hx;
          after_block (hand_parent m z x) m x c Hsb
      end
  | |- context [wire_parent ?h ?m ?z ?y] =>
      is_var m;
      match goal with
      | Hc : repc m None ?c (Some z),
        Hz : m z = mkNode _ _ _ _ _,
        Hy : m y = mkNode _ _ _ _ _ |- _ =>
          let Hc' := fresh "Hc" in
          let Hy' := fresh "Hc" in
          let Hsb := fresh "Hsb" in
          destruct (wire_parent_spec h m c z y _ _ _ _ _ _ _ _ Hc Hz Hy)
            as (Hc' & Hy' & Hsb);
          [ first [ neq_tac | assumption | reflexivity ] .. | ];
          clear Hc Hy;
          after_block (wire_parent h m z y) m y c Hsb
      end
  end.

Ltac run ::=
  repeat (rd; first [zeta0 | no_open_test; first [write1 | block1 | zeta1]]);
  rd.


(** ** The four rotations on the represented tree *)

(** Turns the goal [let m' := f in B m'] into [let m' := f in P m'] for a
    local [P], so that the steps do not walk through [B]. *)
Ltac hide_body :=
  match goal with
  | |- let x := ?f in @?B x =>
      let P := fresh "Post" in
      pose (P := B); change (let x := f in P x)
  end.

Ltac show_body :=
  match goal with
  | P := _ |- ?P' _ => constr_eq P P'; subst P; cbv beta
  end.

Ltac begin_frame :=
  match goal with
  | Hnd : NoDup _, Hrg : Forall in_range _ |- _ => wf_split Hnd Hrg
  end;
  flat_goal;
  match goal with
  | m' := _ : mem |- _ /\ same_but ?L ?m _ =>
      pose proof (same_but_refl L m) as Hsame; revert m'; hide_body
  end.

Ltac begin_exec f :=
  begin_frame; cbv beta delta [f]; unfold_ptrs; run; show_body.

Ltac end_exec :=
  split;
  [ apply rep_plug; cbn [repc rep cpar faddr root lnk plug fill];
    split_all; first [assumption | exact I]
  | assumption ].

Lemma rot_LL_rep m c x y vy dy t2 z vz dz t3 :
  wf (plug c (Node (Node x y vy dy t2) z vz dz t3)) ->
  rep m None (plug c (Node (Node x y vy dy t2) z vz dz t3)) ->
  rep (_Rotate_LL m z y) None (plug c (Node x y vy dy (Node t2 z vz dz t3)))
  /\ same_but (addrs (plug c (Node (Node x y vy dy t2) z vz dz t3))) m (_Rotate_LL m z y).
Proof.
  intros [Hnd Hrg] Hrep.
  apply rep_plug in Hrep. destruct Hrep as (Hc & Hz & (Hy & Hx & Ht2) & Ht3).
  set (m' := _Rotate_LL m z y).
  destruct t2 as [|tl t vt dt tr]; cbn [rep cpar faddr root lnk] in *.
  - begin_exec _Rotate_LL. end_exec.
  - destruct Ht2 as (Ht & Htl & Htr). begin_exec _Rotate_LL. end_exec.
Qed.

Lemma rot_RR_rep m c t1 z vz dz t2 y vy dy x :
  wf (plug c (Node t1 z vz dz (Node t2 y vy dy x))) ->
  rep m None (plug c (Node t1 z vz dz (Node t2 y vy dy x))) ->
  rep (_Rotate_RR m z y) None (plug c (Node (Node t1 z vz dz t2) y vy dy x))
  /\ same_but (addrs (plug c (Node t1 z vz dz (Node t2 y vy dy x)))) m (_Rotate_RR m z y).
Proof.
  intros [Hnd Hrg] Hrep.
  apply rep_plug in Hrep. destruct Hrep as (Hc & Hz & Ht1 & (Hy & Ht2 & Hx)).
  set (m' := _Rotate_RR m z y).
  destruct t2 as [|tl t vt dt tr]; cbn [rep cpar faddr root lnk] in *.
  - begin_exec _Rotate_RR. end_exec.
  - destruct Ht2 as (Ht & Htl & Htr). begin_exec _Rotate_RR. end_exec.
Qed.

Lemma rot_LR_rep m c t1 y vy dy xl x vx dx xr z vz dz t4 :
  wf (plug c (Node (Node t1 y vy dy (Node xl x vx dx xr)) z vz dz t4)) ->
  rep m None (plug c (Node (Node t1 y vy dy (Node xl x vx dx xr)) z vz dz t4)) ->
  rep (_Rotate_LR m z y x) None
      (plug c (Node (Node t1 y vy dy xl) x vx dx (Node xr z vz dz t4)))
  /\ same_but (addrs (plug c (Node (Node t1 y vy dy (Node xl x vx dx xr)) z vz dz t4)))
       m (_Rotate_LR m z y x).
Proof.
  intros [Hnd Hrg] Hrep.
  apply rep_plug in Hrep.
  destruct Hrep as (Hc & Hz & (Hy & Ht1 & (Hx & Hxl & Hxr)) & Ht4).
  set (m' := _Rotate_LR m z y x).
  destruct xl as [|ll l vl dl lr]; destruct xr as [|rl r vr dr rr];
    cbn [rep cpar faddr root lnk] in *;
    repeat match goal with H : _ /\ _ |- _ => destruct H end.
  - begin_exec _Rotate_LR. end_exec.
  - begin_exec _Rotate_LR. end_exec.
  - begin_exec _Rotate_LR. end_exec.
  - begin_exec _Rotate_LR. end_exec.
Qed.

Lemma rot_RL_rep m c t1 z vz dz xl x vx dx xr y vy dy t4 :
  wf (plug c (Node t1 z vz dz (Node (Node xl x vx dx xr) y vy dy t4))) ->
  rep m None (plug c (Node t1 z vz dz (Node (Node xl x vx dx xr) y vy dy t4))) ->
  rep (_Rotate_RL m z y x) None
      (plug c (Node (Node t1 z vz dz xl) x vx dx (Node xr y vy dy t4)))
  /\ same_but (addrs (plug c (Node t1 z vz dz (Node (Node xl x vx dx xr) y vy dy t4))))
       m (_Rotate_RL m z y x).
Proof.
  intros [Hnd Hrg] Hrep.
  apply rep_plug in Hrep.
  destruct Hrep as (Hc & Hz & Ht1 & (Hy & (Hx & Hxl & Hxr) & Ht4)).
  set (m' := _Rotate_RL m z y x).
  destruct xl as [|ll l vl dl lr]; destruct xr as [|rl r vr dr rr];
    cbn [rep cpar faddr root lnk] in *;
    repeat match goal with H : _ /\ _ |- _ => destruct H end.
  - begin_exec _Rotate_RL. end_exec.
  - begin_exec _Rotate_RL. end_exec.
  - begin_exec _Rotate_RL. end_exec.
  - begin_exec _Rotate_RL. end_exec.
Qed.

(** ** Reading and retagging a node of the represented tree *)

Lemma wf_nodes t t' : nodes t' = nodes t -> wf t -> wf t'.
Proof. unfold wf, addrs. now intros ->. Qed.

Lemma rep_cell m c l a v d r :
  rep m None (plug c (Node l a v d r)) ->
  m a = mkNode v (lnk a (cpar None c)) (lnk a (root l)) (lnk a (root r)) d.
Proof. intros H. apply rep_plug in H. simpl in H. tauto. Qed.

Lemma nodes_plug_same c t t' :
  nodes t' = nodes t -> nodes (plug c t') = nodes (plug c t).
Proof. intros H. now rewrite !nodes_plug, H. Qed.

Lemma set_tilt_rep m c l a v d r d' :
  wf (plug c (Node l a v d r)) ->
  rep m None (plug c (Node l a v d r)) ->
  rep (set_tilt m a d') None (plug c (Node l a v d' r))
  /\ same_but (addrs (plug c (Node l a v d r))) m (set_tilt m a d').
Proof.
  intros [Hnd Hrg] Hrep.
  apply rep_plug in Hrep. destruct Hrep as (Hc & Ha & Hl & Hr).
  set (m' := set_tilt m a d'). cbn [rep cpar faddr root lnk] in *.
  begin_frame. run. show_body. end_exec.
Qed.

Lemma NSafeParent_rep m c l a v d r :
  wf (plug c (Node l a v d r)) ->
  rep m None (plug c (Node l a v d r)) ->
  NSafeParent m a = cpar None c.
Proof.
  intros [Hnd Hrg] Hrep. pose proof (rep_cell _ _ _ _ _ _ _ Hrep) as Ha.
  destruct c as [|f c]; cbn [cpar lnk] in *.
  - unfold_ptrs. now rd.
  - assert (Hne : a <> faddr f).
    { destruct f; wf_split Hnd Hrg; neq_tac. }
    unfold_ptrs. rd. reflexivity.
Qed.

Lemma Branch_rep m c l a v d r :
  wf (plug c (Node l a v d r)) ->
  rep m None (plug c (Node l a v d r)) ->
  Branch m a = match c with [] => Dir.None | f :: _ => fside f end.
Proof.
  intros [Hnd Hrg] Hrep. pose proof (rep_cell _ _ _ _ _ _ _ Hrep) as Ha.
  destruct c as [|[p vp dp sib|sib p vp dp] c]; cbn [cpar lnk faddr fside] in *.
  - unfold_ptrs. now rd.
  - pose proof (rep_cell m c (Node l a v d r) p vp dp sib Hrep) as Hp.
    cbn [root lnk] in Hp.
    wf_split Hnd Hrg. unfold_ptrs. rd. reflexivity.
  - pose proof (rep_cell m c sib p vp dp (Node l a v d r) Hrep) as Hp.
    cbn [root lnk] in Hp.
    wf_split Hnd Hrg. unfold_ptrs. rd. reflexivity.
Qed.

(** ** The rotation of [Retrace_Insert] *)

Ltac height_facts :=
  repeat match goal with
  | t : tree |- _ =>
      lazymatch goal with
      | H : 0 <= height t |- _ => fail
      | _ => pose proof (height_nonneg t)
      end
  end.

Lemma old_heights_L l r : old_heights Dir.Left l r = (height l - 1, height r).
Proof. reflexivity. Qed.

Lemma old_heights_R l r : old_heights Dir.Right l r = (height l, height r - 1).
Proof. reflexivity. Qed.

(** Drops what the heights do not depend on. *)
Ltac clear_mem :=
  repeat match goal with
  | H : ~ In _ _ |- _ => clear H
  | H : sep _ _ |- _ => clear H
  | H : NoDup _ |- _ => clear H
  | H : Forall _ _ |- _ => clear H
  | H : in_range _ |- _ => clear H
  | H : rep _ _ _ |- _ => clear H
  | H : repc _ _ _ _ |- _ => clear H
  | H : same_but _ _ _ |- _ => clear H
  | H : _ = mkNode _ _ _ _ _ |- _ => clear H
  | H : @eq Z _ _ -> False |- _ => clear H
  | H : wf _ |- _ => clear H
  end.

Ltac avl_tac :=
  clear_mem;
  rewrite ?old_heights_L, ?old_heights_R in *;
  cbn [avl height tilt_ok fst snd] in *;
  repeat match goal with H : _ /\ _ |- _ => destruct H end;
  height_facts; split_all;
  first [ assumption | contradiction | lia | idtac ].

(** After a rotation whose result is known as a tree: names its memory,
    opens the cells of the new tree and steps through the tilts. *)
Ltac after_rot :=
  match goal with
  | Hr : rep ?f None _, Hs : same_but _ ?m ?f |- _ =>
      let m1 := fresh "m" in
      set (m1 := f) in *; clearbody m1;
      repeat match goal with H : m _ = _ |- _ => clear H end;
      apply rep_plug in Hr; cbn [repc rep cpar faddr root lnk] in Hr;
      repeat match goal with H : _ /\ _ |- _ => destruct H end
  end;
  run.

Ltac nodes_tac :=
  cbn [nodes]; repeat first [rewrite <- app_assoc | progress cbn [app]];
  reflexivity.

Ltac end_rot :=
  split_all;
  [ apply rep_plug; cbn [repc rep cpar faddr root lnk plug fill];
    split_all; first [assumption | exact I]
  | assumption
  | nodes_tac
  | avl_tac
  | avl_tac
  | rd; reflexivity ].

Ltac rot_ins lemma :=
  match goal with
  | Hwf : wf _, Hrep : rep ?m None _ |- context [_Rotate_Insert ?m ?n] =>
      let Hrep' := fresh "Hrep" in
      let Hsame := fresh "Hsame" in
      let Hnd := fresh "Hnd" in
      let Hrg := fresh "Hrg" in
      let m' := fresh "m'" in
      destruct (lemma Hwf Hrep) as [Hrep' Hsame];
      destruct Hwf as [Hnd Hrg];
      apply rep_plug in Hrep;
      cbn [repc rep cpar faddr root lnk] in Hrep;
      repeat match goal with H : _ /\ _ |- _ => destruct H end;
      set (m' := _Rotate_Insert m n);
      wf_split Hnd Hrg; flat_goal; flat_in Hsame;
      revert m'; hide_body;
      cbv beta delta [_Rotate_Insert]; unfold_ptrs; rd;
      repeat (zeta1; rd);
      after_rot; show_body; end_rot
  end.

Lemma rotate_insert_rep m c l n v d r :
  wf (plug c (Node l n v d r)) ->
  rep m None (plug c (Node l n v d r)) ->
  avl l -> avl r -> (d = Dir.Left \/ d = Dir.Right) ->
  tilt_ok d (fst (old_heights d l r)) (snd (old_heights d l r)) ->
  grown_ok d l r ->
  exists S',
    rep (_Rotate_Insert m n) None (plug c S')
    /\ same_but (addrs (plug c (Node l n v d r))) m (_Rotate_Insert m n)
    /\ nodes S' = nodes (Node l n v d r)
    /\ avl S'
    /\ height S' = 1 + Z.max (fst (old_heights d l r)) (snd (old_heights d l r))
    /\ lnk n (root S') = parent (_Rotate_Insert m n n).
Proof.
  intros Hwf Hrep Hl Hr Hd Ht Hg.
  destruct Hd as [-> | ->].
  - destruct l as [|gl y gv gd gr]; [contradiction|].
    destruct gd.
    + exfalso. avl_tac.
    + (* LL *)
      exists (Node gl y gv Dir.None (Node gr n v Dir.None r)).
      rot_ins (rot_LL_rep m c gl y gv Dir.Left gr n v Dir.Left r).
    + exfalso. avl_tac. destruct Hg as [Hg|[-> ->]]; [congruence|avl_tac].
    + (* LR *)
      destruct gr as [|xl x vx dx xr]; [exfalso; avl_tac|].
      destruct dx.
      * exfalso. avl_tac.
      * exists (Node (Node gl y gv Dir.None xl) x vx Dir.None (Node xr n v Dir.Right r)).
        rot_ins (rot_LR_rep m c gl y gv Dir.Right xl x vx Dir.Left xr n v Dir.Left r).
      * exists (Node (Node gl y gv Dir.None xl) x vx Dir.None (Node xr n v Dir.None r)).
        rot_ins (rot_LR_rep m c gl y gv Dir.Right xl x vx Dir.None xr n v Dir.Left r).
      * exists (Node (Node gl y gv Dir.Left xl) x vx Dir.None (Node xr n v Dir.None r)).
        rot_ins (rot_LR_rep m c gl y gv Dir.Right xl x vx Dir.Right xr n v Dir.Left r).
  - destruct r as [|gl y gv gd gr]; [contradiction|].
    destruct gd.
    + exfalso. avl_tac.
    + (* RL *)
      destruct gl as [|xl x vx dx xr]; [exfalso; avl_tac|].
      destruct dx.
      * exfalso. avl_tac.
      * exists (Node (Node l n v Dir.None xl) x vx Dir.None (Node xr y gv Dir.Right gr)).
        rot_ins (rot_RL_rep m c l n v Dir.Right xl x vx Dir.Left xr y gv Dir.Left gr).
      * exists (Node (Node l n v Dir.None xl) x vx Dir.None (Node xr y gv Dir.None gr)).
        rot_ins (rot_RL_rep m c l n v Dir.Right xl x vx Dir.None xr y gv Dir.Left gr).
      * exists (Node (Node l n v Dir.Left xl) x vx Dir.None (Node xr y gv Dir.None gr)).
        rot_ins (rot_RL_rep m c l n v Dir.Right xl x vx Dir.Right xr y gv Dir.Left gr).
    + exfalso. avl_tac. destruct Hg as [Hg|[-> ->]]; [congruence|avl_tac].
    + (* RR *)
      exists (Node (Node l n v Dir.None gl) y gv Dir.None gr).
      rot_ins (rot_RR_rep m c l n v Dir.Right gl y gv Dir.Right gr).
Qed.

(** ** [Retrace_Insert] *)

Lemma root_plug_same c t t' : root t' = root t -> root (plug c t') = root (plug c t).
Proof.
  revert t t'. induction c as [|f c IH]; intros t t' H; simpl; auto.
  apply IH. now rewrite !root_fill.
Qed.

Lemma rep_root_parent m t ro :
  rep m None t -> root t = Some ro -> parent (m ro) = 0.
Proof.
  destruct t; simpl; [discriminate|]. intros (H & _) [= ->]. now rewrite H.
Qed.

Lemma root_plug_cons f c t : exists ro, root (plug (f :: c) t) = Some ro
  /\ forall t', root (plug (f :: c) t') = Some ro.
Proof.
  revert f t. induction c as [|g c IH]; intros f t.
  - exists (faddr f). simpl. split; intros; apply root_fill.
  - destruct (IH g (fill f t)) as (ro & H1 & H2). exists ro. split; auto.
    intros t'. apply (H2 (fill f t')).
Qed.

Lemma same_but_eq L L' m m' : L = L' -> same_but L m m' -> same_but L' m m'.
Proof. now intros ->. Qed.

Lemma addrs_plug_same c t t' : nodes t' = nodes t -> addrs (plug c t') = addrs (plug c t).
Proof. intros H. unfold addrs. now rewrite (nodes_plug_same c t t' H). Qed.

Lemma root_shift_same m' t t' :
  rep m' None t' -> root t' = root t -> root_shift m' t t'.
Proof.
  intros Hrep Hr ro Hro. rewrite Hr, Hro.
  rewrite (rep_root_parent m' t' ro Hrep); [f_equal; lia | congruence].
Qed.

Lemma root_shift_sub m' c s s' n :
  rep m' None (plug c s') -> root s = Some n ->
  lnk n (root s') = parent (m' n) -> s' <> Leaf ->
  root_shift m' (plug c s) (plug c s').
Proof.
  intros Hrep Hs Hl Hne. destruct c as [|f c].
  - simpl. intros ro Hro. rewrite Hs in Hro. injection Hro as <-.
    destruct s' as [|? a ? ? ?]; [congruence|]. simpl in *. f_equal. lia.
  - apply root_shift_same; auto.
    destruct (root_plug_cons f c s) as (ro & H1 & H2). now rewrite H1, H2.
Qed.

Lemma nodes_nonleaf s s' l a (v : T) d r :
  nodes s' = nodes s -> s = Node l a v d r -> s' <> Leaf.
Proof.
  intros H -> ->. simpl in H. destruct (nodes l); discriminate.
Qed.

Lemma Retrace_Insert_tilted c m l n v d r added :
  wf (plug c (Node l n v d r)) ->
  rep m None (plug c (Node l n v d r)) ->
  avl l -> avl r -> (added = Dir.Left \/ added = Dir.Right) ->
  tilt_ok d (fst (old_heights added l r)) (snd (old_heights added l r)) ->
  grown_ok added l r ->
  cavl c (1 + Z.max (fst (old_heights added l r)) (snd (old_heights added l r))) ->
  d <> Dir.None ->
  exists m' T',
    (if negb (Dir.eqb d added) then Some (set_tilt m n Dir.None)
     else Some (_Rotate_Insert m n)) = Some m'
    /\ rep m' None T'
    /\ same_but (addrs (plug c (Node l n v d r))) m m'
    /\ nodes T' = nodes (plug c (Node l n v d r))
    /\ avl T'
    /\ root_shift m' (plug c (Node l n v d r)) T'.
Proof.
  intros Hwf Hrep Hl Hr Ha Ht Hg Hc Hd.
  destruct (Dir_eqb_spec d added) as [->|Hne]; cbn [negb].
  - destruct (rotate_insert_rep m c l n v added r Hwf Hrep Hl Hr Ha Ht Hg)
      as (S' & H1 & H2 & H3 & H4 & H5 & H6).
    exists (_Rotate_Insert m n), (plug c S'). split_all; auto.
    + now apply nodes_plug_same.
    + apply avl_plug. split; auto. now rewrite H5.
    + apply (root_shift_sub (_Rotate_Insert m n) c (Node l n v added r) S' n H1 eq_refl H6).
      eapply nodes_nonleaf; eauto.
  - destruct (set_tilt_rep m c l n v d r Dir.None Hwf Hrep) as [H1 H2].
    exists (set_tilt m n Dir.None), (plug c (Node l n v Dir.None r)).
    split_all; auto.
    + now apply nodes_plug_same.
    + apply avl_plug. split.
      * destruct Ha as [-> | ->]; destruct d; try congruence; avl_tac.
      * replace (height (Node l n v Dir.None r)) with
          (1 + Z.max (fst (old_heights added l r)) (snd (old_heights added l r))); auto.
        destruct Ha as [-> | ->]; destruct d; try congruence; avl_tac.
    + apply root_shift_same; auto. now apply root_plug_same.
Qed.

Lemma Retrace_Insert_rep c : forall m l n v d r added fuel,
  wf (plug c (Node l n v d r)) ->
  rep m None (plug c (Node l n v d r)) ->
  avl l -> avl r -> (added = Dir.Left \/ added = Dir.Right) ->
  tilt_ok d (fst (old_heights added l r)) (snd (old_heights added l r)) ->
  grown_ok added l r ->
  cavl c (1 + Z.max (fst (old_heights added l r)) (snd (old_heights added l r))) ->
  (length c < fuel)%nat ->
  exists m' T',
    Retrace_Insert fuel m (Some n) added = Some m'
    /\ rep m' None T'
    /\ same_but (addrs (plug c (Node l n v d r))) m m'
    /\ nodes T' = nodes (plug c (Node l n v d r))
    /\ avl T'
    /\ root_shift m' (plug c (Node l n v d r)) T'.
Proof.
  induction c as [|f c IH]; intros m l n v d r added fuel Hwf Hrep Hl Hr Ha Ht Hg Hc Hf;
    (destruct fuel as [|fuel]; [simpl in Hf; lia|]);
    cbn [Retrace_Insert];
    pose proof (rep_cell _ _ _ _ _ _ _ Hrep) as Hn; rewrite Hn; cbn [tilt];
    (destruct (Dir_eqb_spec Dir.None d) as [<-|Hd];
     [|apply Retrace_Insert_tilted; auto]);
    destruct (set_tilt_rep m _ l n v Dir.None r added Hwf Hrep) as [H1 H2];
    pose proof (wf_nodes (plug _ (Node l n v Dir.None r)) (plug _ (Node l n v added r))
                  (nodes_plug_same _ (Node l n v Dir.None r) (Node l n v added r) eq_refl) Hwf) as Hwf1;
    rewrite (NSafeParent_rep _ _ _ _ _ _ _ Hwf1 H1),
            (Branch_rep _ _ _ _ _ _ _ Hwf1 H1);
    cbn [cpar].
  - exists (set_tilt m n added), (Node l n v added r). split_all; auto.
    + now destruct fuel.
    + destruct Ha as [-> | ->]; avl_tac.
    + apply root_shift_same; auto.
  - assert (Hh : height (Node l n v added r)
                 = 1 + (1 + Z.max (fst (old_heights added l r)) (snd (old_heights added l r))))
      by (destruct Ha as [-> | ->]; avl_tac).
    assert (Hav : avl (Node l n v added r)) by (destruct Ha as [-> | ->]; avl_tac).
    assert (Hgr : added <> Dir.None) by (destruct Ha as [-> | ->]; congruence).
    set (H0 := 1 + Z.max (fst (old_heights added l r)) (snd (old_heights added l r))) in *.
    destruct f as [p vp dp sib|sib p vp dp]; cbn [faddr fside plug fill cavl] in *;
      destruct Hc as (Hsib & Htp & Hcc).
    + destruct (IH (set_tilt m n added) (Node l n v added r) p vp dp sib Dir.Left fuel
                  Hwf1 H1 Hav Hsib (or_introl eq_refl))
        as (m' & T' & E1 & E2 & E3 & E4 & E5 & E6).
      * rewrite old_heights_L. cbn [fst snd]. rewrite Hh.
        replace (1 + H0 - 1) with H0 by lia. exact Htp.
      * cbn. auto.
      * rewrite old_heights_L. cbn [fst snd]. rewrite Hh.
        replace (1 + H0 - 1) with H0 by lia. exact Hcc.
      * simpl in Hf. lia.
      * exists m', T'. split_all; auto.
        -- eapply same_but_trans; [exact H2|].
           eapply same_but_eq; [|exact E3].
           apply (addrs_plug_same (FrL p vp dp sib :: c) (Node l n v Dir.None r) (Node l n v added r) eq_refl).
        -- rewrite E4.
           apply (nodes_plug_same (FrL p vp dp sib :: c) (Node l n v Dir.None r) (Node l n v added r) eq_refl).
        -- intros ro Hro. apply E6. rewrite <- Hro.
           apply (root_plug_same (FrL p vp dp sib :: c) (Node l n v Dir.None r) (Node l n v added r) eq_refl).
    + destruct (IH (set_tilt m n added) sib p vp dp (Node l n v added r) Dir.Right fuel
                  Hwf1 H1 Hsib Hav (or_intror eq_refl))
        as (m' & T' & E1 & E2 & E3 & E4 & E5 & E6).
      * rewrite old_heights_R. cbn [fst snd]. rewrite Hh.
        replace (1 + H0 - 1) with H0 by lia. exact Htp.
      * cbn. auto.
      * rewrite old_heights_R. cbn [fst snd]. rewrite Hh.
        replace (1 + H0 - 1) with H0 by lia. exact Hcc.
      * simpl in Hf. lia.
      * exists m', T'. split_all; auto.
        -- eapply same_but_trans; [exact H2|].
           eapply same_but_eq; [|exact E3].
           apply (addrs_plug_same (FrR sib p vp dp :: c) (Node l n v Dir.None r) (Node l n v added r) eq_refl).
        -- rewrite E4.
           apply (nodes_plug_same (FrR sib p vp dp :: c) (Node l n v Dir.None r) (Node l n v added r) eq_refl).
        -- intros ro Hro. apply E6. rewrite <- Hro.
           apply (root_plug_same (FrR sib p vp dp :: c) (Node l n v Dir.None r) (Node l n v added r) eq_refl).
Qed.

(** ** The rotation of [Retrace_Erase] *)

Ltac end_rot_e :=
  split_all;
  [ apply rep_plug; cbn [repc rep cpar faddr root lnk plug fill];
    split_all; first [assumption | exact I]
  | assumption
  | nodes_tac
  | clear_mem; unfold imb in *; avl_tac
  | clear_mem; unfold imb in *; first [ left; split; [reflexivity|avl_tac]
          | right; split; [reflexivity|avl_tac] ] ].

Ltac rot_ers_pre :=
  match goal with
  | Hwf : wf _, Hrep : rep ?m None _ |- context [_Rotate_Erase ?m ?n] =>
      let Hnd := fresh "Hnd" in
      let Hrg := fresh "Hrg" in
      let res := fresh "res" in
      destruct Hwf as [Hnd Hrg];
      apply rep_plug in Hrep;
      cbn [repc rep cpar faddr root lnk] in Hrep;
      repeat match goal with H : _ /\ _ |- _ => destruct H end;
      set (res := _Rotate_Erase m n);
      wf_split Hnd Hrg; flat_goal;
      repeat match goal with H : same_but _ _ _ |- _ => flat_in H end;
      revert res; hide_body;
      cbv beta delta [_Rotate_Erase]; unfold_ptrs; rd;
      repeat (zeta1; rd)
  end.

Ltac rot_ers lemma :=
  match goal with
  | Hwf : wf _, Hrep : rep ?m None _ |- context [_Rotate_Erase ?m ?n] =>
      let Hrep' := fresh "Hrep" in
      let Hsame := fresh "Hsame" in
      destruct (lemma Hwf Hrep) as [Hrep' Hsame];
      rot_ers_pre; after_rot; repeat (zeta1; rd); show_body;
      cbn [fst snd]; end_rot_e
  end.

(** The RR case, whose rotation the source writes out in place; the facts
    on the heights are in the context. *)
Ltac rot_ers_rr :=
  match goal with
  | |- _ /\ same_but ?L ?m _ /\ _ =>
      pose proof (same_but_refl L m) as Hsame0
  end;
  rot_ers_pre; run; repeat (zeta1; rd); show_body;
  cbn [fst snd];
  split_all;
  [ apply rep_plug; cbn [repc rep cpar faddr root lnk plug fill];
    split_all; first [assumption | exact I]
  | assumption
  | nodes_tac
  | assumption
  | first [ left; split; [reflexivity|assumption]
          | right; split; [reflexivity|assumption] ] ].

Lemma rotate_erase_rep m c l z v d r :
  wf (plug c (Node l z v d r)) ->
  rep m None (plug c (Node l z v d r)) ->
  avl l -> avl r -> imb d l r ->
  exists S',
    rep (snd (_Rotate_Erase m z)) None (plug c S')
    /\ same_but (addrs (plug c (Node l z v d r))) m (snd (_Rotate_Erase m z))
    /\ nodes S' = nodes (Node l z v d r)
    /\ avl S'
    /\ ((fst (_Rotate_Erase m z) = None
         /\ height S' = 1 + Z.max (height l) (height r))
        \/ (fst (_Rotate_Erase m z) = root S'
            /\ height S' = Z.max (height l) (height r))).
Proof.
  intros Hwf Hrep Hl Hr Hi.
  destruct d; try contradiction.
  - destruct l as [|yl y vy dy yr]; [exfalso; unfold imb in *; avl_tac|].
    destruct dy.
    + exfalso; avl_tac.
    + destruct yl as [|xl x vx dx xr]; [exfalso; unfold imb in *; avl_tac|].
      exists (Node (Node xl x vx dx xr) y vy Dir.None (Node yr z v Dir.None r)).
      rot_ers (rot_LL_rep m c (Node xl x vx dx xr) y vy Dir.Left yr z v Dir.Left r).
    + destruct yl as [|xl x vx dx xr]; [exfalso; unfold imb in *; avl_tac|].
      exists (Node (Node xl x vx dx xr) y vy Dir.Right (Node yr z v Dir.Left r)).
      rot_ers (rot_LL_rep m c (Node xl x vx dx xr) y vy Dir.None yr z v Dir.Left r).
    + destruct yr as [|xl x vx dx xr]; [exfalso; unfold imb in *; avl_tac|].
      destruct dx.
      * exfalso; avl_tac.
      * exists (Node (Node yl y vy Dir.None xl) x vx Dir.None (Node xr z v Dir.Right r)).
        rot_ers (rot_LR_rep m c yl y vy Dir.Right xl x vx Dir.Left xr z v Dir.Left r).
      * exists (Node (Node yl y vy Dir.None xl) x vx Dir.None (Node xr z v Dir.None r)).
        rot_ers (rot_LR_rep m c yl y vy Dir.Right xl x vx Dir.None xr z v Dir.Left r).
      * exists (Node (Node yl y vy Dir.Left xl) x vx Dir.None (Node xr z v Dir.None r)).
        rot_ers (rot_LR_rep m c yl y vy Dir.Right xl x vx Dir.Right xr z v Dir.Left r).
  - destruct r as [|yl y vy dy yr]; [exfalso; unfold imb in *; avl_tac|].
    destruct dy.
    + exfalso; avl_tac.
    + destruct yl as [|xl x vx dx xr]; [exfalso; unfold imb in *; avl_tac|].
      destruct dx.
      * exfalso; avl_tac.
      * exists (Node (Node l z v Dir.None xl) x vx Dir.None (Node xr y vy Dir.Right yr)).
        rot_ers (rot_RL_rep m c l z v Dir.Right xl x vx Dir.Left xr y vy Dir.Left yr).
      * exists (Node (Node l z v Dir.None xl) x vx Dir.None (Node xr y vy Dir.None yr)).
        rot_ers (rot_RL_rep m c l z v Dir.Right xl x vx Dir.None xr y vy Dir.Left yr).
      * exists (Node (Node l z v Dir.Left xl) x vx Dir.None (Node xr y vy Dir.None yr)).
        rot_ers (rot_RL_rep m c l z v Dir.Right xl x vx Dir.Right xr y vy Dir.Left yr).
    + destruct yr as [|xl x vx dx xr]; [exfalso; unfold imb in *; avl_tac|].
      exists (Node (Node l z v Dir.Right yl) y vy Dir.Left (Node xl x vx dx xr)).
      assert (Hp : avl (Node (Node l z v Dir.Right yl) y vy Dir.Left (Node xl x vx dx xr))
                   /\ height (Node (Node l z v Dir.Right yl) y vy Dir.Left (Node xl x vx dx xr))
                      = 1 + Z.max (height l) (height (Node yl y vy Dir.None (Node xl x vx dx xr))))
        by (unfold imb in *; split; avl_tac).
      destruct Hp as [Hp1 Hp2].
      destruct yl as [|tl t vt dt tr]; rot_ers_rr.
    + destruct yr as [|xl x vx dx xr]; [exfalso; unfold imb in *; avl_tac|].
      exists (Node (Node l z v Dir.None yl) y vy Dir.None (Node xl x vx dx xr)).
      assert (Hp : avl (Node (Node l z v Dir.None yl) y vy Dir.None (Node xl x vx dx xr))
                   /\ height (Node (Node l z v Dir.None yl) y vy Dir.None (Node xl x vx dx xr))
                      = Z.max (height l) (height (Node yl y vy Dir.Right (Node xl x vx dx xr))))
        by (unfold imb in *; split; avl_tac).
      destruct Hp as [Hp1 Hp2].
      destruct yl as [|tl t vt dt tr]; rot_ers_rr.
Qed.

(** ** [Retrace_Erase] *)

Lemma old_heights_e_L l r : old_heights_e Dir.Left l r = (height l + 1, height r).
Proof. reflexivity. Qed.

Lemma old_heights_e_R l r : old_heights_e Dir.Right l r = (height l, height r + 1).
Proof. reflexivity. Qed.

Ltac avl_tac_e :=
  change (Dir.inv Dir.Left) with Dir.Right in *;
  change (Dir.inv Dir.Right) with Dir.Left in *;
  rewrite ?old_heights_e_L, ?old_heights_e_R in *; unfold imb in *; avl_tac.

Lemma Retrace_Erase_None fuel m d : Retrace_Erase fuel m None d = Some m.
Proof. now destruct fuel. Qed.

Lemma Retrace_Erase_step c :
  climbs c ->
  forall m l n v d r del fuel,
  wf (plug c (Node l n v d r)) ->
  rep m None (plug c (Node l n v d r)) ->
  avl l -> avl r -> (del = Dir.Left \/ del = Dir.Right) ->
  tilt_ok d (fst (old_heights_e del l r)) (snd (old_heights_e del l r)) ->
  cavl c (1 + Z.max (fst (old_heights_e del l r)) (snd (old_heights_e del l r))) ->
  (length c < fuel)%nat ->
  retrace_erase_post fuel m n del (plug c (Node l n v d r)).
Proof.
  intros Hclimb m l n v d r del fuel Hwf Hrep Hl Hr Ha Ht Hc Hf.
  destruct fuel as [|fuel]; [lia|].
  unfold retrace_erase_post. cbn [Retrace_Erase].
  pose proof (rep_cell _ _ _ _ _ _ _ Hrep) as Hn. rewrite Hn. cbn [tilt].
  assert (Hcont : forall m1 s a,
            root s = Some a -> nodes s = nodes (Node l n v d r) ->
            rep m1 None (plug c s) ->
            same_but (addrs (plug c (Node l n v d r))) m m1 ->
            avl s ->
            height s + 1 = 1 + Z.max (fst (old_heights_e del l r)) (snd (old_heights_e del l r)) ->
            exists m' t',
              Retrace_Erase fuel m1 (NSafeParent m1 a) (Branch m1 a) = Some m'
              /\ rep m' None t'
              /\ same_but (addrs (plug c (Node l n v d r))) m m'
              /\ nodes t' = nodes (plug c (Node l n v d r)) /\ avl t').
  { intros m1 s a Hroot Hnodes Hrep1 Hsame1 Hav Hh.
    assert (Hwf1 : wf (plug c s)) by (eapply wf_nodes; [|exact Hwf]; now apply nodes_plug_same).
    destruct s as [|sl a' sv sd sr]; [discriminate|]. injection Hroot as ->.
    rewrite (NSafeParent_rep _ _ _ _ _ _ _ Hwf1 Hrep1), (Branch_rep _ _ _ _ _ _ _ Hwf1 Hrep1).
    destruct (Hclimb fuel m1 (Node sl a sv sd sr) a Hwf1 Hrep1 eq_refl Hav)
      as (m' & t' & E1 & E2 & E3 & E4 & E5).
    - now rewrite Hh.
    - lia.
    - exists m', t'. split_all; auto.
      + eapply same_but_trans; [exact Hsame1|].
        eapply same_but_eq; [|exact E3]. now apply addrs_plug_same.
      + rewrite E4. now apply nodes_plug_same. }
  destruct (Dir_eqb_spec d Dir.None) as [->|Hdn].
  { (* balanced: the node tilts away, the height stays *)
    change (Dir.balanced Dir.None) with true. cbv iota.
    destruct (set_tilt_rep m c l n v Dir.None r (Dir.inv del) Hwf Hrep) as [H1 H2].
    exists (set_tilt m n (Dir.inv del)), (plug c (Node l n v (Dir.inv del) r)).
    split_all; auto.
    - now apply nodes_plug_same.
    - apply avl_plug. split.
      + destruct Ha as [-> | ->]; avl_tac_e.
      + replace (height (Node l n v (Dir.inv del) r)) with
          (1 + Z.max (fst (old_heights_e del l r)) (snd (old_heights_e del l r))); auto.
        destruct Ha as [-> | ->]; avl_tac_e. }
  replace (Dir.balanced d) with false by (destruct d; try reflexivity; congruence).
  cbv iota.
  destruct (Dir_eqb_spec d del) as [->|Hne].
  - (* the heavy side shrank: balanced now, one level lost *)
    destruct (set_tilt_rep m c l n v del r Dir.None Hwf Hrep) as [H1 H2].
    apply (Hcont (set_tilt m n Dir.None) (Node l n v Dir.None r) n); auto.
    + destruct Ha as [-> | ->]; avl_tac_e.
    + destruct Ha as [-> | ->]; avl_tac_e.
  - (* the light side shrank: rotation *)
    assert (Hi : imb d l r).
    { destruct Ha as [-> | ->]; destruct d; try congruence; avl_tac_e. }
    destruct (rotate_erase_rep m c l n v d r Hwf Hrep Hl Hr Hi)
      as (S' & R1 & R2 & R3 & R4 & R5).
    destruct (_Rotate_Erase m n) as [o m1]. cbn [fst snd] in *.
    destruct R5 as [[-> Hh] | [-> Hh]].
    + exists m1, (plug c S'). split_all; auto.
      * now apply nodes_plug_same.
      * apply avl_plug. split; auto.
        replace (height S') with
          (1 + Z.max (fst (old_heights_e del l r)) (snd (old_heights_e del l r))); auto.
        rewrite Hh. destruct Ha as [-> | ->]; destruct d; try congruence; avl_tac_e.
    + destruct S' as [|sl a sv sd sr].
      { exfalso. simpl in R3. destruct (nodes l); discriminate. }
      cbn [root].
      apply (Hcont m1 (Node sl a sv sd sr) a); auto.
      rewrite Hh. destruct Ha as [-> | ->]; destruct d; try congruence; avl_tac_e.
Qed.

Lemma climbs_all c : climbs c.
Proof.
  induction c as [|f c IH]; intros fuel m s a Hwf Hrep Hroot Hav Hc Hf.
  - cbn [cpar]. rewrite Retrace_Erase_None. exists m, s. split_all; auto.
    apply same_but_refl.
  - cbn [cpar].
    destruct f as [p vp dp sib|sib p vp dp]; cbn [faddr fside plug fill cavl] in *;
      destruct Hc as (Hsib & Htp & Hcc).
    + apply (Retrace_Erase_step c IH m s p vp dp sib Dir.Left fuel); auto;
        simpl in Hf; lia.
    + apply (Retrace_Erase_step c IH m sib p vp dp s Dir.Right fuel); auto;
        simpl in Hf; lia.
Qed.

Lemma Retrace_Erase_rep c m l n v d r del fuel :
  wf (plug c (Node l n v d r)) ->
  rep m None (plug c (Node l n v d r)) ->
  avl l -> avl r -> (del = Dir.Left \/ del = Dir.Right) ->
  tilt_ok d (fst (old_heights_e del l r)) (snd (old_heights_e del l r)) ->
  cavl c (1 + Z.max (fst (old_heights_e del l r)) (snd (old_heights_e del l r))) ->
  (length c < fuel)%nat ->
  retrace_erase_post fuel m n del (plug c (Node l n v d r)).
Proof. apply Retrace_Erase_step, climbs_all. Qed.

(** ** Contexts in two parts *)

Lemma plug_app c1 c2 t : plug (c1 ++ c2) t = plug c2 (plug c1 t).
Proof. revert t. induction c1 as [|f c1 IH]; intros t; simpl; auto. Qed.

Lemma last_cons_default {A} (c : list A) g f : last (g :: c) f = last c g.
Proof.
  revert g f. induction c as [|h c IH]; intros g f; [reflexivity|].
  change (last (g :: h :: c) f) with (last (h :: c) f).
  now rewrite (IH h f), (IH h g).
Qed.

Lemma root_plug_cbot f c t : root (plug (f :: c) t) = Some (cbot f c).
Proof.
  revert f t. induction c as [|g c IH]; intros f t.
  - simpl. apply root_fill.
  - change (plug (f :: g :: c) t) with (plug (g :: c) (fill f t)).
    rewrite IH. unfold cbot. now rewrite last_cons_default.
Qed.

Lemma caddrs_l_app c1 c2 : caddrs_l (c1 ++ c2) = caddrs_l c2 ++ caddrs_l c1.
Proof.
  unfold caddrs_l. induction c1 as [|f c1 IH]; simpl.
  - now rewrite app_nil_r.
  - rewrite !map_app, IH. now rewrite app_assoc.
Qed.

Lemma caddrs_r_app c1 c2 : caddrs_r (c1 ++ c2) = caddrs_r c1 ++ caddrs_r c2.
Proof.
  unfold caddrs_r. induction c1 as [|f c1 IH]; simpl; auto.
  rewrite !map_app, IH. now rewrite app_assoc.
Qed.

Lemma caddrs_l_nil : caddrs_l [] = [].
Proof. reflexivity. Qed.

Lemma caddrs_r_nil : caddrs_r [] = [].
Proof. reflexivity. Qed.

Lemma cbot_in f c : In (cbot f c) (caddrs_l (f :: c)) \/ In (cbot f c) (caddrs_r (f :: c)).
Proof.
  unfold cbot. revert f. induction c as [|g c IH]; intros f.
  - simpl. rewrite caddrs_l_cons, caddrs_r_cons. destruct f; simpl.
    + right. now left.
    + left. rewrite in_app_iff. right. now left.
  - rewrite last_cons_default.
    rewrite (caddrs_l_cons f), (caddrs_r_cons f).
    destruct (IH g) as [H|H]; [left|right]; rewrite in_app_iff; auto.
Qed.
(** ** [_SwapWith] on the represented tree *)

Ltac end_exec2 :=
  split;
  [ apply rep_plug; cbn [repc rep cpar faddr root lnk plug fill];
    split_all; try first [assumption | exact I];
    apply rep_plug; cbn [repc rep cpar faddr root lnk plug fill];
    split_all; first [assumption | exact I]
  | assumption ].

Lemma swap_succ_near m c ll al val dal lr n v d o vo do ro :
  wf (plug c (Node (Node ll al val dal lr) n v d (Node Leaf o vo do ro))) ->
  rep m None (plug c (Node (Node ll al val dal lr) n v d (Node Leaf o vo do ro))) ->
  rep (_SwapWith m n o) None
      (plug c (Node (Node ll al val dal lr) o vo d (Node Leaf n v do ro)))
  /\ same_but (addrs (plug c (Node (Node ll al val dal lr) n v d (Node Leaf o vo do ro))))
       m (_SwapWith m n o).
Proof.
  intros [Hnd Hrg] Hrep.
  apply rep_plug in Hrep.
  destruct Hrep as (Hc & Hn & (Hal & Hll & Hlr) & (Ho & _ & Hro)).
  set (m' := _SwapWith m n o).
  destruct ro as [|rl r vr dr rr]; cbn [rep cpar faddr root lnk] in *;
    repeat match goal with H : _ /\ _ |- _ => destruct H end.
  - begin_exec _SwapWith. end_exec.
  - begin_exec _SwapWith. end_exec.
Qed.

Lemma swap_succ_mid m c ll al val dal lr n v d o vo do ro ar var dar sibar :
  wf (plug c (Node (Node ll al val dal lr) n v d
                (Node (Node Leaf o vo do ro) ar var dar sibar))) ->
  rep m None (plug c (Node (Node ll al val dal lr) n v d
                (Node (Node Leaf o vo do ro) ar var dar sibar))) ->
  rep (_SwapWith m n o) None
      (plug c (Node (Node ll al val dal lr) o vo d
                (Node (Node Leaf n v do ro) ar var dar sibar)))
  /\ same_but (addrs (plug c (Node (Node ll al val dal lr) n v d
                (Node (Node Leaf o vo do ro) ar var dar sibar))))
       m (_SwapWith m n o).
Proof.
  intros [Hnd Hrg] Hrep.
  apply rep_plug in Hrep.
  destruct Hrep as (Hc & Hn & (Hal & Hll & Hlr) & (Har & (Ho & _ & Hro) & Hsib)).
  set (m' := _SwapWith m n o).
  destruct ro as [|rl r vr dr rr]; cbn [rep cpar faddr root lnk] in *;
    repeat match goal with H : _ /\ _ |- _ => destruct H end.
  - begin_exec _SwapWith. end_exec.
  - begin_exec _SwapWith. end_exec.
Qed.

Lemma swap_succ_far m c cm ll al val dal lr n v d o vo do ro pb vpb dpb sibpb
    ar var dar sibar :
  wf (plug c (Node (Node ll al val dal lr) n v d
        (Node (plug cm (Node (Node Leaf o vo do ro) pb vpb dpb sibpb))
              ar var dar sibar))) ->
  rep m None (plug c (Node (Node ll al val dal lr) n v d
        (Node (plug cm (Node (Node Leaf o vo do ro) pb vpb dpb sibpb))
              ar var dar sibar))) ->
  rep (_SwapWith m n o) None
      (plug c (Node (Node ll al val dal lr) o vo d
        (Node (plug cm (Node (Node Leaf n v do ro) pb vpb dpb sibpb))
              ar var dar sibar)))
  /\ same_but (addrs (plug c (Node (Node ll al val dal lr) n v d
        (Node (plug cm (Node (Node Leaf o vo do ro) pb vpb dpb sibpb))
              ar var dar sibar))))
       m (_SwapWith m n o).
Proof.
  intros [Hnd Hrg] Hrep.
  apply rep_plug in Hrep.
  destruct Hrep as (Hc & Hn & (Hal & Hll & Hlr) & (Har & Hin & Hsib)).
  apply rep_plug in Hin. destruct Hin as (Hcm & Hpb & (Ho & _ & Hro) & Hsibpb).
  set (m' := _SwapWith m n o).
  rewrite (root_plug_same cm (Node (Node Leaf n v do ro) pb vpb dpb sibpb)
             (Node (Node Leaf o vo do ro) pb vpb dpb sibpb) eq_refl) in Har.
  destruct ro as [|rl r vr dr rr]; cbn [rep cpar faddr root lnk] in *;
    repeat match goal with H : _ /\ _ |- _ => destruct H end.
  - begin_exec _SwapWith. end_exec2.
  - begin_exec _SwapWith. end_exec2.
Qed.

Lemma swap_pred_near m c lo o vo do n v d rl ar var dar rr :
  wf (plug c (Node (Node lo o vo do Leaf) n v d (Node rl ar var dar rr))) ->
  rep m None (plug c (Node (Node lo o vo do Leaf) n v d (Node rl ar var dar rr))) ->
  rep (_SwapWith m n o) None
      (plug c (Node (Node lo n v do Leaf) o vo d (Node rl ar var dar rr)))
  /\ same_but (addrs (plug c (Node (Node lo o vo do Leaf) n v d (Node rl ar var dar rr))))
       m (_SwapWith m n o).
Proof.
  intros [Hnd Hrg] Hrep.
  apply rep_plug in Hrep.
  destruct Hrep as (Hc & Hn & (Ho & Hlo & _) & (Har & Hrl & Hrr)).
  set (m' := _SwapWith m n o).
  destruct lo as [|xl x vx dx xr]; cbn [rep cpar faddr root lnk] in *;
    repeat match goal with H : _ /\ _ |- _ => destruct H end.
  - begin_exec _SwapWith. end_exec.
  - begin_exec _SwapWith. end_exec.
Qed.

Lemma swap_pred_mid m c sibal al val dal lo o vo do n v d rl ar var dar rr :
  wf (plug c (Node (Node sibal al val dal (Node lo o vo do Leaf)) n v d
                (Node rl ar var dar rr))) ->
  rep m None (plug c (Node (Node sibal al val dal (Node lo o vo do Leaf)) n v d
                (Node rl ar var dar rr))) ->
  rep (_SwapWith m n o) None
      (plug c (Node (Node sibal al val dal (Node lo n v do Leaf)) o vo d
                (Node rl ar var dar rr)))
  /\ same_but (addrs (plug c (Node (Node sibal al val dal (Node lo o vo do Leaf)) n v d
                (Node rl ar var dar rr))))
       m (_SwapWith m n o).
Proof.
  intros [Hnd Hrg] Hrep.
  apply rep_plug in Hrep.
  destruct Hrep as (Hc & Hn & (Hal & Hsib & (Ho & Hlo & _)) & (Har & Hrl & Hrr)).
  set (m' := _SwapWith m n o).
  destruct lo as [|xl x vx dx xr]; cbn [rep cpar faddr root lnk] in *;
    repeat match goal with H : _ /\ _ |- _ => destruct H end.
  - begin_exec _SwapWith. end_exec.
  - begin_exec _SwapWith. end_exec.
Qed.

Lemma swap_pred_far m c cm sibal al val dal sibpb pb vpb dpb lo o vo do n v d
    rl ar var dar rr :
  wf (plug c (Node (Node sibal al val dal
                (plug cm (Node sibpb pb vpb dpb (Node lo o vo do Leaf))))
              n v d (Node rl ar var dar rr))) ->
  rep m None (plug c (Node (Node sibal al val dal
                (plug cm (Node sibpb pb vpb dpb (Node lo o vo do Leaf))))
              n v d (Node rl ar var dar rr))) ->
  rep (_SwapWith m n o) None
      (plug c (Node (Node sibal al val dal
                (plug cm (Node sibpb pb vpb dpb (Node lo n v do Leaf))))
              o vo d (Node rl ar var dar rr)))
  /\ same_but (addrs (plug c (Node (Node sibal al val dal
                (plug cm (Node sibpb pb vpb dpb (Node lo o vo do Leaf))))
              n v d (Node rl ar var dar rr))))
       m (_SwapWith m n o).
Proof.
  intros [Hnd Hrg] Hrep.
  apply rep_plug in Hrep.
  destruct Hrep as (Hc & Hn & (Hal & Hsib & Hin) & (Har & Hrl & Hrr)).
  apply rep_plug in Hin. destruct Hin as (Hcm & Hpb & Hsibpb & (Ho & Hlo & _)).
  set (m' := _SwapWith m n o).
  rewrite (root_plug_same cm (Node sibpb pb vpb dpb (Node lo n v do Leaf))
             (Node sibpb pb vpb dpb (Node lo o vo do Leaf)) eq_refl) in Hal.
  destruct lo as [|xl x vx dx xr]; cbn [rep cpar faddr root lnk] in *;
    repeat match goal with H : _ /\ _ |- _ => destruct H end.
  - begin_exec _SwapWith. end_exec2.
  - begin_exec _SwapWith. end_exec2.
Qed.
(** ** Paths to the leftmost and the rightmost node *)

Lemma cnodes_l_all_left c : all_left c -> cnodes_l c = [].
Proof.
  induction 1 as [|f c Hf _ IH]; simpl; auto.
  rewrite IH. destruct f; [reflexivity|discriminate].
Qed.

Lemma cnodes_r_all_right c : all_right c -> cnodes_r c = [].
Proof.
  induction 1 as [|f c Hf _ IH]; simpl; auto.
  rewrite IH. destruct f; [discriminate|reflexivity].
Qed.

Lemma length_ctx c :
  (length c <= length (cnodes_l c) + length (cnodes_r c))%nat.
Proof.
  induction c as [|f c IH]; simpl; auto.
  rewrite !length_app. destruct f; simpl; rewrite ?length_app; simpl; lia.
Qed.

Lemma length_plug c t :
  (length c + length (nodes t) <= length (nodes (plug c t)))%nat.
Proof.
  rewrite nodes_plug, !length_app. pose proof (length_ctx c). lia.
Qed.

Lemma tree_split t a :
  In a (addrs t) -> exists c l v d r, t = plug c (Node l a v d r).
Proof.
  induction t as [|l IHl b w e r IHr]; [intros []|].
  rewrite addrs_node. intros [H|[->|H]].
  - destruct (IHl H) as (c & l' & v & d & r' & ->).
    exists (c ++ [FrL b w e r]), l', v, d, r'. now rewrite plug_app.
  - now exists [], l, w, e, r.
  - destruct (IHr H) as (c & l' & v & d & r' & ->).
    exists (c ++ [FrR l b w e]), l', v, d, r'. now rewrite plug_app.
Qed.

Lemma descend_left_rep m : forall r par a fuel,
  rep m par r -> NoDup (addrs r) -> root r = Some a ->
  (length (nodes r) <= fuel)%nat ->
  exists cm o vo do ro,
    r = plug cm (Node Leaf o vo do ro) /\ all_left cm
    /\ descend_left fuel m a = Some o.
Proof.
  induction r as [|rl IHl b w e rr _]; intros par a fuel Hrep Hnd Hroot Hf;
    [discriminate|].
  injection Hroot as <-. destruct Hrep as (Hb & Hl & _).
  simpl in Hf. rewrite length_app in Hf. simpl in Hf.
  destruct fuel as [|fuel]; [lia|]. cbn [descend_left]. rewrite Hb. cbn [left].
  destruct rl as [|x1 c1 x2 x3 x4].
  - exists [], b, w, e, rr. repeat split; auto. constructor.
  - rewrite addrs_Node in Hnd. apply nd_app in Hnd. destruct Hnd as (Hs & Hn1 & Hn2).
    assert (Hne : b <> c1).
    { intros ->. apply (Hs c1).
      - rewrite addrs_Node. apply in_or_app. right. now left.
      - now left. }
    unfold Nleft, _Ptr. rewrite Hb. cbn [left root lnk].
    rewrite link_nz by neq_tac. rewrite ptr_link.
    destruct (IHl (Some b) c1 fuel Hl Hn1 eq_refl) as (cm & o & vo & do & ro & E & Ha & Hd).
    { lia. }
    exists (cm ++ [FrL b w e rr]), o, vo, do, ro. split_all.
    + now rewrite plug_app, <- E.
    + apply Forall_app. split; [assumption | repeat constructor].
    + exact Hd.
Qed.

Lemma descend_right_rep m : forall r par a fuel,
  rep m par r -> NoDup (addrs r) -> root r = Some a ->
  (length (nodes r) <= fuel)%nat ->
  exists cm lo o vo do,
    r = plug cm (Node lo o vo do Leaf) /\ all_right cm
    /\ descend_right fuel m a = Some o.
Proof.
  induction r as [|rl _ b w e rr IHr]; intros par a fuel Hrep Hnd Hroot Hf;
    [discriminate|].
  injection Hroot as <-. destruct Hrep as (Hb & _ & Hr).
  simpl in Hf. rewrite length_app in Hf. simpl in Hf.
  destruct fuel as [|fuel]; [lia|]. cbn [descend_right]. rewrite Hb. cbn [right].
  destruct rr as [|x1 c1 x2 x3 x4].
  - exists [], rl, b, w, e. repeat split; auto. constructor.
  - rewrite addrs_Node in Hnd. apply nd_app in Hnd. destruct Hnd as (Hs & Hn1 & Hn2).
    apply nd_cons in Hn2. destruct Hn2 as [Hni Hn2].
    assert (Hne : b <> c1).
    { intros ->. apply Hni. rewrite addrs_Node. apply in_or_app. right. now left. }
    unfold Nright, _Ptr. rewrite Hb. cbn [right root lnk].
    rewrite link_nz by neq_tac. rewrite ptr_link.
    destruct (IHr (Some b) c1 fuel Hr Hn2 eq_refl) as (cm & lo & o & vo & do & E & Ha & Hd).
    { lia. }
    exists (cm ++ [FrR rl b w e]), lo, o, vo, do. split_all.
    + now rewrite plug_app, <- E.
    + apply Forall_app. split; [assumption | repeat constructor].
    + exact Hd.
Qed.

Lemma swap_succ_rep m c ll al val dal lr n v d cm o vo do ro :
  all_left cm ->
  wf (plug c (Node (Node ll al val dal lr) n v d (plug cm (Node Leaf o vo do ro)))) ->
  rep m None (plug c (Node (Node ll al val dal lr) n v d (plug cm (Node Leaf o vo do ro)))) ->
  rep (_SwapWith m n o) None
      (plug c (Node (Node ll al val dal lr) o vo d (plug cm (Node Leaf n v do ro))))
  /\ same_but (addrs (plug c (Node (Node ll al val dal lr) n v d
                                (plug cm (Node Leaf o vo do ro)))))
       m (_SwapWith m n o).
Proof.
  intros Hcm. destruct cm as [|g cm1 _] using rev_ind.
  - apply swap_succ_near.
  - apply Forall_app in Hcm. destruct Hcm as [Hcm1 Hg].
    apply Forall_inv in Hg. destruct g as [ar var dar sibar|]; [|discriminate].
    rewrite !plug_app. cbn [plug fill].
    destruct cm1 as [|f cm2].
    + apply swap_succ_mid.
    + apply Forall_inv in Hcm1. destruct f as [pb vpb dpb sibpb|]; [|discriminate].
      cbn [plug fill]. apply swap_succ_far.
Qed.

Lemma swap_pred_rep m c cm lo o vo do n v d rl ar var dar rr :
  all_right cm ->
  wf (plug c (Node (plug cm (Node lo o vo do Leaf)) n v d (Node rl ar var dar rr))) ->
  rep m None (plug c (Node (plug cm (Node lo o vo do Leaf)) n v d (Node rl ar var dar rr))) ->
  rep (_SwapWith m n o) None
      (plug c (Node (plug cm (Node lo n v do Leaf)) o vo d (Node rl ar var dar rr)))
  /\ same_but (addrs (plug c (Node (plug cm (Node lo o vo do Leaf)) n v d
                                (Node rl ar var dar rr))))
       m (_SwapWith m n o).
Proof.
  intros Hcm. destruct cm as [|g cm1 _] using rev_ind.
  - apply swap_pred_near.
  - apply Forall_app in Hcm. destruct Hcm as [Hcm1 Hg].
    apply Forall_inv in Hg. destruct g as [|sibal al val dal]; [discriminate|].
    rewrite !plug_app. cbn [plug fill].
    destruct cm1 as [|f cm2].
    + apply swap_pred_mid.
    + apply Forall_inv in Hcm1. destruct f as [|sibpb pb vpb dpb]; [discriminate|].
      cbn [plug fill]. apply swap_pred_far.
Qed.

Lemma Root_plug m : forall c t a fuel,
  root t = Some a -> rep m None (plug c t) -> wf (plug c t) ->
  (length c < fuel)%nat ->
  Root fuel m a = root (plug c t).
Proof.
  induction c as [|f c IH]; intros t a fuel Hroot Hrep Hwf Hf;
    destruct t as [|l b v d r]; try discriminate; injection Hroot as ->;
    (destruct fuel as [|fuel]; [simpl in Hf; lia|]);
    pose proof (rep_cell _ _ _ _ _ _ _ Hrep) as Ha;
    cbn [Root]; rewrite Ha; cbn [parent cpar lnk].
  - reflexivity.
  - assert (Hne : a <> faddr f).
    { destruct Hwf as [Hnd Hrg]. destruct f; wf_split Hnd Hrg; neq_tac. }
    rewrite link_nz by neq_tac.
    unfold Nparent, _Ptr. rewrite Ha. cbn [parent cpar lnk]. rewrite ptr_link.
    cbn [plug]. apply IH; auto.
    + apply root_fill.
    + simpl in Hf. lia.
Qed.

Lemma Root_rep m t a fuel :
  rep m None t -> wf t -> In a (addrs t) ->
  (length (nodes t) <= fuel)%nat ->
  Root fuel m a = root t.
Proof.
  intros Hrep Hwf Hin Hf.
  destruct (tree_split t a Hin) as (c & l & v & d & r & ->).
  apply Root_plug; auto.
  pose proof (length_plug c (Node l a v d r)). simpl in H.
  rewrite length_app in H. simpl in H. lia.
Qed.
(** ** The node leaves the tree *)

Ltac run_open :=
  repeat (rd; first [zeta0 | write1 | block1 | zeta1]); rd.

Lemma wf_remove c l n v d r t' :
  wf (plug c (Node l n v d r)) ->
  nodes t' = cnodes_l c ++ nodes l ++ nodes r ++ cnodes_r c ->
  wf t'.
Proof.
  unfold wf, addrs. rewrite nodes_plug. cbn [nodes]. intros [Hnd Hrg] ->.
  rewrite <- !app_assoc in *. rewrite !map_app in *. cbn [map fst app] in *.
  rewrite (app_assoc (map fst (cnodes_l c))) in *.
  split.
  - now apply NoDup_remove_1 in Hnd.
  - apply Forall_app in Hrg. destruct Hrg as [H1 H2].
    apply Forall_inv_tail in H2. apply Forall_app. now split.
Qed.

Lemma addrs_remove_incl c l n (v : T) d r t' :
  nodes t' = cnodes_l c ++ nodes l ++ nodes r ++ cnodes_r c ->
  incl (addrs t') (addrs (plug c (Node l n v d r))).
Proof.
  unfold addrs. rewrite nodes_plug. cbn [nodes]. intros -> a.
  rewrite !map_app. cbn [map]. rewrite !in_app_iff. simpl.
  rewrite ?in_app_iff. tauto.
Qed.

Lemma unlink_finish m m2 c f s l n v d r fuel :
  wf (plug (f :: c) (Node l n v d r)) ->
  nodes s = nodes l ++ nodes r ->
  height (Node l n v d r) = height s + 1 ->
  avl s -> cavl (f :: c) (height (Node l n v d r)) ->
  rep m2 None (plug c (fill f s)) ->
  same_but (addrs (plug (f :: c) (Node l n v d r))) m m2 ->
  (length (nodes (plug (f :: c) (Node l n v d r))) <= fuel)%nat ->
  exists m' t',
    match Retrace_Erase fuel m2 (Some (faddr f)) (fside f) with
    | Some m1 =>
        match Root fuel m1 (faddr f) with
        | Some ro => Some (Some ro, m1)
        | None => None
        end
    | None => None
    end = Some (root t', m')
    /\ rep m' None t'
    /\ same_but (addrs (plug (f :: c) (Node l n v d r))) m m'
    /\ nodes t' = cnodes_l (f :: c) ++ nodes l ++ nodes r ++ cnodes_r (f :: c)
    /\ avl t'.
Proof.
  intros Hwf Hnodes Hh Hs Hc Hrep Hsame Hf.
  assert (Hn2 : nodes (plug c (fill f s))
                = cnodes_l (f :: c) ++ nodes l ++ nodes r ++ cnodes_r (f :: c)).
  { rewrite nodes_plug, nodes_fill, Hnodes. simpl. now rewrite <- !app_assoc. }
  pose proof (wf_remove _ _ _ _ _ _ _ Hwf Hn2) as Hwf2.
  pose proof (addrs_remove_incl _ _ n v d _ _ Hn2) as Hincl.
  assert (Hlen : (length (nodes (plug c (fill f s))) < fuel)%nat).
  { rewrite Hn2. rewrite nodes_plug in Hf. cbn [nodes] in Hf.
    rewrite !length_app in Hf |- *. cbn [length] in Hf. lia. }
  assert (Hpost : retrace_erase_post fuel m2 (faddr f) (fside f) (plug c (fill f s))).
  { pose proof (length_plug c (fill f s)) as Hlp.
    rewrite Hh in Hc.
    destruct f as [p vp dp sib|sib p vp dp]; cbn [fill faddr fside cavl] in *;
      destruct Hc as (Hsib & Htp & Hcc); simpl in Hlp; rewrite length_app in Hlp;
      simpl in Hlp;
      apply Retrace_Erase_rep; auto; try lia;
      rewrite ?old_heights_e_L, ?old_heights_e_R; cbn [fst snd];
      assumption. }
  destruct Hpost as (m' & t' & E1 & E2 & E3 & E4 & E5).
  rewrite E1.
  assert (Hwf' : wf t') by (eapply wf_nodes; eauto).
  assert (Hin : In (faddr f) (addrs t')).
  { unfold addrs. rewrite E4, nodes_plug, nodes_fill, !map_app, !in_app_iff.
    right. left. destruct f; simpl; rewrite ?map_app, ?in_app_iff; simpl; auto. }
  rewrite (Root_rep m' t' (faddr f) fuel E2 Hwf' Hin) by (rewrite E4; lia).
  exists m', t'. split_all; auto.
  - destruct t'; [destruct Hin|reflexivity].
  - eapply same_but_trans; [exact Hsame|].
    eapply same_but_incl; [exact Hincl|exact E3].
  - now rewrite E4.
Qed.

Ltac unlink_case m n v d fuel c f s l r :=
  match goal with
  | |- context [Retrace_Erase fuel ?m2 _ _] =>
      apply (unlink_finish m m2 c f s l n v d r fuel);
      [ assumption
      | simpl; now rewrite ?app_nil_r
      | cbn [height]; height_facts; lia
      | first [ exact I | cbn [avl] in *; tauto ]
      | assumption
      | apply rep_plug; cbn [repc rep cpar faddr root lnk plug fill];
        split_all; first [assumption | exact I]
      | flat_goal; assumption
      | assumption ]
  end.

Lemma erase_unlink_rep m c l n v d r fuel outRoot :
  wf (plug c (Node l n v d r)) ->
  rep m None (plug c (Node l n v d r)) ->
  avl (plug c (Node l n v d r)) ->
  l = Leaf \/ r = Leaf ->
  (length (nodes (plug c (Node l n v d r))) <= fuel)%nat ->
  exists m' t',
    erase_unlink fuel m outRoot n = Some (root t', m')
    /\ rep m' None t'
    /\ same_but (addrs (plug c (Node l n v d r))) m m'
    /\ nodes t' = cnodes_l c ++ nodes l ++ nodes r ++ cnodes_r c
    /\ avl t'.
Proof.
  intros Hwf Hrep Havl Hlr Hf.
  pose proof Hwf as [Hnd Hrg].
  apply avl_plug in Havl. destruct Havl as [Hn Hcavl].
  apply rep_plug in Hrep. destruct Hrep as (Hc & Hcell & Hl & Hr).
  destruct c as [|[p vp dp sib|sib p vp dp] c'];
    destruct l as [|l1 b vb db l2]; destruct r as [|r1 e ve de r2];
    try (exfalso; destruct Hlr; discriminate); clear Hlr;
    cbn [rep repc cpar faddr root lnk] in *;
    repeat match goal with H : _ /\ _ |- _ => destruct H end;
    wf_split Hnd Hrg;
    match goal with
    | |- context [same_but ?L m _] =>
        pose proof (same_but_refl L m) as Hsame; flat_in Hsame
    end;
    cbv beta delta [erase_unlink splice_under]; unfold_ptrs; run_open.
  - exists m, Leaf. simpl. split_all; auto.
  - eexists _, (Node r1 e ve de r2).
    split_all; [ reflexivity | cbn [rep lnk]; split_all; assumption
               | flat_goal; assumption
               | simpl; now rewrite ?app_nil_r | apply Hn ].
  - eexists _, (Node l1 b vb db l2).
    split_all; [ reflexivity | cbn [rep lnk]; split_all; assumption
               | flat_goal; assumption
               | simpl; now rewrite ?app_nil_r | apply Hn ].
  - unlink_case m n v d fuel c' (FrL p vp dp sib) (@Leaf) (@Leaf) (@Leaf).
  - unlink_case m n v d fuel c' (FrL p vp dp sib) (Node r1 e ve de r2) (@Leaf)
      (Node r1 e ve de r2).
  - unlink_case m n v d fuel c' (FrL p vp dp sib) (Node l1 b vb db l2)
      (Node l1 b vb db l2) (@Leaf).
  - unlink_case m n v d fuel c' (FrR sib p vp dp) (@Leaf) (@Leaf) (@Leaf).
  - unlink_case m n v d fuel c' (FrR sib p vp dp) (Node r1 e ve de r2) (@Leaf)
      (Node r1 e ve de r2).
  - unlink_case m n v d fuel c' (FrR sib p vp dp) (Node l1 b vb db l2)
      (Node l1 b vb db l2) (@Leaf).
Qed.
(** ** [_EraseNode] *)

Ltac len_in H :=
  repeat first [ rewrite nodes_plug in H | rewrite length_app in H
               | progress cbn [nodes length] in H ].
Ltac len_goal :=
  repeat first [ rewrite nodes_plug | rewrite length_app
               | progress cbn [nodes length] ].

Lemma height_plug_same c t t' :
  height t' = height t -> height (plug c t') = height (plug c t).
Proof.
  revert t t'. induction c as [|f c IH]; intros t t' H; simpl; auto.
  apply IH. destruct f; simpl; now rewrite H.
Qed.

Lemma cnodes_l_app c1 c2 : cnodes_l (c1 ++ c2) = cnodes_l c2 ++ cnodes_l c1.
Proof.
  induction c1 as [|f c1 IH]; simpl.
  - now rewrite app_nil_r.
  - now rewrite IH, app_assoc.
Qed.

Lemma cnodes_r_app c1 c2 : cnodes_r (c1 ++ c2) = cnodes_r c1 ++ cnodes_r c2.
Proof.
  induction c1 as [|f c1 IH]; simpl; auto.
  now rewrite IH, app_assoc.
Qed.

Lemma avl_plug_same c t t' :
  height t' = height t -> (avl t -> avl t') -> avl (plug c t) -> avl (plug c t').
Proof.
  intros Hh Ha H. apply avl_plug in H. apply avl_plug. rewrite Hh. tauto.
Qed.

Lemma avl_swapped_r c l n (v : T) d cm o (vo : T) do ro :
  avl (plug c (Node l n v d (plug cm (Node Leaf o vo do ro)))) ->
  avl (plug c (Node l o vo d (plug cm (Node Leaf n v do ro)))).
Proof.
  apply avl_plug_same.
  - cbn [height]. f_equal. f_equal. now apply height_plug_same.
  - cbn [avl]. intros (H1 & H2 & H3). split_all; auto.
    + revert H2. apply avl_plug_same; auto.
    + rewrite (height_plug_same cm (Node Leaf o vo do ro) (Node Leaf n v do ro));
        auto.
Qed.

Lemma avl_swapped_l c cm lo o (vo : T) do n (v : T) d r :
  avl (plug c (Node (plug cm (Node lo o vo do Leaf)) n v d r)) ->
  avl (plug c (Node (plug cm (Node lo n v do Leaf)) o vo d r)).
Proof.
  apply avl_plug_same.
  - cbn [height]. f_equal. f_equal. now apply height_plug_same.
  - cbn [avl]. intros (H1 & H2 & H3). split_all; auto.
    + revert H1. apply avl_plug_same; auto.
    + rewrite (height_plug_same cm (Node lo o vo do Leaf) (Node lo n v do Leaf));
        auto.
Qed.

Lemma wf_perm t t' : Permutation (nodes t) (nodes t') -> wf t -> wf t'.
Proof.
  unfold wf, addrs. intros Hp [H1 H2].
  pose proof (Permutation_map fst Hp) as Hp'. split.
  - eapply Permutation_NoDup; eauto.
  - eapply Permutation_Forall; eauto.
Qed.

Lemma same_but_perm L L' m m' :
  Permutation L L' -> same_but L m m' -> same_but L' m m'.
Proof.
  intros Hp H b Hb. apply H. intros Hi. apply Hb.
  eapply Permutation_in; eauto.
Qed.

Lemma tilt_code_nz d hl hr : tilt_ok d hl hr -> (0 =? Dir.code d) = false.
Proof. destruct d; simpl; intros H; auto; contradiction. Qed.

Lemma erase_swap_rep m c l n v d r fuel :
  wf (plug c (Node l n v d r)) ->
  rep m None (plug c (Node l n v d r)) ->
  avl (plug c (Node l n v d r)) ->
  (length (nodes (plug c (Node l n v d r))) <= fuel)%nat ->
  exists m1 c1 l1 d1 r1,
    erase_swap fuel m n = Some m1
    /\ wf (plug c1 (Node l1 n v d1 r1))
    /\ rep m1 None (plug c1 (Node l1 n v d1 r1))
    /\ avl (plug c1 (Node l1 n v d1 r1))
    /\ (l1 = Leaf \/ r1 = Leaf)
    /\ same_but (addrs (plug c (Node l n v d r))) m m1
    /\ Permutation (nodes (plug c (Node l n v d r))) (nodes (plug c1 (Node l1 n v d1 r1)))
    /\ cnodes_l c1 ++ nodes l1 ++ nodes r1 ++ cnodes_r c1
       = cnodes_l c ++ nodes l ++ nodes r ++ cnodes_r c.
Proof.
  intros Hwf Hrep Havl Hf.
  pose proof (rep_cell _ _ _ _ _ _ _ Hrep) as Hn.
  assert (Hkeep : l = Leaf \/ r = Leaf ->
    exists m1 c1 l1 d1 r1,
    Some m = Some m1
    /\ wf (plug c1 (Node l1 n v d1 r1))
    /\ rep m1 None (plug c1 (Node l1 n v d1 r1))
    /\ avl (plug c1 (Node l1 n v d1 r1))
    /\ (l1 = Leaf \/ r1 = Leaf)
    /\ same_but (addrs (plug c (Node l n v d r))) m m1
    /\ Permutation (nodes (plug c (Node l n v d r))) (nodes (plug c1 (Node l1 n v d1 r1)))
    /\ cnodes_l c1 ++ nodes l1 ++ nodes r1 ++ cnodes_r c1
       = cnodes_l c ++ nodes l ++ nodes r ++ cnodes_r c).
  { intros H. exists m, c, l, d, r. split_all; auto. apply same_but_refl. }
  unfold erase_swap. rewrite Hn. cbn [left right tilt].
  destruct l as [|l1 b vb db l2]; [cbn [root lnk]; simpl; auto|].
  destruct r as [|r1 e ve de r2];
    [cbn [root lnk]; rewrite Z.eqb_refl, andb_false_r; auto|].
  clear Hkeep.
  assert (Hne : n <> b /\ n <> e).
  { pose proof Hwf as [Hnd Hrg]. wf_split Hnd Hrg. split; neq_tac. }
  destruct Hne as [Hnb Hne].
  cbn [root lnk]. rewrite !link_nz by neq_tac. cbn [negb andb].
  pose proof Hrep as Hrep'. apply rep_plug in Hrep'.
  destruct Hrep' as (_ & _ & Hl & Hr).
  pose proof Hwf as [Hnd _]. rewrite addrs_plug_eq, addrs_Node in Hnd.
  apply nd_app in Hnd. destruct Hnd as (_ & _ & Hnd).
  apply nd_app in Hnd. destruct Hnd as (_ & Hnd & _).
  apply nd_app in Hnd. destruct Hnd as (_ & Hndl & Hndr).
  apply nd_cons in Hndr. destruct Hndr as (_ & Hndr).
  assert (Hlen : (length (nodes (Node l1 b vb db l2)) <= fuel
                  /\ length (nodes (Node r1 e ve de r2)) <= fuel)%nat).
  { len_in Hf. len_goal. lia. }
  destruct Hlen as [Hlenl Hlenr].
  unfold Nright, Nleft, _Ptr. rewrite Hn. cbn [left right root lnk].
  rewrite !ptr_link.
  apply avl_plug in Havl. destruct Havl as (Havn & Hcavl).
  destruct (Dir_eqb_spec d Dir.Right) as [->|Hd].
  - change (Dir.eqb Dir.Right Dir.Right) with true. cbv iota.
    destruct (descend_left_rep m _ _ e fuel Hr Hndr eq_refl Hlenr)
      as (cm & o & vo & do & ro & E & Hcm & Hd).
    rewrite Hd. rewrite E in *.
    destruct (swap_succ_rep m c l1 b vb db l2 n v Dir.Right cm o vo do ro Hcm Hwf Hrep)
      as [S1 S2].
    exists (_SwapWith m n o), (cm ++ FrR (Node l1 b vb db l2) o vo Dir.Right :: c),
      Leaf, do, ro.
    rewrite !plug_app. cbn [plug fill].
    assert (Hperm : Permutation
      (nodes (plug c (Node (Node l1 b vb db l2) n v Dir.Right
                        (plug cm (Node Leaf o vo do ro)))))
      (nodes (plug c (Node (Node l1 b vb db l2) o vo Dir.Right
                        (plug cm (Node Leaf n v do ro)))))).
    { rewrite !nodes_plug. cbn [nodes]. rewrite !nodes_plug.
      rewrite (cnodes_l_all_left cm Hcm). cbn [nodes app].
      apply Permutation_app_head. apply Permutation_app_tail.
      apply Permutation_app_head. apply perm_swap. }
    split_all; auto.
    + eapply wf_perm; eauto.
    + apply avl_swapped_r. apply avl_plug. now split.
    + rewrite cnodes_l_app, cnodes_r_app, nodes_plug.
      rewrite (cnodes_l_all_left cm Hcm). cbn [cnodes_l cnodes_r fnodes_l fnodes_r nodes app].
      rewrite <- !app_assoc. reflexivity.
  - replace (Dir.eqb d Dir.Right) with false
      by (destruct d; try reflexivity; congruence).
    destruct (descend_right_rep m _ _ b fuel Hl Hndl eq_refl Hlenl)
      as (cm & lo & o & vo & do & E & Hcm & Hde).
    rewrite Hde. rewrite E in *.
    destruct (swap_pred_rep m c cm lo o vo do n v d r1 e ve de r2 Hcm Hwf Hrep)
      as [S1 S2].
    exists (_SwapWith m n o), (cm ++ FrL o vo d (Node r1 e ve de r2) :: c),
      lo, do, Leaf.
    rewrite !plug_app. cbn [plug fill].
    assert (Hperm : Permutation
      (nodes (plug c (Node (plug cm (Node lo o vo do Leaf)) n v d
                        (Node r1 e ve de r2))))
      (nodes (plug c (Node (plug cm (Node lo n v do Leaf)) o vo d
                        (Node r1 e ve de r2))))).
    { rewrite !nodes_plug. cbn [nodes]. rewrite !nodes_plug.
      rewrite (cnodes_r_all_right cm Hcm). cbn [nodes]. rewrite !app_nil_r.
      apply Permutation_app_head. apply Permutation_app_tail.
      rewrite <- !app_assoc. apply Permutation_app_head.
      apply Permutation_app_head. cbn [app]. apply perm_swap. }
    split_all; auto.
    + eapply wf_perm; eauto.
    + apply avl_swapped_l. apply avl_plug. now split.
    + rewrite cnodes_l_app, cnodes_r_app, nodes_plug.
      rewrite (cnodes_r_all_right cm Hcm).
      cbn [cnodes_l cnodes_r fnodes_l fnodes_r nodes app].
      rewrite <- !app_assoc. rewrite ?app_nil_r. reflexivity.
Qed.

Lemma erase_reset_other m n b : b <> n -> erase_reset m n b = m b.
Proof.
  intros H. unfold erase_reset.
  now rewrite set_parent_other, set_left_other, set_right_other.
Qed.

Lemma EraseNode_rep m c l n v d r fuel outRoot :
  wf (plug c (Node l n v d r)) ->
  rep m None (plug c (Node l n v d r)) ->
  avl (plug c (Node l n v d r)) ->
  (length (nodes (plug c (Node l n v d r))) <= fuel)%nat ->
  exists m' t',
    _EraseNode fuel m outRoot (Some n) = Some (true, root t', m')
    /\ rep m' None t'
    /\ same_but (addrs (plug c (Node l n v d r))) m m'
    /\ nodes t' = cnodes_l c ++ nodes l ++ nodes r ++ cnodes_r c
    /\ avl t'.
Proof.
  intros Hwf Hrep Havl Hf.
  pose proof (rep_cell _ _ _ _ _ _ _ Hrep) as Hn.
  assert (Hd : (0 =? Dir.code d) = false).
  { apply avl_plug in Havl. destruct Havl as [(_ & _ & Ht) _].
    eapply tilt_code_nz; eauto. }
  cbn [_EraseNode]. unfold IsEmpty. rewrite Hn. cbn [tilt]. rewrite Hd.
  destruct (erase_swap_rep m c l n v d r fuel Hwf Hrep Havl Hf)
    as (m1 & c1 & l1 & d1 & r1 & E1 & Hwf1 & Hrep1 & Havl1 & Hlr & Hs1 & Hp & Hnodes).
  rewrite E1.
  destruct (erase_unlink_rep m1 c1 l1 n v d1 r1 fuel outRoot Hwf1 Hrep1 Havl1 Hlr)
    as (m2 & t' & E2 & Hrep2 & Hs2 & Hn2 & Havl2).
  { rewrite <- (Permutation_length Hp). exact Hf. }
  rewrite E2.
  exists (erase_reset m2 n), t'.
  assert (Hin : In n (addrs (plug c (Node l n v d r)))).
  { rewrite addrs_plug_eq, addrs_Node. in_tac. }
  assert (Hnin : ~ In n (addrs t')).
  { destruct Hwf as [Hnd _]. unfold addrs in *. rewrite Hn2, Hnodes.
    rewrite nodes_plug in Hnd. cbn [nodes] in Hnd.
    rewrite <- !app_assoc, !map_app in Hnd. cbn [map fst app] in Hnd.
    rewrite (app_assoc (map fst (cnodes_l c))) in Hnd.
    apply NoDup_remove_2 in Hnd. rewrite !map_app. rewrite <- app_assoc in Hnd.
    exact Hnd. }
  split_all; auto.
  - apply (rep_frame [n] m2); auto.
    + intros b Hb. apply erase_reset_other. intros ->. apply Hb. now left.
    + intros a Ha [<-|[]]. auto.
  - intros b Hb. rewrite erase_reset_other by (intros ->; auto).
    rewrite Hs2, Hs1; auto.
    intros Hi. apply Hb. eapply Permutation_in; [|exact Hi].
    apply Permutation_sym. apply (Permutation_map fst Hp).
  - now rewrite Hn2.
Qed.
(** ** Searching *)

Section Sound.

Hypothesis Hswo : strict_weak_order.
Hypothesis HNsize : 0 < Nsize.

Lemma less_irrefl x : less x x = false.
Proof. apply Hswo. Qed.

Lemma less_trans x y z : lt x y -> lt y z -> lt x z.
Proof. destruct Hswo as (_ & H & _). apply H. Qed.

Lemma less_asym x y : lt x y -> less y x = false.
Proof.
  intros H. destruct (less y x) eqn:E; auto.
  pose proof (less_trans _ _ _ H E) as H1. unfold lt in H1.
  now rewrite less_irrefl in H1.
Qed.

Lemma equiv_sym x y : equiv x y -> equiv y x.
Proof. unfold equiv. tauto. Qed.

Lemma lt_equiv_r x y z : lt x y -> equiv y z -> lt x z.
Proof.
  intros H E. unfold lt. destruct (less x z) eqn:E1; auto.
  destruct (less z x) eqn:E2.
  - pose proof (less_trans _ _ _ E2 H) as H1. destruct E as [_ E]. congruence.
  - destruct Hswo as (_ & _ & Ht).
    assert (Hxz : equiv x z) by (split; auto).
    destruct (Ht x z y Hxz (equiv_sym _ _ E)) as [H1 _]. congruence.
Qed.

Lemma lt_equiv_l x y z : equiv x y -> lt y z -> lt x z.
Proof.
  intros E H. unfold lt. destruct (less x z) eqn:E1; auto.
  destruct (less z x) eqn:E2.
  - pose proof (less_trans _ _ _ H E2) as H1. destruct E as [_ E]. congruence.
  - destruct Hswo as (_ & _ & Ht).
    assert (Hxz : equiv z x) by (split; auto).
    destruct (Ht z x y Hxz E) as [_ H1]. congruence.
Qed.

Lemma sorted_app l1 l2 :
  sorted (l1 ++ l2) <->
  sorted l1 /\ sorted l2 /\ (forall a b, In a l1 -> In b l2 -> lt a b).
Proof.
  unfold sorted. induction l1 as [|x l1 IH]; simpl.
  - split; [intros H; split_all; auto; [constructor|intros ? ? []]|tauto].
  - split.
    + intros H. inversion H as [|? ? Hs Hf]; subst. apply IH in Hs.
      destruct Hs as (H1 & H2 & H3). rewrite Forall_app in Hf.
      destruct Hf as [Hf1 Hf2]. split_all; auto.
      * constructor; auto.
      * intros a b [<-|Ha] Hb; auto. rewrite Forall_forall in Hf2. auto.
    + intros (H1 & H2 & H3). inversion H1 as [|? ? Hs Hf]; subst.
      constructor.
      * apply IH. split_all; auto.
      * apply Forall_app. split; auto. apply Forall_forall. auto.
Qed.

Lemma sorted_cons x l : sorted (x :: l) <-> sorted l /\ Forall (lt x) l.
Proof.
  unfold sorted. split.
  - intros H. inversion H; auto.
  - intros [H1 H2]. now constructor.
Qed.

Lemma find_path_plug t : forall v c,
  plug (fst (find_path t v c)) (snd (find_path t v c)) = plug c t.
Proof.
  induction t as [|l IHl a w d r IHr]; intros v c; simpl; auto.
  destruct (less w v); [now rewrite IHr|].
  destruct (less v w); [now rewrite IHl|reflexivity].
Qed.

Lemma InsertionPointFor_rep m v : forall t c a fuel,
  rep m None (plug c t) -> wf (plug c t) -> root t = Some a ->
  (length (nodes t) <= fuel)%nat ->
  _InsertionPointFor fuel m a v = Some (path_result (find_path t v c)).
Proof.
  induction t as [|l IHl b w d r IHr]; intros c a fuel Hrep Hwf Hroot Hf;
    [discriminate|].
  injection Hroot as ->.
  pose proof (rep_cell _ _ _ _ _ _ _ Hrep) as Ha.
  cbn [nodes] in Hf. rewrite length_app in Hf. cbn [length] in Hf.
  destruct fuel as [|fuel]; [lia|].
  cbn [_InsertionPointFor find_path]. rewrite Ha. cbn [payload left right].
  destruct (less w v); [|destruct (less v w)].
  - destruct r as [|r1 e ve de r2]; [reflexivity|].
    assert (a <> e) by (destruct Hwf as [Hnd Hrg]; wf_split Hnd Hrg; neq_tac).
    cbn [root lnk]. rewrite link_nz by neq_tac. cbn [negb].
    unfold Nright, _Ptr. rewrite Ha. cbn [right root lnk]. rewrite ptr_link.
    apply (IHr (FrR l a w d :: c) e fuel); auto. lia.
  - destruct l as [|l1 e ve de l2]; [reflexivity|].
    assert (a <> e) by (destruct Hwf as [Hnd Hrg]; wf_split Hnd Hrg; neq_tac).
    cbn [root lnk]. rewrite link_nz by neq_tac. cbn [negb].
    unfold Nleft, _Ptr. rewrite Ha. cbn [left root lnk]. rewrite ptr_link.
    apply (IHl (FrL a w d r :: c) e fuel); auto. lia.
  - reflexivity.
Qed.

Lemma between_nil v : between v [].
Proof. split; constructor. Qed.

Lemma find_path_between v : forall t c,
  sorted (inorder (plug c t)) -> between v c ->
  between v (fst (find_path t v c))
  /\ match snd (find_path t v c) with
     | Leaf => True
     | Node l a w d r => equiv w v
     end.
Proof.
  induction t as [|l IHl a w d r IHr]; intros c Hs Hb; cbn [find_path].
  - cbn [fst snd]. auto.
  - assert (Hlr : Forall (fun x => lt (snd x) w) (nodes l)
                  /\ Forall (fun x => lt w (snd x)) (nodes r)).
    { unfold inorder in Hs. rewrite nodes_plug in Hs. cbn [nodes] in Hs.
      rewrite !map_app in Hs. cbn [map snd] in Hs.
      apply sorted_app in Hs. destruct Hs as (_ & Hs & _).
      apply sorted_app in Hs. destruct Hs as (Hs & _ & _).
      apply sorted_app in Hs. destruct Hs as (_ & Hs & Hlw).
      apply sorted_cons in Hs. destruct Hs as [_ Hwr].
      split; apply Forall_forall; intros x Hx.
      - apply Hlw; [apply in_map; auto|now left].
      - rewrite Forall_forall in Hwr. apply Hwr. apply in_map; auto. }
    destruct Hlr as [Hl Hr]. destruct Hb as [Hb1 Hb2].
    destruct (less w v) eqn:E1; [|destruct (less v w) eqn:E2].
    + apply IHr; auto. split; auto.
      cbn [cnodes_l fnodes_l]. rewrite !Forall_app. split_all; auto.
      eapply Forall_impl; [|exact Hl]. intros x Hx.
      exact (less_trans _ _ _ Hx E1).
    + apply IHl; auto.
      split; cbn [cnodes_l cnodes_r fnodes_l fnodes_r app];
        rewrite ?app_nil_r; auto.
      constructor; [exact E2|].
      apply Forall_app. split; auto.
      eapply Forall_impl; [|exact Hr]. intros x Hx.
      exact (less_trans _ _ _ E2 Hx).
    + cbn [fst snd]. split; [split; auto|]. split; auto.
Qed.
(** ** The arena *)

Lemma Aligned_eq n : Aligned n = u32 (u64 (n + 15)) / 16 * 16.
Proof.
  unfold Aligned, Ta.
  change (u32 (Z.lnot (16 - 1))) with (Z.land (Z.ones 32) (Z.lnot (Z.ones 4))).
  change (16 - 1) with 15.
  rewrite Z.land_assoc, Z.land_ones by lia.
  rewrite <- Z.ldiff_land, Z.ldiff_ones_r by lia.
  rewrite Z.shiftl_mul_pow2, Z.shiftr_div_pow2 by lia. reflexivity.
Qed.

Lemma Aligned_range n : 0 <= Aligned n < 2 ^ 32.
Proof.
  rewrite Aligned_eq. unfold u32.
  pose proof (Z.mod_pos_bound (u64 (n + 15)) (2 ^ 32) ltac:(lia)) as H.
  pose proof (Z.mul_div_le (u64 (n + 15) mod 2 ^ 32) 16 ltac:(lia)).
  pose proof (Z.div_pos (u64 (n + 15) mod 2 ^ 32) 16 ltac:(lia) ltac:(lia)).
  lia.
Qed.

Lemma Aligned_small n :
  0 <= n -> n + 15 < 2 ^ 32 -> Aligned n = (n + 15) / 16 * 16.
Proof.
  intros H1 H2. rewrite Aligned_eq. rewrite u64_small, u32_small; lia.
Qed.

Lemma Aligned_ge n : 0 <= n -> n + 15 < 2 ^ 32 -> n <= Aligned n <= n + 15.
Proof.
  intros H1 H2. rewrite Aligned_small by lia.
  pose proof (Z.div_mod (n + 15) 16 ltac:(lia)).
  pose proof (Z.mod_pos_bound (n + 15) 16 ltac:(lia)). lia.
Qed.

(** Distinct cells of the arena: there are no more than it has bytes. *)
Lemma count_bound (l : list Z) hi :
  NoDup l -> Forall (fun a => 0 <= a < hi) l -> (length l <= Z.to_nat hi)%nat.
Proof.
  intros Hnd Hf.
  assert (H : (length (map Z.to_nat l) <= length (seq 0 (Z.to_nat hi)))%nat).
  { apply NoDup_incl_length.
    - clear - Hnd Hf. induction l as [|a l IH]; simpl; [constructor|].
      inversion Hnd; subst. inversion Hf; subst. constructor; auto.
      rewrite in_map_iff. intros (b & Hb & Hi).
      rewrite Forall_forall in H4. specialize (H4 b Hi).
      assert (a = b) by lia. subst. auto.
    - intros x Hx. rewrite in_map_iff in Hx. destruct Hx as (a & <- & Ha).
      rewrite Forall_forall in Hf. specialize (Hf a Ha).
      apply in_seq. lia. }
  now rewrite length_map, length_seq in H.
Qed.

Lemma cell_ok_range len a : len <= 2 ^ 31 -> cell_ok len a -> in_range a.
Proof. unfold cell_ok, in_range. pose proof HNsize. lia. Qed.

Lemma Arena_fuel g L F :
  Arena g L F -> (length L <= Z.to_nat (len_ g))%nat.
Proof.
  intros H. apply count_bound.
  - destruct H. apply NoDup_app_remove_r in ar_nodup0. auto.
  - destruct H. apply Forall_app in ar_cells0. destruct ar_cells0 as [Hc _].
    eapply Forall_impl; [|exact Hc]. unfold cell_ok. pose proof HNsize.
    intros a. simpl. lia.
Qed.

Lemma Arena_in_range g L F :
  Arena g L F -> Forall in_range L /\ Forall in_range F.
Proof.
  intros H. destruct H. apply Forall_app in ar_cells0.
  destruct ar_cells0 as [H1 H2].
  split; eapply Forall_impl; try eassumption; intros a;
    apply cell_ok_range; auto.
Qed.

Lemma Arena_perm g L L' F :
  Permutation L L' -> Arena g L F -> Arena g L' F.
Proof.
  intros Hp H. destruct H. constructor; auto.
  - eapply Permutation_Forall; [|eassumption]. now apply Permutation_app_tail.
  - eapply Permutation_NoDup; [|eassumption]. now apply Permutation_app_tail.
  - intros a Ha Hl Hf. apply ar_zero0; auto. intros Hi. apply Hl.
    eapply Permutation_in; eauto.
Qed.

Lemma chain_frame m m' : forall F a,
  (forall b, b = a \/ In b F -> m' b = m b) ->
  chain m a F -> chain m' a F.
Proof.
  induction F as [|f F IH]; intros a Hs; simpl.
  - intros H. rewrite Hs; auto.
  - intros [H1 H2]. split.
    + rewrite Hs; auto.
    + apply IH; auto. intros b [->|Hb]; apply Hs; simpl; auto.
Qed.

Lemma Arena_disjoint g L F b :
  Arena g L F -> b = 0 \/ In b F -> ~ In b L.
Proof.
  intros H Hb Hi. pose proof HNsize as HN. destruct H. destruct Hb as [->|Hb].
  - rewrite Forall_forall in ar_cells0.
    specialize (ar_cells0 0 (in_or_app _ _ _ (or_introl Hi))).
    unfold cell_ok in ar_cells0. lia.
  - apply nd_app in ar_nodup0. destruct ar_nodup0 as (Hs & _ & _).
    exact (Hs b Hi Hb).
Qed.

Lemma Arena_same_but g L F m' :
  Arena g L F -> same_but L (buf g) m' -> Arena (with_buf g m') L F.
Proof.
  intros H Hs. pose proof (Arena_disjoint g L F) as Hd.
  specialize (fun b => Hd b H). destruct H.
  constructor; cbn [with_buf len_ capacity_ ptr_ buf]; auto.
  - discriminate.
  - apply (chain_frame (buf g)); auto.
  - intros a Ha Hl Hf. rewrite Hs; auto.
Qed.
Lemma zn_zero : zn 0 = zero_node.
Proof. reflexivity. Qed.

Lemma Arena_beyond g L F a :
  Arena g L F -> len_ g <= a -> buf g a = zero_node.
Proof.
  intros H Ha. pose proof HNsize as HN.
  assert (Hout : forall b, In b (L ++ F) -> b <> a).
  { intros b Hb ->. destruct H. rewrite Forall_forall in ar_cells0.
    specialize (ar_cells0 a Hb). unfold cell_ok in ar_cells0. lia. }
  destruct (Z.eq_dec a 0) as [->|Hnz].
  - destruct F as [|f F].
    + destruct H. simpl in ar_chain0. now rewrite ar_chain0.
    + exfalso. destruct H. rewrite Forall_forall in ar_cells0.
      assert (Hf : In f (L ++ f :: F)) by (apply in_or_app; right; now left).
      specialize (ar_cells0 f Hf). unfold cell_ok in ar_cells0. lia.
  - apply (ar_zero _ _ _ H); auto.
    + intros Hi. apply (Hout a); auto. apply in_or_app. auto.
    + intros Hi. apply (Hout a); auto. apply in_or_app. auto.
Qed.

Lemma GrowBy_buf g L F need a :
  Arena g L F -> buf (_GrowBy g need) a = buf g a.
Proof.
  intros H. unfold _GrowBy. destruct (_ <? need); auto.
  cbn [buf ptr_]. destruct (Z.ltb_spec a (len_ g)); auto.
  symmetry. eapply Arena_beyond; eauto.
Qed.

Lemma NewCap_fits g need :
  0 <= len_ g <= capacity_ g -> capacity_ g < len_ g + need ->
  len_ g + need <= 2 ^ 31 ->
  len_ g + need <= _NewCap g need < 2 ^ 32.
Proof.
  intros H1 H2 H3. unfold _NewCap. split; [|apply Aligned_range].
  rewrite (u32_small (capacity_ g - len_ g)) by lia.
  rewrite (u32_small (need - _)) by lia.
  unfold MIN_GROW_BY.
  pose proof (Z.div_pos (capacity_ g) 2 ltac:(lia) ltac:(lia)).
  pose proof (Z.mul_div_le (capacity_ g) 2 ltac:(lia)).
  rewrite u64_small by lia.
  pose proof (Aligned_ge (Z.max (Z.max (need - (capacity_ g - len_ g)) 1024)
                                 (capacity_ g / 2) + capacity_ g)
                ltac:(lia) ltac:(lia)).
  lia.
Qed.

Lemma GrowBy_Arena g L F need :
  Arena g L F -> 0 <= need -> len_ g + need <= 2 ^ 31 ->
  Arena (_GrowBy g need) L F
  /\ len_ (_GrowBy g need) = len_ g
  /\ len_ g + need <= capacity_ (_GrowBy g need).
Proof.
  intros H Hn Hl. pose proof (fun a => GrowBy_buf g L F need a H) as Hbuf.
  destruct H. unfold _GrowBy in *.
  rewrite (u32_small (capacity_ g - len_ g)) in * by lia.
  destruct (Z.ltb_spec (capacity_ g - len_ g) need) as [Hlt|Hge].
  - pose proof (NewCap_fits g need ar_len0 ltac:(lia) Hl) as Hc.
    cbn [len_ capacity_ ptr_] in *. split_all; try lia.
    constructor; cbn [len_ capacity_ ptr_]; auto; try lia.
    + discriminate.
    + apply (chain_frame (buf g)); auto.
    + intros a Ha H1 H2. rewrite Hbuf. auto.
  - split_all; try lia. constructor; auto.
Qed.

Lemma PtrAppend_Arena g L F :
  Arena g L F -> len_ g + Nsize <= 2 ^ 31 ->
  fst (_PtrAppendZeroBytes g (u32 Nsize)) = len_ g
  /\ Arena (snd (_PtrAppendZeroBytes g (u32 Nsize))) L F
  /\ len_ (snd (_PtrAppendZeroBytes g (u32 Nsize))) = len_ g + Nsize
  /\ (forall a, buf (snd (_PtrAppendZeroBytes g (u32 Nsize))) a = buf g a).
Proof.
  intros H Hl. pose proof HNsize as HN.
  assert (H0 : 0 <= len_ g) by (destruct H; lia).
  unfold _PtrAppendZeroBytes. rewrite u32_small by lia.
  destruct (GrowBy_Arena g L F Nsize H ltac:(lia) Hl) as (HA & Hlen & Hcap).
  pose proof (fun a => GrowBy_buf g L F Nsize a H) as Hbuf.
  cbn [fst snd len_]. rewrite Hlen, u32_small by lia.
  split_all; auto.
  destruct HA. constructor; cbn [len_ capacity_ ptr_] in *; auto; try lia.
  - destruct H. now apply Z.divide_add_r; [|apply Z.divide_refl].
  - rewrite Hlen in ar_cells0.
    eapply Forall_impl; [|exact ar_cells0]. unfold cell_ok.
    intros a (h1 & h2 & h3). split_all; auto; lia.
Qed.
Lemma in_range_0 : in_range 0.
Proof. unfold in_range. lia. Qed.

Lemma Arena_fresh g L F a m' :
  Arena g L F -> cell_ok (len_ g) a -> ~ In a (L ++ F) ->
  same_but [a] (buf g) m' ->
  Arena (with_buf g m') (a :: L) F.
Proof.
  intros H Ha Hn Hs. pose proof HNsize as HN. destruct H.
  assert (Hoth : forall b, b <> a -> m' b = buf g b).
  { intros b Hb. apply Hs. intros [E|[]]. congruence. }
  constructor; cbn [with_buf len_ capacity_ ptr_ buf]; auto.
  - discriminate.
  - simpl. constructor; auto.
  - simpl. constructor; auto.
  - apply (chain_frame (buf g)); auto. intros b Hb. apply Hoth.
    intros ->. destruct Hb as [->|Hb].
    + unfold cell_ok in Ha. lia.
    + apply Hn. apply in_or_app. auto.
  - intros b Hb Hl Hf. rewrite Hoth.
    + apply ar_zero0; auto. intros Hi. apply Hl. now right.
    + intros ->. apply Hl. now left.
Qed.

Lemma Arena_dequeue g L f F' m' :
  Arena g L (f :: F') -> same_but [0; f] (buf g) m' -> chain m' 0 F' ->
  Arena (with_buf g m') (f :: L) F'.
Proof.
  intros H Hs Hc. destruct H.
  assert (Hp : Permutation (L ++ f :: F') ((f :: L) ++ F')).
  { simpl. apply Permutation_sym, Permutation_middle. }
  constructor; cbn [with_buf len_ capacity_ ptr_ buf]; auto.
  - discriminate.
  - eapply Permutation_Forall; eauto.
  - eapply Permutation_NoDup; eauto.
  - intros b Hb Hl Hf. rewrite Hs.
    + apply ar_zero0; auto.
      * intros Hi. apply Hl. now right.
      * intros [<-|Hi]; auto. apply Hl. now left.
    + intros [<-|[<-|[]]]; auto. apply Hl. now left.
Qed.

Ltac name_same HS :=
  match goal with Hx : same_but _ _ _ |- _ => rename Hx into HS end.

Lemma CreateNode_spec g L F v :
  Arena g L F -> Nsize <= len_ g -> len_ g + Nsize <= 2 ^ 31 ->
  exists n g' F',
    _CreateNode g v = (n, g')
    /\ Arena g' (n :: L) F'
    /\ buf g' n = mkNode v 0 0 0 Dir.None
    /\ same_but [0; n] (buf g) (buf g')
    /\ ~ In n L
    /\ ((F = n :: F' /\ len_ g' = len_ g)
        \/ (F = [] /\ F' = [] /\ n = len_ g /\ len_ g' = len_ g + Nsize)).
Proof.
  intros H Hs Hl. pose proof HNsize as HN. pose proof in_range_0 as R0.
  pose proof (Arena_in_range _ _ _ H) as [RL RF].
  unfold _CreateNode.
  destruct F as [|f F'].
  - (* the chain is empty: a fresh cell *)
    pose proof (ar_chain _ _ _ H) as Hc. simpl in Hc.
    unfold NSafeRight. rewrite Hc. cbn [right zn]. cbn [Z.eqb].
    destruct (PtrAppend_Arena g L [] H Hl) as (E1 & HA & Hlen & Hbuf).
    destruct (_PtrAppendZeroBytes g (u32 Nsize)) as [n g1]. cbn [fst snd] in *.
    subst n.
    assert (Hz : buf g1 (len_ g) = mkNode T0 0 0 0 Dir.Zero).
    { rewrite Hbuf. eapply Arena_beyond; eauto. lia. }
    assert (Hnew : ~ In (len_ g) (L ++ [])).
    { intros Hi. destruct H.
      rewrite Forall_forall in ar_cells0. specialize (ar_cells0 _ Hi).
      unfold cell_ok in ar_cells0. lia. }
    assert (Hcell : cell_ok (len_ g1) (len_ g)).
    { unfold cell_ok. destruct H. split_all; auto; lia. }
    pose proof (same_but_refl [len_ g] (buf g1)) as Hsame.
    remember (buf g1) as m1 eqn:Em1. rewrite Em1 in Hsame at 1.
    run. name_same HS.
    eexists _, _, []. split; [reflexivity|].
    cbn [with_buf buf ptr_ len_]. split_all; auto.
    + apply Arena_fresh; auto.
    + intros b Hb. rewrite HS by (simpl in *; tauto).
      rewrite <- Em1. apply Hbuf.
    + rewrite app_nil_r in Hnew. exact Hnew.
  - (* the head of the chain is taken *)
    pose proof (ar_chain _ _ _ H) as Hc. cbn [chain] in Hc. destruct Hc as [H0 Hc].
    assert (Hf0 : f <> 0).
    { intros ->. eapply (Arena_disjoint g L (0 :: F') 0 H); auto.
      exfalso. destruct H. rewrite Forall_forall in ar_cells0.
      specialize (ar_cells0 0 (in_or_app _ _ _ (or_intror (in_eq _ _)))).
      unfold cell_ok in ar_cells0. lia. }
    assert (HfL : ~ In f L).
    { apply (Arena_disjoint g L (f :: F') f H). right. now left. }
    apply fa_cons in RF. destruct RF as [Rf RF'].
    assert (Hnd : NoDup (f :: F')).
    { destruct H. now apply NoDup_app_remove_l in ar_nodup0. }
    apply nd_cons in Hnd. destruct Hnd as [HfF HndF].
    assert (H0F : ~ In 0 F').
    { intros Hi. destruct H. rewrite Forall_forall in ar_cells0.
      specialize (ar_cells0 0 (in_or_app _ _ _ (or_intror (in_cons _ _ _ Hi)))).
      unfold cell_ok in ar_cells0. lia. }
    pose proof (same_but_refl [0; f] (buf g)) as Hsame.
    remember (buf g) as m eqn:Em. rewrite Em in Hsame at 1.
    unfold zn in H0.
    destruct F' as [|f' F'']; cbn [chain] in Hc.
    + unfold zn in Hc. unfold_ptrs. run. name_same HS. subst m.
      eexists _, _, []. split; [reflexivity|].
      cbn [with_buf buf ptr_ len_]. split_all; auto.
      apply Arena_dequeue; auto.
    + destruct Hc as [Hf Hc]. unfold zn in Hf.
      apply ni_cons in HfF. destruct HfF as [Hff' HfF].
      apply fa_cons in RF'. destruct RF' as [Rf' RF''].
      unfold_ptrs. run. name_same HS.
      match type of HS with same_but _ _ ?mm => rename mm into mz end.
      assert (Hc' : chain mz f' F'').
      { apply (chain_frame m); auto.
        intros b Hb. rewrite Em. apply HS. intros [<-|[<-|[]]].
        - destruct Hb as [<-|Hb]; [|apply H0F; now right].
          apply H0F. now left.
        - destruct Hb as [->|Hb]; [congruence|auto]. }
      subst m.
      eexists _, _, (f' :: F''). split; [reflexivity|].
      cbn [with_buf buf ptr_ len_]. split_all; auto.
      apply Arena_dequeue; auto. cbn [chain]. split; auto.
Qed.
Lemma Arena_enqueue g n L' F m' :
  Arena g (n :: L') F -> same_but [0; n] (buf g) m' -> chain m' 0 (n :: F) ->
  Arena (with_buf g m') L' (n :: F).
Proof.
  intros H Hs Hc. destruct H.
  assert (Hp : Permutation ((n :: L') ++ F) (L' ++ n :: F)).
  { simpl. apply Permutation_middle. }
  constructor; cbn [with_buf len_ capacity_ ptr_ buf]; auto.
  - discriminate.
  - eapply Permutation_Forall; eauto.
  - eapply Permutation_NoDup; eauto.
  - intros b Hb Hl Hf. rewrite Hs.
    + apply ar_zero0; auto.
      * intros [<-|Hi]; auto. apply Hf. now left.
      * intros Hi. apply Hf. now right.
    + intros [<-|[<-|[]]]; auto. apply Hf. now left.
Qed.

Lemma Decommission_spec g n L' F :
  Arena g (n :: L') F ->
  Arena (with_buf g (_DecommissionNode (buf g) n 0)) L' (n :: F)
  /\ same_but [0; n] (buf g) (_DecommissionNode (buf g) n 0).
Proof.
  intros H. pose proof HNsize as HN. pose proof in_range_0 as R0.
  pose proof (Arena_in_range _ _ _ H) as [RL RF].
  apply fa_cons in RL. destruct RL as [Rn RL].
  assert (Hn0 : n <> 0).
  { intros ->. apply (Arena_disjoint g (0 :: L') F 0 H); auto. now left. }
  assert (HnF : ~ In n F).
  { intros Hi. apply (Arena_disjoint g (n :: L') F n H); auto. now left. }
  assert (H0F : ~ In 0 F).
  { intros Hi. destruct H. rewrite Forall_forall in ar_cells0.
    specialize (ar_cells0 0 (in_or_app _ _ _ (or_intror Hi))).
    unfold cell_ok in ar_cells0. lia. }
  pose proof (ar_chain _ _ _ H) as Hc.
  cut (chain (_DecommissionNode (buf g) n 0) 0 (n :: F)
       /\ same_but [0; n] (buf g) (_DecommissionNode (buf g) n 0)).
  { intros [C1 C2]. split; auto. apply Arena_enqueue; auto. }
  set (m' := _DecommissionNode (buf g) n 0).
  remember (buf g) as m eqn:Em. clear H.
  set (m1 := wr m n zero_node) in *.
  assert (Hn1 : m1 n = mkNode T0 0 0 0 Dir.Zero) by apply wr_same.
  assert (Hsame : same_but [0; n] m m1).
  { intros b Hb. apply wr_other. intros ->. apply Hb. simpl. auto. }
  assert (Hoth : forall b, b <> n -> m1 b = m b) by (intros; now apply wr_other).
  revert m'. cbv beta delta [_DecommissionNode]. fold m1.
  destruct F as [|f F']; cbn [chain] in Hc.
  - assert (H01 : m1 0 = mkNode T0 0 0 0 Dir.Zero) by (rewrite Hoth; auto).
    clearbody m1. unfold_ptrs. run. name_same HS. cbn [chain]. unfold zn.
    split_all; auto.
  - destruct Hc as [H0 Hc]. unfold zn in H0.
    assert (H01 : m1 0 = mkNode T0 0 0 (f - 0) Dir.Zero) by (rewrite Hoth; auto).
    apply fa_cons in RF. destruct RF as [Rf RF].
    assert (Hf0 : f <> 0) by (intros ->; apply H0F; now left).
    assert (Hfn : f <> n) by (intros ->; apply HnF; now left).
    assert (Hc1 : chain m1 f F').
    { apply (chain_frame m); auto. intros b Hb. apply Hoth. intros ->.
      apply HnF. destruct Hb as [->|Hb]; [now left|now right]. }
    clearbody m1. unfold_ptrs. run. name_same HS.
    match type of HS with same_but _ _ ?mm => rename mm into mz end.
    cbn [chain]. unfold zn. split_all; auto.
    apply (chain_frame m1); auto.
    assert (Hb0 : forall b, b = f \/ In b F' -> b <> 0 /\ b <> n).
    { intros b Hb. split; intros ->.
      - apply H0F. destruct Hb as [->|Hb]; [now left|now right].
      - apply HnF. destruct Hb as [->|Hb]; [now left|now right]. }
    intros b Hb. destruct (Hb0 b Hb) as [B0 Bn].
    rewrite Hoth by auto. apply HS. intros [<-|[<-|[]]]; auto.
Qed.
(** ** Linking a new node *)

Lemma wf_cons_perm a t t' :
  Permutation (a :: addrs t) (addrs t') -> wf t -> ~ In a (addrs t) ->
  in_range a -> wf t'.
Proof.
  intros Hp [H1 H2] Ha Hr. split.
  - eapply Permutation_NoDup; [exact Hp|]. now constructor.
  - eapply Permutation_Forall; [exact Hp|]. now constructor.
Qed.

Lemma addrs_cnodes c : caddrs_l c = map fst (cnodes_l c) /\ caddrs_r c = map fst (cnodes_r c).
Proof. split; reflexivity. Qed.

Lemma AddChild_rep m f c a v fuel :
  wf (plug (f :: c) Leaf) ->
  rep m None (plug (f :: c) Leaf) ->
  avl (plug (f :: c) Leaf) ->
  m a = mkNode v 0 0 0 Dir.None ->
  ~ In a (addrs (plug (f :: c) Leaf)) -> in_range a ->
  (length c < fuel)%nat ->
  exists m' t',
    AddChild fuel m (faddr f) a (fside f) = Some m'
    /\ rep m' None t'
    /\ same_but (a :: addrs (plug (f :: c) Leaf)) m m'
    /\ nodes t' = cnodes_l (f :: c) ++ (a, v) :: cnodes_r (f :: c)
    /\ avl t'
    /\ root_shift m' (plug (f :: c) Leaf) t'.
Proof.
  intros Hwf Hrep Havl Ha Hnew Ra Hf.
  assert (Hperm : Permutation (a :: addrs (plug (f :: c) Leaf))
                    (addrs (plug c (fill f (Node Leaf a v Dir.None Leaf))))).
  { cbn [plug]. rewrite !addrs_plug_eq.
    destruct f; cbn [fill]; rewrite !addrs_Node, !addrs_Leaf; cbn [app].
    - apply Permutation_middle.
    - replace (caddrs_l c ++ (addrs l ++ [a0]) ++ caddrs_r c)
        with ((caddrs_l c ++ addrs l ++ [a0]) ++ caddrs_r c)
        by now rewrite <- !app_assoc.
      replace (caddrs_l c ++ (addrs l ++ [a0; a]) ++ caddrs_r c)
        with ((caddrs_l c ++ addrs l ++ [a0]) ++ a :: caddrs_r c)
        by now rewrite <- !app_assoc.
      apply Permutation_middle. }
  pose proof (wf_cons_perm _ _ _ Hperm Hwf Hnew Ra) as Hwf2.
  cbn [plug] in *. apply avl_plug in Havl. destruct Havl as [Hav Hcavl].
  pose proof Hwf as [Hnd Hrg].
  apply rep_plug in Hrep. destruct Hrep as (Hc & Hrep).
  rewrite addrs_plug_eq in Hnew.
  pose proof (same_but_refl (a :: addrs (plug c (fill f Leaf))) m) as Hsame.
  flat_in Hsame.
  destruct f as [p w d r|l p w d]; cbn [fill faddr fside rep root lnk] in *;
    destruct Hrep as (Hp & Hl & Hr);
    rewrite ?addrs_Node, ?addrs_Leaf in Hnew; cbn [app] in Hnew;
    flat_in Hnew; ni_split Hnew; wf_split Hnd Hrg; flat_in Hsame;
    cbv beta delta [AddChild]; unfold_ptrs; run_open; name_same HS.
  - match type of HS with same_but _ _ ?mm => rename mm into mz end.
    assert (Hrep2 : rep mz None (plug c (Node (Node Leaf a v Dir.None Leaf) p w d r))).
    { apply rep_plug; cbn [repc rep cpar faddr root lnk plug fill];
        split_all; first [assumption | exact I]. }
    destruct (Retrace_Insert_rep c mz (Node Leaf a v Dir.None Leaf) p w d r
                Dir.Left fuel Hwf2 Hrep2) as (m' & t' & E1 & E2 & E3 & E4 & E5 & E6);
      auto; try (avl_tac; fail).
    + right. auto.
    + exists m', t'. split_all; auto.
      * eapply same_but_trans; [|eapply same_but_perm; [|exact E3]].
        -- flat_goal. exact HS.
        -- apply Permutation_sym. exact Hperm.
      * rewrite E4, nodes_plug. cbn [nodes cnodes_l cnodes_r fnodes_l fnodes_r app].
        now rewrite app_nil_r.
      * intros ro Hro. apply E6. rewrite <- Hro. now apply root_plug_same.
  - match type of HS with same_but _ _ ?mm => rename mm into mz end.
    assert (Hrep2 : rep mz None (plug c (Node l p w d (Node Leaf a v Dir.None Leaf)))).
    { apply rep_plug; cbn [repc rep cpar faddr root lnk plug fill];
        split_all; first [assumption | exact I]. }
    destruct (Retrace_Insert_rep c mz l p w d (Node Leaf a v Dir.None Leaf)
                Dir.Right fuel Hwf2 Hrep2) as (m' & t' & E1 & E2 & E3 & E4 & E5 & E6);
      auto; try (avl_tac; fail).
    + right. auto.
    + exists m', t'. split_all; auto.
      * eapply same_but_trans; [|eapply same_but_perm; [|exact E3]].
        -- flat_goal. exact HS.
        -- apply Permutation_sym. exact Hperm.
      * rewrite E4, nodes_plug. cbn [nodes cnodes_l cnodes_r fnodes_l fnodes_r app].
        now rewrite <- !app_assoc.
      * intros ro Hro. apply E6. rewrite <- Hro. now apply root_plug_same.
Qed.
(** ** The reference list *)

Lemma ref_insert_new A B v :
  Forall (fun x => lt x v) A -> Forall (lt v) B ->
  ref_insert v (A ++ B) = A ++ v :: B.
Proof.
  intros HA HB. induction HA as [|x A Hx _ IH]; simpl.
  - destruct HB as [|y B Hy _]; simpl; auto. now rewrite Hy.
  - rewrite (less_asym _ _ Hx), Hx, IH. reflexivity.
Qed.

Lemma ref_insert_old A w B v :
  Forall (fun x => lt x v) A -> equiv w v ->
  ref_insert v (A ++ w :: B) = A ++ w :: B.
Proof.
  intros HA [E1 E2]. induction HA as [|x A Hx _ IH]; simpl.
  - now rewrite E1, E2.
  - rewrite (less_asym _ _ Hx), Hx, IH. reflexivity.
Qed.

Lemma filter_all {A} (f : A -> bool) l :
  Forall (fun x => f x = true) l -> filter f l = l.
Proof. induction 1 as [|x l Hx _ IH]; simpl; auto. now rewrite Hx, IH. Qed.

Lemma ref_erase_absent A B v :
  Forall (fun x => lt x v) A -> Forall (lt v) B ->
  ref_erase v (A ++ B) = A ++ B.
Proof.
  intros HA HB. apply filter_all. apply Forall_app. split.
  - eapply Forall_impl; [|exact HA]. intros x Hx. simpl in Hx. unfold lt in Hx.
    now rewrite Hx.
  - eapply Forall_impl; [|exact HB]. intros x Hx. unfold lt in Hx.
    rewrite Hx. apply orb_true_r.
Qed.

Lemma ref_erase_mid A w B v :
  Forall (fun x => lt x v) A -> equiv w v -> Forall (lt v) B ->
  ref_erase v (A ++ w :: B) = A ++ B.
Proof.
  intros HA [E1 E2] HB. unfold ref_erase. rewrite filter_app. cbn [filter].
  rewrite E1, E2. cbn [orb]. rewrite <- filter_app.
  now apply ref_erase_absent.
Qed.

Lemma sorted_insert A B v :
  sorted (A ++ B) -> Forall (fun x => lt x v) A -> Forall (lt v) B ->
  sorted (A ++ v :: B).
Proof.
  intros Hs HA HB. apply sorted_app in Hs. destruct Hs as (H1 & H2 & H3).
  apply sorted_app. split_all; auto.
  - apply sorted_cons. auto.
  - intros a b Ha [<-|Hb]; auto. rewrite Forall_forall in HA. auto.
Qed.

Lemma sorted_remove A w B : sorted (A ++ w :: B) -> sorted (A ++ B).
Proof.
  intros Hs. apply sorted_app in Hs. destruct Hs as (H1 & H2 & H3).
  apply sorted_cons in H2. destruct H2 as [H2 _].
  apply sorted_app. split_all; auto. intros a b Ha Hb. apply H3; auto. now right.
Qed.

Lemma Forall_map_snd (P : T -> Prop) (l : list (Z * T)) :
  Forall (fun x => P (snd x)) l <-> Forall P (map snd l).
Proof. now rewrite Forall_map. Qed.
(** ** [Insert] *)

Lemma rep_ext m m' par t : (forall a, m' a = m a) -> rep m par t -> rep m' par t.
Proof.
  intros H. apply (rep_frame []); [intros b _; apply H|intros a _ []].
Qed.

Lemma Arena_pos g L F : Arena g L F -> len_ g <> 0 -> Nsize <= len_ g.
Proof.
  intros H Hn. pose proof HNsize. destruct H. destruct ar_div0 as [k Hk].
  destruct (Z_le_gt_dec k 0); nia.
Qed.

Lemma Arena_cell g L F a :
  Arena g L F -> In a L -> cell_ok (len_ g) a /\ in_range a /\ a <> 0.
Proof.
  intros H Ha. pose proof HNsize. pose proof (ar_lim _ _ _ H).
  pose proof (ar_cells _ _ _ H) as Hc. rewrite Forall_forall in Hc.
  specialize (Hc a (in_or_app _ _ _ (or_introl Ha))).
  split; auto. unfold cell_ok, in_range in *. lia.
Qed.

Lemma Arena_wf g tr F : Arena g (addrs tr) F -> wf tr.
Proof.
  intros H. split.
  - destruct H. now apply NoDup_app_remove_r in ar_nodup0.
  - now destruct (Arena_in_range _ _ _ H).
Qed.

Lemma ensure_sentinel g L F :
  Arena g L F -> len_ g + Nsize <= 2 ^ 31 ->
  let g1 := if len_ g =? 0 then snd (_PtrAppendZeroBytes g (u32 Nsize)) else g in
  Arena g1 L F /\ Nsize <= len_ g1 /\ len_ g1 <= len_ g + Nsize
  /\ (forall a, buf g1 a = buf g a) /\ (len_ g <> 0 -> g1 = g).
Proof.
  intros H Hl. pose proof HNsize. cbv zeta.
  destruct (Z.eqb_spec (len_ g) 0) as [E|E].
  - destruct (PtrAppend_Arena g L F H Hl) as (_ & HA & Hlen & Hbuf).
    split_all; auto; try lia; congruence.
  - pose proof (Arena_pos _ _ _ H E). split_all; auto; lia.
Qed.

Lemma root_in t a : root t = Some a -> In a (addrs t).
Proof.
  destruct t; [discriminate|]. intros [= ->]. rewrite addrs_Node. in_tac.
Qed.

Lemma Inv_fuel t tr F :
  Inv t tr F -> (length (nodes tr) <= Z.to_nat (len_ (base t)))%nat.
Proof.
  intros H. pose proof (Arena_fuel _ _ _ (inv_arena _ _ _ H)) as Hf.
  unfold addrs in Hf. now rewrite length_map in Hf.
Qed.

(** The insertion of a value that the set holds already. *)
Lemma Insert_found t tr F v c l b w d r :
  Inv t tr F ->
  find_path tr v [] = (c, Node l b w d r) ->
  Insert t v = Some (b, false, t).
Proof.
  intros H Hfp. pose proof H as [HA Hrep Havl Hsort Hroot Hcnt].
  pose proof (find_path_plug tr v []) as Hplug. rewrite Hfp in Hplug.
  cbn [fst snd plug] in Hplug.
  assert (Hb : In b (addrs tr)).
  { rewrite <- Hplug, addrs_plug_eq, addrs_Node. in_tac. }
  destruct (Arena_cell _ _ _ _ HA Hb) as (Hcb & Rb & Hb0).
  assert (Hlen : len_ (base t) <> 0).
  { pose proof HNsize. unfold cell_ok in Hcb. lia. }
  unfold Insert.
  destruct (Z.eqb_spec (len_ (base t)) 0) as [E|_]; [contradiction|].
  destruct tr as [|tl a ta td trr]; [rewrite <- Hplug in Hb; simpl in Hplug;
    destruct c; discriminate|].
  cbn [root lnk] in Hroot.
  destruct (Arena_cell _ _ _ _ HA (root_in (Node tl a ta td trr) a eq_refl))
    as (_ & Ra & Ha0).
  rewrite Hroot, Z.sub_0_r. rewrite (proj2 (Z.eqb_neq a 0)) by auto. cbn [negb].
  rewrite (InsertionPointFor_rep (buf (base t)) v (Node tl a ta td trr) [] a);
    auto.
  - rewrite Hfp. unfold path_result. cbn [snd fst].
    change (Dir.eqb Dir.None Dir.None) with true. cbv iota.
    unfold Optr. rewrite i32_small by (unfold in_range in Rb; lia).
    rewrite Z.sub_0_r in Hroot. rewrite <- Hroot. destruct t; reflexivity.
  - eapply Arena_wf; eauto.
  - unfold fuel_of. pose proof (Inv_fuel _ _ _ H). lia.
Qed.
Lemma Insert_empty t F v :
  Inv t Leaf F -> len_ (base t) + 2 * Nsize <= 2 ^ 31 ->
  exists n t' F',
    Insert t v = Some (n, true, t')
    /\ Inv t' (Node Leaf n v Dir.None Leaf) F'
    /\ (F = n :: F' \/ (F = [] /\ F' = [] /\ n = Z.max (len_ (base t)) Nsize))
    /\ len_ (base t') <= Z.max (len_ (base t)) Nsize + Nsize.
Proof.
  intros H Hl. pose proof HNsize as HN.
  pose proof H as [HA Hrep Havl Hsort Hroot Hcnt].
  cbn [root lnk nodes length] in *.
  pose proof (ar_len _ _ _ HA) as Hlen.
  destruct (ensure_sentinel _ _ _ HA ltac:(lia)) as (HA1 & Hs1 & Hl1 & Hb1 & Hg1).
  unfold Insert. rewrite Hroot. cbn [Z.eqb negb].
  set (g1 := if len_ (base t) =? 0 then _ else _) in *.
  destruct (CreateNode_spec g1 [] F v HA1 Hs1 ltac:(lia))
    as (n & g2 & F' & E & HA2 & Hn & Hsame & _ & HF).
  rewrite E.
  destruct (Arena_cell _ _ _ _ HA2 (in_eq _ _)) as (Hcn & Rn & Hn0).
  exists n, (mkTree g2 (u32 (_Cnt t + 1)) (Optr n)), F'.
  unfold Optr. rewrite i32_small by (unfold in_range in Rn; lia).
  split_all; auto.
  - constructor; cbn [base _Root _Cnt root lnk nodes length app]; auto.
    + cbn [rep root lnk]. auto.
    + cbn [avl height tilt_ok]. auto.
    + repeat constructor.
    + lia.
    + rewrite Hcnt. reflexivity.
  - destruct HF as [[-> _]|(-> & -> & -> & _)]; auto.
    right. split_all; auto.
    destruct (Z.eqb_spec (len_ (base t)) 0) as [E0|E0].
    + subst g1. destruct (PtrAppend_Arena _ _ _ HA ltac:(lia)) as (_ & _ & -> & _).
      lia.
    + rewrite Hg1 by auto. pose proof (Arena_pos _ _ _ HA E0). lia.
  - cbn [base].
    assert (Hmax : len_ g1 = Z.max (len_ (base t)) Nsize).
    { destruct (Z.eqb_spec (len_ (base t)) 0) as [E0|E0].
      - subst g1. destruct (PtrAppend_Arena _ _ _ HA ltac:(lia)) as (_ & _ & -> & _).
        lia.
      - rewrite Hg1 by auto. pose proof (Arena_pos _ _ _ HA E0). lia. }
    destruct HF as [[_ ->]|(_ & _ & _ & ->)]; lia.
Qed.

Lemma find_path_leaf tr v c :
  find_path tr v [] = (c, Leaf) -> tr = plug c Leaf.
Proof.
  intros H. pose proof (find_path_plug tr v []) as Hp. rewrite H in Hp.
  cbn [fst snd plug] in Hp. auto.
Qed.

Lemma Insert_child t tr F v f c :
  Inv t tr F -> len_ (base t) + 2 * Nsize <= 2 ^ 31 ->
  find_path tr v [] = (f :: c, Leaf) ->
  exists n t' tr' F',
    Insert t v = Some (n, true, t')
    /\ Inv t' tr' F'
    /\ nodes tr' = cnodes_l (f :: c) ++ (n, v) :: cnodes_r (f :: c)
    /\ (F = n :: F' \/ (F = [] /\ F' = [] /\ n = Z.max (len_ (base t)) Nsize))
    /\ len_ (base t') <= Z.max (len_ (base t)) Nsize + Nsize.
Proof.
  intros H Hl Hfp. pose proof HNsize as HN.
  pose proof H as [HA Hrep Havl Hsort Hroot Hcnt].
  pose proof (find_path_leaf _ _ _ Hfp) as Htr.
  pose proof (find_path_between v tr [] Hsort (between_nil v)) as [Hbt _].
  rewrite Hfp in Hbt. cbn [fst] in Hbt.
  pose proof (ar_len _ _ _ HA) as Hlen.
  pose proof (Arena_wf _ _ _ HA) as Hwf.
  assert (Hfa : In (faddr f) (addrs tr)).
  { rewrite Htr. cbn [plug]. rewrite addrs_plug_eq.
    apply in_or_app. right. apply in_or_app. left.
    destruct f; cbn [fill faddr]; rewrite addrs_Node; in_tac. }
  destruct (Arena_cell _ _ _ _ HA Hfa) as (Hcf & Rf & Hf0).
  assert (Hlen0 : len_ (base t) <> 0) by (unfold cell_ok in Hcf; lia).
  destruct (ensure_sentinel _ _ _ HA ltac:(lia)) as (HA1 & Hs1 & Hl1 & Hb1 & Hg1).
  unfold Insert.
  set (g1 := if len_ (base t) =? 0 then _ else _) in *.
  rewrite (Hg1 Hlen0) in *. clear g1 Hg1 Hb1 HA1.
  destruct tr as [|tl a ta td trr] eqn:Etr; [destruct c; discriminate|].
  rewrite <- Etr in *.
  assert (Hra : root tr = Some a) by now rewrite Etr.
  destruct (Arena_cell _ _ _ _ HA (root_in tr a Hra)) as (_ & Ra & Ha0).
  rewrite Hra in Hroot. cbn [lnk] in Hroot. rewrite Z.sub_0_r in Hroot.
  rewrite Hroot. rewrite (proj2 (Z.eqb_neq a 0)) by auto. cbn [negb].
  pose proof (Inv_fuel _ _ _ H) as Hfuel.
  rewrite (InsertionPointFor_rep (buf (base t)) v tr [] a); auto;
    [|unfold fuel_of; lia].
  rewrite Hfp. unfold path_result. cbn [snd fst].
  replace (Dir.eqb (fside f) Dir.None) with false by (now destruct f).
  cbv iota.
  destruct (CreateNode_spec (base t) (addrs tr) F v HA Hs1 ltac:(lia))
    as (n & g2 & F' & E & HA2 & Hn & Hsame & Hnew & HF).
  rewrite E.
  destruct (Arena_cell _ _ _ _ HA2 (in_eq _ _)) as (Hcn & Rn & Hn0).
  assert (Hrep2 : rep (buf g2) None tr).
  { apply (rep_frame [0; n] (buf (base t))); auto.
    intros b Hb [<-|[<-|[]]]; auto.
    destruct (Arena_cell _ _ _ _ HA Hb) as (_ & _ & Hb0). auto. }
  unfold Optr. rewrite (i32_small (faddr f)) by (unfold in_range in Rf; lia).
  assert (Hlen2 : len_ (base t) <= len_ g2).
  { destruct HF as [[_ ->]|(_ & _ & _ & ->)]; lia. }
  destruct (AddChild_rep (buf g2) f c n v (fuel_of g2)) as
    (m' & t' & E1 & E2 & E3 & E4 & E5 & E6); try (rewrite <- Htr); auto.
  { pose proof (length_plug (f :: c) Leaf) as Hlp. rewrite <- Htr in Hlp.
    cbn [length] in Hlp. unfold fuel_of. lia. }
  rewrite <- Htr in *.
  rewrite E1.
  assert (Hperm : Permutation (n :: addrs tr) (addrs t')).
  { unfold addrs. rewrite E4. rewrite Htr, nodes_plug. cbn [nodes app].
    rewrite !map_app. cbn [map fst]. apply Permutation_middle. }
  specialize (E6 a Hra).
  assert (Hin' : In (a + parent (m' a)) (addrs t')) by now apply root_in.
  assert (HA3 : Arena (with_buf g2 m') (addrs t') F').
  { eapply Arena_perm; [exact Hperm|]. apply Arena_same_but; auto. }
  destruct (Arena_cell _ _ _ _ HA3 Hin') as (_ & Rr & Hr0).
  exists n, (mkTree (with_buf g2 m') (u32 (_Cnt t + 1))
               (i32 (a + parent (m' a)))), t', F'.
  rewrite (i32_small n) by (unfold in_range in Rn; lia).
  split_all; auto;
    [|destruct HF as [[-> _]|(-> & -> & -> & _)]; auto;
      right; split_all; auto; lia
     |cbn [base with_buf len_]; destruct HF as [[_ ->]|(_ & _ & _ & ->)]; lia].
  constructor; cbn [base _Root _Cnt with_buf buf ptr_]; auto.
  - unfold inorder. rewrite E4, map_app. cbn [map snd].
    destruct Hbt as [Hb1 Hb2].
    apply sorted_insert.
    + unfold inorder in Hsort. rewrite Htr, nodes_plug in Hsort.
      cbn [nodes app] in Hsort. now rewrite map_app in Hsort.
    + now apply Forall_map_snd.
    + now apply Forall_map_snd.
  - rewrite E6. cbn [lnk]. rewrite i32_small by (unfold in_range in Rr; lia). lia.
  - rewrite Hcnt.
    pose proof (Permutation_length Hperm) as Hpl. unfold addrs in Hpl.
    cbn [length] in Hpl. rewrite !length_map in Hpl. rewrite <- Hpl.
    pose proof (Arena_fuel _ _ _ HA) as Hfl. unfold addrs in Hfl.
    rewrite length_map in Hfl. pose proof (ar_lim _ _ _ HA).
    rewrite u32_small by lia. lia.
Qed.
Lemma found_split v c l b w d r :
  sorted (inorder (plug c (Node l b w d r))) -> between v c -> equiv w v ->
  Forall (fun x => lt x v) (map snd (cnodes_l c ++ nodes l))
  /\ Forall (lt v) (map snd (nodes r ++ cnodes_r c)).
Proof.
  intros Hs [Hb1 Hb2] He.
  unfold inorder in Hs. rewrite nodes_plug in Hs. cbn [nodes] in Hs.
  rewrite !map_app in Hs. cbn [map snd] in Hs.
  apply sorted_app in Hs. destruct Hs as (_ & Hs & _).
  apply sorted_app in Hs. destruct Hs as (Hs & _ & _).
  apply sorted_app in Hs. destruct Hs as (_ & Hs & Hlw).
  apply sorted_cons in Hs. destruct Hs as [_ Hwr].
  rewrite !map_app, !Forall_app. split_all.
  - now apply Forall_map_snd.
  - apply Forall_forall. intros x Hx.
    apply (lt_equiv_r x w v); auto. apply Hlw; auto. now left.
  - eapply Forall_impl; [|exact Hwr]. intros x Hx.
    apply (lt_equiv_l v w x); auto. now apply equiv_sym.
  - now apply Forall_map_snd.
Qed.

Lemma not_equiv_lt x v : lt x v \/ lt v x -> ~ equiv x v.
Proof. unfold lt, equiv. intros [H|H] [H1 H2]; congruence. Qed.

Lemma Insert_spec t tr F v :
  Inv t tr F -> len_ (base t) + 2 * Nsize <= 2 ^ 31 ->
  (exists a w, In (a, w) (nodes tr) /\ equiv w v
               /\ Insert t v = Some (a, false, t)
               /\ ref_insert v (inorder tr) = inorder tr)
  \/ ((forall w, In w (inorder tr) -> ~ equiv w v)
      /\ exists n t' tr' F',
           Insert t v = Some (n, true, t')
           /\ Inv t' tr' F'
           /\ inorder tr' = ref_insert v (inorder tr)
           /\ Permutation ((n, v) :: nodes tr) (nodes tr')
           /\ (F = n :: F'
               \/ (F = [] /\ F' = [] /\ n = Z.max (len_ (base t)) Nsize))
           /\ len_ (base t') <= Z.max (len_ (base t)) Nsize + Nsize).
Proof.
  intros H Hl. pose proof (inv_sorted _ _ _ H) as Hsort.
  destruct (find_path tr v []) as [c s] eqn:Hfp.
  pose proof (find_path_between v tr [] Hsort (between_nil v)) as [Hbt Hs].
  pose proof (find_path_plug tr v []) as Hplug.
  rewrite Hfp in *. cbn [fst snd] in *.
  change (plug [] tr) with tr in Hplug.
  destruct s as [|l b w d r].
  - right.
    assert (Hnodes : nodes tr = cnodes_l c ++ cnodes_r c).
    { rewrite <- Hplug, nodes_plug. reflexivity. }
    destruct Hbt as [Hb1 Hb2].
    apply (Forall_map_snd (fun y => lt y v)) in Hb1.
    apply (Forall_map_snd (lt v)) in Hb2.
    split.
    { intros w Hw. unfold inorder in Hw. rewrite Hnodes, map_app in Hw.
      apply not_equiv_lt. apply in_app_or in Hw.
      rewrite Forall_forall in Hb1, Hb2. destruct Hw; auto. }
    assert (Hgoal : forall n t' tr' F',
              Insert t v = Some (n, true, t') -> Inv t' tr' F' ->
              nodes tr' = cnodes_l c ++ (n, v) :: cnodes_r c ->
              (F = n :: F' \/ (F = [] /\ F' = [] /\ n = Z.max (len_ (base t)) Nsize)) ->
              len_ (base t') <= Z.max (len_ (base t)) Nsize + Nsize ->
              exists n t' tr' F',
                Insert t v = Some (n, true, t')
                /\ Inv t' tr' F'
                /\ inorder tr' = ref_insert v (inorder tr)
                /\ Permutation ((n, v) :: nodes tr) (nodes tr')
                /\ (F = n :: F'
                    \/ (F = [] /\ F' = [] /\ n = Z.max (len_ (base t)) Nsize))
                /\ len_ (base t') <= Z.max (len_ (base t)) Nsize + Nsize).
    { intros n t' tr' F' E HI Hn HF HL. exists n, t', tr', F'. split_all; auto.
      - unfold inorder. rewrite Hn, Hnodes, !map_app. cbn [map snd].
        symmetry. now apply ref_insert_new.
      - rewrite Hn, Hnodes. apply Permutation_middle. }
    destruct c as [|f c].
    + cbn [plug] in Hplug. subst tr.
      destruct (Insert_empty t F v H Hl) as (n & t' & F' & E & HI & HF & HL).
      apply (Hgoal n t' _ F' E HI); auto.
    + destruct (Insert_child t tr F v f c H Hl Hfp)
        as (n & t' & tr' & F' & E & HI & Hn & HF & HL).
      apply (Hgoal n t' tr' F' E HI); auto.
  - left. exists b, w.
    rewrite <- Hplug in Hsort.
    destruct (found_split v c l b w d r Hsort Hbt Hs) as [HA HB].
    split_all; auto.
    + rewrite <- Hplug, nodes_plug. cbn [nodes]. in_tac.
    + eapply Insert_found; eauto.
    + unfold inorder. rewrite <- Hplug, nodes_plug. cbn [nodes].
      replace (cnodes_l c ++ (nodes l ++ (b, w) :: nodes r) ++ cnodes_r c)
        with ((cnodes_l c ++ nodes l) ++ (b, w) :: nodes r ++ cnodes_r c)
        by (rewrite <- !app_assoc; reflexivity).
      rewrite map_app. cbn [map snd].
      apply ref_insert_old; auto.
Qed.
(** ** [Erase] and [EraseAtOffset] *)

Lemma chain_in m : forall F a f, chain m a F -> In f F -> exists o, m f = zn o.
Proof.
  induction F as [|x F IH]; intros a f Hc []; cbn [chain] in Hc;
    destruct Hc as [_ Hc].
  - subst x. destruct F; cbn [chain] in Hc; [|destruct Hc]; eauto.
  - eapply IH; eauto.
Qed.

Lemma Arena_empty_cell g L F n :
  Arena g L F -> ~ In n L -> IsEmpty (buf g) n = true.
Proof.
  intros H Hn. unfold IsEmpty.
  destruct (Z.eq_dec n 0) as [->|Hn0].
  - pose proof (ar_chain _ _ _ H) as Hc.
    destruct F; cbn [chain] in Hc; [|destruct Hc as [Hc _]]; now rewrite Hc.
  - destruct (in_dec Z.eq_dec n F) as [Hi|Hi].
    + destruct (chain_in _ _ _ _ (ar_chain _ _ _ H) Hi) as [o ->]. reflexivity.
    + now rewrite (ar_zero _ _ _ H n).
Qed.

Lemma erase_node_empty t tr F Proot n :
  Inv t tr F -> ~ In n (addrs tr) -> erase_node t Proot (Some n) = Some t.
Proof.
  intros H Hn. unfold erase_node. cbn [_EraseNode].
  now rewrite (Arena_empty_cell _ _ _ _ (inv_arena _ _ _ H) Hn).
Qed.

Lemma erase_node_live t c l n w d r F Proot :
  Inv t (plug c (Node l n w d r)) F ->
  exists t' tr',
    erase_node t Proot (Some n) = Some t'
    /\ Inv t' tr' (n :: F)
    /\ nodes tr' = cnodes_l c ++ nodes l ++ nodes r ++ cnodes_r c
    /\ len_ (base t') = len_ (base t).
Proof.
  intros H. pose proof H as [HA Hrep Havl Hsort Hroot Hcnt].
  pose proof (Arena_wf _ _ _ HA) as Hwf.
  pose proof (Inv_fuel _ _ _ H) as Hfuel.
  destruct (EraseNode_rep (buf (base t)) c l n w d r (fuel_of (base t))
              (Some Proot) Hwf Hrep Havl)
    as (m' & t' & E & Hrep' & Hsame & Hnodes & Havl').
  { unfold fuel_of. lia. }
  unfold erase_node. rewrite E.
  assert (Hperm : Permutation (addrs (plug c (Node l n w d r))) (n :: addrs t')).
  { unfold addrs. rewrite Hnodes, nodes_plug. cbn [nodes].
    repeat first [rewrite map_app | progress cbn [map fst]].
    rewrite <- !app_assoc. cbn [app].
    rewrite !(app_assoc (map fst (cnodes_l c))).
    apply Permutation_sym. apply Permutation_middle. }
  pose proof (Arena_perm _ _ _ _ Hperm (Arena_same_but _ _ _ _ HA Hsame)) as HA1.
  destruct (Decommission_spec _ _ _ _ HA1) as [HA2 Hs2].
  cbn [with_buf buf ptr_ len_ capacity_] in HA2, Hs2.
  assert (Hn : ~ In n (addrs t')).
  { pose proof (ar_nodup _ _ _ HA1) as Hnd. cbn [app] in Hnd.
    apply nd_cons in Hnd. destruct Hnd as [Hnd _]. intros Hi. apply Hnd.
    apply in_or_app. auto. }
  eexists _, t'. split; [reflexivity|]. split; [|split; [auto|reflexivity]].
  constructor; cbn [base _Root _Cnt with_buf buf ptr_ len_ capacity_]; auto.
  - apply (rep_frame [0; n] m'); auto.
    intros b Hb [<-|[<-|[]]]; auto.
    destruct (Arena_cell _ _ _ _ HA2 Hb) as (_ & _ & Hb0). auto.
  - unfold inorder in *. rewrite Hnodes. rewrite nodes_plug in Hsort.
    cbn [nodes] in Hsort. rewrite <- !app_assoc in Hsort. cbn [app] in Hsort.
    repeat first [rewrite map_app in Hsort | progress cbn [map snd] in Hsort].
    rewrite !map_app.
    rewrite (app_assoc (map snd (cnodes_l c))) in *.
    eapply sorted_remove; eauto.
  - destruct t' as [|tl a ta td trr]; [reflexivity|].
    cbn [root OptrSafe lnk Optr].
    destruct (Arena_cell _ _ _ _ HA2 (root_in (Node tl a ta td trr) a eq_refl))
      as (_ & Ra & _).
    rewrite i32_small by (unfold in_range in Ra; lia). lia.
  - rewrite Hcnt. pose proof (Permutation_length Hperm) as Hpl.
    unfold addrs in Hpl. cbn [length] in Hpl. rewrite !length_map in Hpl.
    rewrite Hpl. pose proof (ar_lim _ _ _ HA).
    rewrite Hpl in Hfuel. cbn [length] in Hfuel.
    rewrite u32_small by lia. lia.
Qed.
Lemma Inv_root_nz t tr F a :
  Inv t tr F -> root tr = Some a -> _Root t = a /\ NSafePtr (_Root t) = Some a.
Proof.
  intros H Hr. pose proof (inv_root _ _ _ H) as Hroot. rewrite Hr in Hroot.
  cbn [lnk] in Hroot. rewrite Z.sub_0_r in Hroot.
  destruct (Arena_cell _ _ _ _ (inv_arena _ _ _ H) (root_in _ _ Hr)) as (_ & _ & Ha0).
  split; auto. unfold NSafePtr. rewrite Hroot.
  now rewrite (proj2 (Z.eqb_neq a 0)).
Qed.

Lemma Inv_root_leaf t F : Inv t Leaf F -> NSafePtr (_Root t) = None.
Proof. intros H. now rewrite (inv_root _ _ _ H). Qed.

Lemma Erase_spec t tr F v :
  Inv t tr F ->
  ((forall w, In w (inorder tr) -> ~ equiv w v)
   /\ Erase t v = Some t /\ ref_erase v (inorder tr) = inorder tr)
  \/ (exists a w A B t' tr',
        nodes tr = A ++ (a, w) :: B /\ equiv w v
        /\ Erase t v = Some t' /\ Inv t' tr' (a :: F)
        /\ nodes tr' = A ++ B
        /\ inorder tr' = ref_erase v (inorder tr)
        /\ len_ (base t') = len_ (base t)).
Proof.
  intros H. pose proof (inv_sorted _ _ _ H) as Hsort.
  destruct (find_path tr v []) as [c s] eqn:Hfp.
  pose proof (find_path_between v tr [] Hsort (between_nil v)) as [Hbt Hs].
  pose proof (find_path_plug tr v []) as Hplug.
  rewrite Hfp in *. cbn [fst snd] in *.
  change (plug [] tr) with tr in Hplug.
  pose proof (Inv_fuel _ _ _ H) as Hfuel.
  pose proof (Arena_wf _ _ _ (inv_arena _ _ _ H)) as Hwf.
  pose proof (inv_rep _ _ _ H) as Hrep.
  unfold Erase.
  destruct s as [|l b w d r].
  - left.
    assert (Hnodes : nodes tr = cnodes_l c ++ cnodes_r c).
    { rewrite <- Hplug, nodes_plug. reflexivity. }
    destruct Hbt as [Hb1 Hb2].
    apply (Forall_map_snd (fun y => lt y v)) in Hb1.
    apply (Forall_map_snd (lt v)) in Hb2.
    split_all.
    + intros w Hw. unfold inorder in Hw. rewrite Hnodes, map_app in Hw.
      apply not_equiv_lt. apply in_app_or in Hw.
      rewrite Forall_forall in Hb1, Hb2. destruct Hw; auto.
    + destruct tr as [|tl a ta td trr] eqn:Etr.
      * now rewrite (Inv_root_leaf _ _ H).
      * rewrite <- Etr in *.
        assert (Hra : root tr = Some a) by now rewrite Etr.
        destruct (Inv_root_nz _ _ _ _ H Hra) as [_ ->].
        rewrite (InsertionPointFor_rep (buf (base t)) v tr [] a); auto;
          [|unfold fuel_of; lia].
        rewrite Hfp. unfold path_result. cbn [snd fst].
        destruct c as [|f c]; [rewrite Etr in Hplug; discriminate|].
        now destruct f.
    + unfold inorder. rewrite Hnodes, map_app. now apply ref_erase_absent.
  - right.
    assert (Hb : In b (addrs tr)).
    { rewrite <- Hplug, addrs_plug_eq, addrs_Node. in_tac. }
    destruct tr as [|tl a ta td trr] eqn:Etr; [destruct Hb|].
    rewrite <- Etr in *.
    assert (Hra : root tr = Some a) by now rewrite Etr.
    destruct (Inv_root_nz _ _ _ _ H Hra) as [_ ->].
    rewrite (InsertionPointFor_rep (buf (base t)) v tr [] a); auto;
      [|unfold fuel_of; lia].
    rewrite Hfp. unfold path_result. cbn [snd fst].
    change (Dir.eqb Dir.None Dir.None) with true. cbv iota.
    rewrite <- Hplug in H, Hsort.
    destruct (erase_node_live t c l b w d r F a H)
      as (t' & tr' & E & HI & Hn & HL).
    destruct (found_split v c l b w d r Hsort Hbt Hs) as [HA HB].
    exists b, w, (cnodes_l c ++ nodes l), (nodes r ++ cnodes_r c), t', tr'.
    split_all; auto.
    + rewrite <- Hplug, nodes_plug. cbn [nodes]. now rewrite <- !app_assoc.
    + now rewrite Hn, <- !app_assoc.
    + unfold inorder. rewrite Hn, <- Hplug, nodes_plug. cbn [nodes].
      replace (cnodes_l c ++ (nodes l ++ (b, w) :: nodes r) ++ cnodes_r c)
        with ((cnodes_l c ++ nodes l) ++ (b, w) :: nodes r ++ cnodes_r c)
        by (rewrite <- !app_assoc; reflexivity).
      rewrite (map_app _ (cnodes_l c ++ nodes l)). cbn [map snd].
      rewrite ref_erase_mid; auto.
      now rewrite <- map_app, <- !app_assoc.
Qed.

Lemma EraseAt_spec t tr F o :
  Inv t tr F ->
  (~ In o (addrs tr) /\ EraseAtOffset t o = Some t)
  \/ (exists w A B t' tr',
        nodes tr = A ++ (o, w) :: B
        /\ EraseAtOffset t o = Some t' /\ Inv t' tr' (o :: F)
        /\ nodes tr' = A ++ B
        /\ len_ (base t') = len_ (base t)).
Proof.
  intros H. unfold EraseAtOffset.
  destruct (in_dec Z.eq_dec o (addrs tr)) as [Hi|Hi].
  - right.
    destruct (tree_split tr o Hi) as (c & l & w & d & r & Etr).
    destruct (Arena_cell _ _ _ _ (inv_arena _ _ _ H) Hi) as (_ & _ & Ho0).
    destruct tr as [|tl a ta td trr] eqn:Etr'; [destruct Hi|].
    rewrite <- Etr' in *.
    assert (Hra : root tr = Some a) by now rewrite Etr'.
    destruct (Inv_root_nz _ _ _ _ H Hra) as [_ ->].
    unfold NSafePtr at 1. rewrite (proj2 (Z.eqb_neq o 0)) by auto.
    rewrite Etr in H.
    destruct (erase_node_live t c l o w d r F a H)
      as (t' & tr' & E & HI & Hn & HL).
    exists w, (cnodes_l c ++ nodes l), (nodes r ++ cnodes_r c), t', tr'.
    split_all; auto.
    + rewrite Etr, nodes_plug. cbn [nodes]. now rewrite <- !app_assoc.
    + now rewrite Hn, <- !app_assoc.
  - left. split; auto.
    destruct (NSafePtr (_Root t)); auto.
    unfold NSafePtr. destruct (o =? 0); auto.
    eapply erase_node_empty; eauto.
Qed.
(** ** [reserve] and [Clear] *)

Lemma Reserve_inv t tr F count :
  Inv t tr F -> 0 <= count -> (count + 1) * Nsize <= 2 ^ 31 ->
  Inv (reserve t count) tr F.
Proof.
  intros H Hc Hl. pose proof HNsize as HN.
  pose proof H as [HA Hrep Havl Hsort Hroot Hcnt].
  pose proof (ar_len _ _ _ HA) as Hlen.
  unfold reserve, _Reserve.
  assert (Hpos : 0 <= (count + 1) * Nsize) by nia.
  rewrite u64_small, u32_small by lia.
  destruct ((count + 1) * Nsize >? capacity_ (base t)) eqn:E.
  - apply Z.gtb_lt in E.
    rewrite u32_small by lia.
    destruct (GrowBy_Arena (base t) (addrs tr) F ((count + 1) * Nsize - len_ (base t))
                HA ltac:(lia) ltac:(lia)) as (HA' & _ & _).
    constructor; cbn [base _Root _Cnt]; auto.
    eapply rep_ext; [|exact Hrep]. intros a. eapply GrowBy_buf; eauto.
  - constructor; auto.
Qed.

Lemma DestroyRecursive_rep m : forall t par a fuel,
  rep m par t -> NoDup (addrs t) -> root t = Some a ->
  (length (nodes t) <= fuel)%nat ->
  DestroyRecursive fuel m a = Some tt.
Proof.
  induction t as [|l IHl b w d r IHr]; intros par a fuel Hrep Hnd Hroot Hf;
    [discriminate|].
  injection Hroot as ->. destruct Hrep as (Ha & Hl & Hr).
  cbn [nodes] in Hf. rewrite length_app in Hf. cbn [length] in Hf.
  destruct fuel as [|fuel]; [lia|].
  rewrite addrs_Node in Hnd. apply nd_app in Hnd. destruct Hnd as (Hs & Hn1 & Hn2).
  apply nd_cons in Hn2. destruct Hn2 as [Hni Hn2].
  cbn [DestroyRecursive]. unfold Nleft, Nright, _Ptr. rewrite Ha. cbn [left right].
  assert (Hleft : (if negb (lnk a (root l) =? 0)
                   then DestroyRecursive fuel m (a + lnk a (root l))
                   else Some tt) = Some tt).
  { destruct l as [|l1 e ve de l2]; [reflexivity|]. cbn [root lnk].
    assert (a <> e).
    { intros ->. apply (Hs e); [|now left]. rewrite addrs_Node. in_tac. }
    rewrite link_nz by neq_tac. rewrite ptr_link. cbn [negb].
    apply (IHl (Some a)); auto. lia. }
  rewrite Hleft.
  destruct r as [|r1 e ve de r2]; [reflexivity|]. cbn [root lnk].
  assert (a <> e).
  { intros ->. apply Hni. rewrite addrs_Node. in_tac. }
  rewrite link_nz by neq_tac. rewrite ptr_link. cbn [negb].
  apply (IHr (Some a)); auto. lia.
Qed.

Lemma Inv_init : Inv AvlTree0 Leaf [].
Proof.
  constructor; cbn; auto.
  - constructor; cbn; auto; try lia.
    + apply Z.divide_0_r.
    + constructor.
  - constructor.
Qed.

Lemma Reset_init g L F : Arena g L F -> _Reset g = Growable0.
Proof.
  intros H. pose proof (ar_null _ _ _ H) as Hn. pose proof (ar_len _ _ _ H) as Hl.
  unfold _Reset. destruct g as [[p|] l c]; cbn [ptr_ len_ capacity_] in *; auto.
  specialize (Hn eq_refl). unfold Growable0. f_equal; lia.
Qed.

Lemma Clear_spec t tr F : Inv t tr F -> Clear t = Some AvlTree0.
Proof.
  intros H. pose proof H as [HA Hrep Havl Hsort Hroot Hcnt].
  unfold Clear. rewrite (Reset_init _ _ _ HA).
  destruct tr as [|tl a ta td trr] eqn:Etr.
  - rewrite (Inv_root_leaf _ _ H). cbn in Hroot, Hcnt. now rewrite Hroot, Hcnt.
  - rewrite <- Etr in *.
    assert (Hra : root tr = Some a) by now rewrite Etr.
    destruct (Inv_root_nz _ _ _ _ H Hra) as [_ ->].
    rewrite (DestroyRecursive_rep (buf (base t)) tr None a); auto.
    + destruct (Arena_wf _ _ _ HA). auto.
    + pose proof (Inv_fuel _ _ _ H). unfold fuel_of. lia.
Qed.
(** ** Walking in order *)

Lemma climb_next_rep m : forall c l a v d r fuel,
  rep m None (plug c (Node l a v d r)) -> wf (plug c (Node l a v d r)) ->
  (length c < fuel)%nat ->
  climb_next fuel m a (Branch m a) = Some (hd_addr (cnodes_r c)).
Proof.
  induction c as [|f c IH]; intros l a v d r fuel Hrep Hwf Hf;
    (destruct fuel as [|fuel]; [simpl in Hf; lia|]);
    cbn [climb_next];
    rewrite (NSafeParent_rep _ _ _ _ _ _ _ Hwf Hrep),
            (Branch_rep _ _ _ _ _ _ _ Hwf Hrep); cbn [cpar].
  - reflexivity.
  - destruct f as [p vp dp sib|sib p vp dp]; cbn [fside faddr].
    + reflexivity.
    + change (Dir.eqb Dir.Right Dir.Left) with false. cbv iota.
      cbn [plug fill] in *. cbn [cnodes_r fnodes_r app].
      apply (IH sib p vp dp (Node l a v d r)); auto. simpl in Hf. lia.
Qed.

Lemma InorderNextOf_rep m c l a v d r fuel :
  rep m None (plug c (Node l a v d r)) -> wf (plug c (Node l a v d r)) ->
  (length (nodes (plug c (Node l a v d r))) <= fuel)%nat ->
  InorderNextOf fuel m (Some a) = Some (hd_addr (nodes r ++ cnodes_r c)).
Proof.
  intros Hrep Hwf Hf.
  pose proof (rep_cell _ _ _ _ _ _ _ Hrep) as Ha.
  pose proof (length_plug c (Node l a v d r)) as Hlp.
  cbn [nodes] in Hlp. rewrite length_app in Hlp. cbn [length] in Hlp.
  cbn [InorderNextOf]. rewrite Ha. cbn [right].
  destruct r as [|r1 e ve de r2].
  - cbn [root lnk Z.eqb negb nodes app].
    apply (climb_next_rep m c l a v d Leaf); auto. lia.
  - assert (a <> e) by (destruct Hwf as [Hnd Hrg]; wf_split Hnd Hrg; neq_tac).
    cbn [root lnk]. rewrite link_nz by neq_tac. cbn [negb].
    unfold Nright, _Ptr. rewrite Ha. cbn [right root lnk]. rewrite ptr_link.
    cbn [LeftmostOf].
    apply rep_plug in Hrep. destruct Hrep as (_ & _ & _ & Hr).
    assert (Hnd : NoDup (addrs (Node r1 e ve de r2))).
    { destruct Hwf as [Hnd _]. rewrite addrs_plug_eq, addrs_Node in Hnd.
      apply nd_app in Hnd. destruct Hnd as (_ & _ & Hnd).
      apply nd_app in Hnd. destruct Hnd as (_ & Hnd & _).
      apply nd_app in Hnd. destruct Hnd as (_ & _ & Hnd).
      apply nd_cons in Hnd. tauto. }
    destruct (descend_left_rep m _ _ e fuel Hr Hnd eq_refl)
      as (cm & o & vo & do & ro & E & Hcm & Hd).
    { cbn [nodes] in *. rewrite !length_app in *. cbn [length] in *. lia. }
    rewrite Hd, E, nodes_plug, (cnodes_l_all_left cm Hcm). reflexivity.
Qed.

Lemma split_unique (A A' B B' : list (Z * T)) a v v' :
  NoDup (map fst (A ++ (a, v) :: B)) ->
  A ++ (a, v) :: B = A' ++ (a, v') :: B' ->
  A = A' /\ v = v' /\ B = B'.
Proof.
  revert A'. induction A as [|x A IH]; intros A' Hnd E.
  - destruct A' as [|y A'].
    + injection E as -> ->. auto.
    + exfalso. injection E as <- ->. cbn [map fst app] in Hnd.
      apply nd_cons in Hnd. destruct Hnd as [Hn _]. apply Hn.
      rewrite map_app. apply in_or_app. right. now left.
  - destruct A' as [|y A'].
    + exfalso. injection E as -> <-. cbn [map fst app] in Hnd.
      apply nd_cons in Hnd. destruct Hnd as [Hn _]. apply Hn.
      rewrite map_app. apply in_or_app. right. now left.
    + injection E as -> E. cbn [map app] in Hnd.
      apply nd_cons in Hnd. destruct Hnd as [_ Hnd].
      destruct (IH A' Hnd E) as (-> & -> & ->). auto.
Qed.

Lemma node_split tr A a v B :
  wf tr -> nodes tr = A ++ (a, v) :: B ->
  exists c l d r,
    tr = plug c (Node l a v d r) /\ A = cnodes_l c ++ nodes l
    /\ B = nodes r ++ cnodes_r c.
Proof.
  intros [Hnd _] Hn.
  assert (Hi : In a (addrs tr)).
  { unfold addrs. rewrite Hn, map_app. apply in_or_app. right. now left. }
  destruct (tree_split tr a Hi) as (c & l & v' & d & r & ->).
  unfold addrs in Hnd. rewrite Hn in Hnd.
  rewrite nodes_plug in Hn. cbn [nodes] in Hn.
  rewrite <- !app_assoc in Hn. cbn [app] in Hn.
  rewrite (app_assoc (cnodes_l c)) in Hn. symmetry in Hn.
  destruct (split_unique _ _ _ _ _ _ _ Hnd Hn) as (-> & -> & ->).
  exists c, l, d, r. auto.
Qed.

Lemma walk_rep t tr : forall B A a v fuel,
  rep (buf (base t)) None tr -> wf tr ->
  (length (nodes tr) <= Z.to_nat (len_ (base t)))%nat ->
  nodes tr = A ++ (a, v) :: B ->
  (length B < fuel)%nat ->
  walk fuel t (Some a) = Some (v :: map snd B).
Proof.
  induction B as [|[b w] B IH]; intros A a v fuel Hrep Hwf Hlen Hn Hf;
    (destruct fuel as [|fuel]; [simpl in Hf; lia|]);
    destruct (node_split tr A a v _ Hwf Hn) as (c & l & d & r & Etr & EA & EB);
    cbn [walk]; subst tr;
    rewrite (InorderNextOf_rep _ c l a v d r) by (auto; unfold fuel_of; lia);
    rewrite (rep_cell _ _ _ _ _ _ _ Hrep); cbn [payload];
    rewrite <- EB; cbn [hd_addr].
  - destruct fuel; reflexivity.
  - rewrite (IH (A ++ [(a, v)]) b w fuel); auto.
    + now rewrite <- app_assoc.
    + simpl in Hf. lia.
Qed.

Lemma to_list_inv t tr F : Inv t tr F -> to_list t = Some (inorder tr).
Proof.
  intros H. pose proof H as [HA Hrep Havl Hsort Hroot Hcnt].
  pose proof (Arena_wf _ _ _ HA) as Hwf.
  pose proof (Inv_fuel _ _ _ H) as Hfuel.
  unfold to_list, begin_, Begin.
  destruct tr as [|tl a ta td trr] eqn:Etr.
  - rewrite (Inv_root_leaf _ _ H). reflexivity.
  - rewrite <- Etr in *.
    assert (Hra : root tr = Some a) by now rewrite Etr.
    destruct (Inv_root_nz _ _ _ _ H Hra) as [_ ->].
    cbn [LeftmostOf].
    destruct (descend_left_rep (buf (base t)) tr None a (fuel_of (base t)))
      as (cm & o & vo & do & ro & E & Hcm & Hd); auto.
    { destruct Hwf; auto. }
    { unfold fuel_of. lia. }
    rewrite Hd. cbn [option_map].
    assert (Hn : nodes tr = [] ++ (o, vo) :: nodes ro ++ cnodes_r cm).
    { rewrite E, nodes_plug, (cnodes_l_all_left cm Hcm). reflexivity. }
    rewrite (walk_rep t tr _ _ _ _ _ Hrep Hwf Hfuel Hn).
    + unfold inorder. now rewrite Hn.
    + rewrite Hn in Hfuel. cbn [app length] in Hfuel. unfold fuel_of. lia.
Qed.
(** ** Every operation keeps the invariant *)

Lemma slot_roundtrip len a :
  len <= 2 ^ 31 -> cell_ok len a ->
  ToSlot a <> 0 /\ slot_off (ToSlot a) = a /\ ToSlot a * Nsize = a.
Proof.
  intros Hl (H1 & H2 & k & Hk). pose proof HNsize as HN.
  assert (Hk1 : 1 <= k) by (destruct (Z_le_gt_dec k 0); nia).
  assert (Hk2 : k <= a) by nia.
  unfold ToSlot, slot_off. rewrite (proj2 (Z.eqb_neq a 0)) by lia.
  rewrite (u64_small a) by lia. rewrite Hk, Z.div_mul by lia.
  rewrite u32_small by lia. rewrite <- Hk.
  rewrite u64_small, i32_small by lia. split_all; lia.
Qed.

Lemma exec_inv t tr F o :
  Inv t tr F -> op_fits t o = true ->
  exists t' tr' F', exec t o = Some t' /\ Inv t' tr' F'.
Proof.
  intros H Hfit. destruct o as [v|v|pos|count|]; cbn [exec op_fits] in *.
  - apply Z.leb_le in Hfit. unfold insert.
    destruct (Insert_spec t tr F v H Hfit)
      as [(a & w & _ & _ & E & _)|(_ & n & t' & tr' & F' & E & HI & _)];
      rewrite E; cbn [option_map snd]; eauto.
  - unfold erase.
    destruct (Erase_spec t tr F v H)
      as [(_ & E & _)|(a & w & A & B & t' & tr' & _ & _ & E & HI & _)];
      rewrite E; eauto.
  - unfold erase_at.
    destruct (EraseAt_spec t tr F (slot_off pos) H)
      as [(_ & E)|(w & A & B & t' & tr' & _ & E & HI & _)];
      rewrite E; eauto.
  - apply andb_true_iff in Hfit. destruct Hfit as [H1 H2].
    apply Z.leb_le in H1, H2.
    eexists _, tr, F. split; [reflexivity|]. now apply Reserve_inv.
  - unfold clear. rewrite (Clear_spec t tr F H).
    exists AvlTree0, Leaf, []. split; auto. apply Inv_init.
Qed.

Lemma run_inv : forall ops t tr F,
  Inv t tr F -> fits t ops = true ->
  exists t' tr' F', run t ops = Some t' /\ Inv t' tr' F'.
Proof.
  induction ops as [|o ops IH]; intros t tr F H Hfit; cbn [run fits] in *.
  - eauto.
  - apply andb_true_iff in Hfit. destruct Hfit as [H1 H2].
    destruct (exec_inv t tr F o H H1) as (t' & tr' & F' & E & HI).
    rewrite E in *. eauto.
Qed.

Lemma run_app : forall ops1 ops2 t,
  run t (ops1 ++ ops2) =
  match run t ops1 with Some t' => run t' ops2 | None => None end.
Proof.
  induction ops1 as [|o ops1 IH]; intros ops2 t; cbn [run app]; auto.
  destruct (exec t o); auto.
Qed.

Lemma fits_app : forall ops1 ops2 t t',
  fits t (ops1 ++ ops2) = true -> run t ops1 = Some t' ->
  fits t ops1 = true /\ fits t' ops2 = true.
Proof.
  induction ops1 as [|o ops1 IH]; intros ops2 t t' Hf Hr; cbn [run fits app] in *.
  - injection Hr as <-. auto.
  - apply andb_true_iff in Hf. destruct Hf as [H1 H2]. rewrite H1.
    destruct (exec t o); [|discriminate]. now apply IH.
Qed.

Lemma fits_app_l : forall ops1 ops2 t,
  fits t (ops1 ++ ops2) = true -> fits t ops1 = true.
Proof.
  induction ops1 as [|o ops1 IH]; intros ops2 t Hf; cbn [fits app] in *; auto.
  apply andb_true_iff in Hf. destruct Hf as [H1 H2]. rewrite H1.
  destruct (exec t o); auto. eapply IH; eauto.
Qed.

(** The states that the operations reach from the empty container. *)
Lemma reach_inv ops :
  fits AvlTree0 ops = true ->
  exists t tr F, run AvlTree0 ops = Some t /\ Inv t tr F.
Proof. apply (run_inv ops AvlTree0 Leaf []), Inv_init. Qed.

Lemma NSafe_node m a v p l r d :
  m a = mkNode v p (lnk a (root l)) (lnk a (root r)) d ->
  ~ In a (addrs l) -> ~ In a (addrs r) ->
  NSafeLeft m a = root l /\ NSafeRight m a = root r.
Proof.
  intros Ha Hl Hr. unfold NSafeLeft, NSafeRight, _Ptr. rewrite Ha.
  cbn [left right]. split.
  - destruct l as [|l1 e ve de l2]; [reflexivity|]. cbn [root lnk].
    assert (a <> e) by (intros ->; apply Hl; rewrite addrs_Node; in_tac).
    rewrite link_nz by neq_tac. now rewrite ptr_link.
  - destruct r as [|r1 e ve de r2]; [reflexivity|]. cbn [root lnk].
    assert (a <> e) by (intros ->; apply Hr; rewrite addrs_Node; in_tac).
    rewrite link_nz by neq_tac. now rewrite ptr_link.
Qed.

Lemma depth_of_rep m : forall s par fuel,
  rep m par s -> NoDup (addrs s) -> (length (nodes s) <= fuel)%nat ->
  depth_of fuel m (root s) = height s.
Proof.
  induction s as [|l IHl a v d r IHr]; intros par fuel Hrep Hnd Hf.
  - destruct fuel; reflexivity.
  - destruct Hrep as (Ha & Hl & Hr).
    cbn [nodes] in Hf. rewrite length_app in Hf. cbn [length] in Hf.
    destruct fuel as [|fuel]; [lia|].
    rewrite addrs_Node in Hnd. apply nd_app in Hnd. destruct Hnd as (Hs & Hn1 & Hn2).
    apply nd_cons in Hn2. destruct Hn2 as [Hni Hn2].
    assert (Hal : ~ In a (addrs l)) by (intros Hi; apply (Hs a Hi); now left).
    destruct (NSafe_node _ _ _ _ _ _ _ Ha Hal Hni) as [EL ER].
    cbn [root depth_of height]. rewrite EL, ER.
    rewrite (IHl (Some a)), (IHr (Some a)); auto; lia.
Qed.

Lemma NSafe_children m c l a v d r :
  rep m None (plug c (Node l a v d r)) -> wf (plug c (Node l a v d r)) ->
  NSafeLeft m a = root l /\ NSafeRight m a = root r.
Proof.
  intros Hrep [Hnd Hrg]. pose proof (rep_cell _ _ _ _ _ _ _ Hrep) as Ha.
  apply (NSafe_node _ _ _ _ _ _ _ Ha); wf_split Hnd Hrg; assumption.
Qed.

Lemma Inv_balanced t tr F n :
  Inv t tr F -> IsEmpty (buf (base t)) n = false -> balanced_at t n.
Proof.
  intros H Hn. pose proof H as [HA Hrep Havl Hsort Hroot Hcnt].
  pose proof (Arena_wf _ _ _ HA) as Hwf.
  pose proof (Inv_fuel _ _ _ H) as Hfuel.
  destruct (in_dec Z.eq_dec n (addrs tr)) as [Hi|Hi];
    [|rewrite (Arena_empty_cell _ _ _ _ HA Hi) in Hn; discriminate].
  destruct (tree_split tr n Hi) as (c & l & v & d & r & ->).
  destruct (NSafe_children _ _ _ _ _ _ _ Hrep Hwf) as [EL ER].
  pose proof (rep_cell _ _ _ _ _ _ _ Hrep) as Ha.
  pose proof Hrep as Hrep'. apply rep_plug in Hrep'.
  destruct Hrep' as (_ & _ & Hl & Hr).
  assert (Hnd : NoDup (addrs l) /\ NoDup (addrs r)).
  { destruct Hwf as [Hnd _]. rewrite addrs_plug_eq, addrs_Node in Hnd.
    apply nd_app in Hnd. destruct Hnd as (_ & _ & Hnd).
    apply nd_app in Hnd. destruct Hnd as (_ & Hnd & _).
    apply nd_app in Hnd. destruct Hnd as (_ & H1 & Hnd).
    apply nd_cons in Hnd. tauto. }
  destruct Hnd as [Hndl Hndr].
  assert (Hlen : (length (nodes l) <= fuel_of (base t)
                  /\ length (nodes r) <= fuel_of (base t))%nat).
  { len_in Hfuel. unfold fuel_of. lia. }
  destruct Hlen as [Hll Hlr].
  unfold balanced_at. cbv zeta. rewrite EL, ER, Ha. cbn [tilt].
  rewrite (depth_of_rep _ l (Some n)), (depth_of_rep _ r (Some n)); auto.
  apply avl_plug in Havl. destruct Havl as [(_ & _ & Ht) _].
  pose proof (height_nonneg l). pose proof (height_nonneg r).
  destruct d; cbn [tilt_ok] in Ht; try contradiction.
  - rewrite (proj2 (Z.ltb_lt (height r) (height l))) by lia. split; [lia|auto].
  - rewrite (proj2 (Z.ltb_ge (height r) (height l))) by lia.
    rewrite (proj2 (Z.ltb_ge (height l) (height r))) by lia. split; [lia|auto].
  - rewrite (proj2 (Z.ltb_ge (height r) (height l))) by lia.
    rewrite (proj2 (Z.ltb_lt (height l) (height r))) by lia. split; [lia|auto].
Qed.
Lemma rotate_erase_LL_balanced m c xl x vx dx xr y vy yr z v r :
  wf (plug c (Node (Node (Node xl x vx dx xr) y vy Dir.None yr) z v Dir.Left r)) ->
  rep m None (plug c (Node (Node (Node xl x vx dx xr) y vy Dir.None yr) z v Dir.Left r)) ->
  fst (_Rotate_Erase m z) = None
  /\ rep (snd (_Rotate_Erase m z)) None
       (plug c (Node (Node xl x vx dx xr) y vy Dir.Right (Node yr z v Dir.Left r))).
Proof.
  intros Hwf Hrep.
  destruct (rot_LL_rep m c (Node xl x vx dx xr) y vy Dir.None yr z v Dir.Left r
              Hwf Hrep) as [Hrep' Hsame].
  rot_ers_pre; after_rot; repeat (zeta1; rd); show_body; cbn [fst snd].
  split; [reflexivity|].
  apply rep_plug; cbn [repc rep cpar faddr root lnk plug fill];
    split_all; first [assumption | exact I].
Qed.

Lemma rotate_erase_RR_balanced m c l z v yl y vy xl x vx dx xr :
  wf (plug c (Node l z v Dir.Right (Node yl y vy Dir.None (Node xl x vx dx xr)))) ->
  rep m None (plug c (Node l z v Dir.Right (Node yl y vy Dir.None (Node xl x vx dx xr)))) ->
  fst (_Rotate_Erase m z) = None
  /\ rep (snd (_Rotate_Erase m z)) None
       (plug c (Node (Node l z v Dir.Right yl) y vy Dir.Left (Node xl x vx dx xr))).
Proof.
  intros Hwf Hrep.
  pose proof (same_but_refl
    (addrs (plug c (Node l z v Dir.Right (Node yl y vy Dir.None (Node xl x vx dx xr)))))
    m) as Hsame0.
  destruct yl as [|tl t vt dt tr];
    rot_ers_pre; run; repeat (zeta1; rd); show_body; cbn [fst snd];
    (split; [reflexivity|]);
    apply rep_plug; cbn [repc rep cpar faddr root lnk plug fill];
      split_all; first [assumption | exact I].
Qed.
(** ** Equivalent elements, payloads and copies *)

Lemma equiv_refl v : equiv v v.
Proof. split; apply less_irrefl. Qed.

Lemma equiv_trans x y z : equiv x y -> equiv y z -> equiv x z.
Proof. destruct Hswo as (_ & _ & H). apply H. Qed.

Lemma equiv_not_lt x y : equiv x y -> ~ lt x y /\ ~ lt y x.
Proof. unfold equiv, lt. intros [H1 H2]. split; congruence. Qed.

(** A strictly increasing list holds one element equivalent to [v] at most. *)
Lemma equiv_unique (l A B : list (Z * T)) a w a' w' v :
  sorted (map snd l) -> l = A ++ (a, w) :: B -> In (a', w') l ->
  equiv w v -> equiv w' v -> (a', w') = (a, w).
Proof.
  intros Hs -> Hi E E'.
  assert (Eww : equiv w' w) by (eapply equiv_trans; [exact E'|now apply equiv_sym]).
  destruct (equiv_not_lt _ _ Eww) as [N1 N2].
  rewrite map_app in Hs. cbn [map snd] in Hs.
  apply sorted_app in Hs. destruct Hs as (_ & Hs & H3).
  apply sorted_cons in Hs. destruct Hs as [_ H4].
  apply in_app_or in Hi. destruct Hi as [Hi|[Hi|Hi]].
  - exfalso. apply N1. apply H3; [|now left].
    change w' with (snd (a', w')). now apply in_map.
  - now symmetry.
  - exfalso. apply N2. rewrite Forall_forall in H4. apply H4.
    change w' with (snd (a', w')). now apply in_map.
Qed.

Lemma rep_payload m : forall t par a w,
  rep m par t -> In (a, w) (nodes t) -> payload (m a) = w.
Proof.
  induction t as [|l IHl b v d r IHr]; intros par a w Hrep Hi; [destruct Hi|].
  destruct Hrep as (Hb & Hl & Hr). cbn [nodes] in Hi.
  apply in_app_or in Hi. destruct Hi as [Hi|[Hi|Hi]].
  - eapply IHl; eauto.
  - injection Hi as <- <-. now rewrite Hb.
  - eapply IHr; eauto.
Qed.

Lemma Inv_at t tr F a w :
  Inv t tr F -> In (a, w) (nodes tr) ->
  ToSlot a <> 0 /\ at_ t (ToSlot a) = w.
Proof.
  intros H Hi. pose proof (inv_arena _ _ _ H) as HA.
  assert (Ha : In a (addrs tr)).
  { unfold addrs. change a with (fst (a, w)). now apply in_map. }
  destruct (Arena_cell _ _ _ _ HA Ha) as (Hc & _ & _).
  destruct (slot_roundtrip _ _ (ar_lim _ _ _ HA) Hc) as (H1 & H2 & _).
  split; auto. unfold at_. rewrite H2.
  eapply rep_payload; [apply (inv_rep _ _ _ H)|exact Hi].
Qed.

Lemma copy_buf g L F a :
  Arena g L F -> buf (_Growable_copy g) a = buf g a.
Proof.
  intros H. unfold _Growable_copy, buf. destruct (ptr_ g) eqn:E; cbn [ptr_]; auto.
  destruct (Z.ltb_spec a (capacity_ g)); auto.
  pose proof (Arena_beyond g L F a H) as Hb. unfold buf in Hb. rewrite E in Hb.
  symmetry. apply Hb. pose proof (ar_len _ _ _ H). lia.
Qed.

Lemma copy_fields g L F :
  Arena g L F ->
  len_ (_Growable_copy g) = len_ g /\ capacity_ (_Growable_copy g) = capacity_ g.
Proof.
  intros H. unfold _Growable_copy. destruct (ptr_ g) eqn:E; cbn; auto.
  pose proof (ar_null _ _ _ H E). pose proof (ar_len _ _ _ H). lia.
Qed.

Lemma copy_Inv t tr F : Inv t tr F -> Inv (set_copy t) tr F.
Proof.
  intros H. pose proof H as [HA Hrep Havl Hsort Hroot Hcnt].
  pose proof (fun a => copy_buf _ _ _ a HA) as Hb.
  destruct (copy_fields _ _ _ HA) as [Hl Hc].
  unfold set_copy, _AvlTree_copy.
  constructor; cbn [base _Root _Cnt]; auto.
  - destruct HA. constructor; rewrite ?Hl, ?Hc; auto.
    + intros Hp. apply ar_null0. unfold _Growable_copy in Hp.
      destruct (ptr_ (base t)); [discriminate|reflexivity].
    + apply (chain_frame (buf (base t))); auto.
    + intros a Ha H1 H2. rewrite Hb. auto.
  - eapply rep_ext; eauto.
Qed.

Lemma run_fits_inv ops t :
  fits AvlTree0 ops = true -> run AvlTree0 ops = Some t ->
  exists tr F, Inv t tr F.
Proof.
  intros Hf Hr. destruct (reach_inv ops Hf) as (t' & tr & F & E & HI).
  rewrite Hr in E. injection E as <-. eauto.
Qed.

(** The slot of an element goes back to the same value when the element is
    erased and inserted again at once. *)
Lemma slot_reuse t tr F v :
  Inv t tr F ->
  len_ (base t) + 4 * Nsize <= 2 ^ 31 ->
  exists s b t1 t2 t3,
    insert t v = Some (s, b, t1) /\ erase t1 v = Some t2
    /\ insert t2 v = Some (s, true, t3).
Proof.
  intros H Hl. pose proof HNsize as HN. unfold insert, erase.
  assert (Hl0 : len_ (base t) + 2 * Nsize <= 2 ^ 31) by lia.
  assert (Hstep : exists a w b t1 tr1 F1,
            Insert t v = Some (a, b, t1) /\ Inv t1 tr1 F1
            /\ In (a, w) (nodes tr1) /\ equiv w v
            /\ len_ (base t1) + 2 * Nsize <= 2 ^ 31).
  { destruct (Insert_spec t tr F v H Hl0)
      as [(a & w & Hi & He & E & _)
         |(_ & n & t' & tr' & F' & E & HI & _ & Hp & _ & HL)].
    - exists a, w, false, t, tr, F. split_all; auto.
    - exists n, v, true, t', tr', F'. split_all; auto.
      + eapply Permutation_in; [exact Hp|now left].
      + apply equiv_refl.
      + pose proof (ar_len _ _ _ (inv_arena _ _ _ H)). lia. }
  destruct Hstep as (a & w & b & t1 & tr1 & F1 & E1 & HI1 & Hi1 & He1 & Hl1).
  rewrite E1.
  destruct (Erase_spec t1 tr1 F1 v HI1)
    as [(Hno & _)|(a' & w' & A & B & t2 & tr2 & Hn1 & He2 & E2 & HI2 & Hn2 & _ & HL2)].
  { exfalso. apply (Hno w); auto. unfold inorder.
    change w with (snd (a, w)). now apply in_map. }
  pose proof (equiv_unique _ A B a' w' a w v (inv_sorted _ _ _ HI1) Hn1 Hi1 He2 He1)
    as Eaw. injection Eaw as -> ->.
  rewrite <- HL2 in Hl1.
  destruct (Insert_spec t2 tr2 (a' :: F1) v HI2 Hl1)
    as [(a2 & w2 & Hi2 & He3 & _)
       |(_ & n & t3 & tr3 & F3 & E3 & _ & _ & _ & HF & _)].
  - exfalso.
    assert (Hin1 : In (a2, w2) (nodes tr1)).
    { rewrite Hn1. rewrite Hn2 in Hi2. apply in_app_or in Hi2.
      apply in_or_app. destruct Hi2; [left|right; right]; auto. }
    pose proof (equiv_unique _ A B a' w' a2 w2 v (inv_sorted _ _ _ HI1) Hn1 Hin1
                  He2 He3) as Eaw. injection Eaw as -> ->.
    pose proof (Arena_wf _ _ _ (inv_arena _ _ _ HI1)) as [Hnd _].
    unfold addrs in Hnd. rewrite Hn1, map_app in Hnd. cbn [map fst] in Hnd.
    apply NoDup_remove_2 in Hnd. apply Hnd. rewrite <- map_app, <- Hn2.
    change a' with (fst (a', w')). now apply in_map.
  - destruct HF as [HF|(HF & _)]; [|discriminate].
    injection HF as <- _.
    exists (ToSlot a'), b, t1, t2, t3. rewrite E2, E3. auto.
Qed.

(** ** Slots: insertion of a new element, erasure of a present one *)

Lemma fits_cons t o ops t' :
  fits t (o :: ops) = true -> exec t o = Some t' ->
  op_fits t o = true /\ fits t' ops = true.
Proof.
  cbn [fits]. intros Hf E. rewrite E in Hf.
  now apply andb_true_iff in Hf.
Qed.

Lemma in_nodes_inorder (tr : tree) a w : In (a, w) (nodes tr) -> In w (inorder tr).
Proof. intros H. unfold inorder. change w with (snd (a, w)). now apply in_map. Qed.

Lemma in_nodes_addrs (tr : tree) a w : In (a, w) (nodes tr) -> In a (addrs tr).
Proof. intros H. unfold addrs. change a with (fst (a, w)). now apply in_map. Qed.

Lemma in_inorder_nodes (tr : tree) w : In w (inorder tr) -> exists a, In (a, w) (nodes tr).
Proof.
  unfold inorder. intros H. apply in_map_iff in H.
  destruct H as ([a w'] & <- & H). eauto.
Qed.

Lemma in_addrs_nodes (tr : tree) a : In a (addrs tr) -> exists w, In (a, w) (nodes tr).
Proof.
  unfold addrs. intros H. apply in_map_iff in H.
  destruct H as ([a' w] & <- & H). eauto.
Qed.

(** The insertion of a value to which no element is equivalent takes the
    head of the chain, or the end of the arena when the chain is empty. *)
Lemma insert_new t tr F v :
  Inv t tr F -> len_ (base t) + 2 * Nsize <= 2 ^ 31 ->
  (forall w, In w (inorder tr) -> ~ equiv w v) ->
  exists n t' tr' F',
    insert t v = Some (ToSlot n, true, t')
    /\ Inv t' tr' F'
    /\ Permutation ((n, v) :: nodes tr) (nodes tr')
    /\ (F = n :: F' \/ (F = [] /\ F' = []))
    /\ len_ (base t') <= Z.max (len_ (base t)) Nsize + Nsize.
Proof.
  intros H Hl Hno. unfold insert.
  destruct (Insert_spec t tr F v H Hl)
    as [(a & w & Hi & He & _)
       |(_ & n & t' & tr' & F' & E & HI & _ & Hp & HF & HL)].
  - exfalso. apply (Hno w); auto. eapply in_nodes_inorder; eauto.
  - rewrite E. exists n, t', tr', F'. split_all; auto.
    destruct HF as [HF|(HF1 & HF2 & _)]; auto.
Qed.

(** The erasure of the element equivalent to [v] puts its cell at the
    head of the chain, and no element equivalent to [v] is left. *)
Lemma erase_present t tr F v a w :
  Inv t tr F -> In (a, w) (nodes tr) -> equiv w v ->
  exists A B t' tr',
    nodes tr = A ++ (a, w) :: B
    /\ erase t v = Some t' /\ Inv t' tr' (a :: F)
    /\ nodes tr' = A ++ B
    /\ len_ (base t') = len_ (base t)
    /\ (forall x, In x (inorder tr') -> ~ equiv x v).
Proof.
  intros H Hi He. unfold erase.
  destruct (Erase_spec t tr F v H)
    as [(Hno & _)|(a' & w' & A & B & t2 & tr2 & Hn1 & He2 & E2 & HI2 & Hn2 & _ & HL2)].
  { exfalso. apply (Hno w); auto. eapply in_nodes_inorder; eauto. }
  pose proof (equiv_unique _ A B a' w' a w v (inv_sorted _ _ _ H) Hn1 Hi He2 He)
    as Eaw. injection Eaw as -> ->.
  exists A, B, t2, tr2. split_all; auto.
  intros x Hx Hex. apply in_inorder_nodes in Hx. destruct Hx as (ax & Hx).
  assert (Hin1 : In (ax, x) (nodes tr)).
  { rewrite Hn1. rewrite Hn2 in Hx. apply in_app_or in Hx.
    apply in_or_app. destruct Hx; [left|right; right]; auto. }
  pose proof (equiv_unique _ A B a' w' ax x v (inv_sorted _ _ _ H) Hn1 Hin1
                He2 Hex) as Eaw. injection Eaw as -> ->.
  pose proof (Arena_wf _ _ _ (inv_arena _ _ _ H)) as [Hnd _].
  unfold addrs in Hnd. rewrite Hn1, map_app in Hnd. cbn [map fst] in Hnd.
  apply NoDup_remove_2 in Hnd. apply Hnd. rewrite <- map_app, <- Hn2.
  eapply in_nodes_addrs; eauto.
Qed.

Lemma in_remove_mid {A : Type} (x y : A) (l1 l2 : list A) :
  In x (l1 ++ y :: l2) -> x <> y -> In x (l1 ++ l2).
Proof.
  intros H Hn. apply in_app_or in H. apply in_or_app.
  destruct H as [H|[H|H]]; auto. congruence.
Qed.

Lemma perm_inorder (tr tr' : tree) n v w :
  Permutation ((n, v) :: nodes tr) (nodes tr') ->
  In w (inorder tr') -> w = v \/ In w (inorder tr).
Proof.
  intros Hp Hw. apply in_inorder_nodes in Hw. destruct Hw as (a & Hw).
  apply (Permutation_in _ (Permutation_sym Hp)) in Hw.
  destruct Hw as [Hw|Hw]; [left; congruence|right].
  eapply in_nodes_inorder; eauto.
Qed.

Lemma perm_fresh t tr F (tr0 : tree) n v :
  Inv t tr F -> Permutation ((n, v) :: nodes tr0) (nodes tr) ->
  ~ In n (addrs tr0).
Proof.
  intros H Hp Hin.
  pose proof (Arena_wf _ _ _ (inv_arena _ _ _ H)) as [Hnd _].
  unfold addrs in Hnd.
  apply (Permutation_NoDup (Permutation_map fst (Permutation_sym Hp))) in Hnd.
  cbn [map fst] in Hnd. apply NoDup_cons_iff in Hnd. now destruct Hnd.
Qed.

Lemma slot_inj t tr F t' tr' F' a b :
  Inv t tr F -> Inv t' tr' F' -> In a (addrs tr) -> In b (addrs tr') ->
  ToSlot a = ToSlot b -> a = b.
Proof.
  intros H H' Ha Hb E.
  pose proof (inv_arena _ _ _ H) as HA. pose proof (inv_arena _ _ _ H') as HA'.
  destruct (Arena_cell _ _ _ _ HA Ha) as (Hc & _ & _).
  destruct (Arena_cell _ _ _ _ HA' Hb) as (Hc' & _ & _).
  destruct (slot_roundtrip _ _ (ar_lim _ _ _ HA) Hc) as (_ & _ & H1).
  destruct (slot_roundtrip _ _ (ar_lim _ _ _ HA') Hc') as (_ & _ & H2).
  rewrite <- H1, <- H2. now rewrite E.
Qed.

(** Insertions of values that are not equivalent to [v], in a state that
    holds the cell [a]: the cell stays in use. *)
Lemma inserts_hold v a : forall ws t tr F,
  Inv t tr F -> fits t (map OInsert ws) = true ->
  (forall w, In w ws -> ~ equiv w v) ->
  (forall w, In w (inorder tr) -> ~ equiv w v) ->
  In a (addrs tr) ->
  exists t' tr' F',
    run t (map OInsert ws) = Some t' /\ Inv t' tr' F'
    /\ (forall w, In w (inorder tr') -> ~ equiv w v)
    /\ In a (addrs tr') /\ _Cnt t <= _Cnt t'.
Proof.
  induction ws as [|w ws IH]; intros t tr F H Hf Hws Hno Ha;
    cbn [map run] in *.
  - exists t, tr, F. split_all; auto. lia.
  - assert (Hfit : op_fits t (OInsert w) = true).
    { cbn [fits] in Hf. now apply andb_true_iff in Hf. }
    cbn [op_fits] in Hfit. apply Z.leb_le in Hfit.
    cbn [exec]. unfold insert.
    destruct (Insert_spec t tr F w H Hfit)
      as [(b & x & _ & _ & E & _)
         |(_ & n & t' & tr' & F' & E & HI & _ & Hp & _ & _)].
    + assert (Ex : exec t (OInsert w) = Some t).
      { cbn [exec]. unfold insert. now rewrite E. }
      destruct (fits_cons _ _ _ _ Hf Ex) as [_ Hf'].
      rewrite E. cbn [option_map snd].
      apply (IH t tr F); auto. intros; apply Hws; now right.
    + assert (Ex : exec t (OInsert w) = Some t').
      { cbn [exec]. unfold insert. now rewrite E. }
      destruct (fits_cons _ _ _ _ Hf Ex) as [_ Hf'].
      rewrite E. cbn [option_map snd].
      destruct (IH t' tr' F' HI Hf') as (t3 & tr3 & F3 & E3 & HI3 & Hno3 & Ha3 & Hc3).
      * intros; apply Hws; now right.
      * intros x Hx. destruct (perm_inorder _ _ _ _ _ Hp Hx) as [->|Hx'].
        -- apply Hws. now left.
        -- now apply Hno.
      * apply in_addrs_nodes in Ha. destruct Ha as (x & Ha).
        apply (in_nodes_addrs tr' a x).
        eapply Permutation_in; [exact Hp|now right].
      * exists t3, tr3, F3. split_all; auto.
        rewrite (inv_cnt _ _ _ H). rewrite (inv_cnt _ _ _ HI) in Hc3.
        rewrite <- (Permutation_length Hp) in Hc3. cbn [length] in Hc3. lia.
Qed.

(** The same with the cell [a] at the head of the chain: either nothing
    is added and the state is as it was, or the first element that is
    added takes [a]. *)
Lemma inserts_take v a : forall ws t tr F,
  Inv t tr (a :: F) -> fits t (map OInsert ws) = true ->
  (forall w, In w ws -> ~ equiv w v) ->
  (forall w, In w (inorder tr) -> ~ equiv w v) ->
  exists t' tr' F',
    run t (map OInsert ws) = Some t' /\ Inv t' tr' F'
    /\ (forall w, In w (inorder tr') -> ~ equiv w v)
    /\ ((t' = t /\ tr' = tr /\ F' = a :: F)
        \/ (In a (addrs tr') /\ _Cnt t < _Cnt t')).
Proof.
  induction ws as [|w ws IH]; intros t tr F H Hf Hws Hno;
    cbn [map run] in *.
  - exists t, tr, (a :: F). split_all; auto.
  - assert (Hfit : op_fits t (OInsert w) = true).
    { cbn [fits] in Hf. now apply andb_true_iff in Hf. }
    cbn [op_fits] in Hfit. apply Z.leb_le in Hfit.
    cbn [exec]. unfold insert.
    destruct (Insert_spec t tr (a :: F) w H Hfit)
      as [(b & x & _ & _ & E & _)
         |(_ & n & t' & tr' & F' & E & HI & _ & Hp & HF & _)].
    + assert (Ex : exec t (OInsert w) = Some t).
      { cbn [exec]. unfold insert. now rewrite E. }
      destruct (fits_cons _ _ _ _ Hf Ex) as [_ Hf'].
      rewrite E. cbn [option_map snd].
      apply (IH t tr F); auto. intros; apply Hws; now right.
    + assert (Ex : exec t (OInsert w) = Some t').
      { cbn [exec]. unfold insert. now rewrite E. }
      destruct (fits_cons _ _ _ _ Hf Ex) as [_ Hf'].
      rewrite E. cbn [option_map snd].
      destruct HF as [HF|(HF & _)]; [|discriminate].
      injection HF as <- <-.
      destruct (inserts_hold v a ws t' tr' F HI Hf')
        as (t3 & tr3 & F3 & E3 & HI3 & Hno3 & Ha3 & Hc3).
      * intros; apply Hws; now right.
      * intros x Hx. destruct (perm_inorder _ _ _ _ _ Hp Hx) as [->|Hx'].
        -- apply Hws. now left.
        -- now apply Hno.
      * apply (in_nodes_addrs tr' a w).
        eapply Permutation_in; [exact Hp|now left].
      * exists t3, tr3, F3. split_all; auto. right. split; auto.
        rewrite (inv_cnt _ _ _ H). rewrite (inv_cnt _ _ _ HI) in Hc3.
        rewrite <- (Permutation_length Hp) in Hc3. cbn [length] in Hc3. lia.
Qed.

(** The first insertion of the roundtrip, of a value that the set holds
    or not. *)
Lemma insert_any t tr F v :
  Inv t tr F -> len_ (base t) + 2 * Nsize <= 2 ^ 31 ->
  exists a w b t1 tr1 F1,
    insert t v = Some (ToSlot a, b, t1) /\ Inv t1 tr1 F1
    /\ In (a, w) (nodes tr1) /\ equiv w v.
Proof.
  intros H Hl. unfold insert.
  destruct (Insert_spec t tr F v H Hl)
    as [(a & w & Hi & He & E & _)
       |(_ & n & t' & tr' & F' & E & HI & _ & Hp & _ & HL)]; rewrite E.
  - exists a, w, false, t, tr, F. split_all; auto.
  - exists n, v, true, t', tr', F'. split_all; auto.
    + eapply Permutation_in; [exact Hp|now left].
    + apply equiv_refl.
Qed.

Lemma reinsert_general t tr F v ws :
  Inv t tr F ->
  fits t (OInsert v :: OErase v :: map OInsert ws ++ [OInsert v]) = true ->
  (forall w, In w ws -> ~ equiv w v) ->
  exists s b t1 t2 t3 s' t4,
    insert t v = Some (s, b, t1) /\ erase t1 v = Some t2
    /\ run t2 (map OInsert ws) = Some t3
    /\ insert t3 v = Some (s', true, t4)
    /\ (s' = s <-> size t3 = size t2).
Proof.
  intros H Hf Hws.
  assert (Hfit : op_fits t (OInsert v) = true).
  { cbn [fits] in Hf. now apply andb_true_iff in Hf. }
  cbn [op_fits] in Hfit. apply Z.leb_le in Hfit.
  destruct (insert_any t tr F v H Hfit)
    as (a & w & b & t1 & tr1 & F1 & E1 & HI1 & Hi1 & He1).
  assert (Ex1 : exec t (OInsert v) = Some t1).
  { cbn [exec]. now rewrite E1. }
  destruct (fits_cons _ _ _ _ Hf Ex1) as [_ Hf1].
  destruct (erase_present t1 tr1 F1 v a w HI1 Hi1 He1)
    as (A & B & t2 & tr2 & Hn1 & E2 & HI2 & Hn2 & _ & Hno2).
  destruct (fits_cons _ _ _ _ Hf1 E2) as [_ Hf2].
  destruct (inserts_take v a ws t2 tr2 F1 HI2 (fits_app_l _ _ _ Hf2) Hws Hno2)
    as (t3 & tr3 & F3 & E3 & HI3 & Hno3 & Hcase).
  destruct (fits_app _ _ _ _ Hf2 E3) as [_ Hf3].
  assert (Hfit3 : op_fits t3 (OInsert v) = true).
  { cbn [fits] in Hf3. now apply andb_true_iff in Hf3. }
  cbn [op_fits] in Hfit3. apply Z.leb_le in Hfit3.
  destruct (insert_new t3 tr3 F3 v HI3 Hfit3 Hno3)
    as (n & t4 & tr4 & F4 & E4 & HI4 & Hp4 & HF4 & _).
  exists (ToSlot a), b, t1, t2, t3, (ToSlot n), t4. split_all; auto.
  destruct Hcase as [(-> & -> & ->)|(Ha3 & Hc3)].
  - destruct HF4 as [HF4|(HF4 & _)]; [|discriminate].
    injection HF4 as <- _. split; reflexivity.
  - unfold size, Size. split; [|lia]. intros Es. exfalso.
    apply (perm_fresh _ _ _ _ _ _ HI4 Hp4).
    assert (Hn4 : In n (addrs tr4)).
    { apply (in_nodes_addrs tr4 n v).
      eapply Permutation_in; [exact Hp4|now left]. }
    rewrite (slot_inj _ _ _ _ _ _ n a HI4 HI3 Hn4 Ha3 Es). exact Ha3.
Qed.

(** Three values, none equivalent to another, go into the empty
    container; the second is erased and a fourth value goes in. *)
Lemma slots_scenario a b c d :
  6 * Nsize <= 2 ^ 31 ->
  ~ equiv a b -> ~ equiv a c -> ~ equiv b c -> ~ equiv a d -> ~ equiv c d ->
  exists s1 s2 s3 t1 t2 t3 t4 t5,
    insert AvlTree0 a = Some (s1, true, t1)
    /\ insert t1 b = Some (s2, true, t2)
    /\ insert t2 c = Some (s3, true, t3)
    /\ erase t3 b = Some t4
    /\ insert t4 d = Some (s2, true, t5)
    /\ at_ t5 s1 = a /\ at_ t5 s3 = c.
Proof.
  intros Hb Hab Hac Hbc Had Hcd. pose proof HNsize as HN.
  destruct (insert_new AvlTree0 Leaf [] a Inv_init)
    as (n1 & t1 & tr1 & F1 & E1 & HI1 & Hp1 & _ & HL1).
  { cbn [AvlTree0 base Growable0 len_]. lia. }
  { intros w []. }
  cbn [AvlTree0 base Growable0 len_ nodes] in HL1, Hp1.
  destruct (insert_new t1 tr1 F1 b HI1)
    as (n2 & t2 & tr2 & F2 & E2 & HI2 & Hp2 & _ & HL2); [lia| |].
  { intros w Hw. destruct (perm_inorder Leaf _ _ _ _ Hp1 Hw) as [->|[]]. auto. }
  destruct (insert_new t2 tr2 F2 c HI2)
    as (n3 & t3 & tr3 & F3 & E3 & HI3 & Hp3 & _ & HL3); [lia| |].
  { intros w Hw. destruct (perm_inorder _ _ _ _ _ Hp2 Hw) as [->|Hw']; auto.
    destruct (perm_inorder Leaf _ _ _ _ Hp1 Hw') as [->|[]]. auto. }
  assert (Ha3 : In (n1, a) (nodes tr3)).
  { eapply Permutation_in; [exact Hp3|right].
    eapply Permutation_in; [exact Hp2|right].
    eapply Permutation_in; [exact Hp1|now left]. }
  assert (Hb3 : In (n2, b) (nodes tr3)).
  { eapply Permutation_in; [exact Hp3|right].
    eapply Permutation_in; [exact Hp2|now left]. }
  assert (Hc3 : In (n3, c) (nodes tr3)).
  { eapply Permutation_in; [exact Hp3|now left]. }
  destruct (erase_present t3 tr3 F3 b n2 b HI3 Hb3 (equiv_refl b))
    as (A & B & t4 & tr4 & Hn3 & E4 & HI4 & Hn4 & HL4 & Hno4).
  assert (Hne : forall x, ~ equiv x b -> forall n, (n, x) <> (n2, b)).
  { intros x Hx n Heq. injection Heq as _ ->. apply Hx, equiv_refl. }
  assert (Ha4 : In (n1, a) (nodes tr4)).
  { rewrite Hn4. apply (in_remove_mid _ (n2, b)); [now rewrite <- Hn3|].
    now apply Hne. }
  assert (Hc4 : In (n3, c) (nodes tr4)).
  { rewrite Hn4. apply (in_remove_mid _ (n2, b)); [now rewrite <- Hn3|].
    apply Hne. intros Hx. apply Hbc. now apply equiv_sym. }
  destruct (insert_new t4 tr4 (n2 :: F3) d HI4)
    as (n5 & t5 & tr5 & F5 & E5 & HI5 & Hp5 & HF5 & _); [lia| |].
  { intros w Hw Hwd. pose proof (Hno4 w Hw) as Hwb.
    apply in_inorder_nodes in Hw. destruct Hw as (x & Hw).
    assert (Hw3 : In (x, w) (nodes tr3)).
    { rewrite Hn3. rewrite Hn4 in Hw. apply in_app_or in Hw.
      apply in_or_app. destruct Hw; [left|right; right]; auto. }
    apply (Permutation_in _ (Permutation_sym Hp3)) in Hw3.
    destruct Hw3 as [Hw3|Hw3]; [injection Hw3 as _ <-; auto|].
    apply (Permutation_in _ (Permutation_sym Hp2)) in Hw3.
    destruct Hw3 as [Hw3|Hw3];
      [injection Hw3 as _ <-; apply Hwb, equiv_refl|].
    apply (Permutation_in _ (Permutation_sym Hp1)) in Hw3.
    destruct Hw3 as [Hw3|[]]. injection Hw3 as _ <-. auto. }
  destruct HF5 as [HF5|(HF5 & _)]; [|discriminate].
  injection HF5 as <- _.
  exists (ToSlot n1), (ToSlot n2), (ToSlot n3), t1, t2, t3, t4, t5.
  split_all; auto.
  - eapply Inv_at; [exact HI5|].
    eapply Permutation_in; [exact Hp5|now right].
  - eapply Inv_at; [exact HI5|].
    eapply Permutation_in; [exact Hp5|now right].
Qed.

(** ** The claims of the specification *)

Lemma run_ref : forall ops t tr F k,
  Inv t tr F -> 0 <= k -> len_ (base t) <= (1 + k) * Nsize ->
  (k + Z.of_nat (length ops) + 2) * Nsize <= 2 ^ 31 ->
  forallb is_ins_ers ops = true ->
  exists t' tr' F',
    run t ops = Some t' /\ Inv t' tr' F'
    /\ inorder tr' = ref_run (inorder tr) ops.
Proof.
  pose proof HNsize as HN.
  induction ops as [|o ops IH]; intros t tr F k H Hk Hlen Hb Hio;
    cbn [run ref_run forallb length] in *.
  - exists t, tr, F. auto.
  - apply andb_true_iff in Hio. destruct Hio as [Ho Hio].
    rewrite Nat2Z.inj_succ in Hb.
    pose proof (ar_len _ _ _ (inv_arena _ _ _ H)) as Hl0.
    destruct o as [v|v| | |]; try discriminate; cbn [exec].
    + assert (Hfit : len_ (base t) + 2 * Nsize <= 2 ^ 31) by nia.
      unfold insert.
      destruct (Insert_spec t tr F v H Hfit)
        as [(a & w & _ & _ & E & Er)
           |(_ & n & t' & tr' & F' & E & HI & Er & _ & _ & HL)];
        rewrite E; cbn [option_map snd].
      * rewrite Er. apply (IH t tr F (k + 1)); auto; nia.
      * rewrite <- Er. apply (IH t' tr' F' (k + 1)); auto; nia.
    + unfold erase.
      destruct (Erase_spec t tr F v H)
        as [(_ & E & Er)
           |(a & w & A & B & t' & tr' & _ & _ & E & HI & _ & Er & HL)];
        rewrite E.
      * rewrite Er. apply (IH t tr F (k + 1)); auto; nia.
      * rewrite <- Er. apply (IH t' tr' (a :: F) (k + 1)); auto; try nia.
Qed.

(** C1: for every sequence of [insert] and [erase] calls (that stays below
    the 2 GiB that the 32-bit offsets address) with a strict weak order,
    the iteration from [begin()] to [end()] yields the list that the
    reference ordered set holds after the same calls, and this list is
    strictly increasing, hence free of duplicates. *)
Theorem iteration_matches_reference (ops : list op) :
  forallb is_ins_ers ops = true ->
  (Z.of_nat (length ops) + 2) * Nsize <= 2 ^ 31 ->
  exists t,
    run AvlTree0 ops = Some t
    /\ to_list t = Some (ref_run [] ops)
    /\ sorted (ref_run [] ops).
Proof.
  intros Hio Hb.
  destruct (run_ref ops AvlTree0 Leaf [] 0 Inv_init) as (t & tr & F & E & HI & Hr);
    auto; cbn [AvlTree0 base Growable0 len_]; try lia.
  exists t. cbn [inorder nodes map] in Hr. rewrite <- Hr. split_all; auto.
  - eapply to_list_inv; eauto.
  - eapply inv_sorted; eauto.
Qed.

(** C2: starting from the empty container, after any sequence of public
    operations (each within the limits of [op_fits]) every live node, that
    is every cell that is not empty, has subtrees whose depths differ by
    one at most, and its tilt names the deeper side. *)
Theorem balance_after_operations (ops : list op) :
  fits AvlTree0 ops = true ->
  exists t,
    run AvlTree0 ops = Some t
    /\ forall n, IsEmpty (buf (base t)) n = false -> balanced_at t n.
Proof.
  intros Hf. destruct (reach_inv ops Hf) as (t & tr & F & E & HI).
  exists t. split; auto. intros n Hn. eapply Inv_balanced; eauto.
Qed.


(** C3 (amended): when [_EraseNode] meets a node [n] with two children, it
    exchanges [n] with its in-order successor [o] (the first node of the
    right subtree) when the tilt of [n] is [Right], and with its in-order
    predecessor (the last node of the left subtree) otherwise, that is for
    [Left] and for [None] (balanced).  The memory then holds the tree in
    which the two nodes have changed places, next to each other ([cm] empty)
    or not: every link of both nodes, of their parents and of their children
    is as that tree has it, each node carries the tilt of the other, and [n]
    has no child on one side. *)
Theorem erase_swap_partner m c ll al val dal lr n v d rl ar var dar rr fuel :
  wf (plug c (Node (Node ll al val dal lr) n v d (Node rl ar var dar rr))) ->
  rep m None (plug c (Node (Node ll al val dal lr) n v d (Node rl ar var dar rr))) ->
  (length (nodes (plug c (Node (Node ll al val dal lr) n v d
                            (Node rl ar var dar rr)))) <= fuel)%nat ->
  if Dir.eqb d Dir.Right then
    exists cm o vo do ro,
      Node rl ar var dar rr = plug cm (Node Leaf o vo do ro) /\ all_left cm
      /\ erase_swap fuel m n = Some (_SwapWith m n o)
      /\ rep (_SwapWith m n o) None
           (plug c (Node (Node ll al val dal lr) o vo d
                      (plug cm (Node Leaf n v do ro))))
  else
    exists cm lo o vo do,
      Node ll al val dal lr = plug cm (Node lo o vo do Leaf) /\ all_right cm
      /\ erase_swap fuel m n = Some (_SwapWith m n o)
      /\ rep (_SwapWith m n o) None
           (plug c (Node (plug cm (Node lo n v do Leaf)) o vo d
                      (Node rl ar var dar rr))).
Proof.
  intros Hwf Hrep Hf.
  pose proof (rep_cell _ _ _ _ _ _ _ Hrep) as Hn.
  assert (Hne : n <> al /\ n <> ar).
  { pose proof Hwf as [Hnd Hrg]. wf_split Hnd Hrg. split; neq_tac. }
  destruct Hne as [Hnb Hne].
  pose proof Hrep as Hrep'. apply rep_plug in Hrep'.
  destruct Hrep' as (_ & _ & Hl & Hr).
  pose proof Hwf as [Hnd _]. rewrite addrs_plug_eq, addrs_Node in Hnd.
  apply nd_app in Hnd. destruct Hnd as (_ & _ & Hnd).
  apply nd_app in Hnd. destruct Hnd as (_ & Hnd & _).
  apply nd_app in Hnd. destruct Hnd as (_ & Hndl & Hndr).
  apply nd_cons in Hndr. destruct Hndr as (_ & Hndr).
  assert (Hlen : (length (nodes (Node ll al val dal lr)) <= fuel
                  /\ length (nodes (Node rl ar var dar rr)) <= fuel)%nat).
  { len_in Hf. len_goal. lia. }
  destruct Hlen as [Hlenl Hlenr].
  unfold erase_swap. rewrite Hn. cbn [left right tilt root lnk].
  rewrite !link_nz by neq_tac. cbn [negb andb].
  unfold Nright, Nleft, _Ptr. rewrite Hn. cbn [left right root lnk].
  rewrite !ptr_link.
  destruct (Dir.eqb d Dir.Right) eqn:Ed.
  - destruct (descend_left_rep m _ _ ar fuel Hr Hndr eq_refl Hlenr)
      as (cm & o & vo & do & ro & E & Hcm & Hd).
    exists cm, o, vo, do, ro. rewrite Hd. split_all; auto.
    rewrite E in Hwf, Hrep.
    apply (swap_succ_rep m c ll al val dal lr n v d cm o vo do ro Hcm Hwf Hrep).
  - destruct (descend_right_rep m _ _ al fuel Hl Hndl eq_refl Hlenl)
      as (cm & lo & o & vo & do & E & Hcm & Hd).
    exists cm, lo, o, vo, do. rewrite Hd. split_all; auto.
    rewrite E in Hwf, Hrep.
    apply (swap_pred_rep m c cm lo o vo do n v d rl ar var dar rr Hcm Hwf Hrep).
Qed.

(** C4 (amended): after [insert v] has returned the slot [s] and [erase v]
    has followed, an [insert v] that comes at once returns [s] again: the
    chain of the decommissioned nodes gives the cell that it took last.
    When the calls in between are insertions of values that are not
    equivalent to [v], the slot [s'] of the new [insert v] is [s] if and
    only if none of them has added an element (the size is as it was after
    the erasure).  And when three values, none equivalent to another, go
    into the empty container in the slots [s1], [s2], [s3], the second is
    erased and a fourth value goes in, this one gets [s2], while [at s1]
    and [at s3] are still the first and the third value. *)
Theorem slot_reuse_lifo :
  (forall ops t v ws,
     fits AvlTree0 ops = true -> run AvlTree0 ops = Some t ->
     fits t (OInsert v :: OErase v :: map OInsert ws ++ [OInsert v]) = true ->
     (forall w, In w ws -> ~ equiv w v) ->
     exists s b t1 t2 t3 s' t4,
       insert t v = Some (s, b, t1) /\ erase t1 v = Some t2
       /\ run t2 (map OInsert ws) = Some t3
       /\ insert t3 v = Some (s', true, t4)
       /\ (s' = s <-> size t3 = size t2)
       /\ (ws = [] -> s' = s))
  /\ (forall a b c d,
        6 * Nsize <= 2 ^ 31 ->
        ~ equiv a b -> ~ equiv a c -> ~ equiv b c ->
        ~ equiv a d -> ~ equiv c d ->
        exists s1 s2 s3 t1 t2 t3 t4 t5,
          insert AvlTree0 a = Some (s1, true, t1)
          /\ insert t1 b = Some (s2, true, t2)
          /\ insert t2 c = Some (s3, true, t3)
          /\ erase t3 b = Some t4
          /\ insert t4 d = Some (s2, true, t5)
          /\ at_ t5 s1 = a /\ at_ t5 s3 = c).
Proof.
  split.
  - intros ops t v ws Hf Hr Hf' Hws.
    destruct (run_fits_inv ops t Hf Hr) as (tr & F & H).
    destruct (reinsert_general t tr F v ws H Hf' Hws)
      as (s & b & t1 & t2 & t3 & s' & t4 & E1 & E2 & E3 & E4 & Hiff).
    exists s, b, t1, t2, t3, s', t4. split_all; auto.
    intros ->. cbn [map run] in E3. injection E3 as <-. now apply Hiff.
  - apply slots_scenario.
Qed.

(** C5: in the retrace after an erasure, when the node [z] is too deep on
    the side of its tilt and its child [y] on that side is balanced, the
    rotation takes the child [x] of [y] on the same side and is the single
    rotation (LL for the tilt [Left], RR for [Right]): [y] goes up with its
    subtree [x], [z] goes down with the other subtree of [y].  The tilt of
    [y] becomes the side opposite to the tilt of [z], [z] and [x] keep
    theirs, the rotation returns null and [Retrace_Erase] ends there. *)
Theorem rotate_erase_balanced_child m c :
  (forall xl x vx dx xr y vy yr z v r fuel,
     wf (plug c (Node (Node (Node xl x vx dx xr) y vy Dir.None yr) z v Dir.Left r)) ->
     rep m None (plug c (Node (Node (Node xl x vx dx xr) y vy Dir.None yr) z v Dir.Left r)) ->
     fst (_Rotate_Erase m z) = None
     /\ rep (snd (_Rotate_Erase m z)) None
          (plug c (Node (Node xl x vx dx xr) y vy Dir.Right (Node yr z v Dir.Left r)))
     /\ Retrace_Erase (S fuel) m (Some z) Dir.Right = Some (snd (_Rotate_Erase m z)))
  /\ (forall l z v yl y vy xl x vx dx xr fuel,
     wf (plug c (Node l z v Dir.Right (Node yl y vy Dir.None (Node xl x vx dx xr)))) ->
     rep m None (plug c (Node l z v Dir.Right (Node yl y vy Dir.None (Node xl x vx dx xr)))) ->
     fst (_Rotate_Erase m z) = None
     /\ rep (snd (_Rotate_Erase m z)) None
          (plug c (Node (Node l z v Dir.Right yl) y vy Dir.Left (Node xl x vx dx xr)))
     /\ Retrace_Erase (S fuel) m (Some z) Dir.Left = Some (snd (_Rotate_Erase m z))).
Proof.
  split.
  - intros xl x vx dx xr y vy yr z v r fuel Hwf Hrep.
    destruct (rotate_erase_LL_balanced _ _ _ _ _ _ _ _ _ _ _ _ _ Hwf Hrep) as [H1 H2].
    split_all; auto.
    cbn [Retrace_Erase]. rewrite (rep_cell _ _ _ _ _ _ _ Hrep). cbn [tilt].
    change (Dir.balanced Dir.Left) with false.
    change (Dir.eqb Dir.Left Dir.Right) with false. cbv iota.
    destruct (_Rotate_Erase m z) as [o m1]. cbn [fst snd] in *. now subst o.
  - intros l z v yl y vy xl x vx dx xr fuel Hwf Hrep.
    destruct (rotate_erase_RR_balanced _ _ _ _ _ _ _ _ _ _ _ _ _ Hwf Hrep) as [H1 H2].
    split_all; auto.
    cbn [Retrace_Erase]. rewrite (rep_cell _ _ _ _ _ _ _ Hrep). cbn [tilt].
    change (Dir.balanced Dir.Right) with false.
    change (Dir.eqb Dir.Right Dir.Left) with false. cbv iota.
    destruct (_Rotate_Erase m z) as [o m1]. cbn [fst snd] in *. now subst o.
Qed.


(** C7: in every state that the operations reach, [erase] of a value to
    which no element is equivalent, [erase_at] of slot [0] and [erase_at]
    of a slot whose node is empty (decommissioned), as it is after an
    [erase_at] of that very slot, return without an error and leave the
    container as it is: arena, root and count. *)
Theorem erase_noop (ops : list op) (t : _AvlTree) :
  fits AvlTree0 ops = true -> run AvlTree0 ops = Some t ->
  (forall v l, to_list t = Some l -> (forall w, In w l -> ~ equiv w v) ->
               erase t v = Some t)
  /\ erase_at t 0 = Some t
  /\ (forall pos, IsEmpty (buf (base t)) (slot_off pos) = true ->
                  erase_at t pos = Some t)
  /\ (forall pos t', erase_at t pos = Some t' -> erase_at t' pos = Some t').
Proof.
  intros Hf Hr. destruct (run_fits_inv ops t Hf Hr) as (tr & F & H).
  split_all.
  - intros v l Hl Hno. rewrite (to_list_inv _ _ _ H) in Hl. injection Hl as <-.
    unfold erase.
    destruct (Erase_spec t tr F v H)
      as [(_ & E & _)|(a & w & A & B & t' & tr' & Hn & He & _)]; auto.
    exfalso. apply (Hno w); auto. unfold inorder. rewrite Hn, map_app.
    apply in_or_app. right. now left.
  - unfold erase_at, EraseAtOffset. destruct (NSafePtr (_Root t)); reflexivity.
  - intros pos He. unfold erase_at, EraseAtOffset, erase_node.
    destruct (NSafePtr (_Root t)); auto.
    destruct (NSafePtr (slot_off pos)) eqn:En; auto.
    unfold NSafePtr in En. destruct (slot_off pos =? 0); [discriminate|].
    injection En as <-. cbn [_EraseNode]. now rewrite He.
  - intros pos t' E. unfold erase_at in *.
    destruct (EraseAt_spec t tr F (slot_off pos) H)
      as [(_ & E1)|(w & A & B & t1 & tr1 & _ & E1 & HI & Hn & _)];
      rewrite E1 in E; injection E as <-; auto.
    destruct (EraseAt_spec t1 tr1 (slot_off pos :: F) (slot_off pos) HI)
      as [(_ & E2)|(w2 & A2 & B2 & _ & _ & Hn2 & _)]; auto.
    exfalso. pose proof (ar_nodup _ _ _ (inv_arena _ _ _ HI)) as Hnd.
    apply nd_app in Hnd. destruct Hnd as (Hs & _ & _).
    apply (Hs (slot_off pos)); [|now left].
    unfold addrs. rewrite Hn2, map_app. apply in_or_app. right. now left.
Qed.

(** C8: the sizes of the arena are 32-bit numbers.  When the bytes to add
    exceed the free capacity and
    [align(cap + max(need - free, MIN_GROW, cap/2), A)], with
    [MIN_GROW = 1024] and [A = 16], is below [2 ^ 32], [_GrowBy] allocates
    this many bytes; the new buffer holds the bytes below the length as
    they were and zero bytes from the length on.  When the free capacity
    suffices the arena is left as it is. *)
Theorem grow_by_policy (g : _Growable) (need : Z) :
  0 <= len_ g <= capacity_ g -> capacity_ g < 2 ^ 32 ->
  0 <= need < 2 ^ 32 ->
  (len_ g + need > capacity_ g ->
   grow_policy (capacity_ g) (len_ g) need < 2 ^ 32 ->
     capacity_ (_GrowBy g need) = grow_policy (capacity_ g) (len_ g) need
     /\ MIN_GROW_BY = 1024 /\ Ta = 16
     /\ len_ (_GrowBy g need) = len_ g
     /\ (forall a, 0 <= a < len_ g -> buf (_GrowBy g need) a = buf g a)
     /\ (forall a, len_ g <= a -> buf (_GrowBy g need) a = zero_node))
  /\ (len_ g + need <= capacity_ g -> _GrowBy g need = g).
Proof.
  intros Hl Hc Hn. unfold _GrowBy.
  rewrite (u32_small (capacity_ g - len_ g)) by lia.
  split.
  - intros Hcmp Hfit.
    rewrite (proj2 (Z.ltb_lt (capacity_ g - len_ g) need)) by lia.
    cbn [capacity_ len_ buf ptr_]. split_all; auto.
    + unfold _NewCap. unfold grow_policy, align_up, Ta, MIN_GROW_BY in *.
      rewrite (u32_small (capacity_ g - len_ g)) by lia.
      rewrite (u32_small (need - _)) by lia.
      pose proof (Z.div_pos (capacity_ g) 2 ltac:(lia) ltac:(lia)).
      pose proof (Z.mul_div_le (capacity_ g) 2 ltac:(lia)).
      rewrite u64_small by lia.
      replace (Z.max (Z.max (need - (capacity_ g - len_ g)) 1024)
                 (capacity_ g / 2) + capacity_ g)
        with (capacity_ g
              + Z.max (need - (capacity_ g - len_ g))
                  (Z.max 1024 (capacity_ g / 2))) by lia.
      replace (capacity_ g
               + Z.max (need - (capacity_ g - len_ g))
                   (Z.max 1024 (capacity_ g / 2)) + 16 - 1)
        with (capacity_ g
              + Z.max (need - (capacity_ g - len_ g))
                  (Z.max 1024 (capacity_ g / 2)) + 15) in * by lia.
      set (S := capacity_ g
                + Z.max (need - (capacity_ g - len_ g))
                    (Z.max 1024 (capacity_ g / 2))) in *.
      assert (HS : S + 15 < 2 ^ 32).
      { pose proof (Z.div_mod (S + 15) 16 ltac:(lia)).
        pose proof (Z.mod_pos_bound (S + 15) 16 ltac:(lia)). lia. }
      rewrite Aligned_small by lia. reflexivity.
    + intros a Ha. now rewrite (proj2 (Z.ltb_lt a (len_ g))) by lia.
    + intros a Ha. now rewrite (proj2 (Z.ltb_ge a (len_ g))) by lia.
  - intros Hcmp. now rewrite (proj2 (Z.ltb_ge (capacity_ g - len_ g) need)) by lia.
Qed.

(** C9: the copy of a container that the operations reach has the same
    arena bytes, length, capacity, root offset and count; its iteration
    yields the same list and [at] gives the same payload for every slot. *)
Theorem copy_is_identical (ops : list op) (t : _AvlTree) :
  fits AvlTree0 ops = true -> run AvlTree0 ops = Some t ->
  _Root (set_copy t) = _Root t
  /\ _Cnt (set_copy t) = _Cnt t
  /\ len_ (base (set_copy t)) = len_ (base t)
  /\ capacity_ (base (set_copy t)) = capacity_ (base t)
  /\ (forall a, buf (base (set_copy t)) a = buf (base t) a)
  /\ to_list (set_copy t) = to_list t
  /\ (forall pos, at_ (set_copy t) pos = at_ t pos).
Proof.
  intros Hf Hr. destruct (run_fits_inv ops t Hf Hr) as (tr & F & H).
  pose proof (inv_arena _ _ _ H) as HA.
  destruct (copy_fields _ _ _ HA) as [Hl Hc].
  pose proof (fun a => copy_buf _ _ _ a HA) as Hb.
  split_all; auto.
  - rewrite (to_list_inv _ _ _ (copy_Inv _ _ _ H)).
    now rewrite (to_list_inv _ _ _ H).
  - intros pos. unfold at_. cbn [set_copy _AvlTree_copy base]. now rewrite Hb.
Qed.

(** C10: [clear] in a state that the operations reach gives the arena
    back: the container is the empty one again, with no buffer, length and
    capacity zero, no element and [begin() == end()], so the chain of the
    decommissioned nodes and the reserved capacity are gone.  The next
    insertion allocates a buffer again, writes the sentinel at offset [0]
    and the element in slot [1]. *)
Theorem clear_releases_arena (ops : list op) (t : _AvlTree) :
  fits AvlTree0 ops = true -> run AvlTree0 ops = Some t ->
  exists t',
    clear t = Some t'
    /\ size t' = 0 /\ begin_ t' = Some end_
    /\ ptr_ (base t') = None /\ len_ (base t') = 0 /\ capacity_ (base t') = 0
    /\ (forall v, 2 * Nsize <= 2 ^ 31 ->
          exists t'',
            insert t' v = Some (1, true, t'')
            /\ len_ (base t'') = 2 * Nsize
            /\ len_ (base t'') <= capacity_ (base t'')
            /\ IsEmpty (buf (base t'')) 0 = true
            /\ at_ t'' 1 = v
            /\ to_list t'' = Some [v]).
Proof.
  intros Hf Hr. destruct (run_fits_inv ops t Hf Hr) as (tr & F & H).
  pose proof HNsize as HN.
  exists AvlTree0. unfold clear. rewrite (Clear_spec _ _ _ H).
  split_all; auto.
  intros v Hb. unfold insert.
  destruct (Insert_spec AvlTree0 Leaf [] v Inv_init)
    as [(a & w & [] & _)|(_ & n & t' & tr' & F' & E & HI & Ei & Hp & HF & HL)].
  { cbn [AvlTree0 base Growable0 len_]. lia. }
  destruct HF as [HF|(_ & _ & Hn)]; [discriminate|].
  cbn [AvlTree0 base Growable0 len_] in Hn, HL.
  rewrite Z.max_r in Hn, HL by lia. subst n.
  rewrite E. exists t'.
  pose proof (inv_arena _ _ _ HI) as HA.
  assert (Hi : In (Nsize, v) (nodes tr')).
  { eapply Permutation_in; [exact Hp|now left]. }
  assert (Ha : In Nsize (addrs tr')).
  { unfold addrs. change Nsize with (fst (Nsize, v)). now apply in_map. }
  destruct (Arena_cell _ _ _ _ HA Ha) as ((_ & Hc & _) & _ & _).
  assert (Hs : ToSlot Nsize = 1).
  { unfold ToSlot. rewrite (proj2 (Z.eqb_neq Nsize 0)) by lia.
    rewrite u64_small, Z.div_same, u32_small by lia. reflexivity. }
  rewrite Hs. split_all; auto.
  - lia.
  - pose proof (ar_len _ _ _ HA). lia.
  - apply (Arena_empty_cell _ _ _ _ HA). intros H0.
    destruct (Arena_cell _ _ _ _ HA H0) as (_ & _ & Hz). congruence.
  - rewrite <- Hs. eapply Inv_at; eauto.
  - rewrite (to_list_inv _ _ _ HI), Ei. reflexivity.
Qed.
(** ** Live cells, slots and the search by value *)

Lemma reachable_inv t : reachable t -> exists tr F, Inv t tr F.
Proof. intros (ops & Hf & Hr). eapply run_fits_inv; eauto. Qed.

Lemma reachable_step t o t' :
  reachable t -> op_fits t o = true -> exec t o = Some t' -> reachable t'.
Proof.
  intros (ops & Hf & Hr) Ho He. exists (ops ++ [o]). split.
  - clear - Hf Hr Ho. revert Hf Hr. generalize AvlTree0.
    induction ops as [|x ops IH]; intros t0 Hf Hr; cbn [app fits run] in *.
    + injection Hr as ->. rewrite Ho. destruct (exec t o); reflexivity.
    + apply andb_true_iff in Hf. destruct Hf as [H1 H2]. rewrite H1.
      destruct (exec t0 x); [|discriminate]. cbn [andb]. now apply IH.
  - rewrite run_app, Hr. cbn [run]. now rewrite He.
Qed.

Lemma Inv_live_cell t tr F a :
  Inv t tr F -> (IsEmpty (buf (base t)) a = false <-> In a (addrs tr)).
Proof.
  intros H. split.
  - intros He. destruct (in_dec Z.eq_dec a (addrs tr)) as [Hi|Hi]; auto.
    rewrite (Arena_empty_cell _ _ _ _ (inv_arena _ _ _ H) Hi) in He.
    discriminate.
  - intros Hi. destruct (tree_split tr a Hi) as (c & l & v & d & r & ->).
    pose proof (rep_cell _ _ _ _ _ _ _ (inv_rep _ _ _ H)) as Ha.
    pose proof (inv_avl _ _ _ H) as Havl. apply avl_plug in Havl.
    destruct Havl as [(_ & _ & Ht) _].
    unfold IsEmpty. rewrite Ha. cbn [tilt]. eapply tilt_code_nz; eauto.
Qed.

Lemma slot_off_small s :
  0 <= s -> s * Nsize < 2 ^ 31 -> slot_off s = s * Nsize.
Proof.
  intros H1 H2. pose proof HNsize. unfold slot_off.
  rewrite u64_small, i32_small; nia.
Qed.

Lemma node_live t tr F a w :
  Inv t tr F -> In (a, w) (nodes tr) ->
  live t (ToSlot a) /\ slot_off (ToSlot a) = a /\ at_ t (ToSlot a) = w.
Proof.
  intros H Hi. pose proof (inv_arena _ _ _ H) as HA. pose proof HNsize.
  assert (Ha : In a (addrs tr)) by (eapply in_nodes_addrs; eauto).
  destruct (Arena_cell _ _ _ _ HA Ha) as (Hc & Hr & _).
  destruct (slot_roundtrip _ _ (ar_lim _ _ _ HA) Hc) as (H1 & H2 & H3).
  destruct (Inv_at _ _ _ _ _ H Hi) as [_ Hat].
  unfold in_range in Hr. destruct Hc as (Hc1 & Hc2 & _).
  split_all; auto.
  unfold live. rewrite H2, H3. split_all; try lia; try nia.
  now apply (Inv_live_cell t tr F a H).
Qed.

Lemma live_node t tr F s :
  Inv t tr F -> live t s ->
  slot_off s = s * Nsize /\ ToSlot (s * Nsize) = s
  /\ In (s * Nsize, at_ t s) (nodes tr).
Proof.
  intros H (H1 & H2 & H3). pose proof HNsize.
  rewrite slot_off_small in H3 by lia.
  apply (Inv_live_cell t tr F _ H) in H3.
  apply in_addrs_nodes in H3. destruct H3 as (w & Hw).
  destruct (node_live _ _ _ _ _ H Hw) as (_ & E1 & E2).
  rewrite slot_off_small by lia.
  assert (Es : ToSlot (s * Nsize) = s).
  { unfold ToSlot. rewrite (proj2 (Z.eqb_neq (s * Nsize) 0)) by nia.
    rewrite u64_small by nia. rewrite Z.div_mul by lia.
    apply u32_small. nia. }
  rewrite Es in E2. rewrite E2. auto.
Qed.

(** The search: the node of the element equivalent to [v], or null. *)
Lemma FindNode_spec t tr F v :
  Inv t tr F ->
  (exists a w, In (a, w) (nodes tr) /\ equiv w v
               /\ FindNode t v = Some (Some a))
  \/ ((forall w, In w (inorder tr) -> ~ equiv w v)
      /\ FindNode t v = Some None).
Proof.
  intros H. pose proof (inv_sorted _ _ _ H) as Hsort.
  destruct (find_path tr v []) as [c s] eqn:Hfp.
  pose proof (find_path_between v tr [] Hsort (between_nil v)) as [Hbt Hs].
  pose proof (find_path_plug tr v []) as Hplug.
  rewrite Hfp in *. cbn [fst snd] in *.
  change (plug [] tr) with tr in Hplug.
  pose proof (Inv_fuel _ _ _ H) as Hfuel.
  pose proof (Arena_wf _ _ _ (inv_arena _ _ _ H)) as Hwf.
  pose proof (inv_rep _ _ _ H) as Hrep.
  unfold FindNode.
  destruct s as [|l b w d r].
  - right.
    assert (Hnodes : nodes tr = cnodes_l c ++ cnodes_r c).
    { rewrite <- Hplug, nodes_plug. reflexivity. }
    destruct Hbt as [Hb1 Hb2].
    apply (Forall_map_snd (fun y => lt y v)) in Hb1.
    apply (Forall_map_snd (lt v)) in Hb2.
    split.
    + intros w Hw. unfold inorder in Hw. rewrite Hnodes, map_app in Hw.
      apply not_equiv_lt. apply in_app_or in Hw.
      rewrite Forall_forall in Hb1, Hb2. destruct Hw; auto.
    + destruct tr as [|tl a ta td trr] eqn:Etr.
      * now rewrite (Inv_root_leaf _ _ H).
      * rewrite <- Etr in *.
        assert (Hra : root tr = Some a) by now rewrite Etr.
        destruct (Inv_root_nz _ _ _ _ H Hra) as [_ ->].
        rewrite (InsertionPointFor_rep (buf (base t)) v tr [] a); auto;
          [|unfold fuel_of; lia].
        rewrite Hfp. unfold path_result. cbn [snd fst].
        destruct c as [|f c]; [rewrite Etr in Hplug; discriminate|].
        now destruct f.
  - left.
    assert (Hb : In b (addrs tr)).
    { rewrite <- Hplug, addrs_plug_eq, addrs_Node. in_tac. }
    destruct tr as [|tl a ta td trr] eqn:Etr; [destruct Hb|].
    rewrite <- Etr in *.
    assert (Hra : root tr = Some a) by now rewrite Etr.
    destruct (Inv_root_nz _ _ _ _ H Hra) as [_ ->].
    rewrite (InsertionPointFor_rep (buf (base t)) v tr [] a); auto;
      [|unfold fuel_of; lia].
    rewrite Hfp. unfold path_result. cbn [snd fst].
    change (Dir.eqb Dir.None Dir.None) with true. cbv iota.
    exists b, w. split_all; auto.
    rewrite <- Hplug, nodes_plug. cbn [nodes].
    apply in_or_app. right. apply in_or_app. left.
    apply in_or_app. right. now left.
Qed.

Lemma Optr_cell t tr F a :
  Inv t tr F -> In a (addrs tr) -> Optr a = a.
Proof.
  intros H Ha.
  destruct (Arena_cell _ _ _ _ (inv_arena _ _ _ H) Ha) as (_ & Hr & _).
  unfold Optr, in_range in *. apply i32_small. lia.
Qed.

Lemma find_slot_found t tr F v a w :
  Inv t tr F -> In (a, w) (nodes tr) -> equiv w v ->
  FindNode t v = Some (Some a) /\ find_slot t v = Some (ToSlot a).
Proof.
  intros H Hi He.
  destruct (FindNode_spec t tr F v H) as [(a' & w' & Hi' & He' & E)|(Hno & _)].
  - destruct (in_split _ _ Hi') as (A & B & Hn).
    pose proof (equiv_unique _ A B a' w' a w v (inv_sorted _ _ _ H) Hn Hi He' He)
      as Eaw. injection Eaw as -> ->.
    split; auto. unfold find_slot. rewrite E.
    rewrite (Optr_cell t tr F a' H); auto. eapply in_nodes_addrs; eauto.
  - exfalso. apply (Hno w); auto. eapply in_nodes_inorder; eauto.
Qed.

Lemma find_slot_absent t tr F v :
  Inv t tr F -> (forall w, In w (inorder tr) -> ~ equiv w v) ->
  FindNode t v = Some None /\ find_slot t v = Some 0.
Proof.
  intros H Hno.
  destruct (FindNode_spec t tr F v H) as [(a' & w' & Hi' & He' & E)|(_ & E)].
  - exfalso. apply (Hno w'); auto. eapply in_nodes_inorder; eauto.
  - split; auto. unfold find_slot. now rewrite E.
Qed.

Lemma erase_node_fields t P n t' :
  erase_node t P n = Some t' ->
  len_ (base t') = len_ (base t) /\ capacity_ (base t') = capacity_ (base t).
Proof.
  unfold erase_node.
  destruct (_EraseNode _ _ _ n) as [[[b r] m]|]; [|discriminate].
  destruct b; destruct n; intros [= <-]; auto.
Qed.

Lemma Erase_fields t v t' :
  Erase t v = Some t' ->
  len_ (base t') = len_ (base t) /\ capacity_ (base t') = capacity_ (base t).
Proof.
  unfold Erase. destruct (NSafePtr (_Root t)); [|intros [= <-]; auto].
  destruct (_InsertionPointFor _ _ _ v) as [[p d]|]; [|discriminate].
  destruct (Dir.eqb d Dir.None); [apply erase_node_fields|intros [= <-]; auto].
Qed.

Lemma EraseAt_fields t o t' :
  EraseAtOffset t o = Some t' ->
  len_ (base t') = len_ (base t) /\ capacity_ (base t') = capacity_ (base t).
Proof.
  unfold EraseAtOffset. destruct (NSafePtr (_Root t)); [|intros [= <-]; auto].
  destruct (NSafePtr o); [apply erase_node_fields|intros [= <-]; auto].
Qed.

Lemma Begin_inv t tr F : Inv t tr F -> begin_ t = Some (hd_addr (nodes tr)).
Proof.
  intros H. pose proof H as [HA Hrep Havl Hsort Hroot Hcnt].
  pose proof (Arena_wf _ _ _ HA) as Hwf.
  pose proof (Inv_fuel _ _ _ H) as Hfuel.
  unfold begin_, Begin.
  destruct tr as [|tl a ta td trr] eqn:Etr.
  - rewrite (Inv_root_leaf _ _ H). reflexivity.
  - rewrite <- Etr in *.
    assert (Hra : root tr = Some a) by now rewrite Etr.
    destruct (Inv_root_nz _ _ _ _ H Hra) as [_ ->].
    cbn [LeftmostOf].
    destruct (descend_left_rep (buf (base t)) tr None a (fuel_of (base t)))
      as (cm & o & vo & do & ro & E & Hcm & Hd); auto.
    { destruct Hwf; auto. }
    { unfold fuel_of. lia. }
    rewrite Hd. cbn [option_map].
    rewrite E, nodes_plug, (cnodes_l_all_left cm Hcm). reflexivity.
Qed.

(** X1: in a state that the calls reach, [find_slot v] and [find v] give
    the slot and the node of the element equivalent to [v], a live slot
    whose payload [at] returns; when no element is equivalent to [v] they
    give the slot [0] and the iterator [end()]. *)
Theorem find_slot_spec (t : _AvlTree) (v : T) (l : list T) :
  reachable t -> to_list t = Some l ->
  (forall w, In w l -> equiv w v ->
     exists s, find_slot t v = Some s /\ live t s /\ at_ t s = w
               /\ find t v = Some (Some (slot_off s)))
  /\ ((forall w, In w l -> ~ equiv w v) ->
      find_slot t v = Some 0 /\ find t v = Some end_).
Proof.
  intros Hr Hl. destruct (reachable_inv t Hr) as (tr & F & H).
  rewrite (to_list_inv _ _ _ H) in Hl. injection Hl as <-. split.
  - intros w Hw He. apply in_inorder_nodes in Hw. destruct Hw as (a & Hw).
    destruct (find_slot_found _ _ _ _ _ _ H Hw He) as [E1 E2].
    destruct (node_live _ _ _ _ _ H Hw) as (L1 & L2 & L3).
    exists (ToSlot a). rewrite L2. unfold find. auto.
  - intros Hno. destruct (find_slot_absent _ _ _ _ H Hno) as [E1 E2].
    unfold find, end_, End. auto.
Qed.

(** X2: after [insert v] has returned the slot [s], [find_slot v] returns
    [s], the slot is live and [at s] is equivalent to [v].  When the call
    has added the element, [at s] is [v] itself, the slot was not live
    before and the size has grown by one; otherwise the container is as it
    was.  [inserted] and [operator[]] return the same slot, [inserted] with
    the value that the set owns. *)
Theorem insert_then_find (t : _AvlTree) (v : T) (s : Z) (b : bool) (t' : _AvlTree) :
  reachable t -> op_fits t (OInsert v) = true ->
  insert t v = Some (s, b, t') ->
  find_slot t' v = Some s
  /\ live t' s /\ equiv (at_ t' s) v
  /\ (if b then at_ t' s = v /\ ~ live t s /\ size t' = size t + 1
      else t' = t /\ live t s)
  /\ inserted t v = Some (at_ t' s, s, t')
  /\ subscript t v = Some (s, t').
Proof.
  intros Hr Hfit E. destruct (reachable_inv t Hr) as (tr & F & H).
  cbn [op_fits] in Hfit. apply Z.leb_le in Hfit. pose proof HNsize as HN.
  unfold insert in E. unfold inserted, subscript.
  destruct (Insert_spec t tr F v H Hfit)
    as [(a & w & Hi & He & E1 & _)
       |(Hno & n & t1 & tr1 & F1 & E1 & HI1 & _ & Hp & _ & _)];
    rewrite E1 in *; injection E as <- <- <-.
  - destruct (find_slot_found _ _ _ _ _ _ H Hi He) as [_ E2].
    destruct (node_live _ _ _ _ _ H Hi) as (L1 & L2 & L3).
    rewrite L3. split_all; auto.
    f_equal. f_equal. f_equal. unfold at_ in L3. now rewrite L2 in L3.
  - assert (Hi : In (n, v) (nodes tr1)).
    { eapply Permutation_in; [exact Hp|now left]. }
    destruct (find_slot_found _ _ _ _ _ _ HI1 Hi (equiv_refl v)) as [_ E2].
    destruct (node_live _ _ _ _ _ HI1 Hi) as (L1 & L2 & L3).
    rewrite L3. split_all; auto.
    + apply equiv_refl.
    + intros HL. destruct (live_node _ _ _ _ H HL) as (S1 & S2 & S3).
      apply (perm_fresh _ _ _ _ _ _ HI1 Hp).
      destruct L1 as (L0 & L4 & _).
      assert (En : ToSlot n * Nsize = n).
      { rewrite <- S1. exact L2. }
      rewrite <- En. eapply in_nodes_addrs; eauto.
    + unfold size, Size. rewrite (inv_cnt _ _ _ H), (inv_cnt _ _ _ HI1).
      rewrite <- (Permutation_length Hp). cbn [length]. lia.
    + f_equal. f_equal. f_equal. unfold at_ in L3. now rewrite L2 in L3.
Qed.

(** X3: [erase v] returns in every state that the calls reach; after it
    [find_slot v] gives [0] and the iteration gives the former list without
    the elements equivalent to [v].  Every other element keeps its slot
    and its payload, the slot of the erased element is not live any more
    and the size is one less; length and capacity of the arena stay.  When
    no element is equivalent to [v] the container is as it was. *)
Theorem erase_then_find (t : _AvlTree) (v : T) (l : list T) :
  reachable t -> to_list t = Some l ->
  exists t',
    erase t v = Some t'
    /\ find_slot t' v = Some 0
    /\ to_list t' = Some (ref_erase v l)
    /\ (forall s, live t s -> ~ equiv (at_ t s) v ->
          live t' s /\ at_ t' s = at_ t s)
    /\ (forall s, live t s -> equiv (at_ t s) v ->
          ~ live t' s /\ size t' = size t - 1)
    /\ ((forall w, In w l -> ~ equiv w v) -> t' = t)
    /\ len_ (base t') = len_ (base t)
    /\ capacity_ (base t') = capacity_ (base t).
Proof.
  intros Hr Hl. destruct (reachable_inv t Hr) as (tr & F & H).
  rewrite (to_list_inv _ _ _ H) in Hl. injection Hl as <-.
  unfold erase.
  destruct (Erase_spec t tr F v H)
    as [(Hno & E & Er)
       |(a & w & A & B & t1 & tr1 & Hn & He & E & HI1 & Hn1 & Er & HL)].
  - exists t. rewrite E, Er. split_all; auto.
    + eapply find_slot_absent; eauto.
    + eapply to_list_inv; eauto.
    + intros s Hs He. exfalso.
      destruct (live_node _ _ _ _ H Hs) as (_ & _ & Hi).
      apply (Hno (at_ t s)); auto. eapply in_nodes_inorder; eauto.
  - exists t1. rewrite E.
    assert (Hno1 : forall x, In x (inorder tr1) -> ~ equiv x v).
    { assert (Hi : In (a, w) (nodes tr)).
      { rewrite Hn. apply in_or_app. right. now left. }
      destruct (erase_present t tr F v a w H Hi He)
        as (A' & B' & t2 & tr2 & _ & E2 & HI2 & _ & _ & Hno2).
      unfold erase in E2. rewrite E in E2. injection E2 as <-.
      intros x Hx. pose proof (to_list_inv _ _ _ HI2) as E3.
      rewrite (to_list_inv _ _ _ HI1) in E3. injection E3 as E3.
      rewrite E3 in Hx. now apply Hno2. }
    assert (Hnd : NoDup (map fst (A ++ (a, w) :: B))).
    { rewrite <- Hn. apply (Arena_wf _ _ _ (inv_arena _ _ _ H)). }
    split_all; auto.
    + eapply find_slot_absent; eauto.
    + rewrite (to_list_inv _ _ _ HI1). now rewrite Er.
    + intros s Hs Hne.
      destruct (live_node _ _ _ _ H Hs) as (S1 & S2 & S3).
      assert (Hi1 : In (s * Nsize, at_ t s) (nodes tr1)).
      { rewrite Hn1. apply (in_remove_mid _ (a, w)); [now rewrite <- Hn|].
        intros Eq. injection Eq as _ Eq. apply Hne. rewrite Eq. exact He. }
      destruct (node_live _ _ _ _ _ HI1 Hi1) as (L1 & L2 & L3).
      rewrite S2 in *. auto.
    + intros s Hs Heq.
      destruct (live_node _ _ _ _ H Hs) as (S1 & S2 & S3).
      pose proof (equiv_unique _ A B a w _ _ v (inv_sorted _ _ _ H) Hn S3 He Heq)
        as Eaw. injection Eaw as Ea Ew.
      split.
      * intros HL1. destruct (live_node _ _ _ _ HI1 HL1) as (_ & _ & S4).
        rewrite Hn1 in S4. rewrite map_app in Hnd. cbn [map fst] in Hnd.
        apply NoDup_remove_2 in Hnd. apply Hnd. rewrite <- map_app.
        rewrite <- Ea. change (s * Nsize) with (fst (s * Nsize, at_ t1 s)).
        now apply in_map.
      * unfold size, Size. rewrite (inv_cnt _ _ _ H), (inv_cnt _ _ _ HI1).
        rewrite Hn, Hn1, !length_app. cbn [length]. lia.
    + intros Hno. exfalso. apply (Hno w); auto.
      unfold inorder. rewrite Hn, map_app. apply in_or_app. right. now left.
    + apply (Erase_fields _ _ _ E).
Qed.

(** X4: in a state that the calls reach the iteration returns a strictly
    increasing list whose length is [size()]; [empty()] holds, and
    [begin()] is [end()], exactly when this list is empty, and otherwise
    [begin()] points to its first element. *)
Theorem size_is_length (t : _AvlTree) :
  reachable t ->
  exists l,
    to_list t = Some l
    /\ sorted l
    /\ size t = Z.of_nat (length l)
    /\ (empty t = true <-> l = [])
    /\ (begin_ t = Some end_ <-> l = [])
    /\ (forall a, begin_ t = Some (Some a) -> exists l', l = it_deref t a :: l').
Proof.
  intros Hr. destruct (reachable_inv t Hr) as (tr & F & H).
  exists (inorder tr). pose proof (inv_cnt _ _ _ H) as Hc.
  pose proof (Begin_inv _ _ _ H) as Hb.
  split; [eapply to_list_inv; eauto|].
  split; [eapply inv_sorted; eauto|].
  split; [unfold size, Size, inorder; now rewrite length_map|].
  split; [|split].
  - unfold empty, size, Size. rewrite Hc. unfold inorder.
    destruct (nodes tr) as [|x xs]; cbn [length map].
    + split; reflexivity.
    + split; intros E; [|discriminate]. apply Z.eqb_eq in E. lia.
  - rewrite Hb. unfold inorder, end_, End.
    destruct (nodes tr) as [|[a w] xs]; cbn [hd_addr map].
    + split; reflexivity.
    + split; discriminate.
  - intros a Ha. rewrite Hb in Ha. injection Ha as Ha.
    destruct (nodes tr) as [|[a' w] xs] eqn:En; [discriminate|].
    injection Ha as ->. exists (map snd xs). unfold inorder. rewrite En.
    cbn [map snd]. f_equal. unfold it_deref.
    symmetry. eapply rep_payload; [apply (inv_rep _ _ _ H)|].
    rewrite En. now left.
Qed.
(** ** Slots under the calls, and the capacity *)

Lemma GrowBy_same g need :
  0 <= len_ g <= capacity_ g -> capacity_ g < 2 ^ 32 ->
  len_ g + need <= capacity_ g -> _GrowBy g need = g.
Proof.
  intros H1 H2 H3. unfold _GrowBy.
  rewrite (u32_small (capacity_ g - len_ g)) by lia.
  now rewrite (proj2 (Z.ltb_ge (capacity_ g - len_ g) need)) by lia.
Qed.

Lemma PtrAppend_same g :
  0 <= len_ g <= capacity_ g -> capacity_ g < 2 ^ 32 ->
  len_ g + Nsize <= capacity_ g ->
  capacity_ (snd (_PtrAppendZeroBytes g (u32 Nsize))) = capacity_ g
  /\ len_ (snd (_PtrAppendZeroBytes g (u32 Nsize))) = len_ g + Nsize.
Proof.
  intros H1 H2 H3. pose proof HNsize. unfold _PtrAppendZeroBytes.
  rewrite (u32_small Nsize) by lia. rewrite GrowBy_same by lia.
  cbn [snd capacity_ len_]. split; auto. apply u32_small. lia.
Qed.

Lemma CreateNode_capacity g v :
  0 <= len_ g <= capacity_ g -> capacity_ g < 2 ^ 32 ->
  len_ g + Nsize <= capacity_ g ->
  capacity_ (snd (_CreateNode g v)) = capacity_ g.
Proof.
  intros H1 H2 H3. unfold _CreateNode.
  destruct (NSafeRight (buf g) 0); [reflexivity|].
  destruct (PtrAppend_same g H1 H2 H3) as [Hc _].
  destruct (_PtrAppendZeroBytes g (u32 Nsize)) as [n g']. cbn [snd] in *.
  exact Hc.
Qed.

Lemma CreateNode_reuse g v n :
  NSafeRight (buf g) 0 = Some n ->
  len_ (snd (_CreateNode g v)) = len_ g
  /\ capacity_ (snd (_CreateNode g v)) = capacity_ g.
Proof. intros E. unfold _CreateNode. rewrite E. split; reflexivity. Qed.

(** An insertion leaves the capacity as it is when the bytes that it may
    append are free. *)
Lemma Insert_capacity t v r :
  Insert t v = Some r ->
  0 <= len_ (base t) <= capacity_ (base t) -> capacity_ (base t) < 2 ^ 32 ->
  Z.max (len_ (base t)) Nsize + Nsize <= capacity_ (base t) ->
  capacity_ (base (snd r)) = capacity_ (base t).
Proof.
  intros E H1 H2 H3. pose proof HNsize as HN. unfold Insert in E.
  set (g1 := if len_ (base t) =? 0
             then snd (_PtrAppendZeroBytes (base t) (u32 Nsize))
             else base t) in *.
  assert (Hg : capacity_ g1 = capacity_ (base t)
               /\ 0 <= len_ g1 /\ len_ g1 + Nsize <= capacity_ (base t)).
  { subst g1. destruct (Z.eqb_spec (len_ (base t)) 0) as [E0|E0].
    - destruct (PtrAppend_same (base t)) as [Hc Hl]; lia.
    - lia. }
  destruct Hg as (Hc & Hl0 & Hl).
  pose proof (CreateNode_capacity g1 v ltac:(lia) ltac:(lia) ltac:(lia)) as Hcn.
  destruct (negb (_Root t =? 0)).
  - destruct (_InsertionPointFor _ _ _ v) as [[p d]|]; [|discriminate].
    destruct (Dir.eqb d Dir.None).
    + injection E as <-. cbn [snd base]. exact Hc.
    + destruct (_CreateNode g1 v) as [n g2]. cbn [snd] in Hcn.
      destruct (AddChild _ _ _ n d); [|discriminate].
      injection E as <-. cbn [snd base with_buf capacity_]. lia.
  - destruct (_CreateNode g1 v) as [n g2]. cbn [snd] in Hcn.
    injection E as <-. cbn [snd base]. lia.
Qed.

(** An insertion into an arena whose chain holds a cell takes no bytes. *)
Lemma Insert_reuse t tr f F v r :
  Inv t tr (f :: F) -> Insert t v = Some r ->
  len_ (base (snd r)) = len_ (base t)
  /\ capacity_ (base (snd r)) = capacity_ (base t).
Proof.
  intros H E. pose proof HNsize as HN.
  pose proof (inv_arena _ _ _ H) as HA.
  assert (Hf : cell_ok (len_ (base t)) f).
  { pose proof (ar_cells _ _ _ HA) as Hc. rewrite Forall_forall in Hc.
    apply Hc. apply in_or_app. right. now left. }
  assert (Hl0 : (len_ (base t) =? 0) = false).
  { apply Z.eqb_neq. unfold cell_ok in Hf. lia. }
  assert (Hn : NSafeRight (buf (base t)) 0 = Some f).
  { pose proof (ar_chain _ _ _ HA) as Hc. cbn [chain] in Hc.
    destruct Hc as [Hc _]. unfold NSafeRight, _Ptr. rewrite Hc. cbn [right zn].
    rewrite Z.sub_0_r. rewrite (proj2 (Z.eqb_neq f 0)); auto.
    unfold cell_ok in Hf. lia. }
  destruct (CreateNode_reuse (base t) v f Hn) as [Hcl Hcc].
  unfold Insert in E. rewrite Hl0 in E.
  destruct (negb (_Root t =? 0)).
  - destruct (_InsertionPointFor _ _ _ v) as [[p d]|]; [|discriminate].
    destruct (Dir.eqb d Dir.None).
    + injection E as <-. cbn [snd base]. auto.
    + destruct (_CreateNode (base t) v) as [n g2]. cbn [snd] in *.
      destruct (AddChild _ _ _ n d); [|discriminate].
      injection E as <-. cbn [snd base with_buf capacity_ len_]. auto.
  - destruct (_CreateNode (base t) v) as [n g2]. cbn [snd] in *.
    injection E as <-. cbn [snd base]. auto.
Qed.

(** X5: a slot that holds an element holds the same element after every
    call that fits, but the erasure of this element and [clear]: after an
    insertion, whether the arena is moved or not, after a reservation and
    after the erasure of another element. *)
Theorem slot_stable (t : _AvlTree) (o : op) (t' : _AvlTree) (p : Z) :
  reachable t -> op_fits t o = true -> exec t o = Some t' ->
  live t p -> keeps t o p ->
  live t' p /\ at_ t' p = at_ t p.
Proof.
  intros Hr Hfit E HL Hk. destruct (reachable_inv t Hr) as (tr & F & H).
  pose proof HNsize as HN.
  destruct (live_node _ _ _ _ H HL) as (S1 & S2 & S3).
  assert (Hkeep : forall t1 tr1 F1, Inv t1 tr1 F1 ->
            In (p * Nsize, at_ t p) (nodes tr1) ->
            live t1 p /\ at_ t1 p = at_ t p).
  { intros t1 tr1 F1 HI1 Hi. destruct (node_live _ _ _ _ _ HI1 Hi) as (L1 & _ & L3).
    rewrite S2 in *. auto. }
  destruct o as [v|v|q|count|]; cbn [exec op_fits keeps] in *.
  - apply Z.leb_le in Hfit. unfold insert in E.
    destruct (Insert_spec t tr F v H Hfit)
      as [(a & w & _ & _ & E1 & _)
         |(_ & n & t1 & tr1 & F1 & E1 & HI1 & _ & Hp & _ & _)];
      rewrite E1 in E; cbn [option_map snd] in E; injection E as <-; auto.
    apply (Hkeep t1 tr1 F1 HI1).
    eapply Permutation_in; [exact Hp|now right].
  - unfold erase in E.
    destruct (Erase_spec t tr F v H)
      as [(_ & E1 & _)
         |(a & w & A & B & t1 & tr1 & Hn & He & E1 & HI1 & Hn1 & _)];
      rewrite E1 in E; injection E as <-; auto.
    apply (Hkeep t1 tr1 _ HI1). rewrite Hn1.
    apply (in_remove_mid _ (a, w)); [now rewrite <- Hn|].
    intros Eq. injection Eq as _ Eq. apply Hk. rewrite Eq. exact He.
  - apply andb_true_iff in Hfit. destruct Hfit as [Hfit Hq3].
    apply andb_true_iff in Hfit. destruct Hfit as [Hq1 Hq2].
    apply Z.leb_le in Hq1. apply Z.ltb_lt in Hq3.
    unfold erase_at in E. rewrite (slot_off_small q Hq1 Hq3) in E.
    destruct (EraseAt_spec t tr F (q * Nsize) H)
      as [(_ & E1)|(w & A & B & t1 & tr1 & Hn & E1 & HI1 & Hn1 & _)];
      rewrite E1 in E; injection E as <-; auto.
    apply (Hkeep t1 tr1 _ HI1). rewrite Hn1.
    apply (in_remove_mid _ (q * Nsize, w)); [now rewrite <- Hn|].
    intros Eq. injection Eq as Eq _. apply Hk. nia.
  - apply andb_true_iff in Hfit. destruct Hfit as [H1 H2].
    apply Z.leb_le in H1, H2. injection E as <-.
    apply (Hkeep _ tr F (Reserve_inv t tr F count H H1 H2)). exact S3.
  - contradiction.
Qed.

(** X6: [erase_at] of a live slot takes its element, and no other, out of
    the iteration; the size is one less, the slot is not live any more
    and the arena keeps its length and its capacity.  The next insertion
    of a value that the set does not hold goes into this slot and takes
    no bytes. *)
Theorem erase_at_live (t : _AvlTree) (s : Z) (l : list T) :
  reachable t -> live t s -> to_list t = Some l ->
  exists t' l1 l2,
    erase_at t s = Some t'
    /\ l = l1 ++ at_ t s :: l2
    /\ to_list t' = Some (l1 ++ l2)
    /\ size t' = size t - 1
    /\ ~ live t' s
    /\ len_ (base t') = len_ (base t)
    /\ capacity_ (base t') = capacity_ (base t)
    /\ (forall v, op_fits t' (OInsert v) = true ->
          (forall w, In w (l1 ++ l2) -> ~ equiv w v) ->
          exists t'',
            insert t' v = Some (s, true, t'')
            /\ len_ (base t'') = len_ (base t)
            /\ capacity_ (base t'') = capacity_ (base t)).
Proof.
  intros Hr HL Hl. destruct (reachable_inv t Hr) as (tr & F & H).
  pose proof HNsize as HN.
  rewrite (to_list_inv _ _ _ H) in Hl. injection Hl as <-.
  destruct (live_node _ _ _ _ H HL) as (S1 & S2 & S3).
  unfold erase_at. rewrite S1.
  destruct (EraseAt_spec t tr F (s * Nsize) H)
    as [(Hno & _)|(w & A & B & t1 & tr1 & Hn & E1 & HI1 & Hn1 & HL1)].
  { exfalso. apply Hno. eapply in_nodes_addrs; eauto. }
  assert (Hnd : NoDup (map fst (A ++ (s * Nsize, w) :: B))).
  { rewrite <- Hn. apply (Arena_wf _ _ _ (inv_arena _ _ _ H)). }
  assert (Ew : at_ t s = w).
  { rewrite Hn in S3. apply in_app_or in S3. destruct S3 as [S3|[S3|S3]].
    - exfalso. rewrite map_app in Hnd. cbn [map fst] in Hnd.
      apply NoDup_remove_2 in Hnd. apply Hnd. apply in_or_app. left.
      change (s * Nsize) with (fst (s * Nsize, at_ t s)). now apply in_map.
    - now injection S3.
    - exfalso. rewrite map_app in Hnd. cbn [map fst] in Hnd.
      apply NoDup_remove_2 in Hnd. apply Hnd. apply in_or_app. right.
      change (s * Nsize) with (fst (s * Nsize, at_ t s)). now apply in_map. }
  destruct (EraseAt_fields _ _ _ E1) as [_ Hcap].
  exists t1, (map snd A), (map snd B). rewrite E1, Ew. split_all; auto.
  - unfold inorder. rewrite Hn, map_app. reflexivity.
  - rewrite (to_list_inv _ _ _ HI1). unfold inorder. now rewrite Hn1, map_app.
  - unfold size, Size. rewrite (inv_cnt _ _ _ H), (inv_cnt _ _ _ HI1).
    rewrite Hn, Hn1, !length_app. cbn [length]. lia.
  - intros HL'. destruct (live_node _ _ _ _ HI1 HL') as (_ & _ & S4).
    rewrite Hn1 in S4. rewrite map_app in Hnd. cbn [map fst] in Hnd.
    apply NoDup_remove_2 in Hnd. apply Hnd. rewrite <- map_app.
    change (s * Nsize) with (fst (s * Nsize, at_ t1 s)). now apply in_map.
  - intros v Hfit Hno. cbn [op_fits] in Hfit. apply Z.leb_le in Hfit.
    destruct (insert_new t1 tr1 (s * Nsize :: F) v HI1 Hfit)
      as (n & t2 & tr2 & F2 & E2 & HI2 & Hp2 & HF2 & _).
    { intros x Hx. apply Hno. unfold inorder in Hx.
      now rewrite Hn1, map_app in Hx. }
    destruct HF2 as [HF2|(HF2 & _)]; [|discriminate].
    injection HF2 as <- _. rewrite S2 in E2. exists t2. split; auto.
    unfold insert in E2.
    destruct (Insert t1 v) as [[[o b] t3]|] eqn:E3; [|discriminate].
    injection E2 as _ _ ->.
    destruct (Insert_reuse t1 tr1 _ _ v _ HI1 E3) as [R1 R2].
    cbn [snd] in R1, R2. split; congruence.
Qed.

Lemma reserve_fields t tr F count :
  Inv t tr F -> 0 <= count -> (count + 1) * Nsize <= 2 ^ 31 ->
  (count + 1) * Nsize <= capacity_ (base (reserve t count))
  /\ capacity_ (base t) <= capacity_ (base (reserve t count))
  /\ len_ (base (reserve t count)) = len_ (base t)
  /\ (forall a, buf (base (reserve t count)) a = buf (base t) a).
Proof.
  intros H Hc Hl. pose proof HNsize as HN.
  pose proof (inv_arena _ _ _ H) as HA. pose proof (ar_len _ _ _ HA) as Hlen.
  assert (Hpos : 0 <= (count + 1) * Nsize) by nia.
  unfold reserve, _Reserve. cbn [base].
  rewrite u64_small, u32_small by lia.
  destruct ((count + 1) * Nsize >? capacity_ (base t)) eqn:E.
  - apply Z.gtb_lt in E. rewrite u32_small by lia.
    destruct (GrowBy_Arena (base t) (addrs tr) F
                ((count + 1) * Nsize - len_ (base t)) HA ltac:(lia) ltac:(lia))
      as (_ & G1 & G2).
    split_all; try lia. intros a. eapply GrowBy_buf; eauto.
  - pose proof (Zgt_cases ((count + 1) * Nsize) (capacity_ (base t))) as G.
    rewrite E in G. split_all; auto; lia.
Qed.

(** X7: [reserve count] leaves the elements, their slots and the size as
    they are and makes room for the sentinel and [count] nodes; the
    capacity does not shrink, and the arena is not touched when it has
    this room already. *)
Theorem reserve_spec (t : _AvlTree) (count : Z) :
  reachable t -> 0 <= count -> (count + 1) * Nsize <= 2 ^ 31 ->
  (count + 1) * Nsize <= capacity_ (base (reserve t count))
  /\ capacity_ (base t) <= capacity_ (base (reserve t count))
  /\ len_ (base (reserve t count)) = len_ (base t)
  /\ size (reserve t count) = size t
  /\ to_list (reserve t count) = to_list t
  /\ (forall p, at_ (reserve t count) p = at_ t p)
  /\ ((count + 1) * Nsize <= capacity_ (base t) -> reserve t count = t).
Proof.
  intros Hr Hc Hl. destruct (reachable_inv t Hr) as (tr & F & H).
  pose proof HNsize as HN.
  pose proof (Reserve_inv t tr F count H Hc Hl) as HI.
  pose proof (inv_arena _ _ _ H) as HA. pose proof (ar_len _ _ _ HA) as Hlen.
  assert (Hpos : 0 <= (count + 1) * Nsize) by nia.
  pose proof (reserve_fields t tr F count H Hc Hl) as Hfields.
  destruct Hfields as (F1 & F2 & F3 & F4).
  split_all; auto.
  - rewrite (to_list_inv _ _ _ HI). now rewrite (to_list_inv _ _ _ H).
  - intros p. unfold at_. now rewrite F4.
  - intros Hcap. unfold reserve, _Reserve.
    rewrite u64_small, u32_small by lia.
    rewrite Z.gtb_ltb, (proj2 (Z.ltb_ge _ _)) by lia.
    now destruct t.
Qed.

Lemma run_capacity : forall ops t tr F k,
  Inv t tr F -> 0 <= k -> len_ (base t) <= (1 + k) * Nsize ->
  (k + Z.of_nat (length ops) + 1) * Nsize <= capacity_ (base t) ->
  (k + Z.of_nat (length ops) + 2) * Nsize <= 2 ^ 31 ->
  forallb is_ins_ers ops = true ->
  exists t' tr' F',
    run t ops = Some t' /\ Inv t' tr' F'
    /\ capacity_ (base t') = capacity_ (base t)
    /\ inorder tr' = ref_run (inorder tr) ops.
Proof.
  pose proof HNsize as HN.
  induction ops as [|o ops IH]; intros t tr F k H Hk Hlen Hcap Hb Hio;
    cbn [run ref_run forallb length] in *.
  - exists t, tr, F. auto.
  - apply andb_true_iff in Hio. destruct Hio as [Ho Hio].
    rewrite Nat2Z.inj_succ in Hcap, Hb.
    pose proof (inv_arena _ _ _ H) as HA.
    pose proof (ar_len _ _ _ HA) as Hl0. pose proof (ar_cap _ _ _ HA) as Hc0.
    destruct o as [v|v| | |]; try discriminate; cbn [exec].
    + assert (Hfit : len_ (base t) + 2 * Nsize <= 2 ^ 31) by nia.
      unfold insert.
      destruct (Insert t v) as [r|] eqn:Er.
      2:{ exfalso.
          destruct (Insert_spec t tr F v H Hfit)
            as [(a & w & _ & _ & E & _)|(_ & n & t' & tr' & F' & E & _)];
            congruence. }
      pose proof (Insert_capacity t v r Er Hl0 Hc0 ltac:(nia)) as Hc1.
      destruct (Insert_spec t tr F v H Hfit)
        as [(a & w & _ & _ & E & Eref)
           |(_ & n & t' & tr' & F' & E & HI & Eref & _ & _ & HL)];
        rewrite E in Er; injection Er as <-; cbn [snd option_map] in *.
      * rewrite Eref. apply (IH t tr F (k + 1)); auto; nia.
      * rewrite <- Eref.
        destruct (IH t' tr' F' (k + 1) HI) as (t2 & tr2 & F2 & E2 & HI2 & C2 & R2);
          auto; try nia.
        exists t2, tr2, F2. split_all; auto. congruence.
    + unfold erase.
      destruct (Erase_spec t tr F v H)
        as [(_ & E & Eref)
           |(a & w & A & B & t' & tr' & _ & _ & E & HI & _ & Eref & HL)];
        rewrite E.
      * rewrite Eref. apply (IH t tr F (k + 1)); auto; nia.
      * rewrite <- Eref. destruct (Erase_fields _ _ _ E) as [_ Hc1].
        destruct (IH t' tr' (a :: F) (k + 1) HI) as (t2 & tr2 & F2 & E2 & HI2 & C2 & R2);
          auto; try nia.
        exists t2, tr2, F2. split_all; auto. congruence.
Qed.

(** X8: a set built with room for [count] elements, or an empty set
    after [reserve count], takes [count] calls of [insert] and [erase]
    without a new allocation: the capacity stays what the reservation
    made it, and the iteration gives what the reference holds. *)
Theorem reserve_no_realloc (count : Z) (ops : list op) :
  0 < count -> (count + 2) * Nsize <= 2 ^ 31 ->
  forallb is_ins_ers ops = true -> Z.of_nat (length ops) <= count ->
  set_new count = reserve AvlTree0 count
  /\ exists t,
       run (set_new count) ops = Some t
       /\ capacity_ (base t) = capacity_ (base (set_new count))
       /\ (count + 1) * Nsize <= capacity_ (base t)
       /\ to_list t = Some (ref_run [] ops).
Proof.
  intros Hc Hb Hio Hlen. pose proof HNsize as HN.
  assert (Es : set_new count = reserve AvlTree0 count).
  { unfold set_new. rewrite (proj2 (Z.eqb_neq count 0)) by lia. reflexivity. }
  split; auto. rewrite Es.
  pose proof (Reserve_inv AvlTree0 Leaf [] count Inv_init ltac:(lia) ltac:(nia)) as HI.
  destruct (reserve_fields AvlTree0 Leaf [] count Inv_init ltac:(lia) ltac:(nia))
    as (F1 & _ & F3 & _).
  cbn [AvlTree0 base Growable0 len_] in F3.
  destruct (run_capacity ops _ Leaf [] 0 HI) as (t & tr & F & E & HI2 & C & R);
    auto; try lia; try nia.
  exists t. split_all; auto; try lia.
  rewrite (to_list_inv _ _ _ HI2). now rewrite R.
Qed.
(** ** The traversals and the depth of a node *)

Lemma Inorder_rep m : forall s par a fuel,
  rep m par s -> NoDup (addrs s) -> root s = Some a ->
  (length (nodes s) <= fuel)%nat ->
  Inorder fuel m a = Some (inorder s).
Proof.
  induction s as [|l IHl b w d r IHr]; intros par a fuel Hrep Hnd Hroot Hf;
    [discriminate|].
  injection Hroot as ->. destruct Hrep as (Ha & Hl & Hr).
  cbn [nodes] in Hf. rewrite length_app in Hf. cbn [length] in Hf.
  destruct fuel as [|fuel]; [lia|].
  rewrite addrs_Node in Hnd. apply nd_app in Hnd. destruct Hnd as (Hs & Hn1 & Hn2).
  apply nd_cons in Hn2. destruct Hn2 as [Hni Hn2].
  cbn [Inorder]. unfold Nleft, Nright, _Ptr. rewrite Ha.
  cbn [left right payload].
  assert (Hleft : (if negb (lnk a (root l) =? 0)
                   then Inorder fuel m (a + lnk a (root l))
                   else Some []) = Some (inorder l)).
  { destruct l as [|l1 e ve de l2]; [reflexivity|]. cbn [root lnk].
    assert (a <> e).
    { intros ->. apply (Hs e); [|now left]. rewrite addrs_Node. in_tac. }
    rewrite link_nz by neq_tac. rewrite ptr_link. cbn [negb].
    apply (IHl (Some a)); auto. lia. }
  assert (Hright : (if negb (lnk a (root r) =? 0)
                    then Inorder fuel m (a + lnk a (root r))
                    else Some []) = Some (inorder r)).
  { destruct r as [|r1 e ve de r2]; [reflexivity|]. cbn [root lnk].
    assert (a <> e).
    { intros ->. apply Hni. rewrite addrs_Node. in_tac. }
    rewrite link_nz by neq_tac. rewrite ptr_link. cbn [negb].
    apply (IHr (Some a)); auto. lia. }
  rewrite Hleft, Hright. unfold inorder. cbn [nodes].
  now rewrite map_app.
Qed.

Lemma Enumerate_rep m : forall s par a fuel,
  rep m par s -> NoDup (addrs s) -> root s = Some a ->
  (length (nodes s) <= fuel)%nat ->
  exists ns, Enumerate fuel m a = Some ns
             /\ Permutation ns (addrs s) /\ last ns 0 = a.
Proof.
  induction s as [|l IHl b w d r IHr]; intros par a fuel Hrep Hnd Hroot Hf;
    [discriminate|].
  injection Hroot as ->. destruct Hrep as (Ha & Hl & Hr).
  cbn [nodes] in Hf. rewrite length_app in Hf. cbn [length] in Hf.
  destruct fuel as [|fuel]; [lia|].
  rewrite addrs_Node in *. pose proof Hnd as Hnd0.
  apply nd_app in Hnd. destruct Hnd as (Hs & Hn1 & Hn2).
  apply nd_cons in Hn2. destruct Hn2 as [Hni Hn2].
  cbn [Enumerate]. unfold Nleft, Nright, _Ptr. rewrite Ha.
  cbn [left right].
  assert (Hleft : exists nl,
            (if negb (lnk a (root l) =? 0)
             then Enumerate fuel m (a + lnk a (root l))
             else Some []) = Some nl /\ Permutation nl (addrs l)).
  { destruct l as [|l1 e ve de l2]; [exists []; split; auto|]. cbn [root lnk].
    assert (a <> e).
    { intros ->. apply (Hs e); [|now left]. rewrite addrs_Node. in_tac. }
    rewrite link_nz by neq_tac. rewrite ptr_link. cbn [negb].
    destruct (IHl (Some a) e fuel) as (nl & E & P & _); auto; [lia|]. eauto. }
  assert (Hright : exists nr,
            (if negb (lnk a (root r) =? 0)
             then Enumerate fuel m (a + lnk a (root r))
             else Some []) = Some nr /\ Permutation nr (addrs r)).
  { destruct r as [|r1 e ve de r2]; [exists []; split; auto|]. cbn [root lnk].
    assert (a <> e).
    { intros ->. apply Hni. rewrite addrs_Node. in_tac. }
    rewrite link_nz by neq_tac. rewrite ptr_link. cbn [negb].
    destruct (IHr (Some a) e fuel) as (nr & E & P & _); auto; [lia|]. eauto. }
  destruct Hleft as (nl & -> & Pl). destruct Hright as (nr & -> & Pr).
  exists (nl ++ nr ++ [a]). split_all; auto.
  - apply Permutation_app; auto.
    eapply Permutation_trans; [apply Permutation_app_comm|].
    cbn [app]. now constructor.
  - rewrite app_assoc. apply last_last.
Qed.

Lemma Depth_loop_rep m : forall c l a v d r fuel k,
  rep m None (plug c (Node l a v d r)) -> wf (plug c (Node l a v d r)) ->
  (length c < fuel)%nat -> 0 <= k -> k + Z.of_nat (length c) < 2 ^ 32 ->
  Depth_loop fuel m (Some a) k = Some (k + Z.of_nat (length c)).
Proof.
  induction c as [|f c IH]; intros l a v d r fuel k Hrep Hwf Hf Hk Hb;
    (destruct fuel as [|fuel]; [simpl in Hf; lia|]);
    cbn [Depth_loop];
    pose proof (rep_cell _ _ _ _ _ _ _ Hrep) as Ha;
    pose proof (NSafeParent_rep _ _ _ _ _ _ _ Hwf Hrep) as Hp;
    unfold NSafeParent in Hp; rewrite Ha in *; cbn [parent cpar lnk] in *.
  - cbn [Z.eqb negb length]. f_equal. lia.
  - destruct (faddr f - a =? 0) eqn:E0; [discriminate|]. cbn [negb].
    unfold NSafeParent. rewrite Ha. cbn [parent]. rewrite E0.
    injection Hp as Hp. unfold _Ptr in *. rewrite Hp.
    cbn [length] in *. rewrite Nat2Z.inj_succ in *.
    rewrite u32_small by lia.
    destruct f as [p vp dp sib|sib p vp dp]; cbn [plug fill faddr] in *.
    + rewrite (IH (Node l a v d r) p vp dp sib fuel (k + 1)); auto; try lia.
      f_equal. lia.
    + rewrite (IH sib p vp dp (Node l a v d r) fuel (k + 1)); auto; try lia.
      f_equal. lia.
Qed.

Lemma min_nodes_step h :
  min_nodes (S (S h)) = 1 + min_nodes (S h) + min_nodes h.
Proof. reflexivity. Qed.

Lemma min_nodes_mono1 h : 0 <= min_nodes h <= min_nodes (S h).
Proof.
  assert (H : 0 <= min_nodes h <= min_nodes (S h)
              /\ 0 <= min_nodes (S h) <= min_nodes (S (S h))).
  { induction h as [|h IH].
    - cbn. lia.
    - destruct IH as [H1 H2]. split; auto.
      rewrite (min_nodes_step (S h)). lia. }
  tauto.
Qed.

Lemma min_nodes_mono a b : (a <= b)%nat -> min_nodes a <= min_nodes b.
Proof.
  induction 1 as [|b _ IH]; [lia|].
  pose proof (min_nodes_mono1 b). lia.
Qed.

(** The number of nodes grows as a power of two of half the height. *)
Lemma min_nodes_pow h : 2 ^ (Z.of_nat h / 2) <= min_nodes h + 1.
Proof.
  assert (H : 2 ^ (Z.of_nat h / 2) <= min_nodes h + 1
              /\ 2 ^ (Z.of_nat (S h) / 2) <= min_nodes (S h) + 1).
  { induction h as [|h IH].
    - cbn. lia.
    - destruct IH as [H1 H2]. split; auto.
      rewrite (min_nodes_step h).
      replace (Z.of_nat (S (S h))) with (Z.of_nat h + 1 * 2) by lia.
      rewrite Z.div_add by lia.
      rewrite Z.pow_add_r by (try apply Z.div_pos; lia).
      pose proof (min_nodes_mono1 h). lia. }
  tauto.
Qed.

Lemma avl_min_nodes (s : tree) :
  avl s -> min_nodes (Z.to_nat (height s)) <= Z.of_nat (length (nodes s)).
Proof.
  induction s as [|l IHl a v d r IHr]; intros Havl; [cbn; lia|].
  destruct Havl as (Hl & Hr & Ht). specialize (IHl Hl). specialize (IHr Hr).
  pose proof (height_nonneg l) as Hhl. pose proof (height_nonneg r) as Hhr.
  cbn [height nodes]. rewrite length_app. cbn [length].
  rewrite Nat2Z.inj_add, Nat2Z.inj_succ.
  pose proof (min_nodes_mono1 (Z.to_nat (height l))) as Ml.
  pose proof (min_nodes_mono1 (Z.to_nat (height r))) as Mr.
  destruct d; cbn [tilt_ok] in Ht; try contradiction.
  - (* the left subtree is deeper *)
    replace (Z.to_nat (1 + Z.max (height l) (height r)))
      with (S (S (Z.to_nat (height r)))) by lia.
    rewrite min_nodes_step.
    replace (S (Z.to_nat (height r))) with (Z.to_nat (height l)) by lia. lia.
  - replace (Z.to_nat (1 + Z.max (height l) (height r)))
      with (S (Z.to_nat (height r))) by lia.
    rewrite Ht in *.
    destruct (Z.to_nat (height r)) as [|h] eqn:Eh.
    + cbn. lia.
    + rewrite min_nodes_step. pose proof (min_nodes_mono1 h). lia.
  - replace (Z.to_nat (1 + Z.max (height l) (height r)))
      with (S (S (Z.to_nat (height l)))) by lia.
    rewrite min_nodes_step.
    replace (S (Z.to_nat (height l))) with (Z.to_nat (height r)) by lia. lia.
Qed.

Lemma height_fill f t : 1 + height t <= height (fill f t).
Proof. destruct f; cbn [fill height]; lia. Qed.

Lemma height_plug_ge c : forall t,
  Z.of_nat (length c) + height t <= height (plug c t).
Proof.
  induction c as [|f c IH]; intros t; cbn [plug length]; [lia|].
  specialize (IH (fill f t)). pose proof (height_fill f t). lia.
Qed.

(** X9: [foreach] hands to the callback the elements that the iteration
    from [begin()] to [end()] visits, in the same order. *)
Theorem foreach_is_iteration (t : _AvlTree) :
  reachable t ->
  exists l, foreach t = Some l /\ to_list t = Some l /\ sorted l.
Proof.
  intros Hr. destruct (reachable_inv t Hr) as (tr & F & H).
  exists (inorder tr). split_all.
  - unfold foreach, Foreach.
    destruct tr as [|tl a ta td trr] eqn:Etr.
    + now rewrite (Inv_root_leaf _ _ H).
    + rewrite <- Etr in *.
      assert (Hra : root tr = Some a) by now rewrite Etr.
      destruct (Inv_root_nz _ _ _ _ H Hra) as [_ ->].
      apply (Inorder_rep _ tr None); auto.
      * apply (inv_rep _ _ _ H).
      * apply (Arena_wf _ _ _ (inv_arena _ _ _ H)).
      * pose proof (Inv_fuel _ _ _ H). unfold fuel_of. lia.
  - eapply to_list_inv; eauto.
  - eapply inv_sorted; eauto.
Qed.

(** X10: the depth of a live node, the number of steps that [Depth]
    counts up to the root, is bounded by the size of the set as in every
    AVL tree: a node at depth [d] needs [min_nodes (d + 1)] elements, so
    that [2 ^ ((d + 1) / 2) <= size + 1]. *)
Theorem depth_is_logarithmic (t : _AvlTree) (s : Z) :
  reachable t -> live t s ->
  exists d,
    Depth (fuel_of (base t)) (buf (base t)) (slot_off s) = Some d
    /\ 0 <= d
    /\ min_nodes (S (Z.to_nat d)) <= size t
    /\ 2 ^ ((d + 1) / 2) <= size t + 1.
Proof.
  intros Hr HL. destruct (reachable_inv t Hr) as (tr & F & H).
  destruct (live_node _ _ _ _ H HL) as (S1 & S2 & S3).
  apply in_nodes_addrs in S3.
  destruct (tree_split tr _ S3) as (c & l & v & d & r & Etr).
  pose proof (Arena_wf _ _ _ (inv_arena _ _ _ H)) as Hwf.
  pose proof (inv_rep _ _ _ H) as Hrep.
  pose proof (Inv_fuel _ _ _ H) as Hfuel.
  pose proof (ar_lim _ _ _ (inv_arena _ _ _ H)) as Hlim.
  pose proof (ar_len _ _ _ (inv_arena _ _ _ H)) as Hlen.
  rewrite Etr in Hwf, Hrep, Hfuel.
  pose proof (length_plug c (Node l (s * Nsize) v d r)) as Hlp.
  cbn [nodes] in Hlp. rewrite length_app in Hlp. cbn [length] in Hlp.
  exists (Z.of_nat (length c)). rewrite S1. unfold Depth.
  rewrite (Depth_loop_rep _ c l _ v d r); auto; try lia.
  2:{ unfold fuel_of. lia. }
  pose proof (height_plug_ge c (Node l (s * Nsize) v d r)) as Hh.
  cbn [height] in Hh.
  pose proof (height_nonneg l). pose proof (height_nonneg r).
  pose proof (avl_min_nodes tr (inv_avl _ _ _ H)) as Hm.
  rewrite <- Etr in Hh.
  assert (Hmono : min_nodes (S (length c)) <= min_nodes (Z.to_nat (height tr))).
  { apply min_nodes_mono. lia. }
  unfold size, Size. rewrite (inv_cnt _ _ _ H).
  rewrite Nat2Z.id. split_all; auto; try lia.
  pose proof (min_nodes_pow (S (length c))) as Hp.
  rewrite Nat2Z.inj_succ in Hp.
  replace (Z.succ (Z.of_nat (length c))) with (Z.of_nat (length c) + 1) in Hp by lia.
  lia.
Qed.

Lemma filter_from (v w : T) (A B : list T) :
  sorted (A ++ w :: B) -> equiv w v ->
  filter (fun x => negb (less x v)) (A ++ w :: B) = w :: B.
Proof.
  intros Hs He. apply sorted_app in Hs. destruct Hs as (_ & Hs & HA).
  apply sorted_cons in Hs. destruct Hs as [_ HB].
  rewrite filter_app. cbn [filter].
  destruct He as [E1 E2]. rewrite E1. cbn [negb].
  assert (FA : filter (fun x => negb (less x v)) A = []).
  { induction A as [|x A IH]; [reflexivity|]. cbn [filter].
    assert (Hx : lt x v).
    { apply (lt_equiv_r x w v); [|split; auto]. apply HA; now left. }
    unfold lt in Hx. rewrite Hx. cbn [negb]. apply IH.
    intros a b Ha Hb. apply HA; auto. now right. }
  assert (FB : filter (fun x => negb (less x v)) B = B).
  { apply filter_all. eapply Forall_impl; [|exact HB]. intros x Hx. cbn beta.
    assert (Hvx : lt v x).
    { apply (lt_equiv_l v w x); [split; auto|exact Hx]. }
    now rewrite (less_asym _ _ Hvx). }
  now rewrite FA, FB.
Qed.

(** X11: the iteration from the iterator that [find v] returns visits
    the element equivalent to [v] and, in their order, all the elements
    after it, that is the elements that are not less than [v]; when the
    set holds no such element [find] returns [end()] and nothing is
    visited. *)
Theorem iterate_from_find (t : _AvlTree) (v : T) (l : list T) :
  reachable t -> to_list t = Some l ->
  exists it,
    find t v = Some it
    /\ (it_bool it = true <-> exists w, In w l /\ equiv w v)
    /\ walk (fuel_of (base t)) t it
       = Some (if it_bool it then filter (fun x => negb (less x v)) l else []).
Proof.
  intros Hr Hl. destruct (reachable_inv t Hr) as (tr & F & H).
  rewrite (to_list_inv _ _ _ H) in Hl. injection Hl as <-.
  unfold find.
  destruct (FindNode_spec t tr F v H) as [(a & w & Hi & He & E)|(Hno & E)];
    rewrite E.
  - exists (Some a). cbn [it_bool]. split; [reflexivity|]. split.
    + split; auto. intros _. exists w. split; auto.
      eapply in_nodes_inorder; eauto.
    + destruct (in_split _ _ Hi) as (A & B & Hn).
      pose proof (Inv_fuel _ _ _ H) as Hfuel.
      rewrite (walk_rep t tr B A a w); auto.
      * unfold inorder. rewrite Hn, map_app. cbn [map snd].
        rewrite filter_from; auto.
        pose proof (inv_sorted _ _ _ H) as Hs. unfold inorder in Hs.
        now rewrite Hn, map_app in Hs.
      * apply (inv_rep _ _ _ H).
      * apply (Arena_wf _ _ _ (inv_arena _ _ _ H)).
      * rewrite Hn, length_app in Hfuel. cbn [length] in Hfuel.
        unfold fuel_of. lia.
  - exists None. cbn [it_bool]. split; [reflexivity|]. split.
    + split; [discriminate|]. intros (w & Hw & He). exfalso. eapply Hno; eauto.
    + destruct (fuel_of (base t)); reflexivity.
Qed.

(** X12: [Enumerate] from the root hands every live node to the callback
    once, and no other node, the root as the last one; so the number of
    nodes that [__LifeCheck] counts is [size()]. *)
Theorem enumerate_live_nodes (t : _AvlTree) :
  reachable t -> _Root t <> 0 ->
  exists ns,
    Enumerate (fuel_of (base t)) (buf (base t)) (_Root t) = Some ns
    /\ NoDup ns
    /\ (forall a, In a ns <-> IsEmpty (buf (base t)) a = false)
    /\ Z.of_nat (length ns) = size t
    /\ last ns 0 = _Root t.
Proof.
  intros Hr Hroot. destruct (reachable_inv t Hr) as (tr & F & H).
  pose proof (Arena_wf _ _ _ (inv_arena _ _ _ H)) as [Hnd Hrg].
  destruct tr as [|tl a ta td trr] eqn:Etr.
  { exfalso. apply Hroot. now rewrite (inv_root _ _ _ H). }
  rewrite <- Etr in *.
  assert (Hra : root tr = Some a) by now rewrite Etr.
  destruct (Inv_root_nz _ _ _ _ H Hra) as [Er _]. rewrite Er.
  destruct (Enumerate_rep (buf (base t)) tr None a (fuel_of (base t)))
    as (ns & E & P & L); auto.
  { apply (inv_rep _ _ _ H). }
  { pose proof (Inv_fuel _ _ _ H). unfold fuel_of. lia. }
  exists ns. split_all; auto.
  - eapply Permutation_NoDup; [apply Permutation_sym; exact P|exact Hnd].
  - intros b. rewrite (Inv_live_cell t tr F b H). split; intros Hb.
    + eapply Permutation_in; eauto.
    + eapply Permutation_in; [apply Permutation_sym; exact P|exact Hb].
  - rewrite (Permutation_length P). unfold size, Size, addrs.
    rewrite length_map. symmetry. apply (inv_cnt _ _ _ H).
Qed.
(** ** The rotations, the two retraces and the arithmetic of the arena *)

(** X13: the four rotations rewire the links, those to the parents
    included, so that the memory holds the rotated tree: the nodes keep
    their order and their tilts, and no cell outside the tree is
    written. *)
Theorem rotations_rewire (m : mem) (c : list frame) :
  (forall x y vy dy t2 z vz dz t3,
     wf (plug c (Node (Node x y vy dy t2) z vz dz t3)) ->
     rep m None (plug c (Node (Node x y vy dy t2) z vz dz t3)) ->
     rep (_Rotate_LL m z y) None (plug c (Node x y vy dy (Node t2 z vz dz t3)))
     /\ same_but (addrs (plug c (Node (Node x y vy dy t2) z vz dz t3)))
          m (_Rotate_LL m z y))
  /\ (forall t1 z vz dz t2 y vy dy x,
     wf (plug c (Node t1 z vz dz (Node t2 y vy dy x))) ->
     rep m None (plug c (Node t1 z vz dz (Node t2 y vy dy x))) ->
     rep (_Rotate_RR m z y) None (plug c (Node (Node t1 z vz dz t2) y vy dy x))
     /\ same_but (addrs (plug c (Node t1 z vz dz (Node t2 y vy dy x))))
          m (_Rotate_RR m z y))
  /\ (forall t1 y vy dy xl x vx dx xr z vz dz t4,
     wf (plug c (Node (Node t1 y vy dy (Node xl x vx dx xr)) z vz dz t4)) ->
     rep m None (plug c (Node (Node t1 y vy dy (Node xl x vx dx xr)) z vz dz t4)) ->
     rep (_Rotate_LR m z y x) None
       (plug c (Node (Node t1 y vy dy xl) x vx dx (Node xr z vz dz t4)))
     /\ same_but
          (addrs (plug c (Node (Node t1 y vy dy (Node xl x vx dx xr)) z vz dz t4)))
          m (_Rotate_LR m z y x))
  /\ (forall t1 z vz dz xl x vx dx xr y vy dy t4,
     wf (plug c (Node t1 z vz dz (Node (Node xl x vx dx xr) y vy dy t4))) ->
     rep m None (plug c (Node t1 z vz dz (Node (Node xl x vx dx xr) y vy dy t4))) ->
     rep (_Rotate_RL m z y x) None
       (plug c (Node (Node t1 z vz dz xl) x vx dx (Node xr y vy dy t4)))
     /\ same_but
          (addrs (plug c (Node t1 z vz dz (Node (Node xl x vx dx xr) y vy dy t4))))
          m (_Rotate_RL m z y x)).
Proof.
  split_all.
  - intros; now apply rot_LL_rep.
  - intros; now apply rot_RR_rep.
  - intros; now apply rot_LR_rep.
  - intros; now apply rot_RL_rep.
Qed.

(** X14: [AddChild] hangs the new node [a] at the free side of its parent
    and retraces: from a balanced tree it makes a balanced tree with the
    same nodes in their order and the new one at its place; it writes no
    cell outside the tree and the new node, and the root is the old one
    or the node that the parent link of the old one names. *)
Theorem add_child_rebalances (m : mem) (f : frame) (c : list frame)
    (a : Z) (v : T) (fuel : nat) :
  wf (plug (f :: c) Leaf) ->
  rep m None (plug (f :: c) Leaf) ->
  avl (plug (f :: c) Leaf) ->
  m a = mkNode v 0 0 0 Dir.None ->
  ~ In a (addrs (plug (f :: c) Leaf)) -> in_range a ->
  (length c < fuel)%nat ->
  exists m' t',
    AddChild fuel m (faddr f) a (fside f) = Some m'
    /\ rep m' None t'
    /\ avl t'
    /\ nodes t' = cnodes_l (f :: c) ++ (a, v) :: cnodes_r (f :: c)
    /\ same_but (a :: addrs (plug (f :: c) Leaf)) m m'
    /\ (forall ro, root (plug (f :: c) Leaf) = Some ro ->
                   root t' = Some (ro + parent (m' ro))).
Proof.
  intros Hwf Hrep Havl Ha Hnew Ra Hf.
  destruct (AddChild_rep m f c a v fuel Hwf Hrep Havl Ha Hnew Ra Hf)
    as (m' & t' & E & H1 & H2 & H3 & H4 & H5).
  exists m', t'. split_all; auto.
Qed.

(** X15: [_EraseNode] of a node [n] of a balanced tree returns [true] and
    the new root, and leaves a balanced tree with the other nodes in
    their order; it writes no cell outside the tree. *)
Theorem erase_node_rebalances (m : mem) (c : list frame) (l : tree) (n : Z)
    (v : T) (d : Dir.t) (r : tree) (fuel : nat) (outRoot : nptr) :
  wf (plug c (Node l n v d r)) ->
  rep m None (plug c (Node l n v d r)) ->
  avl (plug c (Node l n v d r)) ->
  (length (nodes (plug c (Node l n v d r))) <= fuel)%nat ->
  exists m' t',
    _EraseNode fuel m outRoot (Some n) = Some (true, root t', m')
    /\ rep m' None t'
    /\ avl t'
    /\ nodes t' = cnodes_l c ++ nodes l ++ nodes r ++ cnodes_r c
    /\ same_but (addrs (plug c (Node l n v d r))) m m'.
Proof.
  intros Hwf Hrep Havl Hf.
  destruct (EraseNode_rep m c l n v d r fuel outRoot Hwf Hrep Havl Hf)
    as (m' & t' & E & H1 & H2 & H3 & H4).
  exists m', t'. split_all; auto.
Qed.

(** X16: [_Rotate_Erase] at a node that is two deeper on the side of its
    tilt gives a balanced subtree with the same nodes in their order.
    Either it returns null and the subtree is as high as before, or it
    returns the new root of the subtree, which is one lower, for the
    retrace to go on. *)
Theorem rotate_erase_cases (m : mem) (c : list frame) (l : tree) (z : Z)
    (v : T) (d : Dir.t) (r : tree) :
  wf (plug c (Node l z v d r)) ->
  rep m None (plug c (Node l z v d r)) ->
  avl l -> avl r -> imb d l r ->
  exists S',
    rep (snd (_Rotate_Erase m z)) None (plug c S')
    /\ same_but (addrs (plug c (Node l z v d r))) m (snd (_Rotate_Erase m z))
    /\ nodes S' = nodes (Node l z v d r)
    /\ avl S'
    /\ ((fst (_Rotate_Erase m z) = None
         /\ height S' = 1 + Z.max (height l) (height r))
        \/ (fst (_Rotate_Erase m z) = root S'
            /\ height S' = Z.max (height l) (height r))).
Proof. apply rotate_erase_rep. Qed.

(** X17: [_Rotate_Insert] at a node that an insertion below its child on
    the side [d] has made too deep there gives a balanced subtree with
    the same nodes in their order and of the height that the subtree had
    before the insertion, so that the retrace ends. *)
Theorem rotate_insert_restores (m : mem) (c : list frame) (l : tree) (n : Z)
    (v : T) (d : Dir.t) (r : tree) :
  wf (plug c (Node l n v d r)) ->
  rep m None (plug c (Node l n v d r)) ->
  avl l -> avl r -> (d = Dir.Left \/ d = Dir.Right) ->
  tilt_ok d (fst (old_heights d l r)) (snd (old_heights d l r)) ->
  grown_ok d l r ->
  exists S',
    rep (_Rotate_Insert m n) None (plug c S')
    /\ same_but (addrs (plug c (Node l n v d r))) m (_Rotate_Insert m n)
    /\ nodes S' = nodes (Node l n v d r)
    /\ avl S'
    /\ height S' = 1 + Z.max (fst (old_heights d l r)) (snd (old_heights d l r)).
Proof.
  intros Hwf Hrep Hl Hr Hd Ht Hg.
  destruct (rotate_insert_rep m c l n v d r Hwf Hrep Hl Hr Hd Ht Hg)
    as (S' & H1 & H2 & H3 & H4 & H5 & _).
  exists S'. split_all; auto.
Qed.

(** X18: from every live node [Root] climbs to the root of the
    container, and [Branch] is [None] for the root alone. *)
Theorem root_of_live_node (t : _AvlTree) (s : Z) :
  reachable t -> live t s ->
  Root (fuel_of (base t)) (buf (base t)) (slot_off s) = Some (_Root t)
  /\ (Branch (buf (base t)) (slot_off s) = Dir.None <-> slot_off s = _Root t).
Proof.
  intros Hr HL. destruct (reachable_inv t Hr) as (tr & F & H).
  destruct (live_node _ _ _ _ H HL) as (S1 & S2 & S3).
  apply in_nodes_addrs in S3. rewrite S1.
  pose proof (Arena_wf _ _ _ (inv_arena _ _ _ H)) as Hwf.
  pose proof (inv_rep _ _ _ H) as Hrep.
  pose proof (Inv_fuel _ _ _ H) as Hfuel.
  destruct tr as [|tl a ta td trr] eqn:Etr; [destruct S3|].
  rewrite <- Etr in *.
  assert (Hra : root tr = Some a) by now rewrite Etr.
  destruct (Inv_root_nz _ _ _ _ H Hra) as [Er _]. rewrite Er.
  split.
  - rewrite <- Hra. apply Root_rep; auto. unfold fuel_of. lia.
  - destruct (tree_split tr _ S3) as (c & l & v & d & r & Ec).
    rewrite Ec in Hwf, Hrep.
    rewrite (Branch_rep _ _ _ _ _ _ _ Hwf Hrep).
    destruct c as [|f c].
    + cbn [plug] in Ec. rewrite Ec in Hra. injection Hra as ->.
      split; reflexivity.
    + split; [destruct f; discriminate|]. intros Eq. exfalso.
      destruct Hwf as [Hnd _].
      assert (Hroot : root (plug (f :: c) (Node l (s * Nsize) v d r)) = Some a).
      { now rewrite <- Ec. }
      rewrite Eq in *. rewrite root_plug_cbot in Hroot. injection Hroot as Hb.
      rewrite addrs_plug_eq, addrs_Node in Hnd.
      apply nd_app in Hnd. destruct Hnd as (Hs1 & _ & Hnd).
      apply nd_app in Hnd. destruct Hnd as (Hs2 & _ & _).
      destruct (cbot_in f c) as [Hi|Hi]; rewrite Hb in Hi.
      * apply (Hs1 a Hi). apply in_or_app. left. in_tac.
      * apply (Hs2 a); auto. in_tac.
Qed.

(** X19: [Aligned] rounds up to the next multiple of 16 as long as the
    sum stays below [2 ^ 32]; above, the 32-bit mask cuts the sum and the
    result is [0]. *)
Theorem aligned_rounds_up (n : Z) :
  0 <= n < 2 ^ 32 ->
  0 <= Aligned n < 2 ^ 32
  /\ (16 | Aligned n)
  /\ (n + 15 < 2 ^ 32 -> n <= Aligned n < n + 16)
  /\ (2 ^ 32 <= n + 15 -> Aligned n = 0).
Proof.
  intros Hn. split; [apply Aligned_range|]. split; [|split].
  - rewrite Aligned_eq. apply Z.divide_factor_r.
  - intros H. pose proof (Aligned_ge n ltac:(lia) H). lia.
  - intros H. rewrite Aligned_eq. rewrite u64_small by lia.
    unfold u32. replace (n + 15) with ((n + 15 - 2 ^ 32) + 1 * 2 ^ 32) by lia.
    rewrite Z.mod_add by lia. rewrite Z.mod_small by lia.
    rewrite Z.div_small by lia. reflexivity.
Qed.


(** X21: [ToSlot] and the offset that [erase_at] and [at] compute from a
    slot are inverse to each other for the slots and the offsets below
    2 GiB; from there on the offset, a 32-bit [int], is negative. *)
Theorem slot_offset_roundtrip :
  (forall s, 0 <= s -> s * Nsize < 2 ^ 31 -> ToSlot (slot_off s) = s)
  /\ (forall a, 0 <= a < 2 ^ 31 -> (Nsize | a) -> slot_off (ToSlot a) = a)
  /\ (forall s, 2 ^ 31 <= s * Nsize < 2 ^ 32 ->
                slot_off s = s * Nsize - 2 ^ 32).
Proof.
  pose proof HNsize as HN. split_all.
  - intros s H1 H2. rewrite slot_off_small by lia. unfold ToSlot.
    destruct (Z.eqb_spec (s * Nsize) 0) as [E|E]; [nia|].
    rewrite u64_small by nia. rewrite Z.div_mul by lia.
    apply u32_small. nia.
  - intros a Ha (k & Hk). unfold ToSlot.
    destruct (Z.eqb_spec a 0) as [E|E].
    + rewrite E. unfold slot_off. cbn [Z.mul]. reflexivity.
    + rewrite u64_small by lia. rewrite Hk, Z.div_mul by lia.
      assert (0 <= k) by nia.
      rewrite u32_small by nia. apply slot_off_small; nia.
  - intros s Hs. unfold slot_off. rewrite u64_small by lia.
    unfold i32.
    replace (s * Nsize + 2 ^ 31) with ((s * Nsize - 2 ^ 31) + 1 * 2 ^ 32) by lia.
    rewrite Z.mod_add by lia. rewrite Z.mod_small by lia. lia.
Qed.

(** X22: the payload that [at] reads in a slot of the buffer that holds
    no element, the slot [0] or the slot of an erased element or one that
    was never used, is the value of zero bytes. *)
Theorem at_dead_slot (t : _AvlTree) (s : Z) :
  reachable t ->
  0 <= s -> s * Nsize < 2 ^ 31 -> s * Nsize + Nsize <= capacity_ (base t) ->
  ~ live t s -> at_ t s = T0.
Proof.
  intros Hr Hs Hlt Hcap Hnl. destruct (reachable_inv t Hr) as (tr & F & H).
  pose proof HNsize as HN. pose proof (inv_arena _ _ _ H) as HA.
  unfold at_. rewrite slot_off_small by lia.
  destruct (Z.eq_dec s 0) as [->|Hs0].
  - cbn [Z.mul]. pose proof (ar_chain _ _ _ HA) as Hch.
    destruct F; cbn [chain] in Hch; [|destruct Hch as [Hch _]];
      now rewrite Hch.
  - assert (Hni : ~ In (s * Nsize) (addrs tr)).
    { intros Hi. apply Hnl. unfold live. split_all; try lia.
      rewrite slot_off_small by lia. now apply (Inv_live_cell t tr F _ H). }
    destruct (in_dec Z.eq_dec (s * Nsize) F) as [Hi|Hi].
    + destruct (chain_in _ _ _ _ (ar_chain _ _ _ HA) Hi) as [o ->]. reflexivity.
    + rewrite (ar_zero _ _ _ HA); auto. nia.
Qed.
(** ** The report of the checked build, the capacity and the chain *)

Lemma Depth_node t tr F a :
  Inv t tr F -> In a (addrs tr) ->
  exists d,
    Depth (fuel_of (base t)) (buf (base t)) a = Some d
    /\ 0 <= d /\ d < 2 ^ 31
    /\ min_nodes (S (Z.to_nat d)) <= Z.of_nat (length (nodes tr)).
Proof.
  intros H Hi.
  destruct (tree_split tr _ Hi) as (c & l & v & d & r & Etr).
  pose proof (Arena_wf _ _ _ (inv_arena _ _ _ H)) as Hwf.
  pose proof (inv_rep _ _ _ H) as Hrep.
  pose proof (Inv_fuel _ _ _ H) as Hfuel.
  pose proof (ar_lim _ _ _ (inv_arena _ _ _ H)) as Hlim.
  pose proof (ar_len _ _ _ (inv_arena _ _ _ H)) as Hlen.
  rewrite Etr in Hwf, Hrep, Hfuel.
  pose proof (length_plug c (Node l a v d r)) as Hlp.
  cbn [nodes] in Hlp. rewrite length_app in Hlp. cbn [length] in Hlp.
  exists (Z.of_nat (length c)). unfold Depth.
  rewrite (Depth_loop_rep _ c l _ v d r); auto; try lia.
  2:{ unfold fuel_of. lia. }
  pose proof (height_plug_ge c (Node l a v d r)) as Hh.
  cbn [height] in Hh.
  pose proof (height_nonneg l). pose proof (height_nonneg r).
  pose proof (avl_min_nodes tr (inv_avl _ _ _ H)) as Hm.
  rewrite <- Etr in Hh.
  assert (Hmono : min_nodes (S (length c)) <= min_nodes (Z.to_nat (height tr))).
  { apply min_nodes_mono. lia. }
  rewrite Nat2Z.id. split_all; auto; try lia.
Qed.

Lemma tree_has_leaf (s : tree) :
  s <> Leaf -> exists c a v d, s = plug c (Node Leaf a v d Leaf).
Proof.
  induction s as [|l IHl a v d r IHr]; [congruence|]. intros _.
  destruct l as [|l1 b w e l2].
  - destruct r as [|r1 b w e r2].
    + exists [], a, v, d. reflexivity.
    + destruct IHr as (c & a' & v' & d' & E); [discriminate|].
      exists (c ++ [FrR Leaf a v d]), a', v', d'.
      rewrite plug_app. cbn [plug fill]. now rewrite <- E.
  - destruct IHl as (c & a' & v' & d' & E); [discriminate|].
    exists (c ++ [FrL a v d r]), a', v', d'.
    rewrite plug_app. cbn [plug fill]. now rewrite <- E.
Qed.

(** The loop of the report over nodes of the tree. *)
Lemma leaf_stats_spec t tr F : forall ns total lcnt mi ma,
  Inv t tr F ->
  Forall (fun a => In a (addrs tr)) ns ->
  0 <= lcnt <= total -> total + Z.of_nat (length ns) < 2 ^ 32 ->
  (lcnt = 0 \/ (0 <= mi <= ma
                /\ min_nodes (S (Z.to_nat ma)) <= Z.of_nat (length (nodes tr)))) ->
  exists lcnt' mi' ma',
    leaf_stats (fuel_of (base t)) (buf (base t)) ns (total, lcnt, mi, ma)
    = Some (total + Z.of_nat (length ns), lcnt', mi', ma')
    /\ lcnt <= lcnt' <= total + Z.of_nat (length ns)
    /\ (lcnt' = 0 \/ (0 <= mi' <= ma'
                      /\ min_nodes (S (Z.to_nat ma')) <= Z.of_nat (length (nodes tr))))
    /\ ((exists a, In a ns /\ left (buf (base t) a) = 0
                   /\ right (buf (base t) a) = 0) -> 1 <= lcnt').
Proof.
  induction ns as [|n ns IH]; intros total lcnt mi ma H Hall Hc Hb HJ;
    cbn [leaf_stats length] in *.
  - exists lcnt, mi, ma. rewrite Z.add_0_r. split_all; auto; try lia.
    intros (a & [] & _).
  - apply Forall_cons_iff in Hall. destruct Hall as [Hn Hall].
    rewrite Nat2Z.inj_succ in *.
    rewrite (u32_small (total + 1)) by lia.
    destruct (Depth_node t tr F n H Hn) as (De & ED & D0 & D1 & DM).
    destruct ((0 =? left (buf (base t) n)) && (0 =? right (buf (base t) n)))
      eqn:Eleaf.
    + rewrite ED. rewrite (u32_small (lcnt + 1)) by lia.
      destruct (Z.eqb_spec (lcnt + 1) 1) as [E1|E1].
      * destruct (IH (total + 1) (lcnt + 1) De De H Hall
                    ltac:(lia) ltac:(lia)
                    (or_intror (conj (conj D0 (Z.le_refl De)) DM))) as
          (lc & mi' & ma' & E & B & J & _).
        exists lc, mi', ma'. rewrite E. split_all; auto; try lia.
        f_equal. f_equal. f_equal. f_equal. lia.
      * destruct HJ as [HJ|(HJ1 & HJ2)]; [lia|].
        assert (HJ' : lcnt + 1 = 0
                      \/ (0 <= Z.min mi De <= Z.max ma De
                          /\ min_nodes (S (Z.to_nat (Z.max ma De)))
                             <= Z.of_nat (length (nodes tr)))).
        { right. split; [lia|].
          destruct (Z.max_spec ma De) as [[_ ->]|[_ ->]]; auto. }
        destruct (IH (total + 1) (lcnt + 1) (Z.min mi De) (Z.max ma De) H Hall
                    ltac:(lia) ltac:(lia) HJ') as
          (lc & mi' & ma' & E & B & J & _).
        exists lc, mi', ma'. rewrite E. split_all; auto; try lia.
        f_equal. f_equal. f_equal. f_equal. lia.
    + destruct (IH (total + 1) lcnt mi ma H Hall ltac:(lia) ltac:(lia) HJ) as
        (lc & mi' & ma' & E & B & J & L).
      exists lc, mi', ma'. rewrite E. split_all; auto; try lia.
      * f_equal. f_equal. f_equal. f_equal. lia.
      * intros (a & [<-|Ha] & El & Er).
        -- rewrite El, Er in Eleaf. discriminate.
        -- apply L. eauto.
Qed.

(** X24: the report of the checked build counts [size()] nodes; when the
    set is not empty it finds a leaf, its least depth of a leaf is not
    above the greatest, and the greatest is within the bound of an AVL
    tree of this size. *)
Theorem life_check_counts (t : _AvlTree) :
  reachable t ->
  exists total lcnt mi ma,
    LifeCheck t = Some (total, lcnt, mi, ma)
    /\ total = size t
    /\ (size t = 0 -> lcnt = 0 /\ mi = 0 /\ ma = 0)
    /\ (0 < size t ->
          1 <= lcnt <= total /\ 0 <= mi <= ma
          /\ min_nodes (S (Z.to_nat ma)) <= size t).
Proof.
  intros Hr. destruct (reachable_inv t Hr) as (tr & F & H).
  pose proof (Arena_wf _ _ _ (inv_arena _ _ _ H)) as [Hnd Hrg].
  pose proof (inv_cnt _ _ _ H) as Hcnt.
  pose proof (Inv_fuel _ _ _ H) as Hfuel.
  pose proof (ar_lim _ _ _ (inv_arena _ _ _ H)) as Hlim.
  pose proof (ar_len _ _ _ (inv_arena _ _ _ H)) as Hlen.
  unfold LifeCheck, size, Size.
  destruct tr as [|tl a ta td trr] eqn:Etr.
  { rewrite (inv_root _ _ _ H). cbn [root lnk Z.eqb negb].
    exists 0, 0, 0, 0. cbn [nodes length] in Hcnt. rewrite Hcnt.
    split_all; auto; lia. }
  rewrite <- Etr in *.
  assert (Hra : root tr = Some a) by now rewrite Etr.
  destruct (Inv_root_nz _ _ _ _ H Hra) as [Er Hnz].
  assert (Hr0 : (_Root t =? 0) = false).
  { unfold NSafePtr in Hnz. destruct (_Root t =? 0); [discriminate|reflexivity]. }
  rewrite Hr0. cbn [negb]. rewrite Er.
  destruct (Enumerate_rep (buf (base t)) tr None a (fuel_of (base t)))
    as (ns & E & P & _); auto.
  { apply (inv_rep _ _ _ H). }
  { unfold fuel_of. lia. }
  rewrite E.
  assert (Hlen_ns : length ns = length (nodes tr)).
  { rewrite (Permutation_length P). unfold addrs. apply length_map. }
  destruct (leaf_stats_spec t tr F ns 0 0 0 0 H) as (lc & mi & ma & E2 & B & J & L);
    try lia; auto.
  { apply Forall_forall. intros b Hb. eapply Permutation_in; eauto. }
  rewrite E2. rewrite Hlen_ns in *. cbn [Z.add] in *.
  exists (Z.of_nat (length (nodes tr))), lc, mi, ma. rewrite Hcnt.
  split_all; auto.
  - intros E0. exfalso. rewrite Etr in E0. cbn [nodes] in E0.
    rewrite length_app in E0. cbn [length] in E0. lia.
  - intros _.
    assert (Hlc : 1 <= lc).
    { apply L. destruct (tree_has_leaf tr) as (c & b & w & e & Ec).
      { rewrite Etr. discriminate. }
      exists b. pose proof (inv_rep _ _ _ H) as Hrep. rewrite Ec in Hrep.
      rewrite (rep_cell _ _ _ _ _ _ _ Hrep). cbn [left right root lnk].
      split_all; auto.
      eapply Permutation_in; [apply Permutation_sym; exact P|].
      rewrite Ec, addrs_plug_eq, addrs_Node. in_tac. }
    destruct J as [J|J]; [lia|]. split_all; try lia; tauto.
Qed.

Lemma GrowBy_mono g L F need :
  Arena g L F -> 0 <= need -> len_ g + need <= 2 ^ 31 ->
  capacity_ g <= capacity_ (_GrowBy g need)
  /\ len_ (_GrowBy g need) = len_ g.
Proof.
  intros H Hn Hl. pose proof (ar_len _ _ _ H) as Hlen.
  pose proof (ar_cap _ _ _ H) as Hcap.
  destruct (GrowBy_Arena g L F need H Hn Hl) as (_ & H1 & H2).
  split; auto. unfold _GrowBy in *.
  rewrite (u32_small (capacity_ g - len_ g)) in * by lia.
  destruct (Z.ltb_spec (capacity_ g - len_ g) need); [|lia].
  cbn [capacity_] in *. lia.
Qed.

Lemma CreateNode_mono g L F v :
  Arena g L F -> len_ g + Nsize <= 2 ^ 31 ->
  capacity_ g <= capacity_ (snd (_CreateNode g v))
  /\ len_ g <= len_ (snd (_CreateNode g v)).
Proof.
  intros H Hl. pose proof HNsize as HN. pose proof (ar_len _ _ _ H) as Hlen.
  unfold _CreateNode.
  destruct (NSafeRight (buf g) 0); [cbn; lia|].
  destruct (PtrAppend_Arena g L F H Hl) as (_ & _ & E2 & _).
  destruct (GrowBy_mono g L F Nsize H ltac:(lia) Hl) as [M1 _].
  unfold _PtrAppendZeroBytes in *.
  rewrite (u32_small Nsize) by lia. rewrite (u32_small Nsize) in E2 by lia.
  cbn [snd len_ capacity_ with_buf] in *. lia.
Qed.

Lemma sentinel_mono g L F :
  Arena g L F -> len_ g + Nsize <= 2 ^ 31 ->
  capacity_ g <= capacity_ (if len_ g =? 0
                            then snd (_PtrAppendZeroBytes g (u32 Nsize)) else g)
  /\ len_ g <= len_ (if len_ g =? 0
                     then snd (_PtrAppendZeroBytes g (u32 Nsize)) else g).
Proof.
  intros H Hl. pose proof HNsize as HN. pose proof (ar_len _ _ _ H) as Hlen.
  destruct (len_ g =? 0); [|lia].
  destruct (PtrAppend_Arena g L F H Hl) as (_ & _ & E2 & _).
  destruct (GrowBy_mono g L F Nsize H ltac:(lia) Hl) as [M1 _].
  unfold _PtrAppendZeroBytes in *.
  rewrite (u32_small Nsize) by lia. rewrite (u32_small Nsize) in E2 by lia.
  cbn [snd len_ capacity_] in *. lia.
Qed.

Lemma Insert_mono t tr F v r :
  Inv t tr F -> len_ (base t) + 2 * Nsize <= 2 ^ 31 ->
  Insert t v = Some r ->
  capacity_ (base t) <= capacity_ (base (snd r))
  /\ len_ (base t) <= len_ (base (snd r)).
Proof.
  intros H Hl E. pose proof HNsize as HN.
  pose proof (inv_arena _ _ _ H) as HA. pose proof (ar_len _ _ _ HA) as Hlen.
  destruct (ensure_sentinel _ _ _ HA ltac:(lia)) as (HA1 & Hs1 & Hl1 & _ & Hg1).
  destruct (sentinel_mono _ _ _ HA ltac:(lia)) as [G1 G2].
  unfold Insert in E.
  set (g1 := if len_ (base t) =? 0
             then snd (_PtrAppendZeroBytes (base t) (u32 Nsize))
             else base t) in *.
  destruct (CreateNode_mono g1 _ _ v HA1 ltac:(lia)) as [C1 C2].
  destruct (negb (_Root t =? 0)).
  - destruct (_InsertionPointFor _ _ _ v) as [[p d]|]; [|discriminate].
    destruct (Dir.eqb d Dir.None).
    + injection E as <-. cbn [snd base]. lia.
    + destruct (_CreateNode g1 v) as [n g2]. cbn [snd] in *.
      destruct (AddChild _ _ _ n d); [|discriminate].
      injection E as <-. cbn [snd base with_buf capacity_ len_]. lia.
  - destruct (_CreateNode g1 v) as [n g2]. cbn [snd] in *.
    injection E as <-. cbn [snd base]. lia.
Qed.

(** X25: no call but [clear] gives memory back or shortens the arena:
    after a call that fits, the capacity and the length are what they
    were or greater. *)
Theorem arena_never_shrinks (t : _AvlTree) (o : op) (t' : _AvlTree) :
  reachable t -> op_fits t o = true -> exec t o = Some t' -> o <> OClear ->
  capacity_ (base t) <= capacity_ (base t')
  /\ len_ (base t) <= len_ (base t').
Proof.
  intros Hr Hfit E Ho. destruct (reachable_inv t Hr) as (tr & F & H).
  destruct o as [v|v|q|count|]; cbn [exec op_fits] in *.
  - apply Z.leb_le in Hfit. unfold insert in E.
    destruct (Insert t v) as [[[a b] t1]|] eqn:E1; [|discriminate].
    cbn [option_map snd] in E. injection E as <-.
    apply (Insert_mono t tr F v _ H Hfit E1).
  - destruct (Erase_fields _ _ _ E) as [-> ->]. lia.
  - destruct (EraseAt_fields _ _ _ E) as [-> ->]. lia.
  - apply andb_true_iff in Hfit. destruct Hfit as [H1 H2].
    apply Z.leb_le in H1, H2. injection E as <-.
    destruct (reserve_fields t tr F count H H1 H2) as (_ & F2 & F3 & _). lia.
  - congruence.
Qed.

(** X26: the chain of the erased slots is a stack: after [erase_at] of
    two live slots, two insertions of values that the set does not hold
    take the slot erased last and then the slot erased first, and the
    arena is as long as it was. *)
Theorem erased_slots_are_a_stack (t : _AvlTree) (s1 s2 : Z) (v w : T) (l : list T) :
  reachable t -> live t s1 -> live t s2 -> s1 <> s2 ->
  to_list t = Some l ->
  len_ (base t) + 2 * Nsize <= 2 ^ 31 ->
  (forall x, In x l -> ~ equiv x v) -> (forall x, In x l -> ~ equiv x w) ->
  ~ equiv v w ->
  exists t1 t2 t3 t4,
    erase_at t s1 = Some t1 /\ erase_at t1 s2 = Some t2
    /\ insert t2 v = Some (s2, true, t3)
    /\ insert t3 w = Some (s1, true, t4)
    /\ len_ (base t4) = len_ (base t)
    /\ size t4 = size t.
Proof.
  intros Hr HL1 HL2 Hne Hl Hfit Hv Hw Hvw.
  destruct (reachable_inv t Hr) as (tr & F & H). pose proof HNsize as HN.
  rewrite (to_list_inv _ _ _ H) in Hl. injection Hl as <-.
  destruct (live_node _ _ _ _ H HL1) as (A1 & A2 & A3).
  destruct (live_node _ _ _ _ H HL2) as (B1 & B2 & B3).
  unfold erase_at. rewrite A1.
  destruct (EraseAt_spec t tr F (s1 * Nsize) H)
    as [(Hno & _)|(x1 & P1 & Q1 & t1 & tr1 & Hn & E1 & HI1 & Hn1 & HL)].
  { exfalso. apply Hno. eapply in_nodes_addrs; eauto. }
  assert (B3' : In (s2 * Nsize, at_ t s2) (nodes tr1)).
  { rewrite Hn1. apply (in_remove_mid _ (s1 * Nsize, x1)); [now rewrite <- Hn|].
    intros Eq. injection Eq as Eq _. apply Hne. nia. }
  rewrite B1.
  destruct (EraseAt_spec t1 tr1 _ (s2 * Nsize) HI1)
    as [(Hno & _)|(x2 & P2 & Q2 & t2 & tr2 & Hm & E2 & HI2 & Hm1 & HL')].
  { exfalso. apply Hno. eapply in_nodes_addrs; eauto. }
  assert (Hsub : forall x, In x (inorder tr2) -> In x (inorder tr)).
  { intros x Hx. apply in_inorder_nodes in Hx. destruct Hx as (a & Hx).
    apply (in_nodes_inorder tr a). rewrite Hn.
    assert (Hx1 : In (a, x) (nodes tr1)).
    { rewrite Hm. rewrite Hm1 in Hx. apply in_app_or in Hx. apply in_or_app.
      destruct Hx; [left|right; right]; auto. }
    rewrite Hn1 in Hx1. apply in_app_or in Hx1. apply in_or_app.
    destruct Hx1; [left|right; right]; auto. }
  destruct (insert_new t2 tr2 _ v HI2) as (n3 & t3 & tr3 & F3 & E3 & HI3 & P3 & HF3 & L3).
  { lia. }
  { intros x Hx. apply Hv. auto. }
  destruct HF3 as [HF3|(HF3 & _)]; [|discriminate].
  injection HF3 as <- <-. rewrite B2 in E3.
  destruct (Insert t2 v) as [r3|] eqn:I3; [|unfold insert in E3; rewrite I3 in E3; discriminate].
  destruct (Insert_reuse t2 tr2 _ _ v r3 HI2 I3) as [R1 R2].
  assert (Er3 : snd r3 = t3).
  { unfold insert in E3. rewrite I3 in E3. destruct r3 as [[a b] t']. now injection E3. }
  rewrite Er3 in R1, R2.
  destruct (insert_new t3 tr3 _ w HI3) as (n4 & t4 & tr4 & F4 & E4 & HI4 & P4 & HF4 & L4).
  { lia. }
  { intros x Hx. destruct (perm_inorder _ _ _ _ _ P3 Hx) as [->|Hx']; auto. }
  destruct HF4 as [HF4|(HF4 & _)]; [|discriminate].
  injection HF4 as <- <-. rewrite A2 in E4.
  destruct (Insert t3 w) as [r4|] eqn:I4; [|unfold insert in E4; rewrite I4 in E4; discriminate].
  destruct (Insert_reuse t3 tr3 _ _ w r4 HI3 I4) as [R3 R4].
  assert (Er4 : snd r4 = t4).
  { unfold insert in E4. rewrite I4 in E4. destruct r4 as [[a b] t']. now injection E4. }
  rewrite Er4 in R3, R4.
  exists t1, t2, t3, t4. rewrite E1, E2. split_all; auto.
  - lia.
  - unfold size, Size.
    rewrite (inv_cnt _ _ _ H), (inv_cnt _ _ _ HI4).
    rewrite <- (Permutation_length P4). cbn [length].
    rewrite <- (Permutation_length P3). cbn [length].
    rewrite Hn, Hm1. rewrite Hn1 in Hm.
    apply (f_equal (@length _)) in Hm. rewrite !length_app in *.
    cbn [length] in *. lia.
Qed.
(** ** The step of the iterator and the place of a value *)

(** X27: [++it] at the node of the [i]-th element of the iteration gives
    the node of the next element, and [end()] at the last one; [++] of
    [end()] is [end()]. *)
Theorem iterator_increment (t : _AvlTree) (s : Z) (l : list T) :
  reachable t -> live t s -> to_list t = Some l ->
  it_next t None = Some None
  /\ exists i it',
       nth_error l i = Some (it_deref t (slot_off s))
       /\ it_next t (Some (slot_off s)) = Some it'
       /\ match it' with
          | Some b => nth_error l (S i) = Some (it_deref t b)
                      /\ IsEmpty (buf (base t)) b = false
          | None => length l = S i
          end.
Proof.
  intros Hr HL Hl. destruct (reachable_inv t Hr) as (tr & F & H).
  rewrite (to_list_inv _ _ _ H) in Hl. injection Hl as <-.
  split; [reflexivity|].
  destruct (live_node _ _ _ _ H HL) as (S1 & S2 & S3). rewrite S1.
  pose proof (Arena_wf _ _ _ (inv_arena _ _ _ H)) as Hwf.
  pose proof (inv_rep _ _ _ H) as Hrep.
  pose proof (Inv_fuel _ _ _ H) as Hfuel.
  destruct (in_split _ _ S3) as (A & B & Hn).
  destruct (node_split tr A _ _ B Hwf Hn) as (c & lt' & d & r & Etr & EA & EB).
  assert (Ev : it_deref t (s * Nsize) = at_ t s).
  { unfold it_deref, at_. now rewrite S1. }
  exists (length A), (hd_addr B). split_all.
  - unfold inorder. rewrite Hn, map_app. cbn [map snd].
    rewrite nth_error_app2 by (rewrite length_map; lia).
    rewrite length_map, Nat.sub_diag. cbn [nth_error]. now rewrite Ev.
  - unfold it_next. rewrite Etr in Hrep, Hwf, Hfuel.
    rewrite (InorderNextOf_rep (buf (base t)) c lt' (s * Nsize) (at_ t s) d r
               (fuel_of (base t))); auto.
    + now rewrite EB.
    + unfold fuel_of. lia.
  - destruct B as [|[b w] B']; cbn [hd_addr].
    + unfold inorder. rewrite Hn, length_map, length_app. cbn [length]. lia.
    + assert (Hb : In (b, w) (nodes tr)).
      { rewrite Hn. apply in_or_app. right. right. now left. }
      split.
      * unfold inorder. rewrite Hn, map_app. cbn [map snd].
        rewrite nth_error_app2 by (rewrite length_map; lia).
        rewrite length_map.
        replace (S (length A) - length A)%nat with 1%nat by lia.
        cbn [nth_error]. f_equal. unfold it_deref. symmetry.
        eapply rep_payload; [apply (inv_rep _ _ _ H)|exact Hb].
      * apply (Inv_live_cell t tr F b H). eapply in_nodes_addrs; eauto.
Qed.

Lemma find_path_len v : forall s c,
  (length c <= length (fst (find_path s v c)))%nat.
Proof.
  induction s as [|l IHl a w d r IHr]; intros c; cbn [find_path fst]; [lia|].
  destruct (less w v).
  - specialize (IHr (FrR l a w d :: c)). cbn [length] in IHr. lia.
  - destruct (less v w); cbn [fst]; [|lia].
    specialize (IHl (FrL a w d r :: c)). cbn [length] in IHl. lia.
Qed.

Lemma path_split v s c :
  snd (find_path s v c) = Leaf ->
  fst (find_path s v c) <> [] \/ (s = Leaf /\ c = []).
Proof.
  intros E. destruct s as [|l a w d r].
  - cbn [find_path fst]. destruct c; [right; auto|left; discriminate].
  - left. cbn [find_path] in *. destruct (less w v).
    + pose proof (find_path_len v r (FrR l a w d :: c)) as Hl.
      intros E0. rewrite E0 in Hl. cbn [length] in Hl. lia.
    + destruct (less v w); [|discriminate].
      pose proof (find_path_len v l (FrL a w d r :: c)) as Hl.
      intros E0. rewrite E0 in Hl. cbn [length] in Hl. lia.
Qed.

(** X28: in a set that is not empty, [_InsertionPointFor] from the root
    returns a live node next to the place of [v] in the order: with
    [Dir::None] the node of the element equivalent to [v]; with
    [Dir::Left] the least element greater than [v], which has no left
    child; with [Dir::Right] the greatest element less than [v], which
    has no right child. *)
Theorem insertion_point_is_neighbour (t : _AvlTree) (v : T) (l : list T) :
  reachable t -> to_list t = Some l -> _Root t <> 0 ->
  exists n d l1 l2,
    _InsertionPointFor (fuel_of (base t)) (buf (base t)) (_Root t) v
    = Some (n, d)
    /\ IsEmpty (buf (base t)) n = false
    /\ l = l1 ++ payload (buf (base t) n) :: l2
    /\ Forall (fun x => lt x v) l1 /\ Forall (lt v) l2
    /\ match d with
       | Dir.None => equiv (payload (buf (base t) n)) v
       | Dir.Left => lt v (payload (buf (base t) n))
                     /\ left (buf (base t) n) = 0
       | Dir.Right => lt (payload (buf (base t) n)) v
                      /\ right (buf (base t) n) = 0
       | Dir.Zero => False
       end.
Proof.
  intros Hr Hl Hroot. destruct (reachable_inv t Hr) as (tr & F & H).
  rewrite (to_list_inv _ _ _ H) in Hl. injection Hl as <-.
  pose proof (inv_sorted _ _ _ H) as Hsort.
  destruct (find_path tr v []) as [c s] eqn:Hfp.
  pose proof (find_path_between v tr [] Hsort (between_nil v)) as [Hbt Hs].
  pose proof (find_path_plug tr v []) as Hplug.
  pose proof (path_split v tr []) as Hps.
  rewrite Hfp in *. cbn [fst snd] in *.
  change (plug [] tr) with tr in Hplug.
  pose proof (Inv_fuel _ _ _ H) as Hfuel.
  pose proof (Arena_wf _ _ _ (inv_arena _ _ _ H)) as Hwf.
  pose proof (inv_rep _ _ _ H) as Hrep.
  destruct tr as [|tl a ta td trr] eqn:Etr.
  { exfalso. apply Hroot. now rewrite (inv_root _ _ _ H). }
  rewrite <- Etr in *.
  assert (Hra : root tr = Some a) by now rewrite Etr.
  destruct (Inv_root_nz _ _ _ _ H Hra) as [Er _]. rewrite Er.
  rewrite (InsertionPointFor_rep (buf (base t)) v tr [] a); auto;
    [|unfold fuel_of; lia].
  rewrite Hfp. unfold path_result. cbn [snd fst].
  rewrite <- Hplug in Hrep, Hwf.
  destruct s as [|sl b w d sr].
  - destruct Hps as [Hne|[Hl _]]; [reflexivity| |rewrite Etr in Hl; discriminate].
    destruct c as [|f c]; [congruence|].
    destruct Hbt as [Hb1 Hb2].
    destruct f as [p vp dp sib|sib p vp dp]; cbn [faddr fside plug fill] in *.
    + pose proof (rep_cell _ _ _ _ _ _ _ Hrep) as Hp.
      cbn [cnodes_l cnodes_r fnodes_l fnodes_r app] in Hb1, Hb2.
      rewrite app_nil_r in Hb1.
      exists p, Dir.Left, (map snd (cnodes_l c)), (map snd (nodes sib ++ cnodes_r c)).
      rewrite Hp. cbn [payload left root lnk].
      apply Forall_cons_iff in Hb2. destruct Hb2 as [Hvp Hb2].
      split_all; auto.
      * apply (Inv_live_cell t _ F p H). rewrite <- Hplug, addrs_plug_eq, addrs_Node.
        rewrite !in_app_iff. cbn [In]. tauto.
      * unfold inorder. rewrite <- Hplug, nodes_plug. cbn [nodes app].
        rewrite ?map_app; cbn [map snd app]; rewrite ?map_app, <- ?app_assoc;
        cbn [map snd app]; reflexivity.
      * now apply (Forall_map_snd (fun y => lt y v)).
      * now apply (Forall_map_snd (lt v)).
    + pose proof (rep_cell _ _ _ _ _ _ _ Hrep) as Hp.
      cbn [cnodes_l cnodes_r fnodes_l fnodes_r app] in Hb1, Hb2.
      exists p, Dir.Right, (map snd (cnodes_l c ++ nodes sib)), (map snd (cnodes_r c)).
      rewrite Hp. cbn [payload right root lnk].
      rewrite app_assoc in Hb1.
      apply Forall_app in Hb1. destruct Hb1 as [Hb1 Hvp].
      apply Forall_cons_iff in Hvp. destruct Hvp as [Hvp _].
      split_all; auto.
      * apply (Inv_live_cell t _ F p H). rewrite <- Hplug, addrs_plug_eq, addrs_Node.
        rewrite !in_app_iff. cbn [In]. tauto.
      * unfold inorder. rewrite <- Hplug, nodes_plug. cbn [nodes app].
        rewrite ?map_app; cbn [map snd app]; rewrite ?map_app, <- ?app_assoc;
        cbn [map snd app]; reflexivity.
      * now apply (Forall_map_snd (fun y => lt y v)).
      * now apply (Forall_map_snd (lt v)).
  - pose proof (rep_cell _ _ _ _ _ _ _ Hrep) as Hp.
    rewrite <- Hplug in Hsort.
    destruct (found_split v c sl b w d sr Hsort Hbt Hs) as [HA HB].
    exists b, Dir.None, (map snd (cnodes_l c ++ nodes sl)),
           (map snd (nodes sr ++ cnodes_r c)).
    rewrite Hp. cbn [payload]. split_all; auto.
    + apply (Inv_live_cell t _ F b H). rewrite <- Hplug, addrs_plug_eq, addrs_Node.
      rewrite !in_app_iff. cbn [In]. tauto.
    + unfold inorder. rewrite <- Hplug, nodes_plug. cbn [nodes].
      rewrite ?map_app; cbn [map snd app]; rewrite ?map_app, <- ?app_assoc;
        cbn [map snd app]; reflexivity.
Qed.

End Sound.

End Model.
(** * [set<int>]: the theorems on a set of integers

    The payload is a 32-bit integer, the comparator is [std::less<int>] and
    a node takes 20 bytes: the payload, three offsets and the tilt. *)

Arguments Leaf {T}.
Arguments Node {T}.
Arguments OInsert {T}.
Arguments OErase {T}.
Arguments OEraseAt {T}.
Arguments OReserve {T}.
Arguments OClear {T}.

(** The state after the calls [ops], the empty container when one fails. *)
Definition int_state (ops : list (op Z)) : _AvlTree Z :=
  match run Z 0 Z.ltb 20 (AvlTree0 Z) ops with
  | Some t => t
  | None => AvlTree0 Z
  end.

Definition int_slots : list (op Z) -> list (Z * bool) :=
  slots Z 0 Z.ltb 20 (AvlTree0 Z).

(** [2], [1] and [3] go into the slots 1, 2 and 3: the root [2] at offset 20
    is balanced, with [1] at offset 40 on the left and [3] at offset 60 on
    the right. *)
Definition ops213 : list (op Z) := [OInsert 2; OInsert 1; OInsert 3].

(** Its arena: 80 bytes of the 1024 are in use. *)
Definition arena213 : _Growable Z := base Z (int_state ops213).

Definition mem213 : mem Z := buf Z 0 arena213.

Definition tree213 : tree Z :=
  Node (Node Leaf 40 1 Dir.None Leaf) 20 2 Dir.None (Node Leaf 60 3 Dir.None Leaf).

(** A sequence with every kind of call. *)
Definition ops_mixed : list (op Z) :=
  [OReserve 4; OInsert 4; OInsert 2; OInsert 5; OInsert 1; OInsert 3;
   OErase 5; OEraseAt 1; OInsert 9; OErase 7].

(** The memory in the retrace after the erasure of the right child of the
    node at 20: the node is too deep on the left and its left child at 40
    is balanced. *)
Definition mem_ll : mem Z :=
  wr Z (wr Z (wr Z (wr Z (fun _ => zero_node Z 0)
    20 (mkNode Z 4 0 20 0 Dir.Left))
    40 (mkNode Z 2 (-20) 20 40 Dir.None))
    60 (mkNode Z 1 (-20) 0 0 Dir.None))
    80 (mkNode Z 3 (-40) 0 0 Dir.None).

Definition tree_ll : tree Z :=
  Node (Node (Node Leaf 60 1 Dir.None Leaf) 40 2 Dir.None
          (Node Leaf 80 3 Dir.None Leaf)) 20 4 Dir.Left Leaf.

Lemma int_less_swo : strict_weak_order Z Z.ltb.
Proof.
  unfold strict_weak_order, equiv. split; [|split].
  - intros x. apply Z.ltb_irrefl.
  - intros x y z H1 H2. apply Z.ltb_lt in H1, H2. apply Z.ltb_lt. lia.
  - intros x y z [H1 H2] [H3 H4]. apply Z.ltb_ge in H1, H2, H3, H4.
    split; apply Z.ltb_ge; lia.
Qed.

Lemma int_state_run ops :
  fits Z 0 Z.ltb 20 (AvlTree0 Z) ops = true ->
  run Z 0 Z.ltb 20 (AvlTree0 Z) ops = Some (int_state ops).
Proof.
  intros Hf. unfold int_state.
  destruct (reach_inv Z 0 Z.ltb 20 int_less_swo eq_refl ops Hf) as (t & _ & _ & E & _).
  now rewrite E.
Qed.

Lemma not_equiv_int (x y : Z) : x <> y -> ~ equiv Z Z.ltb x y.
Proof.
  intros Hn [H1 H2]. apply Z.ltb_ge in H1, H2. lia.
Qed.

(** ** The scenarios of the specification, computed *)

(** Duplicate insertion: [42] twice. *)
Lemma scenario_duplicate :
  int_slots [OInsert 42; OInsert 42] = [(1, true); (1, false)]
  /\ size Z (int_state [OInsert 42; OInsert 42]) = 1.
Proof. split; vm_compute; reflexivity. Qed.

(** Slot stability: [10], [20], [30], then [20] is erased and [25] goes
    into its slot. *)
Lemma scenario_slot_stability :
  int_slots [OInsert 10; OInsert 20; OInsert 30; OErase 20; OInsert 25]
  = [(1, true); (2, true); (3, true); (2, true)]
  /\ at_ Z 0 20
       (int_state [OInsert 10; OInsert 20; OInsert 30; OErase 20; OInsert 25]) 1 = 10
  /\ at_ Z 0 20
       (int_state [OInsert 10; OInsert 20; OInsert 30; OErase 20; OInsert 25]) 3 = 30.
Proof. repeat split; vm_compute; reflexivity. Qed.

(** Seven values in increasing order: the iteration gives them back. *)
Lemma scenario_ascending :
  to_list Z 0 (int_state (map OInsert [1; 2; 3; 4; 5; 6; 7]))
  = Some [1; 2; 3; 4; 5; 6; 7].
Proof. vm_compute. reflexivity. Qed.

(** ** The theorems at concrete inputs *)

Lemma iteration_matches_reference_witness :
  exists t,
    run Z 0 Z.ltb 20 (AvlTree0 Z)
      [OInsert 5; OInsert 3; OInsert 8; OErase 5; OInsert 3; OInsert 1] = Some t
    /\ to_list Z 0 t = Some [1; 3; 8]
    /\ sorted Z Z.ltb [1; 3; 8].
Proof.
  assert (H1 : forallb (is_ins_ers Z)
                 [OInsert 5; OInsert 3; OInsert 8; OErase 5; OInsert 3; OInsert 1]
               = true) by reflexivity.
  assert (H2 : (Z.of_nat (length
                 [OInsert 5; OInsert 3; OInsert 8; OErase 5; OInsert 3;
                  @OInsert Z 1]) + 2) * 20 <= 2 ^ 31)
    by (vm_compute; discriminate).
  exact (iteration_matches_reference Z 0 Z.ltb 20 int_less_swo eq_refl _ H1 H2).
Defined.

Lemma balance_after_operations_witness :
  exists t,
    run Z 0 Z.ltb 20 (AvlTree0 Z) ops_mixed = Some t
    /\ forall n, IsEmpty Z (buf Z 0 (base Z t)) n = false -> balanced_at Z 0 t n.
Proof.
  assert (Hf : fits Z 0 Z.ltb 20 (AvlTree0 Z) ops_mixed = true)
    by (vm_compute; reflexivity).
  exact (balance_after_operations Z 0 Z.ltb 20 int_less_swo eq_refl ops_mixed Hf).
Defined.

Lemma wf_tree213 : wf Z tree213.
Proof.
  split.
  - repeat constructor; simpl; intuition discriminate.
  - repeat constructor; vm_compute; intuition discriminate.
Qed.

Lemma rep_tree213 : rep Z mem213 None tree213.
Proof. repeat split; vm_compute; reflexivity. Qed.

Lemma erase_swap_partner_witness :
  exists cm lo o vo do,
    Node Leaf 40 1 Dir.None Leaf = plug Z cm (Node lo o vo do Leaf)
    /\ all_right Z cm
    /\ erase_swap Z 3 mem213 20 = Some (_SwapWith Z mem213 20 o)
    /\ rep Z (_SwapWith Z mem213 20 o) None
         (Node (plug Z cm (Node lo 20 2 do Leaf)) o vo Dir.None
            (Node Leaf 60 3 Dir.None Leaf)).
Proof.
  assert (Hl : (length (nodes Z (plug Z [] tree213)) <= 3)%nat)
    by (simpl; lia).
  exact (erase_swap_partner Z 0 Z.ltb mem213 []
           Leaf 40 1 Dir.None Leaf 20 2 Dir.None Leaf 60 3 Dir.None Leaf 3%nat
           wf_tree213 rep_tree213 Hl).
Defined.

(** The root [2] is balanced and has two children; [erase_swap] puts the
    node at 40, the predecessor [1], in its place, and not the node at 60,
    the successor [3]. *)
Lemma erase_swap_balanced_predecessor :
  rep Z mem213 None tree213
  /\ tilt Z (mem213 20) = Dir.None
  /\ erase_swap Z 3 mem213 20 = Some (_SwapWith Z mem213 20 40)
  /\ rep Z (_SwapWith Z mem213 20 40) None
       (Node (Node Leaf 20 2 Dir.None Leaf) 40 1 Dir.None
          (Node Leaf 60 3 Dir.None Leaf))
  /\ erase_swap Z 3 mem213 20 <> Some (_SwapWith Z mem213 20 60).
Proof.
  split; [exact rep_tree213|]. split; [vm_compute; reflexivity|].
  split; [vm_compute; reflexivity|].
  split; [repeat split; vm_compute; reflexivity|].
  intros E. apply (f_equal (fun o => match o with
                                     | Some m => parent Z (m 60)
                                     | None => 0
                                     end)) in E.
  vm_compute in E. discriminate.
Qed.

Lemma slot_reuse_lifo_witness :
  (exists s b t1 t2 t3 s' t4,
     insert Z 0 Z.ltb 20 (int_state ops213) 7 = Some (s, b, t1)
     /\ erase Z 0 Z.ltb t1 7 = Some t2
     /\ run Z 0 Z.ltb 20 t2 (map OInsert [2; 9]) = Some t3
     /\ insert Z 0 Z.ltb 20 t3 7 = Some (s', true, t4)
     /\ (s' = s <-> size Z t3 = size Z t2)
     /\ ([2; 9] = [] -> s' = s))
  /\ (exists s1 s2 s3 t1 t2 t3 t4 t5,
        insert Z 0 Z.ltb 20 (AvlTree0 Z) 10 = Some (s1, true, t1)
        /\ insert Z 0 Z.ltb 20 t1 20 = Some (s2, true, t2)
        /\ insert Z 0 Z.ltb 20 t2 30 = Some (s3, true, t3)
        /\ erase Z 0 Z.ltb t3 20 = Some t4
        /\ insert Z 0 Z.ltb 20 t4 25 = Some (s2, true, t5)
        /\ at_ Z 0 20 t5 s1 = 10 /\ at_ Z 0 20 t5 s3 = 30).
Proof.
  assert (Hf : fits Z 0 Z.ltb 20 (AvlTree0 Z) ops213 = true)
    by (vm_compute; reflexivity).
  assert (Hf' : fits Z 0 Z.ltb 20 (int_state ops213)
                  (OInsert 7 :: OErase 7 :: map OInsert [2; 9] ++ [OInsert 7])
                = true) by (vm_compute; reflexivity).
  assert (Hws : forall w, In w [2; 9] -> ~ equiv Z Z.ltb w 7).
  { intros w [<-|[<-|[]]]; apply not_equiv_int; lia. }
  assert (Hb : 6 * 20 <= 2 ^ 31) by (vm_compute; discriminate).
  split.
  - exact (proj1 (slot_reuse_lifo Z 0 Z.ltb 20 int_less_swo eq_refl)
             ops213 (int_state ops213) 7 [2; 9]
             Hf (int_state_run ops213 Hf) Hf' Hws).
  - refine (proj2 (slot_reuse_lifo Z 0 Z.ltb 20 int_less_swo eq_refl)
              10 20 30 25 Hb _ _ _ _ _); apply not_equiv_int; lia.
Defined.

(** The slot goes to another value when an erasure comes between, with no
    insertion: [20] comes back in the slot of [10].  And it is the same
    slot with an insertion in between, when this one adds nothing. *)
Lemma slot_reuse_iff_fails :
  int_slots [OInsert 10; OInsert 20; OErase 20; OErase 10; OInsert 20]
  = [(1, true); (2, true); (1, true)]
  /\ int_slots [OInsert 10; OInsert 20; OErase 20; OInsert 10; OInsert 20]
     = [(1, true); (2, true); (1, false); (2, true)].
Proof. split; vm_compute; reflexivity. Qed.

Lemma wf_tree_ll : wf Z tree_ll.
Proof.
  split.
  - repeat constructor; simpl; intuition discriminate.
  - repeat constructor; vm_compute; intuition discriminate.
Qed.

Lemma rep_tree_ll : rep Z mem_ll None tree_ll.
Proof. repeat split; vm_compute; reflexivity. Qed.

Lemma rotate_erase_balanced_child_witness :
  fst (_Rotate_Erase Z mem_ll 20) = None
  /\ rep Z (snd (_Rotate_Erase Z mem_ll 20)) None
       (Node (Node Leaf 60 1 Dir.None Leaf) 40 2 Dir.Right
          (Node (Node Leaf 80 3 Dir.None Leaf) 20 4 Dir.Left Leaf))
  /\ Retrace_Erase Z 1 mem_ll (Some 20) Dir.Right
     = Some (snd (_Rotate_Erase Z mem_ll 20)).
Proof.
  exact (proj1 (rotate_erase_balanced_child Z 0 Z.ltb mem_ll [])
           Leaf 60 1 Dir.None Leaf 40 2 (Node Leaf 80 3 Dir.None Leaf)
           20 4 Leaf 0%nat wf_tree_ll rep_tree_ll).
Defined.


Lemma erase_noop_witness :
  (forall v l, to_list Z 0 (int_state ops_mixed) = Some l ->
               (forall w, In w l -> ~ equiv Z Z.ltb w v) ->
               erase Z 0 Z.ltb (int_state ops_mixed) v = Some (int_state ops_mixed))
  /\ erase_at Z 0 20 (int_state ops_mixed) 0 = Some (int_state ops_mixed)
  /\ (forall pos,
        IsEmpty Z (buf Z 0 (base Z (int_state ops_mixed))) (slot_off 20 pos) = true ->
        erase_at Z 0 20 (int_state ops_mixed) pos = Some (int_state ops_mixed))
  /\ (forall pos t',
        erase_at Z 0 20 (int_state ops_mixed) pos = Some t' ->
        erase_at Z 0 20 t' pos = Some t').
Proof.
  assert (Hf : fits Z 0 Z.ltb 20 (AvlTree0 Z) ops_mixed = true)
    by (vm_compute; reflexivity).
  exact (erase_noop Z 0 Z.ltb 20 int_less_swo eq_refl ops_mixed
           (int_state ops_mixed) Hf (int_state_run ops_mixed Hf)).
Defined.

Lemma grow_by_policy_witness :
  (len_ Z arena213 + 3000000000 > capacity_ Z arena213 ->
   grow_policy (capacity_ Z arena213) (len_ Z arena213) 3000000000 < 2 ^ 32 ->
     capacity_ Z (_GrowBy Z 0 arena213 3000000000)
     = grow_policy (capacity_ Z arena213) (len_ Z arena213) 3000000000
     /\ MIN_GROW_BY = 1024 /\ Ta = 16
     /\ len_ Z (_GrowBy Z 0 arena213 3000000000) = len_ Z arena213
     /\ (forall a, 0 <= a < len_ Z arena213 ->
           buf Z 0 (_GrowBy Z 0 arena213 3000000000) a = buf Z 0 arena213 a)
     /\ (forall a, len_ Z arena213 <= a ->
           buf Z 0 (_GrowBy Z 0 arena213 3000000000) a = zero_node Z 0))
  /\ (len_ Z arena213 + 3000000000 <= capacity_ Z arena213 ->
        _GrowBy Z 0 arena213 3000000000 = arena213).
Proof.
  assert (H1 : 0 <= len_ Z arena213 <= capacity_ Z arena213)
    by (vm_compute; split; discriminate).
  assert (H2 : capacity_ Z arena213 < 2 ^ 32) by (vm_compute; reflexivity).
  assert (H3 : 0 <= 3000000000 < 2 ^ 32)
    by (split; vm_compute; [discriminate|reflexivity]).
  exact (grow_by_policy Z 0 arena213 3000000000 H1 H2 H3).
Defined.

(** The arena of 80 bytes in 1024 is asked for [2 ^ 32 - 1] bytes more: the
    free capacity does not suffice, the formula gives 4294967376, the sum is
    cut to 32 bits and the capacity that [_GrowBy] allocates is 80.  And the
    empty arena that is asked for 4294967284 bytes, as by
    [reserve(429496728)] on an empty [set<int>], gets the capacity 0 where
    the formula gives [2 ^ 32]. *)
Lemma grow_by_formula_fails :
  len_ Z arena213 + 4294967295 > capacity_ Z arena213
  /\ grow_policy (capacity_ Z arena213) (len_ Z arena213) 4294967295 = 4294967376
  /\ capacity_ Z (_GrowBy Z 0 arena213 4294967295) = 80
  /\ capacity_ Z (_GrowBy Z 0 arena213 4294967295)
     <> grow_policy (capacity_ Z arena213) (len_ Z arena213) 4294967295
  /\ len_ Z (Growable0 Z) + 4294967284 > capacity_ Z (Growable0 Z)
  /\ grow_policy (capacity_ Z (Growable0 Z)) (len_ Z (Growable0 Z)) 4294967284
     = 4294967296
  /\ capacity_ Z (_GrowBy Z 0 (Growable0 Z) 4294967284) = 0
  /\ base Z (reserve Z 0 20 (AvlTree0 Z) 429496728)
     = _GrowBy Z 0 (Growable0 Z) 4294967284.
Proof.
  split; [vm_compute; reflexivity|].
  split; [vm_compute; reflexivity|].
  split; [vm_compute; reflexivity|].
  split; [vm_compute; discriminate|].
  split; [vm_compute; reflexivity|].
  split; [vm_compute; reflexivity|].
  split; vm_compute; reflexivity.
Qed.

Lemma copy_is_identical_witness :
  _Root Z (set_copy Z 0 (int_state ops_mixed)) = _Root Z (int_state ops_mixed)
  /\ _Cnt Z (set_copy Z 0 (int_state ops_mixed)) = _Cnt Z (int_state ops_mixed)
  /\ len_ Z (base Z (set_copy Z 0 (int_state ops_mixed)))
     = len_ Z (base Z (int_state ops_mixed))
  /\ capacity_ Z (base Z (set_copy Z 0 (int_state ops_mixed)))
     = capacity_ Z (base Z (int_state ops_mixed))
  /\ (forall a, buf Z 0 (base Z (set_copy Z 0 (int_state ops_mixed))) a
                = buf Z 0 (base Z (int_state ops_mixed)) a)
  /\ to_list Z 0 (set_copy Z 0 (int_state ops_mixed))
     = to_list Z 0 (int_state ops_mixed)
  /\ (forall pos, at_ Z 0 20 (set_copy Z 0 (int_state ops_mixed)) pos
                  = at_ Z 0 20 (int_state ops_mixed) pos).
Proof.
  assert (Hf : fits Z 0 Z.ltb 20 (AvlTree0 Z) ops_mixed = true)
    by (vm_compute; reflexivity).
  exact (copy_is_identical Z 0 Z.ltb 20 int_less_swo eq_refl ops_mixed
           (int_state ops_mixed) Hf (int_state_run ops_mixed Hf)).
Defined.

Lemma clear_releases_arena_witness :
  exists t',
    clear Z 0 (int_state ops_mixed) = Some t'
    /\ size Z t' = 0 /\ begin_ Z 0 t' = Some end_
    /\ ptr_ Z (base Z t') = None /\ len_ Z (base Z t') = 0
    /\ capacity_ Z (base Z t') = 0
    /\ (forall v, 2 * 20 <= 2 ^ 31 ->
          exists t'',
            insert Z 0 Z.ltb 20 t' v = Some (1, true, t'')
            /\ len_ Z (base Z t'') = 2 * 20
            /\ len_ Z (base Z t'') <= capacity_ Z (base Z t'')
            /\ IsEmpty Z (buf Z 0 (base Z t'')) 0 = true
            /\ at_ Z 0 20 t'' 1 = v
            /\ to_list Z 0 t'' = Some [v]).
Proof.
  assert (Hf : fits Z 0 Z.ltb 20 (AvlTree0 Z) ops_mixed = true)
    by (vm_compute; reflexivity).
  exact (clear_releases_arena Z 0 Z.ltb 20 int_less_swo eq_refl ops_mixed
           (int_state ops_mixed) Hf (int_state_run ops_mixed Hf)).
Defined.

(** ** More inputs for the theorems *)

Arguments FrL {T}.
Arguments FrR {T}.

Definition set213 : _AvlTree Z := int_state ops213.

(** [7] after [2], [1] and [3]: it goes into the slot 4. *)
Definition set2137 : _AvlTree Z := int_state (ops213 ++ [OInsert 7]).

(** The slot 2 after [erase_at(2)]: the cell is on the chain of the free
    cells. *)
Definition set213_less2 : _AvlTree Z := int_state (ops213 ++ [OEraseAt 2]).

Definition set_mixed : _AvlTree Z := int_state ops_mixed.

(** The cell at 80 holds a new node for [4], not linked yet. *)
Definition mem213_new : mem Z := wr Z mem213 80 (mkNode Z 4 0 0 0 Dir.None).

(** The memory in the retrace after the insertion of [1] under [2] under
    [3]: the node at 20 leans to the left already and its left child at 40
    has just grown on the left. *)
Definition mem_grow : mem Z :=
  wr Z (wr Z (wr Z (fun _ => zero_node Z 0)
    20 (mkNode Z 3 0 20 0 Dir.Left))
    40 (mkNode Z 2 (-20) 20 0 Dir.Left))
    60 (mkNode Z 1 (-20) 0 0 Dir.None).

Definition tree_grow : tree Z :=
  Node (Node (Node Leaf 60 1 Dir.None Leaf) 40 2 Dir.Left Leaf) 20 3 Dir.Left Leaf.


Lemma reachable_int ops :
  fits Z 0 Z.ltb 20 (AvlTree0 Z) ops = true ->
  reachable Z 0 Z.ltb 20 (int_state ops).
Proof.
  intros Hf. exists ops. split; [exact Hf|]. now apply int_state_run.
Qed.

Lemma reachable_set213 : reachable Z 0 Z.ltb 20 set213.
Proof. apply reachable_int. vm_compute. reflexivity. Qed.

Lemma reachable_set_mixed : reachable Z 0 Z.ltb 20 set_mixed.
Proof. apply reachable_int. vm_compute. reflexivity. Qed.

Lemma reachable_set213_less2 : reachable Z 0 Z.ltb 20 set213_less2.
Proof. apply reachable_int. vm_compute. reflexivity. Qed.

Lemma to_list_set213 : to_list Z 0 set213 = Some [1; 2; 3].
Proof. vm_compute. reflexivity. Qed.

Lemma live_set213 s : In s [1; 2; 3] -> live Z 0 20 set213 s.
Proof.
  intros [<-|[<-|[<-|[]]]]; repeat split; vm_compute; reflexivity.
Qed.

Lemma none_equiv_set213 v :
  ~ In v [1; 2; 3] -> forall x, In x [1; 2; 3] -> ~ equiv Z Z.ltb x v.
Proof.
  intros Hn x Hx. apply not_equiv_int. intros ->. now apply Hn.
Qed.

Lemma avl_tree213 : avl Z tree213.
Proof. repeat split. Qed.

Lemma rep_tree213_new : rep Z mem213_new None tree213.
Proof. repeat split; vm_compute; reflexivity. Qed.

Lemma wf_tree_grow : wf Z tree_grow.
Proof.
  split.
  - repeat constructor; simpl; intuition discriminate.
  - repeat constructor; vm_compute; intuition discriminate.
Qed.

Lemma rep_tree_grow : rep Z mem_grow None tree_grow.
Proof. repeat split; vm_compute; reflexivity. Qed.

(** ** The further theorems at concrete inputs *)

Lemma find_slot_spec_witness :
  (forall w, In w [1; 2; 3] -> equiv Z Z.ltb w 3 ->
     exists s, find_slot Z 0 Z.ltb 20 set213 3 = Some s
               /\ live Z 0 20 set213 s
               /\ at_ Z 0 20 set213 s = w
               /\ find Z 0 Z.ltb set213 3 = Some (Some (slot_off 20 s)))
  /\ ((forall w, In w [1; 2; 3] -> ~ equiv Z Z.ltb w 3) ->
        find_slot Z 0 Z.ltb 20 set213 3 = Some 0
        /\ find Z 0 Z.ltb set213 3 = Some end_).
Proof.
  exact (find_slot_spec Z 0 Z.ltb 20 int_less_swo eq_refl set213 3 [1; 2; 3]
           reachable_set213 to_list_set213).
Defined.

Lemma insert_then_find_witness :
  find_slot Z 0 Z.ltb 20 set2137 7 = Some 4
  /\ live Z 0 20 set2137 4
  /\ equiv Z Z.ltb (at_ Z 0 20 set2137 4) 7
  /\ (at_ Z 0 20 set2137 4 = 7 /\ ~ live Z 0 20 set213 4
      /\ size Z set2137 = size Z set213 + 1)
  /\ inserted Z 0 Z.ltb 20 set213 7 = Some (at_ Z 0 20 set2137 4, 4, set2137)
  /\ subscript Z 0 Z.ltb 20 set213 7 = Some (4, set2137).
Proof.
  assert (Hfit : op_fits Z 20 set213 (OInsert 7) = true)
    by (vm_compute; reflexivity).
  assert (Hi : insert Z 0 Z.ltb 20 set213 7 = Some (4, true, set2137))
    by (vm_compute; reflexivity).
  exact (insert_then_find Z 0 Z.ltb 20 int_less_swo eq_refl set213 7 4 true
           set2137 reachable_set213 Hfit Hi).
Defined.

Lemma erase_then_find_witness :
  exists t',
    erase Z 0 Z.ltb set213 2 = Some t'
    /\ find_slot Z 0 Z.ltb 20 t' 2 = Some 0
    /\ to_list Z 0 t' = Some (ref_erase Z Z.ltb 2 [1; 2; 3])
    /\ (forall s, live Z 0 20 set213 s -> ~ equiv Z Z.ltb (at_ Z 0 20 set213 s) 2 ->
          live Z 0 20 t' s /\ at_ Z 0 20 t' s = at_ Z 0 20 set213 s)
    /\ (forall s, live Z 0 20 set213 s -> equiv Z Z.ltb (at_ Z 0 20 set213 s) 2 ->
          ~ live Z 0 20 t' s /\ size Z t' = size Z set213 - 1)
    /\ ((forall w, In w [1; 2; 3] -> ~ equiv Z Z.ltb w 2) -> t' = set213)
    /\ len_ Z (base Z t') = len_ Z (base Z set213)
    /\ capacity_ Z (base Z t') = capacity_ Z (base Z set213).
Proof.
  exact (erase_then_find Z 0 Z.ltb 20 int_less_swo eq_refl set213 2 [1; 2; 3]
           reachable_set213 to_list_set213).
Defined.

Lemma size_is_length_witness :
  exists l,
    to_list Z 0 set_mixed = Some l
    /\ sorted Z Z.ltb l
    /\ size Z set_mixed = Z.of_nat (length l)
    /\ (empty Z set_mixed = true <-> l = [])
    /\ (begin_ Z 0 set_mixed = Some end_ <-> l = [])
    /\ (forall a, begin_ Z 0 set_mixed = Some (Some a) ->
          exists l', l = it_deref Z 0 set_mixed a :: l').
Proof.
  exact (size_is_length Z 0 Z.ltb 20 int_less_swo eq_refl set_mixed
           reachable_set_mixed).
Defined.

Lemma slot_stable_witness :
  live Z 0 20 (int_state (ops213 ++ [OErase 2])) 3
  /\ at_ Z 0 20 (int_state (ops213 ++ [OErase 2])) 3 = at_ Z 0 20 set213 3.
Proof.
  assert (Hfit : op_fits Z 20 set213 (OErase 2) = true)
    by (vm_compute; reflexivity).
  assert (He : exec Z 0 Z.ltb 20 set213 (OErase 2)
               = Some (int_state (ops213 ++ [OErase 2])))
    by (vm_compute; reflexivity).
  assert (Hk : keeps Z 0 Z.ltb 20 set213 (OErase 2) 3).
  { intros [_ H2]. vm_compute in H2. discriminate. }
  exact (slot_stable Z 0 Z.ltb 20 int_less_swo eq_refl set213 (OErase 2)
           (int_state (ops213 ++ [OErase 2])) 3
           reachable_set213 Hfit He (live_set213 3 ltac:(simpl; auto)) Hk).
Defined.

Lemma erase_at_live_witness :
  exists t' l1 l2,
    erase_at Z 0 20 set213 2 = Some t'
    /\ [1; 2; 3] = l1 ++ at_ Z 0 20 set213 2 :: l2
    /\ to_list Z 0 t' = Some (l1 ++ l2)
    /\ size Z t' = size Z set213 - 1
    /\ ~ live Z 0 20 t' 2
    /\ len_ Z (base Z t') = len_ Z (base Z set213)
    /\ capacity_ Z (base Z t') = capacity_ Z (base Z set213)
    /\ (forall v, op_fits Z 20 t' (OInsert v) = true ->
          (forall w, In w (l1 ++ l2) -> ~ equiv Z Z.ltb w v) ->
          exists t'',
            insert Z 0 Z.ltb 20 t' v = Some (2, true, t'')
            /\ len_ Z (base Z t'') = len_ Z (base Z set213)
            /\ capacity_ Z (base Z t'') = capacity_ Z (base Z set213)).
Proof.
  exact (erase_at_live Z 0 Z.ltb 20 int_less_swo eq_refl set213 2 [1; 2; 3]
           reachable_set213 (live_set213 2 ltac:(simpl; auto)) to_list_set213).
Defined.

Lemma reserve_spec_witness :
  (100 + 1) * 20 <= capacity_ Z (base Z (reserve Z 0 20 set213 100))
  /\ capacity_ Z (base Z set213) <= capacity_ Z (base Z (reserve Z 0 20 set213 100))
  /\ len_ Z (base Z (reserve Z 0 20 set213 100)) = len_ Z (base Z set213)
  /\ size Z (reserve Z 0 20 set213 100) = size Z set213
  /\ to_list Z 0 (reserve Z 0 20 set213 100) = to_list Z 0 set213
  /\ (forall p, at_ Z 0 20 (reserve Z 0 20 set213 100) p = at_ Z 0 20 set213 p)
  /\ ((100 + 1) * 20 <= capacity_ Z (base Z set213) ->
        reserve Z 0 20 set213 100 = set213).
Proof.
  assert (H1 : 0 <= 100) by lia.
  assert (H2 : (100 + 1) * 20 <= 2 ^ 31) by (vm_compute; discriminate).
  exact (reserve_spec Z 0 Z.ltb 20 int_less_swo eq_refl set213 100
           reachable_set213 H1 H2).
Defined.

Lemma reserve_no_realloc_witness :
  set_new Z 0 20 4 = reserve Z 0 20 (AvlTree0 Z) 4
  /\ exists t,
       run Z 0 Z.ltb 20 (set_new Z 0 20 4)
         [OInsert 3; OInsert 1; OErase 3; OInsert 2] = Some t
       /\ capacity_ Z (base Z t) = capacity_ Z (base Z (set_new Z 0 20 4))
       /\ (4 + 1) * 20 <= capacity_ Z (base Z t)
       /\ to_list Z 0 t
          = Some (ref_run Z Z.ltb []
                    [OInsert 3; OInsert 1; OErase 3; OInsert 2]).
Proof.
  assert (H1 : 0 < 4) by lia.
  assert (H2 : (4 + 2) * 20 <= 2 ^ 31) by (vm_compute; discriminate).
  assert (H3 : forallb (is_ins_ers Z)
                 [OInsert 3; OInsert 1; OErase 3; OInsert 2] = true)
    by reflexivity.
  assert (H4 : Z.of_nat (length [OInsert 3; OInsert 1; OErase 3; @OInsert Z 2])
               <= 4) by (vm_compute; discriminate).
  exact (reserve_no_realloc Z 0 Z.ltb 20 int_less_swo eq_refl 4 _ H1 H2 H3 H4).
Defined.

Lemma foreach_is_iteration_witness :
  exists l,
    foreach Z 0 set_mixed = Some l
    /\ to_list Z 0 set_mixed = Some l /\ sorted Z Z.ltb l.
Proof.
  exact (foreach_is_iteration Z 0 Z.ltb 20 int_less_swo eq_refl set_mixed
           reachable_set_mixed).
Defined.

Lemma depth_is_logarithmic_witness :
  exists d,
    Depth Z (fuel_of Z (base Z set213)) (buf Z 0 (base Z set213)) (slot_off 20 2)
    = Some d
    /\ 0 <= d
    /\ min_nodes (S (Z.to_nat d)) <= size Z set213
    /\ 2 ^ ((d + 1) / 2) <= size Z set213 + 1.
Proof.
  exact (depth_is_logarithmic Z 0 Z.ltb 20 int_less_swo eq_refl set213 2
           reachable_set213 (live_set213 2 ltac:(simpl; auto))).
Defined.

Lemma iterate_from_find_witness :
  exists it,
    find Z 0 Z.ltb set213 2 = Some it
    /\ (it_bool it = true <-> exists w, In w [1; 2; 3] /\ equiv Z Z.ltb w 2)
    /\ walk Z 0 (fuel_of Z (base Z set213)) set213 it
       = Some (if it_bool it
               then filter (fun x => negb (Z.ltb x 2)) [1; 2; 3]
               else []).
Proof.
  exact (iterate_from_find Z 0 Z.ltb 20 int_less_swo eq_refl set213 2 [1; 2; 3]
           reachable_set213 to_list_set213).
Defined.

Lemma enumerate_live_nodes_witness :
  exists ns,
    Enumerate Z (fuel_of Z (base Z set213)) (buf Z 0 (base Z set213))
      (_Root Z set213) = Some ns
    /\ NoDup ns
    /\ (forall a, In a ns <-> IsEmpty Z (buf Z 0 (base Z set213)) a = false)
    /\ Z.of_nat (length ns) = size Z set213
    /\ last ns 0 = _Root Z set213.
Proof.
  assert (Hr : _Root Z set213 <> 0) by (vm_compute; discriminate).
  exact (enumerate_live_nodes Z 0 Z.ltb 20 int_less_swo eq_refl set213
           reachable_set213 Hr).
Defined.

Lemma rotations_rewire_witness :
  rep Z (_Rotate_LL Z mem_ll 20 40) None
    (Node (Node Leaf 60 1 Dir.None Leaf) 40 2 Dir.None
       (Node (Node Leaf 80 3 Dir.None Leaf) 20 4 Dir.Left Leaf))
  /\ same_but Z (addrs Z tree_ll) mem_ll (_Rotate_LL Z mem_ll 20 40).
Proof.
  exact (proj1 (rotations_rewire Z 0 Z.ltb mem_ll [])
           (Node Leaf 60 1 Dir.None Leaf) 40 2 Dir.None
           (Node Leaf 80 3 Dir.None Leaf) 20 4 Dir.Left Leaf
           wf_tree_ll rep_tree_ll).
Defined.

Lemma add_child_rebalances_witness :
  exists m' t',
    AddChild Z 2 mem213_new 60 80 Dir.Right = Some m'
    /\ rep Z m' None t'
    /\ avl Z t'
    /\ nodes Z t' = [(40, 1); (20, 2); (60, 3); (80, 4)]
    /\ same_but Z (80 :: addrs Z tree213) mem213_new m'
    /\ (forall ro, root Z tree213 = Some ro ->
          root Z t' = Some (ro + parent Z (m' ro))).
Proof.
  assert (Ha : mem213_new 80 = mkNode Z 4 0 0 0 Dir.None)
    by (vm_compute; reflexivity).
  assert (Hn : ~ In 80 (addrs Z tree213))
    by (vm_compute; intuition discriminate).
  assert (Hr : in_range 80) by (split; vm_compute; [discriminate|reflexivity]).
  assert (Hl : (length [FrR (Node Leaf 40 1 Dir.None Leaf) 20 2 Dir.None] < 2)%nat)
    by (simpl; lia).
  exact (add_child_rebalances Z 0 Z.ltb mem213_new (FrR Leaf 60 3 Dir.None)
           [FrR (Node Leaf 40 1 Dir.None Leaf) 20 2 Dir.None] 80 4 2%nat
           wf_tree213 rep_tree213_new avl_tree213 Ha Hn Hr Hl).
Defined.

Lemma erase_node_rebalances_witness :
  exists m' t',
    _EraseNode Z 3 mem213 None (Some 20) = Some (true, root Z t', m')
    /\ rep Z m' None t'
    /\ avl Z t'
    /\ nodes Z t' = [(40, 1); (60, 3)]
    /\ same_but Z (addrs Z tree213) mem213 m'.
Proof.
  assert (Hl : (length (nodes Z tree213) <= 3)%nat) by (simpl; lia).
  exact (erase_node_rebalances Z 0 Z.ltb mem213 []
           (Node Leaf 40 1 Dir.None Leaf) 20 2 Dir.None
           (Node Leaf 60 3 Dir.None Leaf) 3%nat None
           wf_tree213 rep_tree213 avl_tree213 Hl).
Defined.

Lemma rotate_erase_cases_witness :
  exists S',
    rep Z (snd (_Rotate_Erase Z mem_ll 20)) None S'
    /\ same_but Z (addrs Z tree_ll) mem_ll (snd (_Rotate_Erase Z mem_ll 20))
    /\ nodes Z S' = nodes Z tree_ll
    /\ avl Z S'
    /\ (fst (_Rotate_Erase Z mem_ll 20) = None /\ height Z S' = 1 + Z.max 2 0
        \/ fst (_Rotate_Erase Z mem_ll 20) = root Z S'
           /\ height Z S' = Z.max 2 0).
Proof.
  assert (H1 : avl Z (Node (Node Leaf 60 1 Dir.None Leaf) 40 2 Dir.None
                        (Node Leaf 80 3 Dir.None Leaf))) by (repeat split).
  assert (H2 : avl Z (@Leaf Z)) by exact I.
  assert (H3 : imb Z Dir.Left
                 (Node (Node Leaf 60 1 Dir.None Leaf) 40 2 Dir.None
                    (Node Leaf 80 3 Dir.None Leaf)) Leaf) by reflexivity.
  exact (rotate_erase_cases Z 0 Z.ltb mem_ll []
           (Node (Node Leaf 60 1 Dir.None Leaf) 40 2 Dir.None
              (Node Leaf 80 3 Dir.None Leaf)) 20 4 Dir.Left Leaf
           wf_tree_ll rep_tree_ll H1 H2 H3).
Defined.

Lemma rotate_insert_restores_witness :
  exists S',
    rep Z (_Rotate_Insert Z mem_grow 20) None S'
    /\ same_but Z (addrs Z tree_grow) mem_grow (_Rotate_Insert Z mem_grow 20)
    /\ nodes Z S' = nodes Z tree_grow
    /\ avl Z S'
    /\ height Z S' = 1 + Z.max 1 0.
Proof.
  assert (H1 : avl Z (Node (Node Leaf 60 1 Dir.None Leaf) 40 2 Dir.Left Leaf))
    by (repeat split).
  assert (H2 : avl Z (@Leaf Z)) by exact I.
  assert (H3 : tilt_ok Dir.Left 1 0) by reflexivity.
  assert (H4 : grown_ok Z Dir.Left
                 (Node (Node Leaf 60 1 Dir.None Leaf) 40 2 Dir.Left Leaf) Leaf)
    by (left; discriminate).
  exact (rotate_insert_restores Z 0 Z.ltb mem_grow []
           (Node (Node Leaf 60 1 Dir.None Leaf) 40 2 Dir.Left Leaf)
           20 3 Dir.Left Leaf
           wf_tree_grow rep_tree_grow H1 H2 (or_introl eq_refl) H3 H4).
Defined.

Lemma root_of_live_node_witness :
  Root Z (fuel_of Z (base Z set213)) (buf Z 0 (base Z set213)) (slot_off 20 3)
  = Some (_Root Z set213)
  /\ (Branch Z (buf Z 0 (base Z set213)) (slot_off 20 3) = Dir.None
      <-> slot_off 20 3 = _Root Z set213).
Proof.
  exact (root_of_live_node Z 0 Z.ltb 20 int_less_swo eq_refl set213 3
           reachable_set213 (live_set213 3 ltac:(simpl; auto))).
Defined.

Lemma aligned_rounds_up_witness :
  0 <= Aligned 100 < 2 ^ 32
  /\ (16 | Aligned 100)
  /\ (100 + 15 < 2 ^ 32 -> 100 <= Aligned 100 < 100 + 16)
  /\ (2 ^ 32 <= 100 + 15 -> Aligned 100 = 0).
Proof.
  assert (H : 0 <= 100 < 2 ^ 32) by (split; vm_compute; [discriminate|reflexivity]).
  exact (aligned_rounds_up 100 H).
Defined.


Lemma slot_offset_roundtrip_witness :
  (forall s, 0 <= s -> s * 20 < 2 ^ 31 -> ToSlot 20 (slot_off 20 s) = s)
  /\ (forall a, 0 <= a < 2 ^ 31 -> (20 | a) -> slot_off 20 (ToSlot 20 a) = a)
  /\ (forall s, 2 ^ 31 <= s * 20 < 2 ^ 32 -> slot_off 20 s = s * 20 - 2 ^ 32).
Proof.
  exact (slot_offset_roundtrip 20 eq_refl).
Defined.

Lemma at_dead_slot_witness : at_ Z 0 20 set213_less2 2 = 0.
Proof.
  assert (H1 : 0 <= 2) by lia.
  assert (H2 : 2 * 20 < 2 ^ 31) by (vm_compute; reflexivity).
  assert (H3 : 2 * 20 + 20 <= capacity_ Z (base Z set213_less2))
    by (vm_compute; discriminate).
  assert (H4 : ~ live Z 0 20 set213_less2 2).
  { intros (_ & _ & H). vm_compute in H. discriminate. }
  exact (at_dead_slot Z 0 Z.ltb 20 int_less_swo eq_refl set213_less2 2
           reachable_set213_less2 H1 H2 H3 H4).
Defined.

Lemma life_check_counts_witness :
  exists total lcnt mi ma,
    LifeCheck Z 0 set_mixed = Some (total, lcnt, mi, ma)
    /\ total = size Z set_mixed
    /\ (size Z set_mixed = 0 -> lcnt = 0 /\ mi = 0 /\ ma = 0)
    /\ (0 < size Z set_mixed ->
          1 <= lcnt <= total /\ 0 <= mi <= ma
          /\ min_nodes (S (Z.to_nat ma)) <= size Z set_mixed).
Proof.
  exact (life_check_counts Z 0 Z.ltb 20 int_less_swo eq_refl set_mixed
           reachable_set_mixed).
Defined.

Lemma arena_never_shrinks_witness :
  capacity_ Z (base Z set213) <= capacity_ Z (base Z set2137)
  /\ len_ Z (base Z set213) <= len_ Z (base Z set2137).
Proof.
  assert (Hfit : op_fits Z 20 set213 (OInsert 7) = true)
    by (vm_compute; reflexivity).
  assert (He : exec Z 0 Z.ltb 20 set213 (OInsert 7) = Some set2137)
    by (vm_compute; reflexivity).
  assert (Hc : OInsert 7 <> @OClear Z) by discriminate.
  exact (arena_never_shrinks Z 0 Z.ltb 20 int_less_swo eq_refl set213
           (OInsert 7) set2137 reachable_set213 Hfit He Hc).
Defined.

Lemma erased_slots_are_a_stack_witness :
  exists t1 t2 t3 t4,
    erase_at Z 0 20 set213 1 = Some t1
    /\ erase_at Z 0 20 t1 3 = Some t2
    /\ insert Z 0 Z.ltb 20 t2 7 = Some (3, true, t3)
    /\ insert Z 0 Z.ltb 20 t3 9 = Some (1, true, t4)
    /\ len_ Z (base Z t4) = len_ Z (base Z set213)
    /\ size Z t4 = size Z set213.
Proof.
  assert (Hn : 1 <> 3) by lia.
  assert (Hb : len_ Z (base Z set213) + 2 * 20 <= 2 ^ 31)
    by (vm_compute; discriminate).
  assert (H7 : ~ In 7 [1; 2; 3]) by (simpl; lia).
  assert (H9 : ~ In 9 [1; 2; 3]) by (simpl; lia).
  assert (H79 : ~ equiv Z Z.ltb 7 9) by (apply not_equiv_int; lia).
  exact (erased_slots_are_a_stack Z 0 Z.ltb 20 int_less_swo eq_refl set213
           1 3 7 9 [1; 2; 3] reachable_set213
           (live_set213 1 ltac:(simpl; auto)) (live_set213 3 ltac:(simpl; auto))
           Hn to_list_set213 Hb (none_equiv_set213 7 H7)
           (none_equiv_set213 9 H9) H79).
Defined.

Lemma iterator_increment_witness :
  it_next Z 0 set213 None = Some None
  /\ exists i it',
       nth_error [1; 2; 3] i = Some (it_deref Z 0 set213 (slot_off 20 1))
       /\ it_next Z 0 set213 (Some (slot_off 20 1)) = Some it'
       /\ match it' with
          | Some b => nth_error [1; 2; 3] (S i) = Some (it_deref Z 0 set213 b)
                      /\ IsEmpty Z (buf Z 0 (base Z set213)) b = false
          | None => length [1; 2; 3] = S i
          end.
Proof.
  exact (iterator_increment Z 0 Z.ltb 20 int_less_swo eq_refl set213 1 [1; 2; 3]
           reachable_set213 (live_set213 1 ltac:(simpl; auto)) to_list_set213).
Defined.

Lemma insertion_point_is_neighbour_witness :
  exists n d l1 l2,
    _InsertionPointFor Z Z.ltb (fuel_of Z (base Z set213))
      (buf Z 0 (base Z set213)) (_Root Z set213) 7 = Some (n, d)
    /\ IsEmpty Z (buf Z 0 (base Z set213)) n = false
    /\ [1; 2; 3] = l1 ++ payload Z (buf Z 0 (base Z set213) n) :: l2
    /\ Forall (fun x => lt Z Z.ltb x 7) l1
    /\ Forall (lt Z Z.ltb 7) l2
    /\ match d with
       | Dir.None => equiv Z Z.ltb (payload Z (buf Z 0 (base Z set213) n)) 7
       | Dir.Left => lt Z Z.ltb 7 (payload Z (buf Z 0 (base Z set213) n))
                     /\ left Z (buf Z 0 (base Z set213) n) = 0
       | Dir.Right => lt Z Z.ltb (payload Z (buf Z 0 (base Z set213) n)) 7
                      /\ right Z (buf Z 0 (base Z set213) n) = 0
       | Dir.Zero => False
       end.
Proof.
  assert (Hr : _Root Z set213 <> 0) by (vm_compute; discriminate).
  exact (insertion_point_is_neighbour Z 0 Z.ltb 20 int_less_swo eq_refl set213
           7 [1; 2; 3] reachable_set213 to_list_set213 Hr).
Defined.
